(* ===== verification/_CoqProject ===== *)
-Q . S2P
Prelude.v
Strconv.v
GoTime.v
GoStrings.v
Json.v
Api.v
Decision.v
Effects.v
VolumeContext.v
Controller.v
ReconcileProps.v
Sweep.v
Http.v
Extender.v
Dashboard.v
Rbac.v
Scheme.v
Process.v
Manager.v
System.v
RefServer.v
GoHeap.v
DeepCopy.v
Wire.v
Loop.v
Quiesce.v
Deployment.v
Converge.v
Sync.v
MemoryScenarios.v
Scenarios.v
LoopScenarios.v
DeploymentScenarios.v
WireScenarios.v
ReliableScenarios.v
ProcessScenarios.v
SyncScenarios.v
