(* ===== verification/Prelude.v ===== *)
(** * sch-audit: a verified model of the scheduling audit log

    sch-audit records, for every Pod of a Kubernetes cluster, what the scheduler
    decided about it and when. Its parts are four programs over one custom
    resource, [SchedulingDecision]:

    - the controller ([cmd/manager], [controllers]) watches Pods and Events,
      derives a transition (Scheduled, FailedScheduling, Preempted) from them and
      appends it to the status of the Pod's decision;
    - the extender ([cmd/extender]) is called by the scheduler with the candidate
      nodes of a pod and records them as an Event, which the controller reads;
    - the sweep ([cmd/sweep]) deletes the decisions whose expiry label, set by the
      controller, has passed;
    - the dashboard ([cmd/dashboard]) serves the list of decisions.

    They share nothing but the API server: all interaction is by the objects they
    read and write, so a handler is modelled as a program over API calls and the
    whole as an interleaving of such programs. The controller's handler is run by an
    event loop, whose watches and queue decide when; the objects travel as JSON, under
    the tags of their types, and are admitted by a schema and by roles, which the
    source declares in markers.

    ** Files

    - [Prelude]: scopes, tactics, lists, the width of an [int64].
    - [Strconv], [GoTime], [GoStrings]: the parts of Go's [strconv], [time] and
      [strings] in use, with the facts the proofs need ([ParseInt] reads what
      [FormatInt] writes, [Sub] saturates, [Split] undoes [Join], [TrimSpace]).
    - [Api]: the types of [api/v1alpha1] ([schedulingdecision_types.go],
      [labels.go]) and the fields of the core objects that are read.
    - [Decision]: [controllers/decision.go], definition by definition under the
      names of the source; its specification is [supports] (which evidence
      decides) with [transition_reports] and [identity_reports] (what is reported).
    - [Effects]: errors, API calls, the program type [prog], its runs, the
      rely/guarantee logic [wp], the interface [RetryOnError] of [retry.OnError].
    - [VolumeContext]: [controllers/volumecontext.go].
    - [Controller]: [controllers/schedulingdecision_controller.go], from the watch
      functions to [Reconcile]; [ReconcileProps] has its theorems.
    - [Sweep]: [cmd/sweep/main.go]. [Http] (responses, [ServeMux]), [Extender],
      [Dashboard]: the handlers of [cmd/extender/main.go] and
      [cmd/dashboard/main.go].
    - [Rbac]: the permissions of the [+kubebuilder:rbac] markers, the role that is
      generated from them ([config/rbac/role.yaml]) and the requests behind each call.
    - [Scheme]: [groupversion_info.go], the registrations of the API group, and each
      binary's scheme, over the interface [SchemeLib] of apimachinery's registry.
      [Process]: the [main] functions of the sweep, the extender and the
      dashboard; [Manager]: [cmd/manager/main.go] and [SetupWithManager], which leave
      the list of what they asked controller-runtime for.
    - [System]: the interface [ApiServer], the interleaved system as a step relation,
      the abstract audit log and the refinement. [RefServer]: an executable
      server that implements the interface.
    - [GoHeap]: Go's pointers and slices on a heap, [append], and the interface
      [DeepCopyable] between a Go type, the value it stands for and its copying
      function. [DeepCopy]: the API types in memory, the generated functions of
      [zz_generated.deepcopy.go], and the in-place [applyTransition].
    - [Json]: JSON values, the class [Wire] of Go types with their encoding and its
      round trip, struct fields under their tags, structural schemas. [Wire]: the tags
      and the validation markers of [schedulingdecision_types.go], over the interface
      [MetaCodec] of apimachinery's times and metadata.
    - [Loop]: the event loop around [Reconcile]: caches, watches ([SetupWithManager],
      [mapEventToPodRequest], [relevantEventPredicate]), work queue and workers, as a
      step relation [loop_step] over the same [ApiServer]. [Quiesce]: the loop when
      nothing changes and answers are truthful ([calm]), over the interface
      [LiveServer] of servers that can always give such an answer. [Deployment]: the
      loop, the sweeps of the CronJob one at a time, the other clients of the API, and
      one clock ([deploy_step]).
    - [Converge]: the interface [ReliableServer] and the logic of total correctness
      [total]; what the programs achieve on such a server, of which [RefServer] is
      one. [Sync]: the first pass of the controller over all requests.
    - [Scenarios], [MemoryScenarios], [LoopScenarios], [DeploymentScenarios], [WireScenarios],
      [ReliableScenarios], [ProcessScenarios], [SyncScenarios]: concrete clusters,
      heaps, caches, codecs and registries, the handlers run on them, and an instance of
      each theorem that has hypotheses.

    ** Correspondence

    A Go struct is a record with its fields, a pointer an option, a result with an
    error a sum, a lone error an option. [int64] values wrap ([wrap64]). A method
    that calls the API is a [prog]; [ctx] and the receiver's client are implicit.
    [deriveTransition] reads the clock only where the source does: its body is
    written over a monad, run as a [prog] by the reconciler and on values, for
    a given instant, in the specification. Values are immutable except in
    [GoHeap] and [DeepCopy], where a [_m] type is a Go value with its pointers. The
    state of the system is the API server's ([store]) and each running handler's rest
    of program and history ([thread]); the event loop adds the caches, the queued
    requests and the workers ([loop]), the deployment a sweep and a clock
    ([deployment]).

    ** What the theorems show

    - The whole system: every interleaving of reconciles and sweeps, with stale
      reads, failed and lost writes and crashes, refines an append-only audit log
      ([system_refines]), in which a running reconcile makes an empty record or appends
      what it has observed, and a running sweep removes what it has listed as
      expired; histories only grow ([history_append_only]); stored
      records are well formed ([stored_records_wellformed]).
    - The deployment keeps what the program promises: an outcome that a pod and its
      Events show is in its record, or a whole retention window has passed since that
      was made ([outcome_kept_for_window]); no record goes before its expiry
      ([kept_until_expiry]). That takes sweeps one at a time
      ([overlapping_sweeps_delete_unexpired]).
    - The event loop misses nothing: in every reachable state, a request that is neither
      queued nor being processed has the outcome its pod and Events show recorded, at
      the end of the history unless reads lag behind ([idle_requests_settled]). And it
      comes to rest: when changes stop, every run of the loop is finite, and ends with
      nothing queued and every request settled ([loop_comes_to_rest]).
    - On a reliable server the programs also achieve what they are for: a reconcile
      ends with exactly the implied transition recorded ([reconcile_converges]), a
      pass over all pods brings every record up to date, none disturbed by another
      ([sync_converges]), a sweep leaves exactly the records that have not expired
      ([sweep_converges]), and the nodes of a filter request end up in the record, if
      they are there when its outcome is first recorded ([extender_to_record],
      [late_candidates_dropped]).
    - Memory: deep copies share nothing with their originals
      ([deepcopies_independent]), so the reconciler's in-place update of what it
      read from a cache computes what the functional model says and cannot be
      seen in the cache ([append_in_memory_refines]).
    - On the wire: a decision is read back as it was written, but for fractions of
      seconds ([wire_roundtrip]), which is what [ApiServer] assumes of stored statuses
      ([persist_status]); every write passes the schema ([writes_accepted]).
    - Permissions: the markers cover what the programs do, but for the watches of two
      types, and the generated role, which all programs share, grants what the markers
      ask for and nothing else ([roles_cover_calls]).
    - Deriving: [deriveTransition_refines] and its consequences on latest events,
      event order, latencies, outcomes.
    - Reconciling, for every behaviour of the API: which writes it makes, what a nil
      result means, on which answers it fails and on which it does not, that it terminates and within how many calls,
      that it is idempotent on whole-second times.
    - Retention: the label written by the controller is read back exactly by the
      sweep; the sweep deletes expired decisions only, and all of them; its exit
      status.
    - The extender passes on the nodes it was sent, and creates exactly one Event with
      their names; the routes of both servers ([extender_serve_refines],
      [serve_refines]); the dashboard never writes; what the manager's process sets up,
      with which options and in which order ([manager_starts]); when the other
      processes end well ([servers_return]); no client makes a call for a type its
      scheme does not know ([schemes_cover_calls]).
    - Six behaviours that the code probably does not intend are proved as theorems:
      [Reconcile_subsecond_duplicates], [deriveTransition_stale_preemption],
      [isExpired_overflow], [late_candidates_dropped],
      [overlapping_sweeps_delete_unexpired], and in [roles_cover_calls] the
      reads of claims and storage classes that the role does not let the reconciler's
      cache watch.

    ** Bounds and fuel

    No handler needs fuel: [prog] is inductive and every loop of the source is over
    a list or bounded by the retry, whose number of steps is a field of
    [RetryOnError]. [FormatInt] writes at most 20 digits, enough for 64 bits.
    Theorems on instants assume [valid_time], seconds within 2^62 of year 1, or
    [rfc3339], years 1 to 9999; every timestamp the API accepts is of that kind.
    [append] may give a new array any capacity that holds its elements.

    ** Not modelled

    The API server, controller-runtime, HTTP transport and the text of JSON are outside
    the repository: they are parameters, or answers a program gets. Of
    controller-runtime, [Loop] has the documented behaviour of caches, queue and workers,
    with one controller at a time, as leader election sees to; rate limits and delays
    are left out, since steps may come at any time. In [Deployment] all processes read
    one clock, which does not go back. [ObjectMeta] and [ListMeta] copy and
    encode themselves. A nil and an empty slice are one value on the wire as well. What
    a client has received when its connection breaks is not described. Flag
    parsing, the manager's log lines and signal handler, the dashboard's page and its
    script, the manifests under [config] but for the role of the markers, and the test
    helpers are left out. *)

From Stdlib Require Export ZArith Lia Ascii String.
From stdpp Require Export base tactics options numbers strings gmap.
From stdpp Require Export list.

(** ** Scopes and notations *)

Declare Scope audit_scope.
Delimit Scope audit_scope with audit.

(** Go's comparisons of strings, as booleans. *)
Notation "x =?s y" := (bool_decide (@eq string x y))
  (at level 70, no associativity) : audit_scope.
Notation "x <>?s y" := (negb (bool_decide (@eq string x y)))
  (at level 70, no associativity) : audit_scope.

#[global] Open Scope Z_scope.
#[global] Open Scope audit_scope.

(** ** Results of fallible operations *)

(** A Go function that returns [(T, error)]: the error is the left summand. *)
Abbreviation fallible E A := (E + A)%type.

(** ** Automation *)

Create HintDb audit discriminated.
Create Rewrite HintDb audit_spec.
Create Rewrite HintDb sweep_rw.

(** [bool_simpl]: turn the boolean comparisons of the context into
    propositions and reduce the conditionals the context decides. *)
Ltac bool_simpl :=
  repeat match goal with
  | H : bool_decide _ = true |- _ => apply bool_decide_eq_true in H
  | H : bool_decide _ = false |- _ => apply bool_decide_eq_false in H
  | H : negb _ = true |- _ => apply negb_true_iff in H
  | H : negb _ = false |- _ => apply negb_false_iff in H
  | H : _ && _ = true |- _ => apply andb_true_iff in H; destruct H
  | H : (_ <? _) = true |- _ => apply Z.ltb_lt in H
  | H : (_ <? _) = false |- _ => apply Z.ltb_ge in H
  | H : (_ <=? _) = true |- _ => apply Z.leb_le in H
  | H : (_ <=? _) = false |- _ => apply Z.leb_gt in H
  | H : (_ =? _)%Z = true |- _ => apply Z.eqb_eq in H
  | H : (_ =? _)%Z = false |- _ => apply Z.eqb_neq in H
  end.

(** [split_if]: one case per outcome of the outermost conditional of the goal,
    with the tests turned into propositions. *)
Ltac split_if :=
  match goal with
  | |- context [if ?b then _ else _] => destruct b eqn:?; bool_simpl
  end.

(** ** Generic lemmas: lists and options *)

(** The last element of a list extended at its end. *)
Lemma last_snoc_Some {A} (l : list A) (x : A) : last (l ++ [x]) = Some x.
Proof. apply last_snoc. Qed.

(** [adjacent R l]: [R] holds between each element of [l] and its successor. *)
Fixpoint adjacent {A} (R : A -> A -> Prop) (l : list A) : Prop :=
  match l with
  | x :: ((y :: _) as l') => R x y /\ adjacent R l'
  | _ => True
  end.

Lemma adjacent_snoc {A} (R : A -> A -> Prop) (l : list A) (x : A) :
  adjacent R (l ++ [x]) <->
  adjacent R l /\ (forall y, last l = Some y -> R y x).
Proof.
  induction l as [|a [|b l] IH]; simpl in *.
  - naive_solver.
  - naive_solver.
  - rewrite IH. naive_solver.
Qed.

(** [f] tells the elements of [l] apart. *)
Lemma NoDup_fmap_elem {A B} (f : A -> B) (l : list A) (x y : A) :
  NoDup (f <$> l) -> x ∈ l -> y ∈ l -> f x = f y -> x = y.
Proof.
  induction l as [|z l IH]; [by intros _ ?%not_elem_of_nil|].
  rewrite fmap_cons, NoDup_cons, !elem_of_cons. intros [Hz Hl] [->|Hx] [->|Hy] Heq.
  - done.
  - destruct Hz. rewrite Heq. by apply list_elem_of_fmap_2.
  - destruct Hz. rewrite <- Heq. by apply list_elem_of_fmap_2.
  - by apply IH.
Qed.

(** ** Machine integers

    A Go [int64] is an integer of [-2^63, 2^63); an arithmetic operation on
    it wraps modulo [2^64]. *)

Definition int64_min : Z := - 2 ^ 63.
Definition int64_max : Z := 2 ^ 63 - 1.

Definition in_int64 (z : Z) : Prop := int64_min <= z <= int64_max.

Definition wrap64 (z : Z) : Z := (z + 2 ^ 63) mod 2 ^ 64 - 2 ^ 63.

#[global] Instance in_int64_dec z : Decision (in_int64 z).
Proof. unfold in_int64. apply _. Defined.

(** [solve_int64]: arithmetic goals over the bounds of an [int64]. *)
Ltac solve_int64 :=
  unfold in_int64, int64_min, int64_max in *; lia.

Lemma wrap64_id z : in_int64 z -> wrap64 z = z.
Proof. unfold wrap64. intros ?. rewrite Z.mod_small; solve_int64. Qed.

Lemma wrap64_range z : in_int64 (wrap64 z).
Proof.
  unfold wrap64. pose proof (Z.mod_pos_bound (z + 2 ^ 63) (2 ^ 64)). solve_int64.
Qed.

Lemma wrap64_eq z k : wrap64 (z + k * 2 ^ 64) = wrap64 z.
Proof.
  unfold wrap64. replace (z + k * 2 ^ 64 + 2 ^ 63) with (z + 2 ^ 63 + k * 2 ^ 64) by lia.
  by rewrite Z.mod_add.
Qed.

(** A wrapped value differs from its argument by a multiple of [2^64]. *)
Lemma wrap64_spec z : exists k, wrap64 z = z + k * 2 ^ 64.
Proof.
  unfold wrap64. exists (- ((z + 2 ^ 63) / 2 ^ 64)).
  pose proof (Z.div_mod (z + 2 ^ 63) (2 ^ 64)). lia.
Qed.

Lemma wrap64_add_l a b : wrap64 (wrap64 a + b) = wrap64 (a + b).
Proof.
  destruct (wrap64_spec a) as [k ->].
  replace (a + k * 2 ^ 64 + b) with (a + b + k * 2 ^ 64) by lia. apply wrap64_eq.
Qed.

Lemma wrap64_mul_l a b : wrap64 (wrap64 a * b) = wrap64 (a * b).
Proof.
  destruct (wrap64_spec a) as [k ->].
  replace ((a + k * 2 ^ 64) * b) with (a * b + (k * b) * 2 ^ 64) by lia.
  apply wrap64_eq.
Qed.

#[export] Hint Resolve wrap64_range : audit.
