(* ===== verification/Strconv.v ===== *)
(** * Decimal integers: [strconv.FormatInt] and [strconv.ParseInt]

    The controller writes a decision's expiry as a decimal label value and the
    sweep reads it back. Both directions are the base-10, 64-bit cases of Go's
    [strconv]; the parser keeps the byte loop of [ParseUint] with its two
    overflow tests, and is proved equal to a reference reading of a decimal
    numeral as an unbounded integer. *)

From S2P Require Import Prelude.

(** The two causes of a [strconv.NumError]. *)
Inductive num_error := ErrSyntax | ErrRange.

#[global] Instance num_error_eq_dec : EqDecision num_error.
Proof. solve_decision. Defined.

(** ** Formatting *)

Definition digit_char (d : Z) : ascii := ascii_of_N (Z.to_N (48 + d)).

(** Digits are produced from the least significant one; twenty suffice for a
    64-bit magnitude. *)
Fixpoint format_digits (fuel : nat) (u : Z) (acc : string) : string :=
  match fuel with
  | O => acc
  | S f =>
      let acc' := String (digit_char (u mod 10)) acc in
      if u <? 10 then acc' else format_digits f (u / 10) acc'
  end.

Definition FormatInt (i : Z) : string :=
  if i <? 0 then String "-" (format_digits 20 (- i) "")
  else format_digits 20 i "".

(** ** Parsing *)

Definition char_digit (c : ascii) : option Z :=
  let d := Z.of_N (N_of_ascii c) - 48 in
  if (0 <=? d) && (d <=? 9) then Some d else None.

Definition uint64_max : Z := 2 ^ 64 - 1.

(** The byte loop of [ParseUint]: [n] is the value read so far. *)
Fixpoint parse_uint_loop (n : Z) (s : string) : fallible num_error Z :=
  match s with
  | EmptyString => inr n
  | String c s' =>
      match char_digit c with
      | None => inl ErrSyntax
      | Some d =>
          if uint64_max / 10 + 1 <=? n then inl ErrRange
          else
            let n10 := n * 10 in
            let n1 := (n10 + d) mod 2 ^ 64 in
            if (n1 <? n10) || (uint64_max <? n1) then inl ErrRange
            else parse_uint_loop n1 s'
      end
  end.

Definition ParseUint (s : string) : fallible num_error Z :=
  if s =?s "" then inl ErrSyntax else parse_uint_loop 0 s.

(** The sign and the rest of the numeral. *)
Definition split_sign (s : string) : bool * string :=
  match s with
  | String "+" s' => (false, s')
  | String "-" s' => (true, s')
  | _ => (false, s)
  end.

Definition ParseInt (s : string) : fallible num_error Z :=
  if s =?s "" then inl ErrSyntax
  else
    let '(neg, s') := split_sign s in
    match ParseUint s' with
    | inl ErrSyntax => inl ErrSyntax
    | inl ErrRange => inl ErrRange
    | inr un =>
        let cutoff := 2 ^ 63 in
        if negb neg && (cutoff <=? un) then inl ErrRange
        else if neg && (cutoff <? un) then inl ErrRange
        else inr (if neg then - un else un)
    end.

(** ** Reference reading of a numeral *)

Fixpoint decimal_from (n : Z) (s : string) : option Z :=
  match s with
  | EmptyString => Some n
  | String c s' => d ← char_digit c; decimal_from (n * 10 + d) s'
  end.

(** The integer a signed decimal numeral denotes, unbounded. *)
Definition decimal (s : string) : option Z :=
  let '(neg, s') := split_sign s in
  if s' =?s "" then None
  else v ← decimal_from 0 s'; Some (if neg then - v else v).

(** ** Lemmas *)

Lemma char_digit_char d : 0 <= d <= 9 -> char_digit (digit_char d) = Some d.
Proof.
  intros Hd. unfold char_digit, digit_char.
  rewrite N_ascii_embedding by lia.
  replace (Z.of_N (Z.to_N (48 + d)) - 48) with d by lia.
  by rewrite (proj2 (Z.leb_le 0 d)), (proj2 (Z.leb_le d 9)) by lia.
Qed.

Lemma char_digit_range c d : char_digit c = Some d -> 0 <= d <= 9.
Proof. unfold char_digit. intros. repeat case_match; bool_simpl; naive_solver. Qed.

(** The two overflow tests of the loop detect exactly the values beyond
    [uint64_max]. *)
Lemma parse_uint_step n d s :
  0 <= n <= uint64_max -> 0 <= d <= 9 ->
  (if uint64_max / 10 + 1 <=? n then inl ErrRange
   else
     let n10 := n * 10 in
     let n1 := (n10 + d) mod 2 ^ 64 in
     if (n1 <? n10) || (uint64_max <? n1) then inl ErrRange
     else parse_uint_loop n1 s)
  = if n * 10 + d <=? uint64_max then parse_uint_loop (n * 10 + d) s
    else inl ErrRange.
Proof.
  unfold uint64_max. intros Hn Hd.
  change ((2 ^ 64 - 1) / 10 + 1) with 1844674407370955162.
  split_if; [split_if; [lia|done]|]. cbn zeta.
  destruct (decide (n * 10 + d < 2 ^ 64)) as [Hlt|Hge].
  - rewrite Z.mod_small by lia.
    rewrite (proj2 (Z.ltb_ge _ _)), (proj2 (Z.ltb_ge (2 ^ 64 - 1) _)) by lia.
    by rewrite (proj2 (Z.leb_le _ _)) by lia.
  - replace ((n * 10 + d) mod 2 ^ 64) with (n * 10 + d - 2 ^ 64).
    2: { apply (Z.mod_unique _ _ 1); lia. }
    rewrite (proj2 (Z.ltb_lt (n * 10 + d - 2 ^ 64) _)) by lia. simpl.
    by rewrite (proj2 (Z.leb_gt _ _)) by lia.
Qed.

Lemma decimal_from_mono n s v : 0 <= n -> decimal_from n s = Some v -> n <= v.
Proof.
  revert n. induction s as [|c s IH]; intros n Hn Hs; simpl in *; [naive_solver|].
  apply bind_Some in Hs as (d & Hd & Hs). apply char_digit_range in Hd.
  apply IH in Hs; lia.
Qed.

(** The loop agrees with the reference reading wherever it succeeds, and it
    succeeds whenever the reference reading fits in 64 bits. *)
Lemma parse_uint_loop_spec n s v :
  0 <= n <= uint64_max ->
  parse_uint_loop n s = inr v <-> decimal_from n s = Some v /\ v <= uint64_max.
Proof.
  revert n. induction s as [|c s IH]; intros n Hn; simpl; [naive_solver lia|].
  destruct (char_digit c) as [d|] eqn:Hd; simpl; [|naive_solver].
  pose proof (char_digit_range _ _ Hd).
  rewrite parse_uint_step by done. split_if.
  - apply IH. lia.
  - split; [done|]. intros [Hs Hv]. apply decimal_from_mono in Hs; lia.
Qed.

(** Characterisation of the parser: it returns [v] exactly when the numeral
    denotes [v] and [v] fits in an [int64]. *)
Lemma ParseInt_decimal s v :
  ParseInt s = inr v <-> decimal s = Some v /\ in_int64 v.
Proof.
  unfold ParseInt, decimal, ParseUint.
  destruct (bool_decide (s = "")) eqn:Hs; bool_simpl.
  { subst. simpl. naive_solver. }
  destruct (split_sign s) as [neg s'].
  destruct (bool_decide (s' = "")) eqn:Hs'; [naive_solver|].
  destruct (parse_uint_loop 0 s') as [e|un] eqn:Hl.
  - split; [by destruct e|]. intros [(w & Hw & Hv)%bind_Some Hr]. exfalso.
    enough (parse_uint_loop 0 s' = inr w) by congruence.
    apply parse_uint_loop_spec; [unfold uint64_max; lia|].
    split; [done|]. destruct neg; simplify_eq; unfold uint64_max; solve_int64.
  - apply parse_uint_loop_spec in Hl as [Hl Hle]; [|unfold uint64_max; lia].
    pose proof (decimal_from_mono 0 s' un ltac:(lia) Hl).
    rewrite Hl. destruct neg; simpl; split_if; split.
    all: intros Hv; simplify_eq; try (destruct Hv as [Hv ?]; simplify_eq).
    all: solve [done | exfalso; solve_int64 | split; [done|solve_int64]].
Qed.

Lemma parse_format_loop fuel u acc :
  0 <= u <= uint64_max -> u < 10 ^ Z.of_nat fuel ->
  parse_uint_loop 0 (format_digits fuel u acc) =
  parse_uint_loop u acc.
Proof.
  revert u acc. induction fuel as [|f IH]; intros u acc Hu Hf.
  { simpl in *. by replace u with 0 by lia. }
  cbn [format_digits]. pose proof (Z.mod_pos_bound u 10).
  pose proof (Z.div_mod u 10). split_if.
  - rewrite Z.mod_small by lia. cbn [parse_uint_loop].
    rewrite char_digit_char by lia.
    rewrite parse_uint_step by (unfold uint64_max; lia).
    by rewrite (proj2 (Z.leb_le _ _)) by lia.
  - rewrite Nat2Z.inj_succ, Z.pow_succ_r in Hf by lia.
    rewrite IH by lia. cbn [parse_uint_loop]. rewrite char_digit_char by lia.
    rewrite parse_uint_step by lia.
    replace (u / 10 * 10 + u mod 10) with u by lia.
    by rewrite (proj2 (Z.leb_le _ _)) by lia.
Qed.

Lemma format_digits_nonempty fuel u acc :
  format_digits (S fuel) u acc <> ""%string.
Proof.
  revert u acc. induction fuel as [|f IH]; intros u acc; simpl in *; [by case_match|].
  case_match; [done|]. apply IH.
Qed.

(** The leading byte of a magnitude is not a sign. *)
Lemma split_sign_format fuel u :
  0 <= u -> split_sign (format_digits (S fuel) u "") =
            (false, format_digits (S fuel) u "").
Proof.
  intros Hu.
  assert (forall acc, exists d acc', 0 <= d <= 9 /\
    format_digits (S fuel) u acc = String (digit_char d) acc') as Hd.
  { clear -Hu. revert u Hu. induction fuel as [|f IH]; intros u Hu acc;
      pose proof (Z.mod_pos_bound u 10); cbn [format_digits] in *.
    - exists (u mod 10), acc. split; [lia|]. by case_match.
    - split_if; [exists (u mod 10), acc; split; [lia|done]|].
      apply IH. apply Z.div_pos; lia. }
  destruct (Hd "") as (d & acc' & Hd' & ->).
  assert (d = 0 \/ d = 1 \/ d = 2 \/ d = 3 \/ d = 4 \/ d = 5 \/ d = 6 \/ d = 7
          \/ d = 8 \/ d = 9) by lia.
  by destruct_or?; subst.
Qed.

(** Reading back a formatted [int64]. *)
Lemma ParseInt_FormatInt i : in_int64 i -> ParseInt (FormatInt i) = inr i.
Proof.
  intros Hi. unfold FormatInt.
  assert (forall u, 0 <= u <= 2 ^ 63 ->
    ParseUint (format_digits 20 u "") = inr u) as HU.
  { intros u Hu. unfold ParseUint.
    rewrite bool_decide_eq_false_2 by apply format_digits_nonempty.
    rewrite parse_format_loop; [done|unfold uint64_max; lia|].
    change (10 ^ Z.of_nat 20) with 100000000000000000000. lia. }
  unfold ParseInt. destruct (i <? 0) eqn:Hneg; bool_simpl.
  - rewrite bool_decide_eq_false_2 by done. cbn [split_sign].
    rewrite HU by solve_int64. simpl. split_if; [solve_int64|]. f_equal. lia.
  - rewrite bool_decide_eq_false_2 by apply format_digits_nonempty.
    rewrite split_sign_format by lia. rewrite HU by solve_int64. simpl.
    split_if; [solve_int64|done].
Qed.
