(* ===== verification/GoTime.v ===== *)
(** * Instants and durations: the part of Go's [time] package in use

    An instant is what [time.Time] keeps of the wall clock: the seconds since
    January 1, year 1 (UTC), an [int64], and the nanoseconds within the second.
    Every instant the program compares, subtracts or stores comes from an API
    object, whose decoded timestamps carry no monotonic reading, or is compared
    with one; the monotonic reading of [time.Now] therefore never decides a
    result and is not kept. [metav1.Time] and [metav1.MicroTime] wrap a
    [time.Time] and are modelled by it. A [time.Duration] is an [int64] count of
    nanoseconds. Overflow is kept: [Add] saturates and [Sub] checks its result
    as the library's do, and [time.Unix] wraps. *)

From S2P Require Import Prelude.

Record Time := MkTime { sec : Z; nsec : Z }.

#[global] Instance Time_eq_dec : EqDecision Time.
Proof. solve_decision. Defined.

Abbreviation Duration := Z (only parsing).

Definition Nanosecond : Duration := 1.
Definition Second : Duration := 10 ^ 9.
Definition Hour : Duration := 3600 * Second.

Definition Time_zero : Time := MkTime 0 0.

Definition IsZero (t : Time) : bool := (sec t =? 0) && (nsec t =? 0).

Definition After (t u : Time) : bool :=
  (sec u <? sec t) || (sec t =? sec u) && (nsec u <? nsec t).

Definition Before (t u : Time) : bool :=
  (sec t <? sec u) || (sec t =? sec u) && (nsec t <? nsec u).

Definition Equal (t u : Time) : bool :=
  (sec t =? sec u) && (nsec t =? nsec u).

(** [addSec]: add to the seconds, saturating instead of overflowing. *)
Definition addSec (s d : Z) : Z :=
  let sum := wrap64 (s + d) in
  if Bool.eqb (s <? sum) (0 <? d) then sum
  else if 0 <? d then int64_max else - int64_max.

Definition Add (t : Time) (d : Duration) : Time :=
  let dsec := d ÷ Second in
  let ns := nsec t + Z.rem d Second in
  let '(dsec, ns) :=
    if Second <=? ns then (dsec + 1, ns - Second)
    else if ns <? 0 then (dsec - 1, ns + Second)
    else (dsec, ns) in
  MkTime (addSec (sec t) dsec) ns.

Definition Sub (t u : Time) : Duration :=
  let d := wrap64 (wrap64 (wrap64 (sec t - sec u) * Second) + (nsec t - nsec u)) in
  if Equal (Add u d) t then d
  else if Before t u then int64_min
  else int64_max.

Definition Milliseconds (d : Duration) : Z := d ÷ 10 ^ 6.

(** Seconds between year 1 and the Unix epoch. *)
Definition unixToInternal : Z := 62135596800.

(** [t.Unix()] and [time.Unix(s, 0)]. *)
Definition Time_Unix (t : Time) : Z := wrap64 (sec t - unixToInternal).
Definition Unix (s : Z) : Time := MkTime (wrap64 (s + unixToInternal)) 0.

(** ** Instants as integers *)

(** Nanoseconds since year 1. *)
Definition instant (t : Time) : Z := sec t * Second + nsec t.

(** An instant the library represents without saturation: the nanoseconds are
    normalised and the seconds leave room for any duration. All RFC 3339
    timestamps (years 0 to 9999) are far inside. *)
Definition valid_time (t : Time) : Prop :=
  - 2 ^ 62 <= sec t <= 2 ^ 62 /\ 0 <= nsec t < Second.

#[global] Instance valid_time_dec t : Decision (valid_time t).
Proof. unfold valid_time. apply _. Defined.

(** An instant of the RFC 3339 range: years 1 to 9999. *)
Definition rfc3339 (t : Time) : Prop :=
  0 <= sec t < 315537897600 /\ 0 <= nsec t < Second.

#[global] Instance rfc3339_dec t : Decision (rfc3339 t).
Proof. unfold rfc3339. apply _. Defined.

(** Clamp an integer to the range of an [int64]. *)
Definition clamp64 (z : Z) : Z := Z.max int64_min (Z.min int64_max z).

Ltac solve_time :=
  unfold valid_time, instant, Second, Hour, unixToInternal, clamp64 in *;
  cbn [sec nsec] in *; solve_int64.

Lemma clamp64_id z : in_int64 z -> clamp64 z = z.
Proof. solve_time. Qed.

Lemma rfc3339_valid t : rfc3339 t -> valid_time t.
Proof. unfold rfc3339, valid_time. unfold Second. lia. Qed.

Lemma valid_time_zero : valid_time Time_zero.
Proof. unfold Time_zero. solve_time. Qed.

(** Comparisons are comparisons of instants. *)
Lemma After_spec t u :
  valid_time t -> valid_time u -> After t u = bool_decide (instant u < instant t).
Proof.
  intros Ht Hu. unfold After. apply eq_bool_prop_intro.
  rewrite bool_decide_spec, orb_True, andb_True, !Is_true_true, !Z.ltb_lt, Z.eqb_eq.
  solve_time.
Qed.

Lemma Before_After t u : Before t u = After u t.
Proof. unfold Before, After. by rewrite (Z.eqb_sym (sec t)). Qed.

Lemma Equal_spec t u : Equal t u = true <-> t = u.
Proof.
  unfold Equal. rewrite andb_true_iff, !Z.eqb_eq.
  destruct t, u; simpl. naive_solver.
Qed.

Lemma Equal_refl t : Equal t t = true.
Proof. by apply Equal_spec. Qed.

Lemma IsZero_spec t : IsZero t = true <-> t = Time_zero.
Proof.
  unfold IsZero, Time_zero. rewrite andb_true_iff, !Z.eqb_eq.
  destruct t; simpl. naive_solver.
Qed.

Lemma instant_inj t u :
  valid_time t -> valid_time u -> instant t = instant u -> t = u.
Proof.
  destruct t as [s n], u as [s' n']. intros Ht Hu He.
  assert (s = s' /\ n = n') as [-> ->]; [solve_time|done].
Qed.

#[export] Hint Resolve Equal_refl valid_time_zero : audit.

(** ** Addition and subtraction *)

Lemma addSec_exact s d : in_int64 (s + d) -> addSec s d = s + d.
Proof.
  intros H. unfold addSec. rewrite wrap64_id by done.
  destruct (s <? s + d) eqn:E1, (0 <? d) eqn:E2; simpl; bool_simpl; lia.
Qed.

(** Below saturation, [Add] adds the duration to the instant. *)
Lemma Add_valid t d :
  valid_time t -> in_int64 d ->
  instant (Add t d) = instant t + d /\ 0 <= nsec (Add t d) < Second /\
  - 2 ^ 62 - 2 ^ 34 <= sec (Add t d) <= 2 ^ 62 + 2 ^ 34.
Proof.
  intros Ht Hd. unfold Add.
  pose proof (Z.quot_rem' d Second) as Hqr.
  pose proof (Z.rem_bound_abs d Second ltac:(done)) as Hr.
  assert (Z.abs (Z.rem d Second) < Second) as Hr' by (unfold Second in *; lia).
  assert (- 9223372037 <= d ÷ Second <= 9223372037) as Hq
    by (unfold Second in *; solve_int64).
  destruct (Second <=? nsec t + Z.rem d Second) eqn:E1;
    [|destruct (nsec t + Z.rem d Second <? 0) eqn:E2]; bool_simpl;
    rewrite addSec_exact by solve_time; unfold instant; cbn [sec nsec];
    unfold Second in *; solve_time.
Qed.

(** [Sub] is the difference of the instants, saturated to an [int64]: its
    overflow check never mistakes a wrapped difference for an exact one. *)
Lemma Sub_clamp t u :
  valid_time t -> valid_time u -> Sub t u = clamp64 (instant t - instant u).
Proof.
  intros Ht Hu. unfold Sub.
  rewrite wrap64_mul_l, wrap64_add_l.
  replace ((sec t - sec u) * Second + (nsec t - nsec u))
    with (instant t - instant u) by (unfold instant; lia).
  pose proof (wrap64_range (instant t - instant u)) as Hw.
  destruct (Add_valid u _ Hu Hw) as (Hadd & Hn & _).
  destruct (Equal _ _) eqn:He.
  - apply Equal_spec in He. rewrite He in Hadd.
    replace (instant t - instant u) with (wrap64 (instant t - instant u)) at 2 by lia.
    by rewrite clamp64_id.
  - assert (~ in_int64 (instant t - instant u)) as Hout.
    { intros Hin. rewrite wrap64_id in * by done.
      apply not_true_iff_false in He. apply He, Equal_spec.
      destruct (Add u _) as [s n], t as [s' n']. cbn [sec nsec] in *.
      assert (s = s' /\ n = n') as [-> ->]; [solve_time|done]. }
    rewrite Before_After, After_spec by done.
    case_bool_decide; solve_time.
Qed.

Lemma Sub_range t u : valid_time t -> valid_time u -> in_int64 (Sub t u).
Proof. intros. rewrite Sub_clamp by done. solve_time. Qed.

(** ** Unix seconds *)

Lemma Time_Unix_Unix s :
  in_int64 s -> in_int64 (s + unixToInternal) -> Time_Unix (Unix s) = s.
Proof.
  intros. unfold Time_Unix, Unix. cbn [sec]. rewrite (wrap64_id (s + _)) by done.
  rewrite Z.add_simpl_r. by apply wrap64_id.
Qed.
