(* ===== verification/GoStrings.v ===== *)
(** * Byte strings: [strings.Split], [strings.Join] and [strings.TrimSpace]

    A Go string is a sequence of bytes, here a [string] of 8-bit characters.
    [TrimSpace] removes Unicode white space, so it is defined on the UTF-8
    encodings of the code points [unicode.IsSpace] accepts: six ASCII bytes,
    U+0085 and U+00A0 (two bytes), and U+1680, U+2000..U+200A, U+2028, U+2029,
    U+202F, U+205F and U+3000 (three bytes). *)

From S2P Require Import Prelude.

(** ** Splitting and joining *)

(** [strings.Split(s, sep)] for a one-byte separator. *)
Fixpoint Split (s : string) (sep : ascii) : list string :=
  match s with
  | EmptyString => [""]
  | String c s' =>
      if bool_decide (c = sep) then "" :: Split s' sep
      else match Split s' sep with
           | p :: ps => String c p :: ps
           | [] => [String c ""]
           end
  end.

(** [strings.Join(elems, sep)]. *)
Fixpoint Join (elems : list string) (sep : string) : string :=
  match elems with
  | [] => ""
  | [e] => e
  | e :: es => e +:+ sep +:+ Join es sep
  end.

(** The byte [c] occurs in [s]. *)
Fixpoint has_byte (c : ascii) (s : string) : bool :=
  match s with
  | EmptyString => false
  | String c' s' => bool_decide (c' = c) || has_byte c s'
  end.

(** ** Trimming white space *)

Definition byte_val (c : ascii) : Z := Z.of_N (N_of_ascii c).

(** One-, two- and three-byte encodings of a space, first byte first. *)
Definition space1 (a : ascii) : bool :=
  let a := byte_val a in ((9 <=? a) && (a <=? 13)) || (a =? 32).

Definition space2 (a b : ascii) : bool :=
  (byte_val a =? 194) && ((byte_val b =? 133) || (byte_val b =? 160)).

Definition space3 (a b c : ascii) : bool :=
  let a := byte_val a in let b := byte_val b in let c := byte_val c in
  ((a =? 225) && (b =? 154) && (c =? 128))
  || ((a =? 226) && (b =? 128) &&
      (((128 <=? c) && (c <=? 138)) || (c =? 168) || (c =? 169) || (c =? 175)))
  || ((a =? 226) && (b =? 129) && (c =? 159))
  || ((a =? 227) && (b =? 128) && (c =? 128)).

(** Drop the spaces at the front of a byte list, given the tests for the two-
    and three-byte encodings as they read from the front. *)
Fixpoint trim_front (sp2 : ascii -> ascii -> bool)
    (sp3 : ascii -> ascii -> ascii -> bool) (l : list ascii) : list ascii :=
  match l with
  | [] => []
  | a :: l1 =>
      if space1 a then trim_front sp2 sp3 l1
      else match l1 with
           | [] => l
           | b :: l2 =>
               if sp2 a b then trim_front sp2 sp3 l2
               else match l2 with
                    | [] => l
                    | c :: l3 => if sp3 a b c then trim_front sp2 sp3 l3 else l
                    end
           end
  end.

Definition trim_left : list ascii -> list ascii := trim_front space2 space3.

(** The spaces at the end, read backwards. *)
Definition trim_right (l : list ascii) : list ascii :=
  rev (trim_front (fun b a => space2 a b) (fun c b a => space3 a b c) (rev l)).

Definition TrimSpace (s : string) : string :=
  string_of_list_ascii (trim_right (trim_left (list_ascii_of_string s))).

(** ** Lemmas: splitting undoes joining *)

Lemma Split_nonempty s sep : Split s sep <> [].
Proof. destruct s; simpl; [done|]. repeat case_match; done. Qed.

Lemma Split_no_sep s sep : has_byte sep s = false -> Split s sep = [s].
Proof.
  induction s as [|c s IH]; simpl; [done|].
  intros [Hc Hs]%orb_false_iff. rewrite Hc. by rewrite IH.
Qed.

Lemma Split_app_sep s sep t :
  Split (s +:+ String sep "" +:+ t) sep = Split s sep ++ Split t sep.
Proof.
  induction s as [|c s IH]; simpl.
  { by rewrite bool_decide_eq_true_2. }
  case_bool_decide; [by rewrite IH|]. rewrite IH.
  destruct (Split s sep) eqn:E; [by apply Split_nonempty in E|done].
Qed.

(** Splitting a joined list splits each of its elements. *)
Lemma Split_Join l sep :
  l <> [] -> Split (Join l (String sep "")) sep = l ≫= fun e => Split e sep.
Proof.
  induction l as [|e [|e' l] IH]; intros Hl; [done| |].
  - simpl. by rewrite app_nil_r.
  - change (Join (e :: e' :: l) (String sep ""))
      with (e +:+ String sep "" +:+ Join (e' :: l) (String sep "")).
    rewrite Split_app_sep, IH by done. done.
Qed.

Lemma Split_Join_id l sep :
  l <> [] -> Forall (fun e => has_byte sep e = false) l ->
  Split (Join l (String sep "")) sep = l.
Proof.
  intros Hl Hsep. rewrite Split_Join by done. clear Hl.
  induction Hsep as [|e l He _ IH]; [done|]. csimpl. by rewrite Split_no_sep, IH.
Qed.

Lemma Split_has_byte s sep : Forall (fun e => has_byte sep e = false) (Split s sep).
Proof.
  induction s as [|c s IH]; simpl; [by repeat constructor|].
  case_bool_decide as Hc; [by constructor|].
  destruct (Split s sep); inversion IH; subst; repeat constructor; simpl;
    try apply orb_false_iff; rewrite ?bool_decide_eq_false; done.
Qed.

(** ** Lemmas: trimming *)

(** The list starts with the encoding of a space. *)
Definition front_space (sp2 : ascii -> ascii -> bool)
    (sp3 : ascii -> ascii -> ascii -> bool) (l : list ascii) : bool :=
  match l with
  | [] => false
  | a :: l1 => space1 a || match l1 with
    | [] => false
    | b :: l2 => sp2 a b || match l2 with
      | [] => false
      | c :: _ => sp3 a b c
      end
    end
  end.

Section trim.
Context (sp2 : ascii -> ascii -> bool) (sp3 : ascii -> ascii -> ascii -> bool).

Lemma trim_front_id l : front_space sp2 sp3 l = false -> trim_front sp2 sp3 l = l.
Proof.
  destruct l as [|a [|b [|c l]]]; simpl; intros; repeat case_match; done.
Qed.

(** [trim_front] removes a prefix and leaves no space at the front. *)
Lemma trim_front_spec l :
  (exists pre, l = pre ++ trim_front sp2 sp3 l) /\
  front_space sp2 sp3 (trim_front sp2 sp3 l) = false.
Proof.
  induction l as [l IH] using (induction_ltof1 _ length). unfold ltof in IH.
  destruct l as [|a l1]; simpl; [by split; [exists []|]|].
  destruct (space1 a) eqn:E1.
  { destruct (IH l1 ltac:(simpl; lia)) as [[pre Hpre] ?]. split; [|done].
    exists (a :: pre). simpl. by rewrite Hpre at 1. }
  destruct l1 as [|b l2]; [split; [by exists []|by simpl; rewrite E1]|].
  destruct (sp2 a b) eqn:E2.
  { destruct (IH l2 ltac:(simpl; lia)) as [[pre Hpre] ?]. split; [|done].
    exists (a :: b :: pre). simpl. by rewrite Hpre at 1. }
  destruct l2 as [|c l3]; [split; [by exists []|by simpl; rewrite E1, E2]|].
  destruct (sp3 a b c) eqn:E3.
  { destruct (IH l3 ltac:(simpl; lia)) as [[pre Hpre] ?]. split; [|done].
    exists (a :: b :: c :: pre). simpl. by rewrite Hpre at 1. }
  split; [by exists []|]. simpl. by rewrite E1, E2, E3.
Qed.

(** A prefix of a list that does not start with a space does not either. *)
Lemma front_space_prefix l k :
  front_space sp2 sp3 (l ++ k) = false -> front_space sp2 sp3 l = false.
Proof.
  destruct l as [|a [|b [|c l]]]; simpl; try done;
    rewrite ?orb_false_iff; naive_solver.
Qed.
End trim.

(** [l] carries no white space at either end. *)
Definition trimmed (l : list ascii) : Prop :=
  front_space space2 space3 l = false /\
  front_space (fun b a => space2 a b) (fun c b a => space3 a b c) (rev l) = false.

Lemma trimmed_id l : trimmed l -> trim_right (trim_left l) = l.
Proof.
  intros [H1 H2]. unfold trim_left, trim_right.
  rewrite (trim_front_id _ _ l) by done. rewrite trim_front_id by done.
  apply rev_involutive.
Qed.

Lemma trim_trimmed l : trimmed (trim_right (trim_left l)).
Proof.
  destruct (trim_front_spec space2 space3 l) as [_ Hl].
  fold (trim_left l) in Hl. unfold trim_right.
  destruct (trim_front_spec (fun b a => space2 a b) (fun c b a => space3 a b c)
    (rev (trim_left l))) as [[pre Hpre] Hr].
  split; [|by rewrite rev_involutive].
  apply (front_space_prefix _ _ _ (rev pre)). rewrite <- rev_app_distr, <- Hpre.
  by rewrite rev_involutive.
Qed.

Lemma trim_sublist l :
  exists pre post, l = pre ++ trim_right (trim_left l) ++ post.
Proof.
  destruct (trim_front_spec space2 space3 l) as [[pre Hpre] _].
  fold (trim_left l) in Hpre. unfold trim_right.
  destruct (trim_front_spec (fun b a => space2 a b) (fun c b a => space3 a b c)
    (rev (trim_left l))) as [[post Hpost] _].
  exists pre, (rev post). rewrite <- rev_app_distr, <- Hpost.
  by rewrite rev_involutive.
Qed.

(** Trimming is idempotent. *)
Lemma TrimSpace_idemp s : TrimSpace (TrimSpace s) = TrimSpace s.
Proof.
  unfold TrimSpace. rewrite list_ascii_of_string_of_list_ascii.
  by rewrite (trimmed_id (trim_right _)) by apply trim_trimmed.
Qed.

Lemma TrimSpace_trimmed s : trimmed (list_ascii_of_string s) -> TrimSpace s = s.
Proof.
  intros H. unfold TrimSpace. rewrite trimmed_id by done.
  apply string_of_list_ascii_of_string.
Qed.

Lemma has_byte_list c s : has_byte c s = bool_decide (c ∈ list_ascii_of_string s).
Proof.
  induction s as [|c' s IH]; simpl;
    [done|].
  rewrite IH. apply eq_bool_prop_intro.
  rewrite orb_True, !bool_decide_spec, elem_of_cons. naive_solver.
Qed.

(** Trimming keeps only bytes of its argument. *)
Lemma TrimSpace_has_byte c s : has_byte c s = false -> has_byte c (TrimSpace s) = false.
Proof.
  rewrite !has_byte_list, !bool_decide_eq_false. unfold TrimSpace.
  rewrite list_ascii_of_string_of_list_ascii.
  destruct (trim_sublist (list_ascii_of_string s)) as (pre & post & Hs).
  rewrite Hs at 1. set_solver.
Qed.

(** ** Node names

    Kubernetes object names are DNS subdomains: lower-case letters, digits, [-]
    and [.]. Such a name survives the comma-separated encoding. *)

Definition dns_char (c : ascii) : bool :=
  let v := byte_val c in
  ((97 <=? v) && (v <=? 122)) || ((48 <=? v) && (v <=? 57)) || (v =? 45) || (v =? 46).

Definition dns_name (s : string) : bool :=
  negb (bool_decide (s = "")) && forallb dns_char (list_ascii_of_string s).

Lemma dns_char_ascii a : dns_char a = true -> 45 <= byte_val a <= 122.
Proof.
  unfold dns_char. rewrite !orb_true_iff, !andb_true_iff, !Z.leb_le, !Z.eqb_eq. lia.
Qed.

(** No space encoding starts or ends with a byte of a name. *)
Lemma dns_char_no_space a :
  dns_char a = true ->
  space1 a = false /\ (forall b, space2 a b = false /\ space2 b a = false) /\
  (forall b c, space3 a b c = false /\ space3 c b a = false).
Proof.
  intros Ha%dns_char_ascii. unfold space1, space2, space3. cbv zeta.
  assert (forall n, (n < 45 \/ 122 < n) -> (byte_val a =? n) = false) as Hne
    by (intros; apply Z.eqb_neq; lia).
  rewrite !Hne by lia.
  rewrite (proj2 (Z.leb_gt (byte_val a) 13)), (proj2 (Z.leb_gt 128 (byte_val a)))
    by lia.
  split_and!; intros; split_and?; rewrite ?andb_false_r; done.
Qed.

Lemma dns_front_space sp2 sp3 l :
  (forall a, dns_char a = true -> space1 a = false /\ (forall b, sp2 a b = false) /\
    (forall b c, sp3 a b c = false)) ->
  forallb dns_char l = true -> front_space sp2 sp3 l = false.
Proof.
  intros Hc Hl. destruct l as [|a l]; [done|]. simpl in *.
  apply andb_true_iff in Hl as [Ha _]. destruct (Hc a Ha) as (H1 & H2 & H3).
  rewrite H1. destruct l as [|b [|c l]]; simpl; rewrite ?H2, ?H3; done.
Qed.

Lemma dns_name_trimmed s : dns_name s = true -> TrimSpace s = s.
Proof.
  unfold dns_name. rewrite andb_true_iff. intros [_ Hs].
  apply TrimSpace_trimmed. split; apply dns_front_space; try done.
  - intros a Ha%dns_char_no_space. naive_solver.
  - intros a Ha%dns_char_no_space. naive_solver.
  - rewrite forallb_forall in *. intros a Ha. apply Hs. by apply in_rev.
Qed.

Lemma dns_name_no_comma s : dns_name s = true -> has_byte "," s = false.
Proof.
  unfold dns_name. rewrite andb_true_iff, forallb_forall. intros [_ Hs].
  rewrite has_byte_list. apply bool_decide_eq_false. intros Hin.
  by apply list_elem_of_In, Hs in Hin.
Qed.

Lemma dns_name_nonempty s : dns_name s = true -> s <> ""%string.
Proof. unfold dns_name. intros ?. bool_simpl. done. Qed.
