(* ===== verification/Json.v ===== *)
(** * JSON values, struct tags and schemas

    The API server and the clients exchange objects as JSON. This file has JSON
    values (their text is left to the library), what [encoding/json] makes of a
    struct field under its tag, as a class of Go types, [Wire], with the round trip
    as its law, and the structural schemas that custom resources are validated
    against. *)

From S2P Require Import Prelude.

(** ** Values *)

Inductive json :=
  | JNull
  | JBool (b : bool)
  | JNum (n : Z)
  | JString (s : string)
  | JArray (items : list json)
  | JObject (members : list (string * json)).

Abbreviation members := (list (string * json)) (only parsing).

(** The member of a name; of several, the last. *)
Fixpoint get_member (name : string) (ms : members) : option json :=
  match ms with
  | [] => None
  | (n, v) :: ms' =>
      match get_member name ms' with
      | Some v' => Some v'
      | None => if n =?s name then Some v else None
      end
  end.

(** ** Go types on the wire *)

(** A type with its encoding. [is_empty] is what the tag [omitempty] omits, [is_zero]
    what [omitzero] omits; [on_wire] tells which values can be encoded, and [persisted]
    what is read back. Decoding null leaves the zero value in place. *)
Class Wire (A : Type) := {
  to_json : A -> json;
  of_json : json -> option A;
  zero_value : A;
  is_empty : A -> bool;
  is_zero : A -> bool;
  on_wire : A -> Prop;
  persisted : A -> A;
  of_json_null : of_json JNull = Some zero_value;
  of_to_json a : on_wire a -> of_json (to_json a) = Some (persisted a);
  omitted_zero a : is_empty a = true \/ is_zero a = true -> persisted a = zero_value;
}.
#[global] Hint Mode Wire ! : typeclass_instances.

(** Types whose values are never encoded as null. *)
Class NeverNull (A : Type) `{!Wire A} := to_json_not_null (a : A) : to_json a <> JNull.

(** The options of a field's tag. *)
Inductive tag := Always | OmitEmpty | OmitZero.

Definition omits `{!Wire A} (t : tag) (a : A) : bool :=
  match t with
  | Always => false
  | OmitEmpty => is_empty a
  | OmitZero => is_zero a
  end.

(** Encode and decode one field of a struct. *)
Definition field `{!Wire A} (t : tag) (name : string) (a : A) : members :=
  if omits t a then [] else [(name, to_json a)].

Definition fetch `{!Wire A} (name : string) (ms : members) : option A :=
  match get_member name ms with
  | Some v => of_json v
  | None => Some zero_value
  end.

(** Decode a struct from its members. *)
Definition of_members {A} (zero : A) (decode : members -> option A) (j : json) : option A :=
  match j with
  | JNull => Some zero
  | JObject ms => decode ms
  | _ => None
  end.

(** *** Basic types *)

#[global, refine] Instance Wire_string : Wire string := {|
  to_json s := JString s;
  of_json j := match j with JNull => Some "" | JString s => Some s | _ => None end;
  zero_value := "";
  is_empty s := s =?s "";
  is_zero s := s =?s "";
  on_wire _ := True;
  persisted s := s;
|}.
Proof. all: [> done|done|]. by intros s [?|?]; bool_simpl. Defined.

(** An [int64]. *)
#[global, refine] Instance Wire_int64 : Wire Z := {|
  to_json n := JNum n;
  of_json j := match j with
    | JNull => Some 0
    | JNum n => if bool_decide (in_int64 n) then Some n else None
    | _ => None
    end;
  zero_value := 0;
  is_empty n := n =? 0;
  is_zero n := n =? 0;
  on_wire n := in_int64 n;
  persisted n := n;
|}.
Proof.
  all: [> done| |].
  - intros n Hn. by rewrite bool_decide_eq_true_2.
  - by intros n [?|?]; bool_simpl.
Defined.

#[global] Instance NeverNull_string : NeverNull string.
Proof. done. Qed.
#[global] Instance NeverNull_int64 : NeverNull Z.
Proof. done. Qed.

(** A pointer: nil is null. *)
#[global, refine] Instance Wire_pointer `{!Wire A, !NeverNull A} : Wire (option A) := {|
  to_json p := match p with Some a => to_json a | None => JNull end;
  of_json j := match j with JNull => Some None | _ => Some <$> of_json j end;
  zero_value := None;
  is_empty p := match p with Some _ => false | None => true end;
  is_zero p := match p with Some _ => false | None => true end;
  on_wire p := match p with Some a => on_wire a | None => True end;
  persisted p := persisted <$> p;
|}.
Proof.
  all: [> done| |].
  - intros [a|] Ha; [|done]. pose proof (to_json_not_null a) as Hn.
    assert (Some <$> of_json (to_json a) = Some (Some (persisted a))) as Hr
      by by rewrite of_to_json.
    by destruct (to_json a).
  - by intros [a|] [?|?].
Defined.

(** A slice, nil when empty. *)
#[global, refine] Instance Wire_slice `{!Wire A} : Wire (list A) := {|
  to_json l := JArray (to_json <$> l);
  of_json j := match j with JNull => Some [] | JArray items => mapM of_json items | _ => None end;
  zero_value := [];
  is_empty l := match l with [] => true | _ => false end;
  is_zero l := match l with [] => true | _ => false end;
  on_wire l := Forall on_wire l;
  persisted l := persisted <$> l;
|}.
Proof.
  all: [> done| |].
  - intros l Hl. apply mapM_Some. induction Hl as [|a l Ha _ IH]; simpl; constructor; [|done].
    by apply of_to_json.
  - by intros [|a l] [?|?].
Defined.

(** A [map[string]string]. *)
Definition entry_of (p : string * json) : option (string * string) :=
  match p.2 with
  | JNull => Some (p.1, "")
  | JString v => Some (p.1, v)
  | _ => None
  end.

#[global, refine] Instance Wire_map : Wire (gmap string string) := {|
  to_json m := JObject ((fun p => (p.1, JString p.2)) <$> map_to_list m);
  of_json j := match j with
    | JNull => Some ∅
    | JObject ms => list_to_map <$> mapM entry_of ms
    | _ => None
    end;
  zero_value := ∅;
  is_empty m := bool_decide (m = ∅);
  is_zero m := bool_decide (m = ∅);
  on_wire _ := True;
  persisted m := m;
|}.
Proof.
  all: [> done| |].
  - intros m _. replace (mapM entry_of _) with (Some (map_to_list m)).
    { simpl. by rewrite list_to_map_to_list. }
    symmetry. apply mapM_Some. induction (map_to_list m) as [|[k v] l IH]; by constructor.
  - by intros m [?|?]; bool_simpl.
Defined.

(** *** Fields of a struct *)

(** No member of that name. *)
Definition absent (name : string) (ms : members) : Prop := get_member name ms = None.

Lemma absent_nil name : absent name [].
Proof. done. Qed.

Lemma get_member_field `{!Wire A} name name' t (a : A) ms :
  name <> name' -> get_member name (field t name' a ++ ms) = get_member name ms.
Proof.
  intros Hn. unfold field. destruct (omits t a); [done|]. simpl.
  destruct (get_member name ms); [done|]. by rewrite bool_decide_eq_false_2.
Qed.

Lemma absent_field `{!Wire A} name name' t (a : A) ms :
  name <> name' -> absent name ms -> absent name (field t name' a ++ ms).
Proof. intros Hn Hm. unfold absent. by rewrite get_member_field. Qed.

(** A field is read past the others, and read back as what is kept of it. *)
Lemma fetch_field_ne `{!Wire A, !Wire B} name name' t (b : B) ms :
  name <> name' -> fetch (A := A) name (field t name' b ++ ms) = fetch name ms.
Proof. intros Hn. unfold fetch. by rewrite get_member_field. Qed.

Lemma fetch_field `{!Wire A} name t (a : A) ms :
  on_wire a -> absent name ms -> fetch name (field t name a ++ ms) = Some (persisted a).
Proof.
  intros Ha Hm. unfold fetch, field, absent in *.
  assert (omits t a = true -> persisted a = zero_value) as Ho
    by (destruct t; simpl; intros ?; [done|apply omitted_zero..]; [by left|by right]).
  destruct (omits t a); simpl; rewrite Hm.
  - by rewrite Ho.
  - rewrite bool_decide_eq_true_2 by done. by apply of_to_json.
Qed.

Lemma get_member_here `{!Wire A} name t (a : A) ms :
  absent name ms ->
  get_member name (field t name a ++ ms) = if omits t a then None else Some (to_json a).
Proof.
  intros Hm. unfold field, absent in *. destruct (omits t a); simpl; rewrite ?Hm; [done|].
  by rewrite bool_decide_eq_true_2.
Qed.

Lemma bind_fetch `{!Wire A} {B} name ms (v : A) (f : A -> option B) (r : option B) :
  fetch name ms = Some v -> f v = r -> fetch name ms ≫= f = r.
Proof. by intros ->. Qed.

(** [solve_absent]: a name is none of the fields'. [fetch_fields]: read the fields of a
    struct that has just been encoded. *)
Ltac solve_absent :=
  repeat (apply absent_field; [discriminate|]); first [apply absent_nil|done].

Ltac solve_fetch :=
  repeat (rewrite fetch_field_ne by discriminate);
  apply fetch_field; [first [exact I|assumption|done]|solve_absent].

Ltac fetch_fields := repeat (eapply bind_fetch; [solve_fetch|]); cbn beta.

(** ** Schemas *)

(** A structural schema; [required] names members of an object. *)
Inductive schema :=
  | SString (enum : option (list string))
  | SDateTime
  | SInt64
  | SArray (items : schema)
  | SObject (properties : list (string * schema)) (required : list string).

Section validation.
(** The strings of format [date-time]. *)
Context (is_date_time : string -> bool).

Definition present (name : string) (ms : members) : bool :=
  match get_member name ms with Some JNull | None => false | Some _ => true end.

(** Validation; a null is as good as no member, as no property is nullable, and members
    that are no property are dropped. *)
Fixpoint validates (s : schema) (j : json) {struct s} : bool :=
  match s, j with
  | SString None, JString _ => true
  | SString (Some vs), JString v => bool_decide (v ∈ vs)
  | SDateTime, JString v => is_date_time v
  | SInt64, JNum n => bool_decide (in_int64 n)
  | SArray s', JArray items => forallb (validates s') items
  | SObject props required, JObject ms =>
      forallb (fun name => present name ms) required &&
      forallb (fun p => match p with (name, s') =>
        match get_member name ms with
        | Some JNull | None => true
        | Some v => validates s' v
        end end) props
  | _, _ => false
  end.

(** What a member must satisfy. *)
Definition member_ok (s : schema) (o : option json) : bool :=
  match o with
  | Some JNull | None => true
  | Some v => validates s v
  end.

Lemma validates_object props required ms :
  validates (SObject props required) (JObject ms) = true <->
  Forall (fun name => present name ms = true) required /\
  Forall (fun p => member_ok p.2 (get_member p.1 ms) = true) props.
Proof.
  cbn [validates]. rewrite andb_true_iff, !forallb_forall, !Forall_forall.
  setoid_rewrite list_elem_of_In. split; intros [H1 H2]; (split; [done|]).
  - intros [name s] Hin. exact (H2 _ Hin).
  - intros [name s] Hin. exact (H2 _ Hin).
Qed.

Lemma validates_array s items :
  validates (SArray s) (JArray items) = true <-> Forall (fun j => validates s j = true) items.
Proof.
  cbn [validates]. rewrite forallb_forall, Forall_forall. by setoid_rewrite list_elem_of_In.
Qed.
(** A field that is present or accepted. *)
Lemma present_field_ne `{!Wire A} name name' t (a : A) ms :
  name <> name' -> present name (field t name' a ++ ms) = present name ms.
Proof. intros Hn. unfold present. by rewrite get_member_field. Qed.

Lemma present_field `{!Wire A} name t (a : A) ms :
  absent name ms -> omits t a = false -> to_json a <> JNull ->
  present name (field t name a ++ ms) = true.
Proof.
  intros Hm Ho Hn. unfold present. rewrite get_member_here, Ho by done. by destruct (to_json a).
Qed.

Lemma member_field `{!Wire A} s name t (a : A) ms :
  absent name ms ->
  omits t a = true \/ to_json a = JNull \/ validates s (to_json a) = true ->
  member_ok s (get_member name (field t name a ++ ms)) = true.
Proof.
  intros Hm Ha. rewrite get_member_here by done. unfold member_ok.
  destruct (omits t a); [done|]. destruct Ha as [?|[->|Ha]]; [done|done|].
  rewrite Ha. by destruct (to_json a).
Qed.

(** Only what is accepted is written under a property. *)
Lemma member_field_inv `{!Wire A} s name t (a : A) ms :
  absent name ms -> omits t a = false -> to_json a <> JNull ->
  member_ok s (get_member name (field t name a ++ ms)) = true -> validates s (to_json a) = true.
Proof.
  intros Hm Ho Hn. rewrite get_member_here, Ho by done. unfold member_ok.
  by destruct (to_json a).
Qed.
End validation.

(** [solve_object]: an encoded struct against the schema of an object, leaving the fields
    whose acceptance does not hold by computation. *)
Ltac solve_object :=
  apply validates_object; split;
  repeat first [apply Forall_nil_2|apply Forall_cons_2]; cbn [fst snd];
  repeat first [rewrite present_field_ne by discriminate|rewrite get_member_field by discriminate];
  first [apply present_field; [solve_absent|done|try done]
        |apply member_field; [solve_absent|try (right; right; reflexivity)]].
