(* ===== verification/Api.v ===== *)
(** * Data: the [SchedulingDecision] API group and the objects it is built from

    The types of [api/v1alpha1], field by field, with the label and reason
    constants of [labels.go] and [schedulingdecision_controller.go]; then the
    fields of the Kubernetes objects ([Pod], [Event], claims, storage classes)
    that the program reads. A field of pointer type is an [option]; a slice is a
    list, since no code distinguishes a nil slice from an empty one where the
    type is a plain slice. *)

From S2P Require Import Prelude GoTime.

(** ** Names *)

(** [types.NamespacedName] and its [String] method. *)
Record NamespacedName := mkNamespacedName { nn_Namespace : string; nn_Name : string }.

Definition NamespacedName_String (n : NamespacedName) : string :=
  nn_Namespace n +:+ "/" +:+ nn_Name n.

(** [types.UID] *)
Abbreviation UID := string (only parsing).

(** ** [api/v1alpha1] *)

Definition ExpiresAtLabel : string := "scheduling.purestorage.io/expires-at".
Definition CandidateNodesEventReason : string := "CandidateNodes".

(** [type SchedulingOutcome string], and its constants; the empty string is the zero
    value, which an unset status field holds. *)
Definition SchedulingOutcome : Type := string.

Definition SchedulingOutcomeScheduled : SchedulingOutcome := "Scheduled".
Definition SchedulingOutcomeFailedScheduling : SchedulingOutcome := "FailedScheduling".
Definition SchedulingOutcomePreempted : SchedulingOutcome := "Preempted".

(** The values of the enum marker: the terminal outcomes. *)
Definition terminal_outcome (o : SchedulingOutcome) : Prop :=
  o ∈ [SchedulingOutcomeScheduled; SchedulingOutcomeFailedScheduling; SchedulingOutcomePreempted].

Record CandidateNode := mkCandidateNode {
  cn_Name : string;
  cn_FilterResult : string;
  cn_Score : option Z;
}.

Record VolumeContext := mkVolumeContext {
  vc_PVCName : string;
  vc_StorageClass : string;
  vc_DriverType : string;
  vc_BindingMode : string;
  vc_TopologyConstraint : string;
}.

Record SourceRef := mkSourceRef {
  sr_EventUID : UID;
  sr_AuditRequestID : string;
}.

Record SchedulingDecisionSpec := mkSpec {
  spec_PodName : string;
  spec_PodNamespace : string;
  spec_PodUID : UID;
  spec_SchedulerName : string;
  spec_VolumeContext : option VolumeContext;
}.

Record SchedulingTransition := mkTransition {
  tr_Outcome : SchedulingOutcome;
  tr_ChosenNode : string;
  tr_ReasonSummary : string;
  tr_DecisionTimestamp : Time;
  tr_SchedulingLatencyMs : Z;
  tr_CandidateNodes : list CandidateNode;
  tr_SourceRef : SourceRef;
}.

Record SchedulingDecisionStatus := mkStatus {
  st_Outcome : SchedulingOutcome;
  st_ChosenNode : string;
  st_ReasonSummary : string;
  st_DecisionTimestamp : Time;
  st_SchedulingLatencyMs : Z;
  st_Transitions : list SchedulingTransition;
}.

(** The fields of [metav1.ObjectMeta] the program and the API server use. *)
Record ObjectMeta := mkObjectMeta {
  om_Name : string;
  om_UID : UID;
  om_ResourceVersion : string;
  om_Labels : gmap string string;
}.

Record SchedulingDecision := mkDecision {
  sd_ObjectMeta : ObjectMeta;
  sd_Spec : SchedulingDecisionSpec;
  sd_Status : SchedulingDecisionStatus;
}.

Definition sd_Name (d : SchedulingDecision) : string := om_Name (sd_ObjectMeta d).
Definition sd_UID (d : SchedulingDecision) : UID := om_UID (sd_ObjectMeta d).
Definition sd_ResourceVersion (d : SchedulingDecision) : string :=
  om_ResourceVersion (sd_ObjectMeta d).
Definition sd_Labels (d : SchedulingDecision) : gmap string string :=
  om_Labels (sd_ObjectMeta d).

(** Zero values. *)
Definition SourceRef_zero : SourceRef := mkSourceRef "" "".

Definition Status_zero : SchedulingDecisionStatus :=
  mkStatus "" "" "" Time_zero 0 [].

(** Field assignments on a transition. *)
Definition set_ChosenNode (v : string) (t : SchedulingTransition) :=
  mkTransition (tr_Outcome t) v (tr_ReasonSummary t) (tr_DecisionTimestamp t)
    (tr_SchedulingLatencyMs t) (tr_CandidateNodes t) (tr_SourceRef t).
Definition set_ReasonSummary (v : string) (t : SchedulingTransition) :=
  mkTransition (tr_Outcome t) (tr_ChosenNode t) v (tr_DecisionTimestamp t)
    (tr_SchedulingLatencyMs t) (tr_CandidateNodes t) (tr_SourceRef t).
Definition set_SchedulingLatencyMs (v : Z) (t : SchedulingTransition) :=
  mkTransition (tr_Outcome t) (tr_ChosenNode t) (tr_ReasonSummary t)
    (tr_DecisionTimestamp t) v (tr_CandidateNodes t) (tr_SourceRef t).
Definition set_CandidateNodes (v : list CandidateNode) (t : SchedulingTransition) :=
  mkTransition (tr_Outcome t) (tr_ChosenNode t) (tr_ReasonSummary t)
    (tr_DecisionTimestamp t) (tr_SchedulingLatencyMs t) v (tr_SourceRef t).
Definition set_EventUID (v : UID) (t : SchedulingTransition) :=
  mkTransition (tr_Outcome t) (tr_ChosenNode t) (tr_ReasonSummary t)
    (tr_DecisionTimestamp t) (tr_SchedulingLatencyMs t) (tr_CandidateNodes t)
    (mkSourceRef v (sr_AuditRequestID (tr_SourceRef t))).

(** Replace the status of a decision. *)
Definition set_Status (s : SchedulingDecisionStatus) (d : SchedulingDecision) :=
  mkDecision (sd_ObjectMeta d) (sd_Spec d) s.

(** ** Core objects, as far as they are read *)

Record PodCondition := mkPodCondition {
  pc_Type : string;
  pc_Status : string;
  pc_LastTransitionTime : Time;
  pc_Reason : string;
  pc_Message : string;
}.

(** [corev1] constants. *)
Definition PodScheduled : string := "PodScheduled".
Definition ConditionTrue : string := "True".
Definition ConditionFalse : string := "False".
Definition ConditionUnknown : string := "Unknown".
Definition EventTypeNormal : string := "Normal".

(** A pod volume: the claim name of its [PersistentVolumeClaim] source, if the
    volume has one. *)
Record Volume := mkVolume { vol_Name : string; vol_PersistentVolumeClaim : option string }.

Record Pod := mkPod {
  pod_UID : UID;
  pod_Name : string;
  pod_Namespace : string;
  pod_CreationTimestamp : Time;
  pod_NodeName : string;
  pod_SchedulerName : string;
  pod_Volumes : list Volume;
  pod_Conditions : list PodCondition;
}.

(** The zero [corev1.Pod]: what [var pod corev1.Pod] holds when the read fails. *)
Definition Pod_zero : Pod := mkPod "" "" "" Time_zero "" "" [] [].

Record ObjectReference := mkObjectReference {
  or_Kind : string;
  or_Namespace : string;
  or_Name : string;
  or_UID : UID;
}.

Record Event := mkEvent {
  ev_UID : UID;
  ev_GenerateName : string;
  ev_Namespace : string;
  ev_CreationTimestamp : Time;
  ev_InvolvedObject : ObjectReference;
  ev_Reason : string;
  ev_Message : string;
  ev_Type : string;
  ev_ReportingController : string;
  ev_SourceComponent : string;
  ev_FirstTimestamp : Time;
  ev_LastTimestamp : Time;
  ev_EventTime : Time;
}.

Record PersistentVolumeClaim := mkPVC {
  pvc_Namespace : string;
  pvc_Name : string;
  pvc_StorageClassName : option string;
}.

Record TopologySelectorLabelRequirement := mkRequirement {
  tsl_Key : string;
  tsl_Values : list string;
}.

(** A [TopologySelectorTerm] is the list of its label requirements. *)
Abbreviation TopologySelectorTerm := (list TopologySelectorLabelRequirement) (only parsing).

Record StorageClass := mkStorageClass {
  sc_Name : string;
  sc_Provisioner : string;
  sc_VolumeBindingMode : option string;
  sc_AllowedTopologies : list TopologySelectorTerm;
}.

(** ** Decidable equality *)

#[global] Instance NamespacedName_eq_dec : EqDecision NamespacedName.
Proof. solve_decision. Defined.
#[global] Instance SchedulingOutcome_eq_dec : EqDecision SchedulingOutcome := String.string_dec.
#[global] Instance terminal_outcome_dec o : Decision (terminal_outcome o).
Proof. unfold terminal_outcome. apply _. Defined.
#[global] Instance CandidateNode_eq_dec : EqDecision CandidateNode.
Proof. solve_decision. Defined.
#[global] Instance VolumeContext_eq_dec : EqDecision VolumeContext.
Proof. solve_decision. Defined.
#[global] Instance SourceRef_eq_dec : EqDecision SourceRef.
Proof. solve_decision. Defined.
#[global] Instance SchedulingDecisionSpec_eq_dec : EqDecision SchedulingDecisionSpec.
Proof. solve_decision. Defined.
#[global] Instance SchedulingTransition_eq_dec : EqDecision SchedulingTransition.
Proof. solve_decision. Defined.
#[global] Instance SchedulingDecisionStatus_eq_dec : EqDecision SchedulingDecisionStatus.
Proof. solve_decision. Defined.
#[global] Instance ObjectMeta_eq_dec : EqDecision ObjectMeta.
Proof. solve_decision. Defined.
#[global] Instance SchedulingDecision_eq_dec : EqDecision SchedulingDecision.
Proof. solve_decision. Defined.
#[global] Instance PodCondition_eq_dec : EqDecision PodCondition.
Proof. solve_decision. Defined.
#[global] Instance ObjectReference_eq_dec : EqDecision ObjectReference.
Proof. solve_decision. Defined.
#[global] Instance Event_eq_dec : EqDecision Event.
Proof. solve_decision. Defined.
