(* ===== verification/Decision.v ===== *)
(** * [controllers/decision.go]: what a reconcile concludes from a Pod and its Events

    The pure part of the reconciler. Each function of the file is one
    definition, in the file's order of use. The clock is the only effect of the
    file ([metav1.Now], at most once per call): the functions that may read it
    take the reading as the section variable [now]. A nil pointer result is
    [None]; [deriveTransition]'s third result [ok] is false exactly when the
    option is [None]. *)

From S2P Require Import Prelude GoTime GoStrings Api.

(** Event reasons and the involved kind ([schedulingdecision_controller.go]). *)
Definition eventReasonScheduled : string := "Scheduled".
Definition eventReasonFailedScheduling : string := "FailedScheduling".
Definition eventReasonPreempted : string := "Preempted".
Definition eventReasonCandidateNodes : string := CandidateNodesEventReason.
Definition podKind : string := "Pod".

Record podIdentity := mkIdentity {
  id_UID : UID;
  id_Name : string;
  id_Namespace : string;
  id_SchedulerName : string;
}.

(** ** Helpers *)

Definition eventTimestamp (e : Event) : Time :=
  if negb (IsZero (ev_LastTimestamp e)) then ev_LastTimestamp e
  else if negb (IsZero (ev_EventTime e)) then ev_EventTime e
  else ev_CreationTimestamp e.

(** One iteration of the loop of [latestEventWithReason]. *)
Definition latestEvent_step (reason : string) (latest : option Event) (e : Event)
    : option Event :=
  if ev_Reason e <>?s reason then latest
  else match latest with
       | None => Some e
       | Some l => if After (eventTimestamp e) (eventTimestamp l) then Some e else latest
       end.

Definition latestEventWithReason (events : list Event) (reason : string) : option Event :=
  fold_left (latestEvent_step reason) events None.

Fixpoint scheduledCondition_in (conds : list PodCondition) : option PodCondition :=
  match conds with
  | [] => None
  | c :: cs => if pc_Type c =?s PodScheduled then Some c else scheduledCondition_in cs
  end.

Definition podScheduledCondition (pod : Pod) : option PodCondition :=
  scheduledCondition_in (pod_Conditions pod).

Definition conditionMessage (cond : option PodCondition) : string :=
  match cond with None => "" | Some c => pc_Message c end.

Definition eventMessage (event : option Event) : string :=
  match event with None => "" | Some e => ev_Message e end.

Fixpoint firstNonEmpty (values : list string) : string :=
  match values with
  | [] => ""
  | v :: vs => if v <>?s "" then v else firstNonEmpty vs
  end.

Definition latencyMs (start end_ : Time) : Z :=
  if Before end_ start then 0 else Milliseconds (Sub end_ start).

Definition schedulerNameFor (event : option Event) (pod : Pod) (podFound : bool) : string :=
  let fromPod :=
    if podFound && (pod_SchedulerName pod <>?s "") then pod_SchedulerName pod else "" in
  match event with
  | Some e =>
      if ev_ReportingController e <>?s "" then ev_ReportingController e
      else if ev_SourceComponent e <>?s "" then ev_SourceComponent e
      else fromPod
  | None => fromPod
  end.

(** The loop body of [candidateNodesFrom]: trim, skip if empty, append. *)
Definition candidate_of (n : string) : list CandidateNode :=
  let n := TrimSpace n in
  if n =?s "" then [] else [mkCandidateNode n "" None].

Definition candidateNodesFrom (events : list Event) : list CandidateNode :=
  match latestEventWithReason events eventReasonCandidateNodes with
  | None => []
  | Some evt =>
      if ev_Message evt =?s "" then []
      else Split (ev_Message evt) "," ≫= candidate_of
  end.

Definition newTransition (outcome : SchedulingOutcome) (ts : Time) : SchedulingTransition :=
  mkTransition outcome "" "" ts 0 [] SourceRef_zero.

Definition decisionName (podUID : UID) : string := "sdec-" +:+ podUID.

(** ** Deriving the transition

    [decisionTimestamp] reads the clock when neither a condition nor an event dates
    the outcome. The functions are therefore written in a monad with one operation
    [metav1_Now]: the reconciler runs them as programs that may call the clock,
    and [pure], where the reading is a given instant, is their mathematical
    reading. *)

Definition identityFromPod (pod : Pod) (event : option Event) : podIdentity :=
  mkIdentity (pod_UID pod) (pod_Name pod) (pod_Namespace pod)
    (schedulerNameFor event pod true).

(** [t.SourceRef.EventUID = event.UID], when there is an event. *)
Definition refer_event (event : option Event) (t : SchedulingTransition) :=
  match event with Some e => set_EventUID (ev_UID e) t | None => t end.

Definition identityAndTransitionFromPreemption (pod : Pod) (podFound : bool)
    (event : Event) : podIdentity * SchedulingTransition :=
  let ts := eventTimestamp event in
  let schedulerName := schedulerNameFor (Some event) pod podFound in
  let identity :=
    if podFound
    then mkIdentity (pod_UID pod) (pod_Name pod) (pod_Namespace pod) schedulerName
    else let o := ev_InvolvedObject event in
         mkIdentity (or_UID o) (or_Name o) (or_Namespace o) schedulerName in
  let t := newTransition SchedulingOutcomePreempted ts in
  let t := set_ReasonSummary (ev_Message event) t in
  let t := set_EventUID (ev_UID event) t in
  let t :=
    if podFound
    then set_SchedulingLatencyMs (latencyMs (pod_CreationTimestamp pod) ts) t
    else t in
  (identity, t).

Section clocked.
Context {M : Type -> Type} `{!MRet M, !MBind M} (metav1_Now : M Time).

Definition decisionTimestampM (cond : option PodCondition) (event : option Event) : M Time :=
  let fromEvent :=
    match event with Some e => mret (eventTimestamp e) | None => metav1_Now end in
  match cond with
  | Some c =>
      if negb (IsZero (pc_LastTransitionTime c)) then mret (pc_LastTransitionTime c)
      else fromEvent
  | None => fromEvent
  end.

Definition transitionFromScheduledM (pod : Pod) (cond : option PodCondition)
    (event : option Event) : M SchedulingTransition :=
  ts ← decisionTimestampM cond event;
  let t := newTransition SchedulingOutcomeScheduled ts in
  let t := set_ChosenNode (pod_NodeName pod) t in
  let t := set_ReasonSummary
    (firstNonEmpty [conditionMessage cond; eventMessage event]) t in
  let t := refer_event event t in
  mret (set_SchedulingLatencyMs (latencyMs (pod_CreationTimestamp pod) ts) t).

Definition transitionFromFailedSchedulingM (pod : Pod) (cond : option PodCondition)
    (event : option Event) : M SchedulingTransition :=
  ts ← decisionTimestampM cond event;
  let t := newTransition SchedulingOutcomeFailedScheduling ts in
  let t := set_ReasonSummary
    (firstNonEmpty [conditionMessage cond; eventMessage event]) t in
  let t := refer_event event t in
  mret (set_SchedulingLatencyMs (latencyMs (pod_CreationTimestamp pod) ts) t).

Definition deriveTransitionM (pod : Pod) (podFound : bool) (events : list Event)
    : M (option (podIdentity * SchedulingTransition)) :=
  match latestEventWithReason events eventReasonPreempted with
  | Some preempted =>
      mret (Some (identityAndTransitionFromPreemption pod podFound preempted))
  | None =>
  if negb podFound then mret None
  else
    let candidateNodes := candidateNodesFrom events in
    let scheduled cond evt :=
      t ← transitionFromScheduledM pod cond evt;
      mret (Some (identityFromPod pod evt, set_CandidateNodes candidateNodes t)) in
    let failed cond evt :=
      t ← transitionFromFailedSchedulingM pod cond evt;
      mret (Some (identityFromPod pod evt, set_CandidateNodes candidateNodes t)) in
    (* The Event-only fallback. *)
    let fallback :=
      match latestEventWithReason events eventReasonScheduled with
      | Some evt => scheduled None (Some evt)
      | None =>
          match latestEventWithReason events eventReasonFailedScheduling with
          | Some evt => failed None (Some evt)
          | None => mret None
          end
      end in
    match podScheduledCondition pod with
    | Some cond =>
        if pc_Status cond =?s ConditionTrue then
          scheduled (Some cond) (latestEventWithReason events eventReasonScheduled)
        else if pc_Status cond =?s ConditionFalse then
          if pc_Reason cond =?s "Unschedulable" then
            failed (Some cond)
              (latestEventWithReason events eventReasonFailedScheduling)
          else fallback
        else fallback
    | None => fallback
    end
  end.
End clocked.

(** The identity monad. *)
Definition pure (A : Type) : Type := A.
#[global] Instance pure_ret : MRet pure := fun A a => a.
#[global] Instance pure_bind : MBind pure := fun A B f a => f a.

(** The functions at a given reading of the clock. *)
Section at_reading.
Context (now : Time).

Definition decisionTimestamp : option PodCondition -> option Event -> Time :=
  decisionTimestampM (M := pure) now.
Definition transitionFromScheduled
    : Pod -> option PodCondition -> option Event -> SchedulingTransition :=
  transitionFromScheduledM (M := pure) now.
Definition transitionFromFailedScheduling
    : Pod -> option PodCondition -> option Event -> SchedulingTransition :=
  transitionFromFailedSchedulingM (M := pure) now.
Definition deriveTransition
    : Pod -> bool -> list Event -> option (podIdentity * SchedulingTransition) :=
  deriveTransitionM (M := pure) now.
End at_reading.

(** [run_pure]: compute [deriveTransition] in the identity monad, down to the
    functions it calls. *)
Ltac run_pure :=
  unfold deriveTransition, deriveTransitionM;
  change (@transitionFromScheduledM pure pure_ret pure_bind ?n)
    with (transitionFromScheduled n);
  change (@transitionFromFailedSchedulingM pure pure_ret pure_bind ?n)
    with (transitionFromFailedScheduling n);
  unfold mret, mbind, pure_ret, pure_bind; cbv beta zeta.

(** ** Recording the transition in a status *)

Definition applyTransition (status : SchedulingDecisionStatus)
    (transition : SchedulingTransition) : SchedulingDecisionStatus :=
  mkStatus (tr_Outcome transition) (tr_ChosenNode transition)
    (tr_ReasonSummary transition) (tr_DecisionTimestamp transition)
    (tr_SchedulingLatencyMs transition) (st_Transitions status ++ [transition]).

Definition transitionsEqual (a b : SchedulingTransition) : bool :=
  bool_decide (tr_Outcome a = tr_Outcome b) &&
  (tr_ChosenNode a =?s tr_ChosenNode b) &&
  (tr_ReasonSummary a =?s tr_ReasonSummary b) &&
  Equal (tr_DecisionTimestamp a) (tr_DecisionTimestamp b).

(** ** Specification of [latestEventWithReason]

    [is_latest events reason e]: [e] is the first, in list order, of the events
    with that reason whose timestamp is maximal among them. *)
Definition is_latest (events : list Event) (reason : string) (e : Event) : Prop :=
  exists l1 l2, events = l1 ++ e :: l2 /\ ev_Reason e = reason /\
    Forall (fun e' => ev_Reason e' = reason ->
      After (eventTimestamp e) (eventTimestamp e') = true) l1 /\
    Forall (fun e' => ev_Reason e' = reason ->
      After (eventTimestamp e') (eventTimestamp e) = false) l2.

Definition no_event (events : list Event) (reason : string) : Prop :=
  Forall (fun e => ev_Reason e <> reason) events.

(** ** Specification of [deriveTransition]

    What counts as evidence for each outcome, in decreasing priority: a
    Preempted event decides alone; otherwise a live pod is required, its
    PodScheduled condition decides if it is conclusive, and an event decides
    only when it is not. *)
Inductive evidence :=
  | PreemptedEvidence (e : Event)
  | ScheduledEvidence (cond : option PodCondition) (e : option Event)
  | FailedEvidence (cond : option PodCondition) (e : option Event).

(** The first PodScheduled condition of the pod. *)
Definition has_condition (pod : Pod) (c : PodCondition) : Prop :=
  exists l1 l2, pod_Conditions pod = l1 ++ c :: l2 /\ pc_Type c = PodScheduled /\
    Forall (fun c' => pc_Type c' <> PodScheduled) l1.

(** The condition settles the outcome by itself. *)
Definition conclusive (c : PodCondition) : Prop :=
  pc_Status c = ConditionTrue \/
  (pc_Status c = ConditionFalse /\ pc_Reason c = "Unschedulable").

(** The event, if any, that a conclusive condition is paired with. *)
Definition latest_opt (events : list Event) (reason : string) (e : option Event) : Prop :=
  match e with Some e => is_latest events reason e | None => no_event events reason end.

Inductive supports (pod : Pod) (events : list Event) : bool -> evidence -> Prop :=
  | supports_preempted podFound e :
      is_latest events eventReasonPreempted e ->
      supports pod events podFound (PreemptedEvidence e)
  | supports_scheduled_condition c e :
      no_event events eventReasonPreempted ->
      has_condition pod c -> pc_Status c = ConditionTrue ->
      latest_opt events eventReasonScheduled e ->
      supports pod events true (ScheduledEvidence (Some c) e)
  | supports_failed_condition c e :
      no_event events eventReasonPreempted ->
      has_condition pod c -> pc_Status c = ConditionFalse ->
      pc_Reason c = "Unschedulable" ->
      latest_opt events eventReasonFailedScheduling e ->
      supports pod events true (FailedEvidence (Some c) e)
  | supports_scheduled_event e :
      no_event events eventReasonPreempted ->
      (forall c, has_condition pod c -> ~ conclusive c) ->
      is_latest events eventReasonScheduled e ->
      supports pod events true (ScheduledEvidence None (Some e))
  | supports_failed_event e :
      no_event events eventReasonPreempted ->
      (forall c, has_condition pod c -> ~ conclusive c) ->
      no_event events eventReasonScheduled ->
      is_latest events eventReasonFailedScheduling e ->
      supports pod events true (FailedEvidence None (Some e)).

(** The instant an evidence dates the outcome to. *)
Definition evidence_time (now : Time) (ev : evidence) : Time :=
  match ev with
  | PreemptedEvidence e => eventTimestamp e
  | ScheduledEvidence c e | FailedEvidence c e => decisionTimestamp now c e
  end.

Definition evidence_event (ev : evidence) : option Event :=
  match ev with
  | PreemptedEvidence e => Some e
  | ScheduledEvidence _ e | FailedEvidence _ e => e
  end.

Definition evidence_outcome (ev : evidence) : SchedulingOutcome :=
  match ev with
  | PreemptedEvidence _ => SchedulingOutcomePreempted
  | ScheduledEvidence _ _ => SchedulingOutcomeScheduled
  | FailedEvidence _ _ => SchedulingOutcomeFailedScheduling
  end.

Definition evidence_message (ev : evidence) : string :=
  match ev with
  | PreemptedEvidence e => ev_Message e
  | ScheduledEvidence c e | FailedEvidence c e =>
      if conditionMessage c =?s "" then eventMessage e else conditionMessage c
  end.

(** What the transition derived from an evidence must say, field by field. *)
Record transition_reports (now : Time) (pod : Pod) (podFound : bool)
    (events : list Event) (ev : evidence) (t : SchedulingTransition) : Prop := {
  reports_outcome : tr_Outcome t = evidence_outcome ev;
  reports_node : tr_ChosenNode t =
    match ev with ScheduledEvidence _ _ => pod_NodeName pod | _ => "" end;
  reports_reason : tr_ReasonSummary t = evidence_message ev;
  reports_time : tr_DecisionTimestamp t = evidence_time now ev;
  reports_latency : tr_SchedulingLatencyMs t =
    if podFound then latencyMs (pod_CreationTimestamp pod) (evidence_time now ev) else 0;
  reports_candidates : tr_CandidateNodes t =
    match ev with PreemptedEvidence _ => [] | _ => candidateNodesFrom events end;
  reports_source : tr_SourceRef t =
    mkSourceRef (match evidence_event ev with Some e => ev_UID e | None => "" end) "";
}.

(** And who it is about. *)
Definition identity_reports (pod : Pod) (podFound : bool) (ev : evidence)
    (i : podIdentity) : Prop :=
  id_SchedulerName i = schedulerNameFor (evidence_event ev) pod podFound /\
  if podFound
  then id_UID i = pod_UID pod /\ id_Name i = pod_Name pod /\ id_Namespace i = pod_Namespace pod
  else exists e, evidence_event ev = Some e /\
    let o := ev_InvolvedObject e in
    id_UID i = or_UID o /\ id_Name i = or_Name o /\ id_Namespace i = or_Namespace o.

(** ** Well-formed statuses *)

(** The scalar fields mirror the last transition; a status without history is
    the zero status. *)
Definition status_mirrors (s : SchedulingDecisionStatus) : Prop :=
  match last (st_Transitions s) with
  | None => s = Status_zero
  | Some t =>
      st_Outcome s = tr_Outcome t /\ st_ChosenNode s = tr_ChosenNode t /\
      st_ReasonSummary s = tr_ReasonSummary t /\
      st_DecisionTimestamp s = tr_DecisionTimestamp t /\
      st_SchedulingLatencyMs s = tr_SchedulingLatencyMs t
  end.

(** Only a Scheduled transition names a node. *)
Definition node_ok (t : SchedulingTransition) : Prop :=
  tr_ChosenNode t <> "" -> tr_Outcome t = SchedulingOutcomeScheduled.

(** ** Lemmas: the latest event *)

Lemma After_irrefl t : After t t = false.
Proof.
  unfold After. apply orb_false_iff. rewrite Z.ltb_irrefl, Z.eqb_refl. simpl.
  by rewrite Z.ltb_irrefl.
Qed.

Lemma After_true t u :
  After t u = true <-> sec u < sec t \/ (sec t = sec u /\ nsec u < nsec t).
Proof. unfold After. by rewrite orb_true_iff, andb_true_iff, !Z.ltb_lt, Z.eqb_eq. Qed.

Lemma After_false t u :
  After t u = false <-> sec t < sec u \/ (sec t = sec u /\ nsec t <= nsec u).
Proof.
  rewrite <- not_true_iff_false, After_true. lia.
Qed.

(** [solve_after]: consequences of the order of instants. *)
Ltac solve_after :=
  repeat match goal with
  | H : After _ _ = true |- _ => apply After_true in H
  | H : After _ _ = false |- _ => apply After_false in H
  end;
  solve [apply After_true; lia | apply After_false; lia | exfalso; lia].

Lemma latest_app l e reason :
  latestEventWithReason (l ++ [e]) reason =
  latestEvent_step reason (latestEventWithReason l reason) e.
Proof. unfold latestEventWithReason. by rewrite fold_left_app. Qed.

(** Soundness: what the loop returns is the first latest event, and it returns
    nothing only when no event has the reason. *)
Lemma latest_sound events reason :
  latest_opt events reason (latestEventWithReason events reason).
Proof.
  induction events as [|e l IH] using rev_ind; [by constructor|].
  rewrite latest_app. unfold latestEvent_step.
  destruct (bool_decide (ev_Reason e = reason)) eqn:Hr; simpl; bool_simpl.
  - destruct (latestEventWithReason l reason) as [m|]; simpl in *.
    + destruct IH as (l1 & l2 & -> & Hm & Hl1 & Hl2).
      destruct (After (eventTimestamp e) (eventTimestamp m)) eqn:Ha.
      * exists (l1 ++ m :: l2), []. split_and!; [done|done| |done].
        rewrite Forall_app, Forall_cons. split_and!.
        -- eapply Forall_impl; [exact Hl1|]. simpl. intros x Hx ?.
           specialize (Hx ltac:(done)). solve_after.
        -- done.
        -- eapply Forall_impl; [exact Hl2|]. simpl. intros x Hx ?.
           specialize (Hx ltac:(done)). solve_after.
      * exists l1, (l2 ++ [e]). rewrite <- app_assoc. split_and!; [done..|].
        apply Forall_app. by split; [|constructor].
    + exists l, []. split_and!; [done|done| |done].
      eapply Forall_impl; [exact IH|]. naive_solver.
  - destruct (latestEventWithReason l reason) as [m|]; simpl in *.
    + destruct IH as (l1 & l2 & -> & Hm & Hl1 & Hl2).
      exists l1, (l2 ++ [e]). rewrite <- app_assoc. split_and!; [done..|].
      apply Forall_app. split; [done|]. by constructor.
    + apply Forall_app. by split; [|constructor].
Qed.

Lemma is_latest_elem events reason e : is_latest events reason e -> e ∈ events.
Proof. intros (l1 & l2 & -> & _). set_solver. Qed.

Lemma is_latest_not_none events reason e :
  is_latest events reason e -> no_event events reason -> False.
Proof.
  intros (l1 & l2 & -> & Hr & _) Hn. unfold no_event in Hn.
  rewrite Forall_app, Forall_cons in Hn. naive_solver.
Qed.

Lemma is_latest_unique events reason e e' :
  is_latest events reason e -> is_latest events reason e' -> e = e'.
Proof.
  intros (l1 & l2 & -> & Hr & H1 & H2) (k1 & k2 & Heq & Hr' & H1' & H2').
  apply app_eq_app in Heq as (m & [[Hl Hk]|[Hl Hk]]);
    destruct m as [|x m]; simplify_eq/=; try done.
  - apply Forall_app in H1 as [_ [Hx _]%Forall_cons].
    apply Forall_app in H2' as [_ [He _]%Forall_cons].
    specialize (Hx ltac:(done)). specialize (He ltac:(done)). solve_after.
  - apply Forall_app in H2 as [_ [Hx _]%Forall_cons].
    apply Forall_app in H1' as [_ [He _]%Forall_cons].
    specialize (Hx ltac:(done)). specialize (He ltac:(done)). solve_after.
Qed.

Lemma latest_opt_iff events reason o :
  latest_opt events reason o <-> latestEventWithReason events reason = o.
Proof.
  pose proof (latest_sound events reason) as Hs. split; [|by intros <-].
  intros Ho. destruct (latestEventWithReason _ _) as [e|], o as [e'|]; simpl in *.
  - f_equal. by eapply is_latest_unique.
  - by destruct (is_latest_not_none _ _ _ Hs Ho).
  - by destruct (is_latest_not_none _ _ _ Ho Hs).
  - done.
Qed.

Lemma is_latest_iff events reason e :
  is_latest events reason e <-> latestEventWithReason events reason = Some e.
Proof. apply (latest_opt_iff events reason (Some e)). Qed.

Lemma no_event_iff events reason :
  no_event events reason <-> latestEventWithReason events reason = None.
Proof. apply (latest_opt_iff events reason None). Qed.

(** ** Lemmas: the PodScheduled condition *)

Lemma has_condition_iff pod c :
  has_condition pod c <-> podScheduledCondition pod = Some c.
Proof.
  unfold has_condition, podScheduledCondition.
  induction (pod_Conditions pod) as [|c' cs IH]; simpl.
  { split; [|done]. by intros ([] & ? & ? & _). }
  destruct (bool_decide (pc_Type c' = PodScheduled)) eqn:Ht; bool_simpl.
  - split.
    + intros ([|x l1] & l2 & Heq & Hc & Hl1); simplify_eq/=; [done|].
      by apply Forall_cons in Hl1 as [? _].
    + intros ?. simplify_eq. by exists [], cs.
  - rewrite <- IH. split.
    + intros ([|x l1] & l2 & Heq & Hc & Hl1); simplify_eq/=.
      apply Forall_cons in Hl1 as [_ ?]. by exists l1, l2.
    + intros (l1 & l2 & -> & Hc & Hl1). exists (c' :: l1), l2.
      by split_and!; [|done|constructor].
Qed.

Lemma no_conclusive_iff pod :
  (forall c, has_condition pod c -> ~ conclusive c) <->
  match podScheduledCondition pod with Some c => ~ conclusive c | None => True end.
Proof.
  setoid_rewrite has_condition_iff. destruct (podScheduledCondition pod); naive_solver.
Qed.

#[export] Hint Rewrite is_latest_iff no_event_iff latest_opt_iff has_condition_iff
  no_conclusive_iff : audit_spec.

(** ** Theorems *)

(** The evidence [deriveTransition] settles on, with its result. *)
Definition result_of (now : Time) (pod : Pod) (podFound : bool) (events : list Event)
    (ev : evidence) : podIdentity * SchedulingTransition :=
  match ev with
  | PreemptedEvidence e => identityAndTransitionFromPreemption pod podFound e
  | ScheduledEvidence c e =>
      (identityFromPod pod e,
       set_CandidateNodes (candidateNodesFrom events) (transitionFromScheduled now pod c e))
  | FailedEvidence c e =>
      (identityFromPod pod e,
       set_CandidateNodes (candidateNodesFrom events)
         (transitionFromFailedScheduling now pod c e))
  end.

Lemma supports_derive now pod podFound events ev :
  supports pod events podFound ev ->
  deriveTransition now pod podFound events = Some (result_of now pod podFound events ev).
Proof.
  intros Hs. run_pure.
  inversion Hs as [? e H1|c e H1 H2 H3 H4|c e H1 H2 H3 H4 H5|e H1 H2 H3|e H1 H2 H3 H4];
    subst; autorewrite with audit_spec in *; rewrite H1; simpl.
  - done.
  - by rewrite H2, H3, H4.
  - by rewrite H2, H3, H4, H5.
  - rewrite H3. destruct (podScheduledCondition pod) as [c|]; [|done].
    unfold conclusive in H2. repeat case_bool_decide; simpl; naive_solver.
  - rewrite H3, H4. destruct (podScheduledCondition pod) as [c|]; [|done].
    unfold conclusive in H2. repeat case_bool_decide; simpl; naive_solver.
Qed.

Lemma derive_supports now pod podFound events r :
  deriveTransition now pod podFound events = Some r ->
  exists ev, supports pod events podFound ev.
Proof.
  run_pure.
  destruct (latestEventWithReason events eventReasonPreempted) as [e|] eqn:Hp.
  { exists (PreemptedEvidence e). by constructor; autorewrite with audit_spec. }
  destruct podFound; simpl; [|done].
  assert (no_event events eventReasonPreempted) as Hnp by by autorewrite with audit_spec.
  (* The fallback, when the condition is not conclusive. *)
  assert ((forall c, has_condition pod c -> ~ conclusive c) ->
    latestEventWithReason events eventReasonScheduled <> None \/
    latestEventWithReason events eventReasonFailedScheduling <> None ->
    exists ev, supports pod events true ev) as Hfb.
  { intros Hc Hor.
    destruct (latestEventWithReason events eventReasonScheduled) as [e|] eqn:Hs.
    - exists (ScheduledEvidence None (Some e)). constructor; [done|done|].
      by autorewrite with audit_spec.
    - destruct (latestEventWithReason events eventReasonFailedScheduling) as [e|] eqn:Hf;
        [|naive_solver].
      exists (FailedEvidence None (Some e)).
      constructor; [done|done|by autorewrite with audit_spec..]. }
  rewrite no_conclusive_iff in Hfb.
  destruct (podScheduledCondition pod) as [c|] eqn:Hcond.
  - unfold conclusive in Hfb.
    destruct (bool_decide (pc_Status c = ConditionTrue)) eqn:Ht; bool_simpl.
    { exists (ScheduledEvidence (Some c)
        (latestEventWithReason events eventReasonScheduled)).
      constructor; try done; by autorewrite with audit_spec. }
    destruct (bool_decide (pc_Status c = ConditionFalse)) eqn:Hf; bool_simpl;
      [destruct (bool_decide (pc_Reason c = "Unschedulable")) eqn:Hu; bool_simpl|].
    { exists (FailedEvidence (Some c)
        (latestEventWithReason events eventReasonFailedScheduling)).
      constructor; try done; by autorewrite with audit_spec. }
    all: intros Hr; apply Hfb; [naive_solver|repeat case_match; naive_solver].
  - intros Hr. apply Hfb; [done|repeat case_match; naive_solver].
Qed.

Lemma firstNonEmpty_two a b :
  firstNonEmpty [a; b] = if a =?s "" then b else a.
Proof. simpl. repeat (case_bool_decide; simpl); congruence. Qed.

Lemma result_of_reports now pod podFound events ev :
  supports pod events podFound ev ->
  identity_reports pod podFound ev (result_of now pod podFound events ev).1 /\
  transition_reports now pod podFound events ev (result_of now pod podFound events ev).2.
Proof.
  intros Hs. destruct ev as [e|c e|c e].
  - split; [|by destruct podFound].
    unfold identity_reports. destruct podFound; simpl; [done|]. by split; [|exists e].
  - assert (podFound = true) as -> by by inversion Hs.
    split; [done|]. destruct e; constructor; simpl; try done;
      rewrite <- ?firstNonEmpty_two; done.
  - assert (podFound = true) as -> by by inversion Hs.
    split; [done|]. destruct e; constructor; simpl; try done;
      rewrite <- ?firstNonEmpty_two; done.
Qed.

Lemma transition_reports_unique now pod podFound events ev t t' :
  transition_reports now pod podFound events ev t ->
  transition_reports now pod podFound events ev t' -> t = t'.
Proof. destruct t, t'. intros [] []; simpl in *. congruence. Qed.

Lemma identity_reports_unique pod podFound ev i i' :
  identity_reports pod podFound ev i -> identity_reports pod podFound ev i' -> i = i'.
Proof.
  destruct i, i', podFound; unfold identity_reports; simpl; naive_solver.
Qed.

Lemma derive_spec now pod podFound events i t :
  deriveTransition now pod podFound events = Some (i, t) <->
  exists ev, supports pod events podFound ev /\
    identity_reports pod podFound ev i /\
    transition_reports now pod podFound events ev t.
Proof.
  split.
  - intros Hd. destruct (derive_supports _ _ _ _ _ Hd) as [ev Hev]. exists ev.
    rewrite (supports_derive now _ _ _ _ Hev) in Hd. split; [done|].
    pose proof (result_of_reports now _ _ _ _ Hev). by simplify_eq; rewrite Hd in *.
  - intros (ev & Hev & Hi & Ht). rewrite (supports_derive now _ _ _ _ Hev).
    destruct (result_of_reports now _ _ _ _ Hev) as [Hi' Ht'].
    destruct (result_of _ _ _ _ _) as [i' t']; simpl in *. f_equal. f_equal.
    + by eapply identity_reports_unique.
    + by eapply transition_reports_unique.
Qed.

(** C9. Refinement: [deriveTransition] reports a transition exactly when the Pod
    and its Events support an evidence, in the documented priority (a Preempted
    event first, then a conclusive PodScheduled condition of a live pod, then
    the latest Scheduled, then the latest FailedScheduling event), and then the
    identity and every field of the transition are those the evidence dictates. *)
Theorem deriveTransition_refines now pod podFound events i t :
  deriveTransition now pod podFound events = Some (i, t) <->
  exists ev, supports pod events podFound ev /\
    identity_reports pod podFound ev i /\
    transition_reports now pod podFound events ev t.
Proof. apply derive_spec. Qed.

(** [latestEventWithReason] returns the first, in list order, of the events
    with the reason whose timestamp is maximal, and nil exactly when no event has
    the reason. *)
Theorem latestEventWithReason_spec events reason o :
  latestEventWithReason events reason = o <-> latest_opt events reason o.
Proof. symmetry. apply latest_opt_iff. Qed.

(** Two events with the same reason and the same timestamp are the same event. *)
Definition no_ties (events : list Event) : Prop :=
  forall e e', e ∈ events -> e' ∈ events -> ev_Reason e = ev_Reason e' ->
    eventTimestamp e = eventTimestamp e' -> e = e'.

(** Without ties, being the latest does not mention the order of the list. *)
Lemma is_latest_set events reason e :
  no_ties events ->
  is_latest events reason e <->
  e ∈ events /\ ev_Reason e = reason /\
  forall e', e' ∈ events -> ev_Reason e' = reason ->
    After (eventTimestamp e') (eventTimestamp e) = false.
Proof.
  intros Hties. split.
  - intros (l1 & l2 & -> & Hr & H1 & H2). rewrite Forall_forall in *.
    split_and!; [set_solver|done|].
    intros e' [He'|[->|He']%elem_of_cons]%elem_of_app Hr'.
    + specialize (H1 e' He' Hr'). solve_after.
    + apply After_irrefl.
    + by apply H2.
  - intros (He & Hr & Hmax).
    pose proof (latest_sound events reason) as Hl.
    destruct (latestEventWithReason events reason) as [m|]; simpl in Hl.
    + pose proof (is_latest_elem _ _ _ Hl) as Hm.
      destruct Hl as (l1 & l2 & Heq & Hrm & H1 & H2).
      enough (e = m) as -> by (by exists l1, l2).
      apply Hties; [done|done|congruence|].
      specialize (Hmax m Hm Hrm).
      assert (After (eventTimestamp e) (eventTimestamp m) = false) as Hmax'.
      { rewrite Heq in He. apply elem_of_app in He as [He|[->|He]%elem_of_cons].
        - rewrite Forall_forall in H1. specialize (H1 e He Hr). solve_after.
        - apply After_irrefl.
        - rewrite Forall_forall in H2. by apply H2. }
      apply After_false in Hmax, Hmax'.
      destruct (eventTimestamp e), (eventTimestamp m); simpl in *. f_equal; lia.
    + unfold no_event in Hl. rewrite Forall_forall in Hl. by destruct (Hl e He).
Qed.

Lemma latest_perm events events' reason :
  events ≡ₚ events' -> no_ties events ->
  latestEventWithReason events reason = latestEventWithReason events' reason.
Proof.
  intros Hp Ht.
  assert (no_ties events') as Ht' by (intros e e'; rewrite <- Hp; apply Ht).
  apply option_eq. intros e. rewrite <- !is_latest_iff.
  rewrite !is_latest_set by done. by setoid_rewrite Hp.
Qed.

(** C25. The order in which the API returns the events of a Pod does not matter, as
    long as no two events with one reason carry the same timestamp. *)
Theorem deriveTransition_order_independent now pod podFound events events' :
  events ≡ₚ events' -> no_ties events ->
  deriveTransition now pod podFound events = deriveTransition now pod podFound events'.
Proof.
  intros Hp Ht. run_pure. unfold candidateNodesFrom.
  by rewrite !(latest_perm events events' _ Hp Ht).
Qed.

(** C27. The latency is the time from creation to outcome in whole milliseconds,
    never negative and saturated at the largest duration (about 292 years). *)
Theorem latencyMs_spec start end_ :
  valid_time start -> valid_time end_ ->
  latencyMs start end_ =
    Z.min int64_max (Z.max 0 (instant end_ - instant start)) / 10 ^ 6.
Proof.
  intros Hs He. unfold latencyMs, Milliseconds.
  rewrite Before_After, After_spec, Sub_clamp by done. case_bool_decide.
  - rewrite Z.max_l by lia. done.
  - rewrite Z.quot_div_nonneg by solve_time. f_equal. solve_time.
Qed.

Lemma derive_node_ok now pod podFound events i t :
  deriveTransition now pod podFound events = Some (i, t) -> node_ok t.
Proof.
  intros (ev & _ & _ & Ht)%derive_spec. intros Hn.
  rewrite (reports_node _ _ _ _ _ _ Ht) in Hn.
  rewrite (reports_outcome _ _ _ _ _ _ Ht). by destruct ev.
Qed.

Lemma derive_outcome now pod podFound events i t :
  deriveTransition now pod podFound events = Some (i, t) ->
  terminal_outcome (tr_Outcome t).
Proof.
  intros (ev & _ & _ & Ht)%derive_spec.
  rewrite (reports_outcome _ _ _ _ _ _ Ht). by destruct ev; apply (bool_decide_unpack _).
Qed.

(** The identity derived from a live pod is the pod's own. *)
Lemma derive_identity now pod events i t :
  deriveTransition now pod true events = Some (i, t) ->
  id_UID i = pod_UID pod /\ id_Name i = pod_Name pod /\ id_Namespace i = pod_Namespace pod.
Proof. intros (ev & _ & [_ Hi] & _)%derive_spec. done. Qed.

(** Without a live pod only a preemption is reported. *)
Lemma derive_gone now pod events i t :
  deriveTransition now pod false events = Some (i, t) ->
  exists e, is_latest events eventReasonPreempted e /\ id_UID i = or_UID (ev_InvolvedObject e).
Proof.
  intros (ev & Hev & [_ Hi] & _)%derive_spec.
  inversion Hev; subst. simpl in *. naive_solver.
Qed.

(** A latency is between 0 and the largest number of milliseconds a duration holds. *)
Lemma derive_latency now pod podFound events i t :
  deriveTransition now pod podFound events = Some (i, t) ->
  valid_time (pod_CreationTimestamp pod) -> valid_time (tr_DecisionTimestamp t) ->
  0 <= tr_SchedulingLatencyMs t <= int64_max / 10 ^ 6.
Proof.
  intros (ev & _ & _ & Hr)%derive_spec Hc Ht.
  rewrite (reports_time _ _ _ _ _ _ Hr) in Ht.
  rewrite (reports_latency _ _ _ _ _ _ Hr). destruct podFound; [|split_and?; try done; lia].
  unfold latencyMs, Milliseconds. case_match eqn:Hb; [by vm_compute|].
  rewrite Before_After, After_spec in Hb by done. bool_simpl.
  rewrite Sub_clamp by done. rewrite Z.quot_div_nonneg by solve_time. split.
  - apply Z.div_pos; [solve_time|lia].
  - apply Z.div_le_mono; [lia|solve_time].
Qed.

(** A transition is dated by the condition, an event or the clock. *)
Lemma decisionTimestamp_cases (P : Time -> Prop) now cond event :
  P now -> (forall e, event = Some e -> P (eventTimestamp e)) ->
  (forall c, cond = Some c -> IsZero (pc_LastTransitionTime c) = false ->
     P (pc_LastTransitionTime c)) ->
  P (decisionTimestamp now cond event).
Proof.
  intros Hnow Hev Hc. unfold decisionTimestamp, decisionTimestampM.
  destruct cond as [c|]; [destruct (IsZero (pc_LastTransitionTime c)) eqn:Hz; simpl|];
    [|by apply Hc|]; (destruct event; [by apply Hev|done]).
Qed.

Lemma derive_time (P : Time -> Prop) now pod podFound events i t :
  deriveTransition now pod podFound events = Some (i, t) ->
  P now -> (forall e, e ∈ events -> P (eventTimestamp e)) ->
  (forall c, c ∈ pod_Conditions pod -> IsZero (pc_LastTransitionTime c) = false ->
     P (pc_LastTransitionTime c)) ->
  P (tr_DecisionTimestamp t).
Proof.
  intros (ev & Hs & _ & Hr)%derive_spec Hnow Hev Hpod.
  rewrite (reports_time _ _ _ _ _ _ Hr).
  assert (forall c, has_condition pod c -> c ∈ pod_Conditions pod) as Hc
    by (intros c (l1 & l2 & -> & _); set_solver).
  assert (forall reason o e, latest_opt events reason o -> o = Some e -> P (eventTimestamp e))
    as Hl by (intros reason o e Ho ->; by eapply Hev, is_latest_elem).
  inversion Hs; subst; cbn [evidence_time]; [by eapply Hev, is_latest_elem|..];
    apply decisionTimestamp_cases; try done; intros ? Heq; simplify_eq; eauto using is_latest_elem.
Qed.

(** No derived candidate node has a score. *)
Lemma derive_scores now pod podFound events i t :
  deriveTransition now pod podFound events = Some (i, t) ->
  Forall (fun n => cn_Score n = None) (tr_CandidateNodes t).
Proof.
  intros (ev & _ & _ & Hr)%derive_spec. rewrite (reports_candidates _ _ _ _ _ _ Hr).
  assert (Forall (fun n => cn_Score n = None) (candidateNodesFrom events)) as Hc.
  { unfold candidateNodesFrom. case_match; [|done]. split_if; [done|].
    apply Forall_forall. intros n (x & Hn & _)%list_elem_of_bind.
    unfold candidate_of in Hn. case_bool_decide; [by apply not_elem_of_nil in Hn|].
    by apply list_elem_of_singleton in Hn as ->. }
  by destruct ev.
Qed.

(** C26. A derived transition has one of the three outcomes the CRD accepts, names
    a node only when the outcome is Scheduled, and takes a latency between 0 and
    the largest number of milliseconds a duration holds. *)
Theorem deriveTransition_wellformed now pod podFound events i t :
  deriveTransition now pod podFound events = Some (i, t) ->
  valid_time (pod_CreationTimestamp pod) -> valid_time (tr_DecisionTimestamp t) ->
  terminal_outcome (tr_Outcome t) /\ node_ok t /\
  0 <= tr_SchedulingLatencyMs t <= int64_max / 10 ^ 6.
Proof.
  intros Hd Hc Ht. split; [by eapply derive_outcome|]. split; [by eapply derive_node_ok|].
  by eapply derive_latency.
Qed.

(** C37. A Preempted event is decisive whatever the pod's own status says, and the
    event's involved UID is not consulted: a pod that was recreated under the
    same name, and is even bound, is recorded as Preempted under its new UID as
    long as the old event is listed for that name. *)
Theorem deriveTransition_stale_preemption now pod events e :
  is_latest events eventReasonPreempted e ->
  exists i t, deriveTransition now pod true events = Some (i, t) /\
    id_UID i = pod_UID pod /\ tr_Outcome t = SchedulingOutcomePreempted /\
    tr_ChosenNode t = "" /\ sr_EventUID (tr_SourceRef t) = ev_UID e.
Proof.
  intros He. rewrite (supports_derive now pod true events (PreemptedEvidence e))
    by by constructor.
  by eexists _, _.
Qed.

(** ** Lemmas: recording *)

#[global] Instance transitionsEqual_refl : Reflexive (fun a b => transitionsEqual a b = true).
Proof.
  intros t. unfold transitionsEqual. rewrite !bool_decide_eq_true_2 by done.
  apply Equal_refl.
Qed.

Lemma transitionsEqual_spec a b :
  transitionsEqual a b = true <->
  tr_Outcome a = tr_Outcome b /\ tr_ChosenNode a = tr_ChosenNode b /\
  tr_ReasonSummary a = tr_ReasonSummary b /\
  tr_DecisionTimestamp a = tr_DecisionTimestamp b.
Proof.
  unfold transitionsEqual.
  rewrite !andb_true_iff, !bool_decide_eq_true, Equal_spec. naive_solver.
Qed.

(** Being the same observation is an equivalence on transitions. *)
#[global] Instance transitionsEqual_equiv :
  Equivalence (fun a b => transitionsEqual a b = true).
Proof.
  split; [apply _| |]; intros ?; setoid_rewrite transitionsEqual_spec; intuition congruence.
Qed.

#[global] Instance transitionsEqual_proper :
  Proper ((fun a b => transitionsEqual a b = true) ==>
          (fun a b => transitionsEqual a b = true) ==> eq) transitionsEqual.
Proof.
  intros a a' Ha b b' Hb. apply eq_bool_prop_intro. rewrite !Is_true_true.
  rewrite !transitionsEqual_spec. rewrite !transitionsEqual_spec in Ha, Hb.
  intuition congruence.
Qed.

Lemma applyTransition_last s t : last (st_Transitions (applyTransition s t)) = Some t.
Proof. apply last_snoc. Qed.

Lemma applyTransition_mirrors s t : status_mirrors (applyTransition s t).
Proof. unfold status_mirrors. by rewrite applyTransition_last. Qed.

Lemma Status_zero_mirrors : status_mirrors Status_zero.
Proof. done. Qed.

Lemma decisionName_inj u v : decisionName u = decisionName v -> u = v.
Proof. unfold decisionName. simpl. by intros [=]. Qed.

#[export] Hint Resolve applyTransition_mirrors Status_zero_mirrors derive_node_ok : audit.
