(* ===== verification/Effects.v ===== *)
(** * Effects: programs that call the Kubernetes API

    The handlers of the program talk to the API server (through
    controller-runtime's client), the clock, the log and the process. Those are
    not part of the repository: a program is a tree of calls, [prog], whose
    answers come from outside, so every theorem about a handler holds for every
    behaviour of the server, cached reads included, unless it names an
    assumption on the answers.

    - [call] lists the calls the source makes, with the type of their answers;
    - [runs] and [exec] give the traces of a program, relationally and against a
      concrete server;
    - [wp] is a small rely/guarantee logic: [G] constrains the calls a program
      may make after a history, [R] the answers it may count on;
    - [RetryOnError] is the interface of client-go's [retry.OnError]. *)

From S2P Require Import Prelude Strconv GoTime Api.

(** ** Errors *)

(** The [metav1.StatusReason]s the program distinguishes. *)
Inductive StatusReason :=
  | StatusReasonNotFound
  | StatusReasonAlreadyExists
  | StatusReasonConflict
  | StatusReasonOther (reason : string).

(** An [error]: an API status, a [strconv.NumError], another library's error, or
    [fmt.Errorf] of a format, its arguments and the error wrapped by [%w]. *)
Inductive error :=
  | StatusError (reason : StatusReason) (message : string)
  | NumError (func num : string) (err : num_error)
  | OtherError (message : string)
  | Errorf (format : string) (args : list string) (wrapped : option error).

#[global] Instance StatusReason_eq_dec : EqDecision StatusReason.
Proof. solve_decision. Defined.

(** [apierrors.ReasonForError]: the reason of the API status an error is or wraps. *)
Fixpoint ReasonForError (err : error) : option StatusReason :=
  match err with
  | StatusError r _ => Some r
  | Errorf _ _ (Some e) => ReasonForError e
  | _ => None
  end.

Definition IsNotFound (err : error) : bool :=
  bool_decide (ReasonForError err = Some StatusReasonNotFound).
Definition IsAlreadyExists (err : error) : bool :=
  bool_decide (ReasonForError err = Some StatusReasonAlreadyExists).
Definition IsConflict (err : error) : bool :=
  bool_decide (ReasonForError err = Some StatusReasonConflict).

(** ** Calls and their answers *)

Inductive call :=
  (* reads *)
  | ListEvents (namespace nsName : string)
  | GetPod (key : NamespacedName)
  | GetPVC (key : NamespacedName)
  | GetStorageClass (name : string)
  | GetDecision (name : string)
  | ListDecisions
  (* writes *)
  | CreateDecision (d : SchedulingDecision)
  | UpdateDecisionStatus (d : SchedulingDecision)
  | DeleteDecision (d : SchedulingDecision)
  | CreateEvent (e : Event)
  (* the clock, the log, the process *)
  | Now
  | Log (format : string) (args : list string) (err : option error)
  | Exit (code : Z).

(** A result [(T, error)] is a sum, a lone [error] an option ([None] is nil), and
    [os.Exit] does not answer. *)
Definition answer (c : call) : Type :=
  match c with
  | ListEvents _ _ => fallible error (list Event)
  | GetPod _ => fallible error Pod
  | GetPVC _ => fallible error PersistentVolumeClaim
  | GetStorageClass _ => fallible error StorageClass
  | GetDecision _ => fallible error SchedulingDecision
  | ListDecisions => fallible error (list SchedulingDecision)
  | CreateDecision _ | UpdateDecisionStatus _ | DeleteDecision _ | CreateEvent _ =>
      option error
  | Now => Time
  | Log _ _ _ => unit
  | Exit _ => Empty_set
  end.

(** The calls that change API objects. *)
Definition is_write (c : call) : bool :=
  match c with
  | CreateDecision _ | UpdateDecisionStatus _ | DeleteDecision _ | CreateEvent _ => true
  | _ => false
  end.

(** ** Programs *)

Inductive prog (A : Type) : Type :=
  | Ret (a : A)
  | Call (c : call) (k : answer c -> prog A).
Arguments Ret {A} a.
Arguments Call {A} c k.

Fixpoint prog_bind {A B} (f : A -> prog B) (p : prog A) : prog B :=
  match p with
  | Ret a => f a
  | Call c k => Call c (fun r => prog_bind f (k r))
  end.

#[global] Instance prog_ret : MRet prog := @Ret.
#[global] Instance prog_mbind : MBind prog := @prog_bind.

(** Make one call. *)
Definition do_call (c : call) : prog (answer c) := Call c Ret.

(** ** Runs *)

Record exchange := Exch { ex_call : call; ex_answer : answer ex_call }.

(** [runs p tr a]: [p] returns [a] after the calls of [tr], answered as in [tr]. *)
Fixpoint runs {A} (p : prog A) (tr : list exchange) (a : A) : Prop :=
  match p with
  | Ret b => tr = [] /\ a = b
  | Call c k => exists r tr', tr = Exch c r :: tr' /\ runs (k r) tr' a
  end.

(** [exits p tr code]: after the exchanges of [tr], [p] calls [os.Exit(code)]. *)
Fixpoint exits {A} (p : prog A) (tr : list exchange) (code : Z) : Prop :=
  match p with
  | Ret _ => False
  | Call c k =>
      (c = Exit code /\ tr = []) \/
      exists r tr', tr = Exch c r :: tr' /\ exits (k r) tr' code
  end.

(** A server with states [W] answers calls; it gives no answer to [Exit]. *)
Definition server (W : Type) : Type := forall c : call, W -> option (answer c) * W.

(** Run against a server; [None] if a call was not answered. *)
Fixpoint exec {W A} (srv : server W) (p : prog A) (w : W) : option A * list exchange * W :=
  match p with
  | Ret a => (Some a, [], w)
  | Call c k =>
      match srv c w with
      | (Some r, w') =>
          let '(a, tr, w'') := exec srv (k r) w' in (a, Exch c r :: tr, w'')
      | (None, w') => (None, [], w')
      end
  end.

(** A server that answers every call but [os.Exit]. *)
Definition answering {W} (srv : server W) : Prop :=
  forall c w, (forall code, c <> Exit code) -> exists a w', srv c w = (Some a, w').

(** The calls of a trace that satisfy a test. *)
Definition calls_of (tr : list exchange) : list call := map ex_call tr.
Definition writes_of (tr : list exchange) : list call :=
  filter (fun c => is_write c = true) (calls_of tr).

(** The error an exchange was answered with, if any. *)
Definition exchange_error (x : exchange) : option error :=
  match x with
  | Exch c r =>
      match c return answer c -> option error with
      | ListEvents _ _ | GetPod _ | GetPVC _ | GetStorageClass _ | GetDecision _
      | ListDecisions => fun r => match r with inl e => Some e | inr _ => None end
      | CreateDecision _ | UpdateDecisionStatus _ | DeleteDecision _ | CreateEvent _ =>
          fun r => r
      | Now | Log _ _ _ | Exit _ => fun _ => None
      end r
  end.

(** ** The rely/guarantee logic *)

Section wp.
Context (G : list exchange -> call -> Prop).
Context (R : list exchange -> forall c, answer c -> Prop).

(** From history [h], [p] only makes calls allowed by [G]; if all answers satisfy
    [R], it returns only in situations satisfying [Q]. *)
Fixpoint wp {A} (p : prog A) (Q : list exchange -> A -> Prop) (h : list exchange) : Prop :=
  match p with
  | Ret a => Q h a
  | Call c k => G h c /\ forall r, R h c r -> wp (k r) Q (h ++ [Exch c r])
  end.
End wp.

(** All answers of a trace satisfy the rely condition, given the history before. *)
Fixpoint answers_ok (R : list exchange -> forall c, answer c -> Prop)
    (h tr : list exchange) : Prop :=
  match tr with
  | [] => True
  | x :: tr' => R h (ex_call x) (ex_answer x) /\ answers_ok R (h ++ [x]) tr'
  end.

(** All calls of a trace satisfy the guarantee. *)
Fixpoint calls_ok (G : list exchange -> call -> Prop) (h tr : list exchange) : Prop :=
  match tr with
  | [] => True
  | x :: tr' => G h (ex_call x) /\ calls_ok G (h ++ [x]) tr'
  end.

(** No constraint. *)
Definition any_call : list exchange -> call -> Prop := fun _ _ => True.
Definition any_answer : list exchange -> forall c, answer c -> Prop := fun _ _ _ => True.

(** ** [retry.OnError] *)

(** At most [n] attempts of [fn]: a nil error or one that is not retriable is
    returned at once, a retriable one only after the last attempt. *)
Fixpoint attempts (retriable : error -> bool) (fn : prog (option error)) (n : nat)
    : prog (option error) :=
  match n with
  | O => mret None
  | S n' =>
      err ← fn;
      match err with
      | None => mret None
      | Some e =>
          if retriable e then
            match n' with O => mret (Some e) | S _ => attempts retriable fn n' end
          else mret (Some e)
      end
  end.

(** The documented contract of [retry.OnError] with [retry.DefaultBackoff]: it
    retries while the error is retriable, as many times as the backoff has
    steps (at least one), and returns the last error. The waits between
    attempts make no call. What happens to a call interrupted by the end of the
    process is outside this contract. *)
Class RetryOnError := {
  OnError : (error -> bool) -> prog (option error) -> prog (option error);
  OnError_steps : nat;
  OnError_steps_pos : (0 < OnError_steps)%nat;
  OnError_attempts retriable fn :
    OnError retriable fn = attempts retriable fn OnError_steps;
}.

(** ** Lemmas *)

Lemma runs_bind {A B} (p : prog A) (f : A -> prog B) tr b :
  runs (p ≫= f) tr b <->
  exists tr1 tr2 a, tr = tr1 ++ tr2 /\ runs p tr1 a /\ runs (f a) tr2 b.
Proof.
  revert tr. induction p as [a|c k IH]; intros tr; simpl.
  - split.
    + intros. by exists [], tr, a.
    + intros (? & ? & ? & -> & [-> ->] & ?). done.
  - split.
    + intros (r & tr' & -> & (tr1 & tr2 & a & -> & ? & ?)%IH).
      exists (Exch c r :: tr1), tr2, a. split_and!; [done| |done]. by exists r, tr1.
    + intros (tr1 & tr2 & a & -> & (r & tr' & -> & ?) & ?).
      exists r, (tr' ++ tr2). split; [done|]. apply IH. by exists tr', tr2, a.
Qed.

Lemma runs_ret {A} (a b : A) tr : runs (mret a) tr b <-> tr = [] /\ b = a.
Proof. done. Qed.

Lemma runs_do_call c tr r : runs (do_call c) tr r <-> tr = [Exch c r].
Proof.
  simpl. split.
  - by intros (r' & ? & -> & -> & ->).
  - intros ->. by exists r, [].
Qed.

Lemma exits_bind {A B} (p : prog A) (f : A -> prog B) tr code :
  exits (p ≫= f) tr code ->
  exits p tr code \/
  exists tr1 tr2 a, tr = tr1 ++ tr2 /\ runs p tr1 a /\ exits (f a) tr2 code.
Proof.
  revert tr. induction p as [a|c k IH]; intros tr; simpl.
  - intros Hx. right. by exists [], tr, a.
  - intros [?|(r & tr' & -> & [Hx|(tr1 & tr2 & a & -> & ? & ?)]%IH)].
    + by do 2 left.
    + left. right. by exists r, tr'.
    + right. exists (Exch c r :: tr1), tr2, a. split_and!; [done| |done]. by exists r, tr1.
Qed.

Lemma exec_runs {W A} (srv : server W) (p : prog A) w a tr w' :
  exec srv p w = (Some a, tr, w') -> runs p tr a.
Proof.
  revert w tr. induction p as [b|c k IH]; intros w tr; simpl; [naive_solver|].
  destruct (srv c w) as [[r|] w1]; [|done].
  destruct (exec srv (k r) w1) as [[oa tr'] w2] eqn:He. intros ?; simplify_eq.
  exists r, tr'. split; [done|]. by eapply IH.
Qed.

(** Every program terminates: against an answering server it returns or exits. *)
Lemma exec_ends {W A} (srv : server W) (p : prog A) w :
  answering srv ->
  (exists a tr w', exec srv p w = (Some a, tr, w') /\ runs p tr a) \/
  (exists tr w' code, exec srv p w = (None, tr, w') /\ exits p tr code).
Proof.
  intros Hs. revert w. induction p as [a|c k IH]; intros w; simpl.
  { left. by exists a, [], w. }
  destruct (srv c w) as [[r|] w1] eqn:Hc.
  - destruct (IH r w1) as [(a & tr & w' & -> & ?)|(tr & w' & code & -> & ?)].
    + left. exists a, (Exch c r :: tr), w'. split; [done|]. by exists r, tr.
    + right. exists (Exch c r :: tr), w', code. split; [done|]. right. by exists r, tr.
  - right. destruct c as [| | | | | | | | | | | |code];
      try (edestruct Hs as (? & ? & He); [|rewrite Hc in He; discriminate He];
           intros ? ?; discriminate).
    exists [], w1, code. split; [done|]. by left.
Qed.

Section wp_rules.
Context (G : list exchange -> call -> Prop).
Context (R : list exchange -> forall c, answer c -> Prop).

Lemma wp_ret {A} (a : A) (Q : list exchange -> A -> Prop) h :
  Q h a -> wp G R (mret a) Q h.
Proof. done. Qed.

Lemma wp_bind {A B} (p : prog A) (f : A -> prog B) Q h :
  wp G R p (fun h' a => wp G R (f a) Q h') h -> wp G R (p ≫= f) Q h.
Proof.
  revert h. induction p as [a|c k IH]; intros h; simpl; [done|].
  intros [HG Hk]. split; [done|]. intros r Hr. by apply IH, Hk.
Qed.

Lemma wp_do_call c Q h :
  G h c -> (forall r, R h c r -> Q (h ++ [Exch c r]) r) -> wp G R (do_call c) Q h.
Proof. done. Qed.

Lemma wp_mono {A} (p : prog A) (Q Q' : list exchange -> A -> Prop) h :
  (forall h' a, Q h' a -> Q' h' a) -> wp G R p Q h -> wp G R p Q' h.
Proof.
  intros HQ. revert h. induction p as [a|c k IH]; intros h; simpl; [by apply HQ|].
  intros [HG Hk]. split; [done|]. intros r Hr. by apply IH, Hk.
Qed.

#[global] Instance wp_proper {A} (p : prog A) :
  Proper (pointwise_relation _ (pointwise_relation _ impl) ==> eq ==> impl) (wp G R p).
Proof. intros Q Q' HQ h ? <-. intros Hp. eapply wp_mono; [|exact Hp]. apply HQ. Qed.

(** A weaker guarantee. *)
Lemma wp_weaken {A} (G' : list exchange -> call -> Prop) (p : prog A) Q h :
  (forall h' c, G h' c -> G' h' c) -> wp G R p Q h -> wp G' R p Q h.
Proof.
  intros HG. revert h. induction p as [a|c k IH]; intros h; simpl; [done|].
  intros [Hc Hk]. split; [by apply HG|]. intros r Hr. by apply IH, Hk.
Qed.

(** What every allowed call preserves holds at every call. *)
Lemma wp_inv {A} (I : list exchange -> Prop) (p : prog A) Q h :
  (forall h c r, G h c -> I h -> I (h ++ [Exch c r])) ->
  wp G R p Q h -> I h -> wp (fun h c => G h c /\ I h) R p (fun h a => Q h a /\ I h) h.
Proof.
  intros HI. revert h. induction p as [a|c k IH]; intros h; simpl; [done|].
  intros [HG Hk] Hh. split; [done|]. intros r Hr. apply IH; [by apply Hk|by apply HI].
Qed.

(** The history only grows. *)
Lemma wp_prefix {A} (p : prog A) Q h :
  wp G R p Q h -> wp G R p (fun h' a => h `prefix_of` h' /\ Q h' a) h.
Proof.
  revert h. induction p as [a|c k IH]; intros h; simpl; [done|].
  intros [HG Hk]. split; [done|]. intros r Hr.
  eapply wp_mono; [|by apply IH, Hk]. intros h' a [Hpre HQ]. split; [|done].
  etrans; [|exact Hpre]. by exists [Exch c r].
Qed.

(** Retried functions: [I m] holds when [m] attempts are left, [Q] of each
    attempt's result. *)
Lemma wp_attempts retriable fn n (I : nat -> list exchange -> Prop)
    (Q : list exchange -> option error -> Prop) h :
  (0 < n)%nat -> I n h ->
  (forall m h', I (S m) h' ->
    wp G R fn (fun h'' err => Q h'' err /\
      forall e, err = Some e -> retriable e = true -> I m h'') h') ->
  wp G R (attempts retriable fn n) Q h.
Proof.
  intros Hn HI Hfn. revert h HI. induction n as [|n IH]; intros h HI; [lia|].
  cbn [attempts]. apply wp_bind. eapply wp_mono; [|by apply Hfn].
  intros h' [e|] [HQ HI']; [|done]. simpl. destruct (retriable e) eqn:He; [|done].
  destruct n; [done|]. apply IH; [lia|by apply (HI' e)].
Qed.

Lemma wp_OnError_retriable `{!RetryOnError} retriable fn (I : nat -> list exchange -> Prop)
    (Q : list exchange -> option error -> Prop) h :
  I OnError_steps h ->
  (forall m h', I (S m) h' ->
    wp G R fn (fun h'' err => Q h'' err /\
      forall e, err = Some e -> retriable e = true -> I m h'') h') ->
  wp G R (OnError retriable fn) Q h.
Proof.
  intros. rewrite OnError_attempts. eapply wp_attempts; eauto using OnError_steps_pos.
Qed.

Lemma wp_OnError `{!RetryOnError} retriable fn (I : nat -> list exchange -> Prop)
    (Q : list exchange -> option error -> Prop) h :
  I OnError_steps h ->
  (forall m h', I (S m) h' ->
    wp G R fn (fun h'' err => Q h'' err /\ (err <> None -> I m h'')) h') ->
  wp G R (OnError retriable fn) Q h.
Proof.
  intros HI Hfn. apply (wp_OnError_retriable _ _ I); [done|]. intros m h' Hm.
  eapply wp_mono; [|by apply Hfn]. intros h'' err [HQ Hnext]. split; [done|].
  intros e -> _. by apply Hnext.
Qed.

(** Soundness: in a run whose answers satisfy the rely condition, every call
    satisfies the guarantee and the result the postcondition. *)
Lemma wp_sound {A} (p : prog A) Q h tr a :
  wp G R p Q h -> runs p tr a -> answers_ok R h tr ->
  calls_ok G h tr /\ Q (h ++ tr) a.
Proof.
  revert h tr. induction p as [b|c k IH]; intros h tr; simpl.
  - intros HQ [-> ->] _. by rewrite app_nil_r.
  - intros [HG Hk] (r & tr' & -> & Hr) [HR Hok]. simpl in *.
    destruct (IH r (h ++ [Exch c r]) tr') as [? HQ]; [by apply Hk|done|done|].
    split; [done|]. by rewrite <- app_assoc in HQ.
Qed.

(** The same for an execution that ends in [os.Exit]. *)
Lemma wp_exits {A} (p : prog A) Q h tr code :
  wp G R p Q h -> exits p tr code -> answers_ok R h tr ->
  calls_ok G h tr /\ G (h ++ tr) (Exit code).
Proof.
  revert h tr. induction p as [b|c k IH]; intros h tr; simpl; [done|].
  intros [HG Hk] [[-> ->]|(r & tr' & -> & Hr)].
  - by rewrite app_nil_r.
  - intros [HR Hok]. simpl in *.
    destruct (IH r (h ++ [Exch c r]) tr') as [? HQ]; [by apply Hk|done|done|].
    split; [done|]. by rewrite <- app_assoc in HQ.
Qed.
End wp_rules.

Lemma answers_any h tr : answers_ok any_answer h tr.
Proof. revert h. induction tr as [|x tr IH]; intros h; simpl; [done|]. by split. Qed.

(** A program whose calls all satisfy [P] extends the history by such calls. *)
Lemma wp_extends {A} (P : call -> Prop) R (p : prog A) Q h :
  wp (fun _ => P) R p Q h ->
  wp (fun _ => P) R p
    (fun h' a => Q h' a /\ exists k, h' = h ++ k /\ Forall P (calls_of k)) h.
Proof.
  revert h. induction p as [a|c k IH]; intros h; simpl.
  - intros HQ. split; [done|]. exists []. by rewrite app_nil_r.
  - intros [HG Hk]. split; [done|]. intros r Hr.
    eapply wp_mono; [|by apply IH, Hk]. intros h' a (HQ & k' & -> & Hk'). split; [done|].
    exists (Exch c r :: k'). rewrite <- app_assoc. split; [done|]. by constructor.
Qed.

Lemma wp_any_exits {A} G (p : prog A) Q tr code :
  wp G any_answer p Q [] -> exits p tr code -> calls_ok G [] tr /\ G tr (Exit code).
Proof.
  intros Hp Hr. destruct (wp_exits _ _ _ _ _ _ _ Hp Hr) as [? HQ]; [|done].
  apply answers_any.
Qed.

Lemma answers_ok_intro (R : list exchange -> forall c, answer c -> Prop) h tr :
  (forall pre x post, tr = pre ++ x :: post ->
     R (h ++ pre) (ex_call x) (ex_answer x)) ->
  answers_ok R h tr.
Proof.
  revert h. induction tr as [|x tr IH]; intros h Hx; simpl; [done|]. split.
  - rewrite <- (app_nil_r h). by apply (Hx [] x tr).
  - apply IH. intros pre y post ->. rewrite <- app_assoc.
    by apply (Hx (x :: pre) y post).
Qed.

(** Without assumptions on the answers. *)
Lemma wp_runs {A} G (p : prog A) Q tr a :
  wp G any_answer p Q [] -> runs p tr a -> calls_ok G [] tr /\ Q tr a.
Proof.
  intros Hp Hr. destruct (wp_sound _ _ _ _ _ _ _ Hp Hr) as [? HQ]; [|done].
  apply answers_any.
Qed.

(** A guarantee that ignores the history holds of every call of a trace. *)
Lemma calls_ok_Forall (G : call -> Prop) h tr :
  calls_ok (fun _ => G) h tr <-> Forall G (calls_of tr).
Proof.
  revert h. induction tr as [|x tr IH]; intros h; simpl; [by split|].
  by rewrite IH, Forall_cons.
Qed.

Lemma calls_ok_weaken (G G' : list exchange -> call -> Prop) h tr :
  (forall h' c, G h' c -> G' h' c) -> calls_ok G h tr -> calls_ok G' h tr.
Proof.
  intros HG. revert h. induction tr as [|x tr IH]; intros h; simpl; [done|].
  intros []. split; [by apply HG|by apply IH].
Qed.

(** The guarantee of one call of a trace. *)
Lemma calls_ok_elem G h pre x post :
  calls_ok G h (pre ++ x :: post) -> G (h ++ pre) (ex_call x).
Proof.
  revert h. induction pre as [|y pre IH]; intros h; simpl.
  - rewrite app_nil_r. by intros [].
  - intros [_ H]. specialize (IH _ H). by rewrite <- app_assoc in IH.
Qed.

Lemma calls_of_app h k : calls_of (h ++ k) = calls_of h ++ calls_of k.
Proof. apply map_app. Qed.

Lemma writes_of_app h k : writes_of (h ++ k) = writes_of h ++ writes_of k.
Proof. unfold writes_of. by rewrite calls_of_app, filter_app. Qed.

Lemma writes_of_none k :
  Forall (fun c => is_write c = false) (calls_of k) -> writes_of k = [].
Proof.
  unfold writes_of. induction 1 as [|c cs Hc _ IH]; [done|].
  rewrite filter_cons_False; [done|]. by rewrite Hc.
Qed.

Lemma writes_of_single c r :
  writes_of [Exch c r] = if is_write c then [c] else [].
Proof. unfold writes_of; simpl. destruct (is_write c) eqn:Hc; simpl.
  - by rewrite filter_cons_True.
  - rewrite filter_cons_False; [done|]. by rewrite Hc.
Qed.

#[export] Hint Resolve answers_any wp_ret wp_do_call : audit.

#[global] Arguments wp G R {A} p Q h : simpl never.
#[global] Arguments do_call c : simpl never.

(** [wp_step r H]: run the next call of a program, naming its answer [r] and
    what the rely condition says of it [H]. The guarantee is left first when it
    is not trivial. *)
Ltac wp_step r H :=
  first
    [ apply wp_bind, wp_do_call; [try done|intros r H; simpl in r, H]
    | apply wp_do_call; [try done|intros r H; simpl in r, H] ].
