(* ===== verification/VolumeContext.v ===== *)
(** * [controllers/volumecontext.go]: the storage behind a pod

    From a pod's volumes to the claim, storage class and provisioner that shaped
    its placement. Claims and storage classes are read through the API, so the
    two resolving functions are programs; a result made
    of a pointer and an error is a sum whose right side is an option. *)

From S2P Require Import Prelude GoTime GoStrings Api Effects.

(** ** Operations *)

Definition provisionerDriverLabels : gmap string string :=
  list_to_map [
    ("csi.purestorage.com", "FADA");
    ("pxd.portworx.com", "PX-CSI");
    ("csi.vsphere.vmware.com", "vsphere-csi");
    ("kubernetes.io/aws-ebs", "aws-ebs");
    ("ebs.csi.aws.com", "aws-ebs-csi");
    ("disk.csi.azure.com", "azure-disk-csi");
    ("pd.csi.storage.gke.io", "gce-pd-csi")
  ]%string.

Definition driverLabelForProvisioner (provisioner : string) : string :=
  match provisionerDriverLabels !! provisioner with
  | Some label => label
  | None => provisioner
  end.

(** One part of the summary: [fmt.Sprintf("%s in (%s)", ...)]. *)
Definition topology_part (expr : TopologySelectorLabelRequirement) : string :=
  tsl_Key expr +:+ " in (" +:+ Join (tsl_Values expr) "," +:+ ")".

(** The two nested loops append one part per expression of each term. *)
Definition summarizeTopology (terms : list TopologySelectorTerm) : string :=
  let parts := terms ≫= fun term => topology_part <$> term in
  Join parts "; ".

Definition volumeContextFromPVC (pvc : PersistentVolumeClaim)
    : prog (fallible error (option VolumeContext)) :=
  let volCtx := mkVolumeContext (pvc_Name pvc) "" "" "" "" in
  match pvc_StorageClassName pvc with
  | None => mret (inr (Some volCtx))
  | Some storageClass =>
      if storageClass =?s "" then mret (inr (Some volCtx))
      else
        let volCtx := mkVolumeContext (pvc_Name pvc) storageClass "" "" "" in
        r ← do_call (GetStorageClass storageClass);
        match r with
        | inl err =>
            if IsNotFound err then mret (inr (Some volCtx))
            else mret (inl (Errorf "getting StorageClass %s: %w" [storageClass] (Some err)))
        | inr sc =>
            mret (inr (Some
              (mkVolumeContext (pvc_Name pvc) storageClass
                (driverLabelForProvisioner (sc_Provisioner sc))
                (match sc_VolumeBindingMode sc with Some m => m | None => "" end)
                (summarizeTopology (sc_AllowedTopologies sc)))))
        end
  end.

(** The loop over the volumes, in the pod's namespace. *)
Fixpoint resolve_volumes (namespace : string) (vols : list Volume)
    : prog (fallible error (option VolumeContext)) :=
  match vols with
  | [] => mret (inr None)
  | vol :: rest =>
      match vol_PersistentVolumeClaim vol with
      | None => resolve_volumes namespace rest
      | Some claimName =>
          let pvcKey := mkNamespacedName namespace claimName in
          r ← do_call (GetPVC pvcKey);
          match r with
          | inl err =>
              if IsNotFound err then resolve_volumes namespace rest
              else mret (inl (Errorf "getting PVC %s: %w"
                                [NamespacedName_String pvcKey] (Some err)))
          | inr pvc => volumeContextFromPVC pvc
          end
      end
  end.

Definition resolveVolumeContext (pod : Pod)
    : prog (fallible error (option VolumeContext)) :=
  resolve_volumes (pod_Namespace pod) (pod_Volumes pod).

(** ** Specification

    Against an API whose claims and storage classes are given by two lookup
    functions. *)

Section resolve_spec.
Context (pvcs : NamespacedName -> fallible error PersistentVolumeClaim).
Context (classes : string -> fallible error StorageClass).

(** The answers of that API. *)
Definition storage_answers (h : list exchange) (c : call) : answer c -> Prop :=
  match c with
  | GetPVC key => fun r => r = pvcs key
  | GetStorageClass name => fun r => r = classes name
  | _ => fun _ => True
  end.

Definition missing {A} (r : fallible error A) : Prop :=
  exists e, r = inl e /\ IsNotFound e = true.

(** The claims of the pod's PVC-backed volumes, in order. *)
Definition claims_of (pod : Pod) : list NamespacedName :=
  mkNamespacedName (pod_Namespace pod) <$> omap vol_PersistentVolumeClaim (pod_Volumes pod).

(** The context a found claim gives: the fields beyond the claim are empty when
    the claim names no class, and those beyond the class when it is not found. *)
Inductive describes (pvc : PersistentVolumeClaim)
    : fallible error (option VolumeContext) -> Prop :=
  | describes_no_class :
      pvc_StorageClassName pvc = None \/ pvc_StorageClassName pvc = Some "" ->
      describes pvc (inr (Some (mkVolumeContext (pvc_Name pvc) "" "" "" "")))
  | describes_missing_class name :
      pvc_StorageClassName pvc = Some name -> name <> "" -> missing (classes name) ->
      describes pvc (inr (Some (mkVolumeContext (pvc_Name pvc) name "" "" "")))
  | describes_class name sc :
      pvc_StorageClassName pvc = Some name -> name <> "" -> classes name = inr sc ->
      describes pvc (inr (Some (mkVolumeContext (pvc_Name pvc) name
        (driverLabelForProvisioner (sc_Provisioner sc))
        (default "" (sc_VolumeBindingMode sc))
        (summarizeTopology (sc_AllowedTopologies sc)))))
  | describes_class_error name e :
      pvc_StorageClassName pvc = Some name -> name <> "" -> classes name = inl e ->
      IsNotFound e = false ->
      describes pvc (inl (Errorf "getting StorageClass %s: %w" [name] (Some e))).

(** The result over a list of claims: the first claim that is not missing
    decides; if all are missing there is no context. *)
Inductive resolves (claims : list NamespacedName)
    : fallible error (option VolumeContext) -> Prop :=
  | resolves_none :
      Forall (fun k => missing (pvcs k)) claims -> resolves claims (inr None)
  | resolves_found before key after pvc r :
      claims = before ++ key :: after -> Forall (fun k => missing (pvcs k)) before ->
      pvcs key = inr pvc -> describes pvc r -> resolves claims r
  | resolves_error before key after e :
      claims = before ++ key :: after -> Forall (fun k => missing (pvcs k)) before ->
      pvcs key = inl e -> IsNotFound e = false ->
      resolves claims
        (inl (Errorf "getting PVC %s: %w" [NamespacedName_String key] (Some e))).

(** ** Lemmas *)

Lemma resolves_skip key claims r :
  missing (pvcs key) -> resolves claims r -> resolves (key :: claims) r.
Proof.
  intros Hm [Hall|before k after pvc r' -> Hb Hk Hd|before k after e -> Hb Hk He].
  - apply resolves_none. by constructor.
  - eapply (resolves_found _ (key :: before)); try done. by constructor.
  - eapply (resolves_error _ (key :: before)); try done. by constructor.
Qed.

Lemma volumeContextFromPVC_wp pvc h :
  wp any_call storage_answers (volumeContextFromPVC pvc) (fun _ r => describes pvc r) h.
Proof.
  unfold volumeContextFromPVC.
  destruct (pvc_StorageClassName pvc) as [name|] eqn:Hn.
  2: { apply wp_ret. apply describes_no_class. by left. }
  case_bool_decide as Hne.
  { subst. apply wp_ret, describes_no_class. by right. }
  wp_step r Hr.
  destruct r as [e|sc].
  - destruct (IsNotFound e) eqn:He; apply wp_ret.
    + eapply describes_missing_class; [done..|]. by exists e.
    + by eapply describes_class_error.
  - apply wp_ret. destruct (sc_VolumeBindingMode sc) eqn:Hb.
    + pose proof (describes_class pvc name sc Hn Hne (eq_sym Hr)) as Hd.
      by rewrite Hb in Hd.
    + pose proof (describes_class pvc name sc Hn Hne (eq_sym Hr)) as Hd.
      by rewrite Hb in Hd.
Qed.

Lemma resolve_volumes_wp ns vols h :
  wp any_call storage_answers (resolve_volumes ns vols)
    (fun _ r => resolves (mkNamespacedName ns <$> omap vol_PersistentVolumeClaim vols) r) h.
Proof.
  revert h. induction vols as [|vol rest IH]; intros h; cbn [resolve_volumes omap list_omap].
  { apply wp_ret, resolves_none. by constructor. }
  destruct (vol_PersistentVolumeClaim vol) as [claim|] eqn:Hv; [|by apply IH].
  wp_step r Hr.
  destruct r as [e|pvc].
  - destruct (IsNotFound e) eqn:He.
    + eapply wp_mono; [|by apply IH]. intros h' r Hres. simpl.
      apply resolves_skip; [|done]. by exists e.
    + apply wp_ret. by eapply (resolves_error _ []).
  - eapply wp_mono; [|by apply volumeContextFromPVC_wp]. intros h' r Hd. simpl.
    by eapply (resolves_found _ []).
Qed.

(** Facts of the specification that the theorems below share. *)
Lemma resolves_Some claims vc :
  resolves claims (inr (Some vc)) ->
  exists before key after pvc, claims = before ++ key :: after /\
    Forall (fun k => missing (pvcs k)) before /\ pvcs key = inr pvc /\
    describes pvc (inr (Some vc)).
Proof. inversion 1; subst. naive_solver. Qed.

Lemma describes_Some pvc vc : describes pvc (inr (Some vc)) -> vc_PVCName vc = pvc_Name pvc.
Proof. by inversion 1. Qed.

(** C22. Resolution: every run of [resolveVolumeContext] against an API with the
    given claims and classes returns what the specification says: the first
    PVC-backed volume whose claim is not missing decides; a missing claim is
    skipped, any other read error is returned wrapped, and no claim at all gives
    a nil context. *)
Theorem resolveVolumeContext_spec pod tr r :
  runs (resolveVolumeContext pod) tr r ->
  answers_ok storage_answers [] tr ->
  resolves (claims_of pod) r.
Proof.
  intros Hr Hok. unfold resolveVolumeContext in Hr.
  by destruct (wp_sound _ _ _ _ _ _ _ (resolve_volumes_wp _ _ []) Hr Hok).
Qed.
End resolve_spec.

(** Only reads, and only of claims and storage classes. *)
Definition storage_call (c : call) : Prop :=
  match c with GetPVC _ | GetStorageClass _ => True | _ => False end.

Lemma resolveVolumeContext_calls R pod h :
  wp (fun _ => storage_call) R (resolveVolumeContext pod) (fun _ _ => True) h.
Proof.
  unfold resolveVolumeContext.
  revert h. induction (pod_Volumes pod) as [|vol rest IH]; intros h;
    cbn [resolve_volumes]; [by apply wp_ret|].
  destruct (vol_PersistentVolumeClaim vol) as [claim|]; [|by apply IH].
  wp_step r Hr. destruct r as [e|pvc].
  { destruct (IsNotFound e); [by apply IH|by apply wp_ret]. }
  unfold volumeContextFromPVC.
  destruct (pvc_StorageClassName pvc) as [name|]; [|by apply wp_ret].
  case_bool_decide; [by apply wp_ret|]. wp_step r Hr'.
  destruct r as [e|sc]; [destruct (IsNotFound e)|]; by apply wp_ret.
Qed.

(** Resolving the context extends the history by reads of claims and classes. *)
Lemma resolveVolumeContext_reads G R pod Q h :
  (forall h' c, storage_call c -> G h' c) ->
  (forall k r, Forall storage_call (calls_of k) -> Q (h ++ k) r) ->
  wp G R (resolveVolumeContext pod) Q h.
Proof.
  intros HG HQ. eapply wp_weaken; [exact HG|].
  eapply wp_mono; [|by apply wp_extends, resolveVolumeContext_calls].
  intros h' r (_ & k & -> & Hk). by apply HQ.
Qed.

Lemma storage_call_read c : storage_call c -> is_write c = false.
Proof. by destruct c. Qed.

Lemma storage_calls_no_writes k : Forall storage_call (calls_of k) -> writes_of k = [].
Proof.
  intros Hk. apply writes_of_none. eapply Forall_impl; [exact Hk|].
  apply storage_call_read.
Qed.

(** ** Theorems on the labels *)

(** The driver label is the table's for a provisioner of the table and the
    provisioner itself otherwise; distinct provisioners of the table have
    distinct labels. *)
Theorem driverLabelForProvisioner_spec p q :
  (forall label, driverLabelForProvisioner p = label <->
     provisionerDriverLabels !! p = Some label \/
     (provisionerDriverLabels !! p = None /\ label = p)) /\
  (is_Some (provisionerDriverLabels !! p) -> is_Some (provisionerDriverLabels !! q) ->
     driverLabelForProvisioner p = driverLabelForProvisioner q -> p = q).
Proof.
  split.
  - intros label. unfold driverLabelForProvisioner. case_match; naive_solver.
  - unfold driverLabelForProvisioner. intros [lp Hp] [lq Hq]. rewrite Hp, Hq.
    apply elem_of_list_to_map_2 in Hp, Hq. set_unfold. naive_solver.
Qed.
