(* ===== verification/Controller.v ===== *)
(** * [controllers/schedulingdecision_controller.go]: the reconciler

    [Reconcile] reads the Pod and its Events, derives a transition, makes sure
    the Pod's [SchedulingDecision] exists and appends the transition to its
    status. The handlers are programs over the API calls of [Effects]; the
    [ctrl.Result] they return is always the zero value and is left out, so a
    handler returns its error. [retry.OnError] comes through [RetryOnError]. *)

From S2P Require Import Prelude Strconv GoTime GoStrings Api Decision Effects.
From S2P Require Import VolumeContext.

(** ** Constants and the reconciler *)

Definition podUIDLabel : string := "scheduling.purestorage.io/pod-uid".

Definition DefaultRetentionWindow : Duration := 72 * Hour.

Definition relevantEventReasons : gset string :=
  {[eventReasonScheduled; eventReasonFailedScheduling; eventReasonPreempted;
    eventReasonCandidateNodes]}.

Record SchedulingDecisionReconciler := mkReconciler { RetentionWindow : Duration }.

Definition retentionWindow (r : SchedulingDecisionReconciler) : Duration :=
  if 0 <? RetentionWindow r then RetentionWindow r else DefaultRetentionWindow.

(** ** Watches: which objects trigger which reconciles *)

(** A watched [client.Object]: an Event or something else. *)
Inductive Object := EventObject (e : Event) | OtherObject.

(** The [nsName] key an Event is indexed under ([IndexField]'s function). *)
Definition indexEventInvolvedObject (obj : Object) : list string :=
  match obj with
  | EventObject event =>
      if or_Kind (ev_InvolvedObject event) <>?s podKind then []
      else [or_Namespace (ev_InvolvedObject event) +:+ "/" +:+
            or_Name (ev_InvolvedObject event)]
  | OtherObject => []
  end.

Definition mapEventToPodRequest (obj : Object) : list NamespacedName :=
  match obj with
  | EventObject event =>
      [mkNamespacedName (or_Namespace (ev_InvolvedObject event))
         (or_Name (ev_InvolvedObject event))]
  | OtherObject => []
  end.

Definition relevantEventPredicate (obj : Object) : bool :=
  match obj with
  | EventObject event =>
      if or_Kind (ev_InvolvedObject event) <>?s podKind then false
      else bool_decide (ev_Reason event ∈ relevantEventReasons)
  | OtherObject => false
  end.

(** The loop of [listRelevantEvents]. *)
Definition relevant_events (items : list Event) : list Event :=
  filter (fun e => ev_Reason e ∈ relevantEventReasons) items.

Definition listRelevantEvents (podKey : NamespacedName)
    : prog (fallible error (list Event)) :=
  r ← do_call (ListEvents (nn_Namespace podKey)
                 (nn_Namespace podKey +:+ "/" +:+ nn_Name podKey));
  match r with
  | inl err => mret (inl err)
  | inr items => mret (inr (relevant_events items))
  end.

(** ** Creating the decision *)

(** The record [ensureDecisionCreated] builds before it looks at volumes. *)
Definition newDecision (name : string) (identity : podIdentity) (expiresAt : Z)
    : SchedulingDecision :=
  mkDecision
    (mkObjectMeta name "" ""
       (<[podUIDLabel := id_UID identity]> {[ExpiresAtLabel := FormatInt expiresAt]}))
    (mkSpec (id_Name identity) (id_Namespace identity) (id_UID identity)
       (id_SchedulerName identity) None)
    Status_zero.

(** [decision.Spec.VolumeContext = volCtx] *)
Definition set_VolumeContext (v : option VolumeContext) (d : SchedulingDecision) :=
  let s := sd_Spec d in
  mkDecision (sd_ObjectMeta d)
    (mkSpec (spec_PodName s) (spec_PodNamespace s) (spec_PodUID s)
       (spec_SchedulerName s) v) (sd_Status d).

Definition ensureDecisionCreated (r : SchedulingDecisionReconciler) (name : string)
    (identity : podIdentity) (podFound : bool) (pod : Pod) : prog (option error) :=
  existing ← do_call (GetDecision name);
  match existing with
  | inr _ => mret None
  | inl err =>
    if negb (IsNotFound err) then
      mret (Some (Errorf "getting SchedulingDecision %s: %w" [name] (Some err)))
    else
      now ← do_call Now;
      let expiresAt := Time_Unix (Add now (retentionWindow r)) in
      let decision := newDecision name identity expiresAt in
      decision ←
        (if podFound then
           v ← resolveVolumeContext pod;
           match v with
           | inl err =>
               _ ← do_call (Log "resolving volume context"
                 [NamespacedName_String
                    (mkNamespacedName (id_Namespace identity) (id_Name identity))]
                 (Some err));
               mret decision
           | inr volCtx => mret (set_VolumeContext volCtx decision)
           end
         else mret decision);
      created ← do_call (CreateDecision decision);
      match created with
      | Some err =>
          if negb (IsAlreadyExists err)
          then mret (Some (Errorf "creating SchedulingDecision %s: %w" [name] (Some err)))
          else mret None
      | None => mret None
      end
  end.

(** ** Appending to the status *)

Definition retriable (err : error) : bool := IsConflict err || IsNotFound err.

(** The function that is retried: read afresh, compare, append, update. *)
Definition appendTransition_once (name : string) (transition : SchedulingTransition)
    : prog (option error) :=
  g ← do_call (GetDecision name);
  match g with
  | inl err => mret (Some err)
  | inr decision =>
      let unchanged :=
        match last (st_Transitions (sd_Status decision)) with
        | Some l => transitionsEqual l transition
        | None => false
        end in
      if unchanged then mret None
      else
        let decision :=
          set_Status (applyTransition (sd_Status decision) transition) decision in
        do_call (UpdateDecisionStatus decision)
  end.

Section reconcile.
Context `{!RetryOnError}.

Definition appendTransitionWithRetry (name : string) (transition : SchedulingTransition)
    : prog (option error) :=
  err ← OnError retriable (appendTransition_once name transition);
  match err with
  | Some e => mret (Some (Errorf "updating status for SchedulingDecision %s: %w"
                            [name] (Some e)))
  | None => mret None
  end.

Definition recordTransition (r : SchedulingDecisionReconciler) (identity : podIdentity)
    (transition : SchedulingTransition) (podFound : bool) (pod : Pod)
    : prog (option error) :=
  let name := decisionName (id_UID identity) in
  err ← ensureDecisionCreated r name identity podFound pod;
  match err with
  | Some e => mret (Some e)
  | None => appendTransitionWithRetry name transition
  end.

(** The rest of [Reconcile] once the Pod has been read. *)
Definition Reconcile_pod (r : SchedulingDecisionReconciler) (events : list Event)
    (podFound : bool) (pod : Pod) : prog (option error) :=
  derived ← deriveTransitionM (do_call Now) pod podFound events;
  match derived with
  | None => mret None
  | Some (ident, transition) => recordTransition r ident transition podFound pod
  end.

Definition Reconcile (r : SchedulingDecisionReconciler) (req : NamespacedName)
    : prog (option error) :=
  evs ← listRelevantEvents req;
  match evs with
  | inl err =>
      mret (Some (Errorf "listing events for pod %s: %w" [NamespacedName_String req]
                    (Some err)))
  | inr events =>
      g ← do_call (GetPod req);
      match g with
      | inl err =>
          if negb (IsNotFound err) then
            mret (Some (Errorf "getting pod %s: %w" [NamespacedName_String req]
                          (Some err)))
          else Reconcile_pod r events false Pod_zero
      | inr pod => Reconcile_pod r events true pod
      end
  end.
End reconcile.

(** ** What a reconcile may do: specification *)

(** [res] is what the inputs imply at a clock reading of the history, or at any
    reading when they leave nothing to the clock. *)
Definition derives (h : list exchange) (podFound : bool) (pod : Pod) (events : list Event)
    (res : option (podIdentity * SchedulingTransition)) : Prop :=
  (exists now, Exch Now now ∈ h /\ deriveTransition now pod podFound events = res) \/
  (forall now, deriveTransition now pod podFound events = res).

(** The pod and its events as answered in the history of a reconcile of [req]. *)
Definition inputs (req : NamespacedName) (h : list exchange) (podFound : bool) (pod : Pod)
    (events : list Event) : Prop :=
  exists items g,
    Exch (ListEvents (nn_Namespace req) (NamespacedName_String req)) (inr items) ∈ h /\
    Exch (GetPod req) g ∈ h /\ events = relevant_events items /\
    match g with
    | inr p => podFound = true /\ pod = p
    | inl err => IsNotFound err = true /\ podFound = false /\ pod = Pod_zero
    end.

(** The answers of the history that a reconcile of [req] has derived [t] from. *)
Definition observed (req : NamespacedName) (h : list exchange) (ident : podIdentity)
    (t : SchedulingTransition) : Prop :=
  exists podFound pod events, inputs req h podFound pod events /\
    derives h podFound pod events (Some (ident, t)).

(** [t] is not the latest transition of [d]. *)
Definition unrecorded (d : SchedulingDecision) (t : SchedulingTransition) : Prop :=
  forall l, last (st_Transitions (sd_Status d)) = Some l -> transitionsEqual l t = false.

(** The calls allowed after a history. *)
Definition reconcile_allows (r : SchedulingDecisionReconciler) (req : NamespacedName)
    (h : list exchange) (c : call) : Prop :=
  match c with
  | CreateDecision d =>
      exists ident t now v, observed req h ident t /\ Exch Now now ∈ h /\
        d = set_VolumeContext v (newDecision (decisionName (id_UID ident)) ident
              (Time_Unix (Add now (retentionWindow r))))
  | UpdateDecisionStatus d =>
      exists ident t h0 d0, observed req h ident t /\
        h = h0 ++ [Exch (GetDecision (decisionName (id_UID ident))) (inr d0)] /\
        unrecorded d0 t /\ d = set_Status (applyTransition (sd_Status d0) t) d0
  | DeleteDecision _ | CreateEvent _ | ListDecisions | Exit _ => False
  | ListEvents ns nsName => ns = nn_Namespace req /\ nsName = NamespacedName_String req
  | GetPod key => key = req
  | _ => True
  end.

(** The last exchange shows [t] recorded: it was already the latest transition of
    the decision just read, or the server accepted an update that ends with it. *)
Definition recorded (name : string) (h : list exchange) (t : SchedulingTransition) : Prop :=
  (exists h0 d l, h = h0 ++ [Exch (GetDecision name) (inr d)] /\
     last (st_Transitions (sd_Status d)) = Some l /\ transitionsEqual l t = true) \/
  (exists h0 d0 d, h = h0 ++ [Exch (GetDecision name) (inr d0);
                              Exch (UpdateDecisionStatus d) None] /\
     d = set_Status (applyTransition (sd_Status d0) t) d0).

(** Nothing to record: the pod and its events support no transition. *)
Definition nothing_observed (req : NamespacedName) (h : list exchange) : Prop :=
  exists podFound pod events, inputs req h podFound pod events /\
    derives h podFound pod events None.

(** ** Lemmas *)

(** Running [deriveTransitionM] reads the clock at most once. *)

(** [p] computes [f] of a clock reading, or without one if [f] is constant. *)
Definition tracks {A} (p : prog A) (f : Time -> A) : Prop :=
  (exists a, p = Ret a /\ forall now, f now = a) \/
  (exists k, p = Call Now k /\ forall now, k now = Ret (f now)).

Lemma tracks_ret {A} (a : A) : tracks (mret a) (fun _ => a).
Proof. left. by exists a. Qed.

Lemma tracks_now : tracks (do_call Now) (fun now => now).
Proof. right. by exists Ret. Qed.

Lemma tracks_bind {A B} (p : prog A) f (g : A -> B) :
  tracks p f -> tracks (a ← p; mret (g a)) (fun now => g (f now)).
Proof.
  intros [(a & -> & Hf)|(k & -> & Hk)].
  - left. exists (g a). split; [done|]. intros now. by rewrite Hf.
  - right. eexists. split; [done|]. intros now. simpl. by rewrite Hk.
Qed.

Lemma tracks_timestamp cond event :
  tracks (decisionTimestampM (do_call Now) cond event)
    (fun now => decisionTimestamp now cond event).
Proof.
  unfold decisionTimestamp, decisionTimestampM.
  destruct cond as [c|]; [destruct (negb _)|]; [apply tracks_ret|..];
    (destruct event; [apply tracks_ret|apply tracks_now]).
Qed.

Lemma tracks_derive pod podFound events :
  tracks (deriveTransitionM (do_call Now) pod podFound events)
    (fun now => deriveTransition now pod podFound events).
Proof.
  assert (forall c e, tracks (transitionFromScheduledM (do_call Now) pod c e)
    (fun now => transitionFromScheduled now pod c e)) as Hs
    by (intros c e; apply (tracks_bind _ _ _ (tracks_timestamp c e))).
  assert (forall c e, tracks (transitionFromFailedSchedulingM (do_call Now) pod c e)
    (fun now => transitionFromFailedScheduling now pod c e)) as Hf
    by (intros c e; apply (tracks_bind _ _ _ (tracks_timestamp c e))).
  unfold deriveTransition, deriveTransitionM.
  repeat case_match; try apply tracks_ret.
  all: first [apply (tracks_bind _ _ _ (Hs _ _))|apply (tracks_bind _ _ _ (Hf _ _))].
Qed.

Lemma deriveTransitionM_wp G R pod podFound events Q h :
  G h Now ->
  (forall k res, k = [] \/ (exists now, k = [Exch Now now]) ->
     derives (h ++ k) podFound pod events res -> Q (h ++ k) res) ->
  wp G R (deriveTransitionM (do_call Now) pod podFound events) Q h.
Proof.
  intros HG HQ. destruct (tracks_derive pod podFound events)
    as [(res & -> & Hf)|(k & -> & Hk)].
  - apply wp_ret. rewrite <- (app_nil_r h). apply HQ; [by left|by right].
  - split; [apply HG|]. intros now _. rewrite Hk.
    apply HQ; [right; by exists now|]. left. exists now. split; [set_solver|done].
Qed.

Lemma inputs_prefix req h h' pf pod events :
  h `prefix_of` h' -> inputs req h pf pod events -> inputs req h' pf pod events.
Proof. intros [k ->] (items & g & H1 & H2 & H3). exists items, g. set_solver. Qed.

Lemma derives_prefix h h' pf pod events res :
  h `prefix_of` h' -> derives h pf pod events res -> derives h' pf pod events res.
Proof. intros [k ->] [(now & ? & ?)|?]; [left; exists now; set_solver|by right]. Qed.

Lemma observed_prefix req h h' ident t :
  h `prefix_of` h' -> observed req h ident t -> observed req h' ident t.
Proof.
  intros Hp (pf & pod & events & H1 & H2). exists pf, pod, events.
  split; [by eapply inputs_prefix|by eapply derives_prefix].
Qed.

(** What is observed has been derived at some instant. *)
Lemma observed_derived req h ident t :
  observed req h ident t ->
  exists now podFound pod events, inputs req h podFound pod events /\
    deriveTransition now pod podFound events = Some (ident, t).
Proof.
  intros (pf & pod & events & Hin & [(now & _ & Hd)|Hd]).
  - by exists now, pf, pod, events.
  - by exists Time_zero, pf, pod, events.
Qed.

Lemma observed_app req h k ident t :
  observed req h ident t -> observed req (h ++ k) ident t.
Proof. apply observed_prefix. by exists k. Qed.

#[export] Hint Resolve observed_app : audit.

Section reconcile_lemmas.
Context `{!RetryOnError}.
Context (r : SchedulingDecisionReconciler) (req : NamespacedName).

Lemma reads_allowed h c : storage_call c -> reconcile_allows r req h c.
Proof. by destruct c. Qed.

Lemma set_VolumeContext_new name ident n :
  set_VolumeContext None (newDecision name ident n) = newDecision name ident n.
Proof. done. Qed.

Lemma ensureDecisionCreated_wp R ident t podFound pod h :
  observed req h ident t ->
  wp (reconcile_allows r req) R
    (ensureDecisionCreated r (decisionName (id_UID ident)) ident podFound pod)
    (fun h' _ => observed req h' ident t) h.
Proof.
  intros Ho. unfold ensureDecisionCreated.
  wp_step g Hg. destruct g as [e|d]; [|apply wp_ret; auto with audit].
  destruct (IsNotFound e) eqn:He; [|apply wp_ret; auto with audit]. cbn [negb].
  wp_step now Hnow.
  (* Once the record is built. *)
  assert (forall h' v, observed req h' ident t -> Exch Now now ∈ h' ->
    wp (reconcile_allows r req) R
      (created ← do_call (CreateDecision (set_VolumeContext v (newDecision
          (decisionName (id_UID ident)) ident (Time_Unix (Add now (retentionWindow r))))));
       match created with
       | Some err =>
           if negb (IsAlreadyExists err)
           then mret (Some (Errorf "creating SchedulingDecision %s: %w"
                              [decisionName (id_UID ident)] (Some err)))
           else mret None
       | None => mret None
       end)
      (fun h'' _ => observed req h'' ident t) h') as Hcreate.
  { intros h' v Ho' Hn. wp_step c Hc; [by exists ident, t, now, v|].
    destruct c as [e'|]; [destruct (IsAlreadyExists e')|]; apply wp_ret; auto with audit. }
  apply wp_bind. destruct podFound.
  - apply wp_bind, resolveVolumeContext_reads; [by intros; apply reads_allowed|].
    intros k [e'|v] _.
    + wp_step u Hu. apply wp_ret. rewrite <- set_VolumeContext_new.
      apply Hcreate; [auto with audit|set_solver].
    + apply wp_ret, Hcreate; [auto with audit|set_solver].
  - apply wp_ret. rewrite <- set_VolumeContext_new. apply Hcreate; [auto with audit|set_solver].
Qed.

Lemma appendTransition_once_wp R ident t h :
  observed req h ident t ->
  wp (reconcile_allows r req) R
    (appendTransition_once (decisionName (id_UID ident)) t)
    (fun h' err => (err = None -> recorded (decisionName (id_UID ident)) h' t) /\
                   observed req h' ident t) h.
Proof.
  intros Ho. unfold appendTransition_once.
  wp_step g Hg. destruct g as [e|d]; [apply wp_ret; split; [done|auto with audit]|].
  destruct (last (st_Transitions (sd_Status d))) as [l|] eqn:Hl;
    [destruct (transitionsEqual l t) eqn:Heq|].
  - apply wp_ret. split; [|auto with audit]. intros _. left. by exists h, d, l.
  - wp_step u Hu.
    + exists ident, t, h, d. split_and!; [auto with audit|done| |done].
      intros l'. rewrite Hl. intros ?. by simplify_eq.
    + split; [|auto with audit]. intros ->. right. eexists h, d, _.
      by rewrite <- app_assoc.
  - wp_step u Hu.
    + exists ident, t, h, d. split_and!; [auto with audit|done| |done].
      intros l'. by rewrite Hl.
    + split; [|auto with audit]. intros ->. right. eexists h, d, _.
      by rewrite <- app_assoc.
Qed.

Lemma recordTransition_wp R ident t podFound pod h :
  observed req h ident t ->
  wp (reconcile_allows r req) R (recordTransition r ident t podFound pod)
    (fun h' err => err = None -> observed req h' ident t /\
                   recorded (decisionName (id_UID ident)) h' t) h.
Proof.
  intros Ho. unfold recordTransition. apply wp_bind.
  eapply wp_mono; [|by apply (ensureDecisionCreated_wp R ident t podFound pod)].
  intros h1 [e|] Ho1; simpl; [by apply wp_ret|].
  unfold appendTransitionWithRetry. apply wp_bind.
  eapply wp_mono; [|apply (wp_OnError _ _ _ _ (fun _ h' => observed req h' ident t)
    (fun h' err => err = None -> observed req h' ident t /\
                   recorded (decisionName (id_UID ident)) h' t))].
  - intros h2 [e|] HQ; by apply wp_ret.
  - done.
  - intros m h2 Ho2. eapply wp_mono; [|by apply (appendTransition_once_wp R ident)].
    naive_solver.
Qed.

(** The calls of a reconcile before it records anything. *)
Definition observation (c : call) : Prop :=
  match c with
  | ListEvents ns nsName => ns = nn_Namespace req /\ nsName = NamespacedName_String req
  | GetPod key => key = req
  | Now => True
  | _ => False
  end.

(** A reconcile observes, with at most three calls [k]; then it fails with the error
    of its last call, ends without a transition, or records one. *)
Lemma Reconcile_rule G (R : list exchange -> forall c, answer c -> Prop)
    (Q : list exchange -> option error -> Prop) h :
  (forall h' c, observation c -> G h' c) ->
  (forall k x e fmt args, Forall observation (calls_of (k ++ [x])) -> (length k <= 1)%nat ->
     exchange_error x = Some e -> Q (h ++ k ++ [x]) (Some (Errorf fmt args (Some e)))) ->
  (forall k, Forall observation (calls_of k) -> (length k <= 3)%nat ->
     nothing_observed req (h ++ k) -> Q (h ++ k) None) ->
  (forall k ident t podFound pod, Forall observation (calls_of k) -> (length k <= 3)%nat ->
     observed req (h ++ k) ident t ->
     pod = Pod_zero \/ (exists h', R h' (GetPod req) (inr pod)) ->
     wp G R (recordTransition r ident t podFound pod) Q (h ++ k)) ->
  wp G R (Reconcile r req) Q h.
Proof.
  intros HG Hfail Hnone Hrec. unfold Reconcile, listRelevantEvents. apply wp_bind.
  wp_step evs Hevs; [by apply HG|]. destruct evs as [e|items]; apply wp_ret.
  { apply wp_ret. apply (Hfail []); [by repeat constructor|simpl; lia|done]. }
  wp_step g Hg; [by apply HG|]. rewrite <- app_assoc.
  set (k2 := [_] ++ _).
  assert (Forall observation (calls_of k2)) as Hk2 by by repeat constructor.
  assert (forall podFound pod, inputs req (h ++ k2) podFound pod (relevant_events items) ->
    pod = Pod_zero \/ (exists h', R h' (GetPod req) (inr pod)) ->
    wp G R (Reconcile_pod r (relevant_events items) podFound pod) Q (h ++ k2)) as Hpod.
  { intros podFound pod Hin HR. unfold Reconcile_pod.
    apply wp_bind, deriveTransitionM_wp; [intros; by apply HG|].
    intros k res Hk Hd.
    apply (inputs_prefix _ _ ((h ++ k2) ++ k)) in Hin; [|by exists k].
    assert (Forall observation (calls_of (k2 ++ k)) /\ (length (k2 ++ k) <= 3)%nat) as [].
    { rewrite calls_of_app, Forall_app, length_app. subst k2.
      destruct Hk as [->|[now ->]]; (split_and!; [done| |simpl; lia]); by repeat constructor. }
    rewrite <- app_assoc in *. destruct res as [[ident t]|].
    - apply Hrec; [done..| |done]. by exists podFound, pod, (relevant_events items).
    - apply wp_ret, Hnone; [done..|]. by exists podFound, pod, (relevant_events items). }
  destruct g as [e|pod].
  - destruct (IsNotFound e) eqn:He; cbn [negb].
    + apply Hpod; [|by left]. exists items, (inl e). subst k2. set_solver.
    + apply wp_ret. by apply (Hfail [_] (Exch (GetPod req) (inl e))); [| simpl; lia|].
  - apply Hpod; [|right; by eexists]. exists items, (inr pod). subst k2. set_solver.
Qed.

Lemma Reconcile_wp R h :
  wp (reconcile_allows r req) R (Reconcile r req)
    (fun h' err => err = None ->
       nothing_observed req h' \/
       exists ident t, observed req h' ident t /\
                       recorded (decisionName (id_UID ident)) h' t) h.
Proof.
  apply Reconcile_rule; [by intros h' []|done|by left|].
  intros k ident t podFound pod _ _ Ho _.
  eapply wp_mono; [|by apply (recordTransition_wp R ident t)].
  intros h'' err HQ Herr. right. exists ident, t. by apply HQ.
Qed.
End reconcile_lemmas.
