(* ===== verification/ReconcileProps.v ===== *)
(** * Properties of the reconciler

    Theorems on the programs of [Controller], for every behaviour of the API
    server unless a hypothesis on the answers of the trace says otherwise:
    which writes a reconcile makes, what its results mean, how many writes it
    makes, when it makes none, and how its watches agree with its reads. *)

From S2P Require Import Prelude Strconv GoTime GoStrings Api Decision Effects.
From S2P Require Import VolumeContext Controller.

(** ** Counting writes *)

Definition is_update (c : call) : bool :=
  match c with UpdateDecisionStatus _ => true | _ => false end.
Definition is_create (c : call) : bool :=
  match c with CreateDecision _ => true | _ => false end.

(** How many calls of a history satisfy a test. *)
Definition count (f : call -> bool) (h : list exchange) : nat :=
  length (filter (fun c => f c = true) (calls_of h)).

(** ** Recorded times

    The API server stores a [metav1.Time] as an RFC 3339 string without
    fractional seconds; [persist_time] is that round trip. *)
Definition whole_seconds (persist_time : Time -> Time) : Prop :=
  forall t, persist_time t = MkTime (sec t) 0.

Definition persist_transition (persist_time : Time -> Time) (t : SchedulingTransition)
    : SchedulingTransition :=
  mkTransition (tr_Outcome t) (tr_ChosenNode t) (tr_ReasonSummary t)
    (persist_time (tr_DecisionTimestamp t)) (tr_SchedulingLatencyMs t)
    (tr_CandidateNodes t) (tr_SourceRef t).

(** Every read of the decision in the trace found [l] satisfying [P] as its
    latest transition. *)
Definition latest_is (P : SchedulingTransition -> Prop) (tr : list exchange) : Prop :=
  forall name a, Exch (GetDecision name) a ∈ tr ->
    exists d l, a = inr d /\ last (st_Transitions (sd_Status d)) = Some l /\ P l.

(** ** Lemmas *)

Lemma count_app f h k : count f (h ++ k) = (count f h + count f k)%nat.
Proof. unfold count. by rewrite calls_of_app, filter_app, length_app. Qed.

Lemma count_single f c a : count f [Exch c a] = if f c then 1%nat else 0%nat.
Proof.
  unfold count; simpl. destruct (f c) eqn:Hc.
  - by rewrite filter_cons_True.
  - rewrite filter_cons_False; [done|]. by rewrite Hc.
Qed.

Lemma count_storage f k :
  (forall c, storage_call c -> f c = false) ->
  Forall storage_call (calls_of k) -> count f k = 0%nat.
Proof.
  intros Hf Hk. unfold count. induction Hk as [|c cs Hc _ IH]; [done|].
  rewrite filter_cons_False; [done|]. by rewrite (Hf c Hc).
Qed.

(** [count_solve]: evaluate the counts of a history built by appending. *)
Ltac count_solve :=
  rewrite ?count_app, ?count_single in *; simpl in *; lia.

Section counting.
Context `{!RetryOnError} (r : SchedulingDecisionReconciler) (req : NamespacedName).
Context (R : list exchange -> forall c, answer c -> Prop).

(** At most one creation and no update. *)
Lemma ensureDecisionCreated_count name ident podFound pod h :
  wp any_call R (ensureDecisionCreated r name ident podFound pod)
    (fun h' _ => count is_update h' = count is_update h /\
                 (count is_create h' <= S (count is_create h))%nat) h.
Proof.
  unfold ensureDecisionCreated. wp_step g Hg.
  destruct g as [e|d]; [|apply wp_ret; count_solve].
  destruct (IsNotFound e); cbn [negb]; [|apply wp_ret; count_solve].
  wp_step now Hnow. apply wp_bind.
  assert (forall h' d, count is_update h' = count is_update h ->
    count is_create h' = count is_create h ->
    wp any_call R (created ← do_call (CreateDecision d);
      match created with
      | Some err =>
          if negb (IsAlreadyExists err)
          then mret (Some (Errorf "creating SchedulingDecision %s: %w" [name] (Some err)))
          else mret None
      | None => mret None
      end)
      (fun h' _ => count is_update h' = count is_update h /\
                   (count is_create h' <= S (count is_create h))%nat) h') as Hc.
  { intros h' d Hu Hcr. wp_step c Hc.
    destruct c as [e'|]; [destruct (IsAlreadyExists e')|]; apply wp_ret; count_solve. }
  destruct podFound; [|apply wp_ret, Hc; count_solve].
  apply wp_bind, resolveVolumeContext_reads; [done|].
  intros k v Hk.
  pose proof (count_storage is_update k ltac:(by intros []) Hk).
  pose proof (count_storage is_create k ltac:(by intros []) Hk).
  destruct v as [e'|v]; [wp_step u Hu|]; apply wp_ret, Hc; count_solve.
Qed.

Lemma appendTransition_once_count name t h :
  wp any_call R (appendTransition_once name t)
    (fun h' _ => count is_create h' = count is_create h /\
                 (count is_update h' <= S (count is_update h))%nat) h.
Proof.
  unfold appendTransition_once. wp_step g Hg.
  destruct g as [e|d]; [apply wp_ret; count_solve|].
  case_match; [apply wp_ret; count_solve|]. wp_step u Hu. count_solve.
Qed.

Lemma count_observation f k :
  (forall c, observation req c -> f c = false) ->
  Forall (observation req) (calls_of k) -> count f k = 0%nat.
Proof.
  intros Hf Hk. unfold count. induction Hk as [|c cs Hc _ IH]; [done|].
  rewrite filter_cons_False; [done|]. by rewrite (Hf c Hc).
Qed.

Lemma Reconcile_count :
  wp any_call R (Reconcile r req)
    (fun h' _ => (count is_create h' <= 1)%nat /\
                 (count is_update h' <= OnError_steps)%nat) [].
Proof.
  apply Reconcile_rule; [done|..].
  - intros k x e fmt args Hk _ _. rewrite app_nil_l, !count_observation by (done || by intros []). lia.
  - intros k Hk _ _. rewrite app_nil_l, !count_observation by (done || by intros []). lia.
  - intros k ident t podFound pod Hk _ _ _. rewrite app_nil_l.
    pose proof (count_observation is_create k ltac:(by intros []) Hk).
    pose proof (count_observation is_update k ltac:(by intros []) Hk).
    unfold recordTransition, appendTransitionWithRetry. apply wp_bind.
    eapply wp_mono; [|apply ensureDecisionCreated_count].
    intros h1 [e|] [Hu Hc]; simpl; [apply wp_ret; lia|]. apply wp_bind.
    eapply (wp_OnError _ _ _ _ (fun m h' => (count is_create h' <= 1)%nat /\
                 (count is_update h' + m <= OnError_steps)%nat)); [lia|].
    intros m h2 [H3 H4].
    eapply wp_mono; [|apply appendTransition_once_count].
    intros h3 [e|] [H5 H6]; (split; [apply wp_ret|]); lia.
Qed.
End counting.

(** ** How long a reconcile is *)

Section length.
Context `{!RetryOnError} (r : SchedulingDecisionReconciler) (req : NamespacedName) (n : nat).

(** The pod read has at most [n] volumes. *)
Definition volumes_at_most (h : list exchange) (c : call) : answer c -> Prop :=
  match c with
  | GetPod _ => fun a => forall pod, a = inr pod -> (length (pod_Volumes pod) <= n)%nat
  | _ => fun _ => True
  end.

Lemma volumeContextFromPVC_length R pvc h :
  wp any_call R (volumeContextFromPVC pvc) (fun h' _ => (length h' <= 1 + length h)%nat) h.
Proof.
  unfold volumeContextFromPVC.
  destruct (pvc_StorageClassName pvc) as [name|]; [|apply wp_ret; lia].
  case_match; [apply wp_ret; lia|]. wp_step a Ha.
  destruct a as [e|sc]; [destruct (IsNotFound e)|]; apply wp_ret; rewrite length_app; simpl; lia.
Qed.

Lemma resolveVolumeContext_length R pod h :
  wp any_call R (resolveVolumeContext pod)
    (fun h' _ => (length h' <= length (pod_Volumes pod) + 1 + length h)%nat) h.
Proof.
  unfold resolveVolumeContext. generalize (pod_Volumes pod). intros vols. revert h.
  induction vols as [|vol rest IH]; intros h; cbn [resolve_volumes length];
    [apply wp_ret; lia|].
  destruct (vol_PersistentVolumeClaim vol) as [claim|].
  - wp_step a Ha. destruct a as [e|pvc]; [destruct (IsNotFound e)|].
    + eapply wp_mono; [|apply IH]. simpl. intros h' _. rewrite length_app. simpl. lia.
    + apply wp_ret. rewrite length_app; simpl; lia.
    + eapply wp_mono; [|apply volumeContextFromPVC_length]. simpl. intros h' _.
      rewrite length_app. simpl. lia.
  - eapply wp_mono; [|apply IH]. simpl. intros; lia.
Qed.

Lemma ensureDecisionCreated_length R name ident podFound pod h :
  (length (pod_Volumes pod) <= n)%nat ->
  wp any_call R (ensureDecisionCreated r name ident podFound pod)
    (fun h' _ => (length h' <= n + 5 + length h)%nat) h.
Proof.
  intros Hn. unfold ensureDecisionCreated. wp_step g Hg.
  destruct g as [e|d]; [|apply wp_ret; rewrite length_app; simpl; lia].
  destruct (IsNotFound e); cbn [negb]; [|apply wp_ret; rewrite length_app; simpl; lia].
  wp_step now Hnow. apply wp_bind.
  assert (forall h' d, (length h' <= n + 4 + length h)%nat ->
    wp any_call R (created ← do_call (CreateDecision d);
      match created with
      | Some err =>
          if negb (IsAlreadyExists err)
          then mret (Some (Errorf "creating SchedulingDecision %s: %w" [name] (Some err)))
          else mret None
      | None => mret None
      end) (fun h' _ => (length h' <= n + 5 + length h)%nat) h') as Hc.
  { intros h' d Hh. wp_step c Hc.
    destruct c as [e'|]; [destruct (IsAlreadyExists e')|]; apply wp_ret;
      rewrite length_app; simpl; lia. }
  destruct podFound; [|apply wp_ret, Hc; rewrite !length_app; simpl; lia].
  apply wp_bind. eapply wp_mono; [|apply resolveVolumeContext_length].
  intros h' v Hl. rewrite !length_app in Hl. simpl in Hl. destruct v as [e'|v].
  - wp_step u Hu. apply wp_ret, Hc. rewrite !length_app; simpl; lia.
  - apply wp_ret, Hc. lia.
Qed.

Lemma Reconcile_length :
  wp any_call volumes_at_most (Reconcile r req)
    (fun h' _ => (length h' <= n + 8 + 2 * OnError_steps)%nat) [].
Proof.
  apply Reconcile_rule; [done|..].
  - intros k x e fmt args _ Hk _. rewrite !length_app. simpl. lia.
  - intros k _ Hk _. rewrite length_app. simpl. lia.
  - intros k ident t podFound pod _ Hk _ Hpod.
    assert (length (pod_Volumes pod) <= n)%nat as Hv.
    { destruct Hpod as [->|[h' Hr]]; [simpl; lia|by apply Hr]. }
    unfold recordTransition, appendTransitionWithRetry. apply wp_bind.
    eapply wp_mono; [|by apply ensureDecisionCreated_length].
    intros h1 e Hl. rewrite length_app in Hl. simpl in Hl.
    destruct e as [e|]; [apply wp_ret; lia|]. apply wp_bind.
    eapply wp_mono; [|apply (wp_OnError _ _ _ _
      (fun m h' => (length h' + 2 * m <= n + 8 + 2 * OnError_steps)%nat)
      (fun h' _ => (length h' <= n + 8 + 2 * OnError_steps)%nat)); [lia|]].
    { intros h' [e|] Hl'; by apply wp_ret. }
    intros m h2 Hl2. unfold appendTransition_once. wp_step g Hg.
    destruct g as [e|d]; [apply wp_ret; rewrite length_app; simpl; lia|].
    case_match; [apply wp_ret; rewrite length_app; simpl; lia|].
    wp_step u Hu. rewrite !length_app; simpl; lia.
Qed.

(** A reconcile never exits. *)
Lemma Reconcile_no_exit tr code : ~ exits (Reconcile r req) tr code.
Proof.
  intros Hx. by destruct (wp_any_exits _ _ _ _ _ (Reconcile_wp r req _ []) Hx).
Qed.
End length.

(** ** Theorems *)

Section theorems.
Context `{!RetryOnError} (r : SchedulingDecisionReconciler) (req : NamespacedName).

(** C13. Write discipline, whatever the server answers: a reconcile creates only the
    initial record of the identity it derived, named after the pod's UID, with
    an empty status and an expiry computed from the clock it read; it updates
    only the decision it has just read, by appending the derived transition and
    mirroring it, and only if that is not already the latest transition; it
    deletes nothing and creates no event. *)
Theorem Reconcile_writes tr err :
  runs (Reconcile r req) tr err -> calls_ok (reconcile_allows r req) [] tr.
Proof. intros Hr. by destruct (wp_runs _ _ _ _ _ (Reconcile_wp r req _ []) Hr). Qed.

(** No outcome is lost silently: if a reconcile returns nil, then either the
    Pod and Events it read support no transition, or its last exchange shows the
    derived transition recorded. *)
Theorem Reconcile_success tr :
  runs (Reconcile r req) tr None ->
  nothing_observed req tr \/
  exists ident t, observed req tr ident t /\ recorded (decisionName (id_UID ident)) tr t.
Proof.
  intros Hr. destruct (wp_runs _ _ _ _ _ (Reconcile_wp r req _ []) Hr) as [_ HQ].
  by apply HQ.
Qed.

(** Bounded work: a reconcile makes at most one creation and at most as many
    status updates as the retry has steps, also when every attempt conflicts. *)
Theorem Reconcile_bounded tr err :
  runs (Reconcile r req) tr err ->
  (count is_create tr <= 1)%nat /\ (count is_update tr <= OnError_steps)%nat.
Proof.
  intros Hr. by destruct (wp_runs _ _ _ _ _ (Reconcile_count r req _) Hr).
Qed.

(** C23. Termination: against any API server that answers, a reconcile returns, after a
    number of calls bounded by the volumes of the pod it read and the steps of
    the retry. *)
Theorem Reconcile_terminates {W} (srv : server W) w :
  answering srv ->
  exists err tr w', exec srv (Reconcile r req) w = (Some err, tr, w') /\
    forall n, (forall pod, Exch (GetPod req) (inr pod) ∈ tr ->
                 (length (pod_Volumes pod) <= n)%nat) ->
      (length tr <= n + 8 + 2 * OnError_steps)%nat.
Proof.
  intros Hs. destruct (exec_ends srv (Reconcile r req) w Hs)
    as [(err & tr & w' & He & Hr)|(tr & w' & code & _ & Hx)];
    [|by apply Reconcile_no_exit in Hx].
  exists err, tr, w'. split; [done|]. intros n Hn.
  destruct (wp_runs _ _ _ _ _ (Reconcile_wp r req _ []) Hr) as [Hg _].
  apply (wp_sound _ _ _ _ _ _ _ (Reconcile_length r req n) Hr).
  apply answers_ok_intro. intros pre [c a] post ->. simpl. destruct c; simpl; try done.
  intros pod ->. apply calls_ok_elem in Hg. simpl in Hg. subst. apply Hn. set_solver.
Qed.
End theorems.

(** ** Errors *)

(** The decision [n] has been seen to exist: it has been read, made, or found there when it
    was to be made. *)
Definition known (n : string) (h : list exchange) : Prop :=
  (exists d, Exch (GetDecision n) (inr d) ∈ h) \/
  (exists d, sd_Name d = n /\ (Exch (CreateDecision d) None ∈ h \/
     exists err, IsAlreadyExists err = true /\ Exch (CreateDecision d) (Some err) ∈ h)).

Lemma known_app n h k : known n h -> known n (h ++ k).
Proof.
  intros [(d & Hd)|(d & Hn & [Hd|(err & He & Hd)])].
  - left. exists d. set_solver.
  - right. exists d. split; [done|]. left. set_solver.
  - right. exists d. split; [done|]. right. exists err. split; [done|]. set_solver.
Qed.

Lemma known_snoc n h x : known n (h ++ [x]) -> known n h \/ known n [x].
Proof. unfold known. set_solver. Qed.

(** The exchanges that a reconcile fails on, after [h]. A missing pod, a missing decision
    that has not been seen yet, a decision that is there when it is to be made, and
    whatever a read of a claim or a storage class is answered are none. *)
Definition fatal (h : list exchange) (x : exchange) : Prop :=
  match x with
  | Exch c a => match c return answer c -> Prop with
    | ListEvents _ _ => fun a => exists e, a = inl e
    | GetPod _ => fun a => exists e, a = inl e /\ IsNotFound e = false
    | GetDecision n => fun a => exists e, a = inl e /\ (IsNotFound e = false \/ known n h)
    | CreateDecision _ => fun a => exists e, a = Some e /\ IsAlreadyExists e = false
    | UpdateDecisionStatus _ => fun a => exists e, a = Some e
    | _ => fun _ => False
    end a
  end.

(** The history ends with such an exchange, with the error [e]. *)
Definition fails_with (h : list exchange) (e : error) : Prop :=
  exists h0 x, h = h0 ++ [x] /\ fatal h0 x /\ exchange_error x = Some e.

Definition ends_well (h : list exchange) : Prop := forall h0 x, h = h0 ++ [x] -> ~ fatal h0 x.

(** A result and the end of the history: an error wraps the one of a fatal exchange. *)
Definition ends_as (h : list exchange) (err : option error) : Prop :=
  match err with
  | Some e => exists fmt args e0, fails_with h e0 /\ e = Errorf fmt args (Some e0)
  | None => ends_well h
  end.

Lemma fails_snoc h x e : fatal h x -> exchange_error x = Some e -> fails_with (h ++ [x]) e.
Proof. intros. by exists h, x. Qed.

Lemma ends_as_snoc h x e fmt args :
  fatal h x -> exchange_error x = Some e -> ends_as (h ++ [x]) (Some (Errorf fmt args (Some e))).
Proof. intros. exists fmt, args, e. split; [by apply fails_snoc|done]. Qed.

Lemma ends_well_snoc h x : ~ fatal h x -> ends_well (h ++ [x]).
Proof. by intros Hx h0 y [-> [= ->]]%app_inj_tail. Qed.

(** A fatal exchange makes no decision known. *)
Lemma known_fatal n h x : fatal h x -> known n (h ++ [x]) -> known n h.
Proof.
  intros Hf [?|[(d & Hd)|(d & Hn & [Hd|(err & He & Hd)])]]%known_snoc; [done|..];
    apply list_elem_of_singleton in Hd; subst x; destruct Hf as (e & ? & ?); simplify_eq; congruence.
Qed.

(** When a call may be made: not after a fatal exchange, but to retry the append. *)
Definition goes_on (h : list exchange) (c : call) : Prop :=
  ends_well h \/
  exists n e, c = GetDecision n /\ known n h /\ fails_with h e /\ retriable e = true.

(** No decision has been seen. *)
Definition unseen (h : list exchange) : Prop := forall n, ~ known n h.

Lemma unseen_snoc h x : unseen h -> unseen [x] -> unseen (h ++ [x]).
Proof. intros Hh Hx n [?|?]%known_snoc; [by eapply Hh|by eapply Hx]. Qed.

Lemma unseen_call c a :
  match c with GetDecision _ | CreateDecision _ => False | _ => True end -> unseen [Exch c a].
Proof.
  intros Hc n [(d & Hd)|(d & Hn & [Hd|(err & He & Hd)])];
    apply list_elem_of_singleton in Hd; by simplify_eq.
Qed.

Section errors.
Context `{!RetryOnError} (r : SchedulingDecisionReconciler) (req : NamespacedName).
Context (R : list exchange -> forall c, answer c -> Prop).

(** The reads of claims and classes are never fatal. *)
Lemma resolveVolumeContext_ends_well pod h :
  ends_well h -> wp goes_on R (resolveVolumeContext pod) (fun h' _ => ends_well h') h.
Proof.
  intros Hh. eapply wp_weaken; [|eapply wp_mono; [|eapply wp_inv;
    [|apply resolveVolumeContext_calls|exact Hh]]].
  - intros h' c [_ Hw]. by left.
  - by intros h' a [_ Hw].
  - intros h' c a Hc _. apply ends_well_snoc. destruct c; first [by destruct Hc|by intros []].
Qed.

Lemma ensureDecisionCreated_ends name ident podFound pod h :
  ends_well h -> ~ known name h ->
  wp goes_on R (ensureDecisionCreated r name ident podFound pod)
    (fun h' err => ends_as h' err /\ (err = None -> known name h')) h.
Proof.
  intros Hh Hnew. unfold ensureDecisionCreated. wp_step g Hg; [by left|]. destruct g as [e|d].
  2: { apply wp_ret. split; [apply ends_well_snoc; by intros (e & ? & _)|].
       intros _. left. exists d. set_solver. }
  destruct (IsNotFound e) eqn:He; cbn [negb].
  2: { apply wp_ret. split; [|done]. apply ends_as_snoc; [|done]. exists e. auto. }
  wp_step now Hnow.
  { left. apply ends_well_snoc. intros (e' & [= <-] & [?|?]); [congruence|done]. }
  apply wp_bind.
  assert (forall h' v n, ends_well h' -> wp goes_on R
      (created ← do_call (CreateDecision (set_VolumeContext v (newDecision name ident n)));
       match created with
       | Some err =>
           if negb (IsAlreadyExists err)
           then mret (Some (Errorf "creating SchedulingDecision %s: %w" [name] (Some err)))
           else mret None
       | None => mret None
       end) (fun h' err => ends_as h' err /\ (err = None -> known name h')) h') as Hc.
  { intros h' v n Hw. set (d := set_VolumeContext _ _). wp_step c Hc; [by left|].
    destruct c as [e'|].
    - destruct (IsAlreadyExists e') eqn:Hae; cbn [negb]; apply wp_ret.
      + split; [apply ends_well_snoc; intros (e1 & [= <-] & ?); congruence|].
        intros _. right. exists d. split; [done|]. right. exists e'. split; [done|]. set_solver.
      + split; [|done]. apply ends_as_snoc; [|done]. by exists e'.
    - apply wp_ret. split; [apply ends_well_snoc; by intros (e1 & ? & _)|].
      intros _. right. exists d. split; [done|]. left. set_solver. }
  assert (forall h' a, ends_well (h' ++ [Exch Now a])) as Hclock
    by (intros h' a; apply ends_well_snoc; by intros []).
  destruct podFound; [|apply wp_ret, (Hc _ None), Hclock].
  apply wp_bind. eapply wp_mono; [|apply resolveVolumeContext_ends_well, Hclock].
  intros h' [e'|v] Hw; [wp_step u Hu; [by left|]|]; apply wp_ret; [apply (Hc _ None)|by apply Hc].
  apply ends_well_snoc. by intros [].
Qed.

(** An attempt fails with the error of its last call. *)
Lemma appendTransition_once_ends name t h :
  known name h -> goes_on h (GetDecision name) ->
  wp goes_on R (appendTransition_once name t)
    (fun h' err => known name h' /\
       match err with Some e => fails_with h' e | None => ends_well h' end) h.
Proof.
  intros Hk Hgo. unfold appendTransition_once. wp_step g Hg. destruct g as [e|d].
  - apply wp_ret. split; [by apply known_app|]. apply fails_snoc; [|done]. exists e. auto.
  - assert (ends_well (h ++ [Exch (GetDecision name) (inr d)])) as Hw
      by (apply ends_well_snoc; by intros (e & ? & _)).
    case_match.
    + apply wp_ret. split; [by apply known_app|done].
    + wp_step u Hu; [by left|]. split; [by repeat apply known_app|]. destruct u as [e|].
      * apply fails_snoc; [by exists e|done].
      * apply ends_well_snoc. by intros (e & ?).
Qed.

Lemma recordTransition_ends ident t podFound pod h :
  ends_well h -> unseen h -> wp goes_on R (recordTransition r ident t podFound pod) ends_as h.
Proof.
  intros Hw Hu. unfold recordTransition, appendTransitionWithRetry. apply wp_bind.
  eapply wp_mono; [|by apply ensureDecisionCreated_ends, Hu].
  set (name := decisionName (id_UID ident)).
  intros h1 [e|] [He Hk]; [by apply wp_ret|]. apply wp_bind.
  eapply wp_mono; [|apply (wp_OnError_retriable _ _ _ _
    (fun _ h' => known name h' /\ goes_on h' (GetDecision name))
    (fun h' err => match err with Some e => fails_with h' e | None => ends_well h' end));
    [by split; [apply Hk|left]|]].
  - intros h2 [e|] HQ; apply wp_ret; [|done]. by eexists _, _, e.
  - intros m h2 [Hk2 Hgo]. eapply wp_mono; [|by apply appendTransition_once_ends].
    intros h3 err [Hk3 HQ]. split; [done|]. intros e -> Hr. split; [done|].
    right. by exists name, e.
Qed.

Lemma Reconcile_ends h :
  ends_well h -> unseen h -> wp goes_on R (Reconcile r req) ends_as h.
Proof.
  intros Hw Hu.
  assert (forall events podFound pod h', ends_well h' -> unseen h' ->
    wp goes_on R (Reconcile_pod r events podFound pod) ends_as h') as Hpod.
  { intros events podFound pod h' Hw' Hu'. unfold Reconcile_pod.
    apply wp_bind, deriveTransitionM_wp; [by left|]. intros k res Hk _.
    assert (ends_well (h' ++ k) /\ unseen (h' ++ k)) as [Hw2 Hu2].
    { destruct Hk as [->|[now ->]]; [by rewrite app_nil_r|].
      split; [apply ends_well_snoc; by intros []|by apply unseen_snoc, unseen_call]. }
    destruct res as [[ident t]|]; [by apply recordTransition_ends|by apply wp_ret]. }
  unfold Reconcile, listRelevantEvents. apply wp_bind. wp_step evs Hevs; [by left|].
  destruct evs as [e|items]; apply wp_ret.
  { apply wp_ret, ends_as_snoc; [by exists e|done]. }
  assert (unseen (h ++ [Exch (ListEvents (nn_Namespace req)
    (nn_Namespace req +:+ "/" +:+ nn_Name req)) (inr items)])) as Hu1
    by by apply unseen_snoc, unseen_call.
  wp_step g Hg; [left; apply ends_well_snoc; by intros (e & ?)|]. destruct g as [e|pod].
  - destruct (IsNotFound e) eqn:He; cbn [negb].
    + apply Hpod; [|by apply unseen_snoc, unseen_call].
      apply ends_well_snoc. intros (e' & [= <-] & ?). congruence.
    + apply wp_ret, ends_as_snoc; [by exists e|done].
  - apply Hpod; [|by apply unseen_snoc, unseen_call]. apply ends_well_snoc. by intros (e & ? & _).
Qed.
End errors.

(** C24. Errors: a reconcile fails exactly when its last exchange is a fatal one: the Events
    could not be listed; the pod could not be read, for another reason than being
    missing; the decision could not be read, for another reason than being missing, or
    though it has been seen to exist; it could not be made, for another reason than
    being there already; or the last status update failed. The error that is returned
    wraps the one the API server answered, so the controller's retry sees its reason. So
    a failed resolution of the volume context and a lost creation race are not errors.
    And no fatal answer is passed over: it ends the reconcile, unless it is the conflict
    or the absence that the append of the transition meets with a new attempt, which
    reads the decision again. *)
Theorem Reconcile_error `{!RetryOnError} r req tr err :
  runs (Reconcile r req) tr err ->
  match err with
  | Some e => exists h x e0, tr = h ++ [x] /\ fatal h x /\ exchange_error x = Some e0 /\
      ReasonForError e = ReasonForError e0
  | None => forall h x, tr = h ++ [x] -> ~ fatal h x
  end /\
  forall h x y rest, tr = h ++ x :: y :: rest -> fatal h x ->
    exists n e, ex_call y = GetDecision n /\ known n h /\ exchange_error x = Some e /\
      (IsConflict e = true \/ IsNotFound e = true).
Proof.
  intros Hr. destruct (wp_runs _ _ _ _ _ (Reconcile_ends r req _ [] ltac:(by intros [])
    ltac:(unfold unseen, known; set_solver)) Hr) as [Hc HQ].
  split.
  - destruct err as [e|]; [|done]. destruct HQ as (fmt & args & e0 & (h & x & -> & ? & ?) & ->).
    by exists h, x, e0.
  - intros h x y rest -> Hf. rewrite (cons_middle x h), app_assoc in Hc.
    apply calls_ok_elem in Hc as [Hw|(n & e & Hy & Hk & (h0 & x0 & Heq & _ & He) & Hre)];
      simpl in *; [by destruct (Hw h x)|].
    apply app_inj_tail in Heq as [<- <-]. exists n, e. split; [done|].
    split; [by eapply known_fatal|]. split; [done|]. by apply orb_true_iff.
Qed.

(** ** Re-observing a recorded outcome *)

Section reobserve.
Context `{!RetryOnError} (r : SchedulingDecisionReconciler) (req : NamespacedName).

(** The decision exists and what is derived is already its latest transition. *)
Definition up_to_date (h : list exchange) (c : call) : answer c -> Prop :=
  match c with
  | GetDecision _ => fun a => exists d l, a = inr d /\
      last (st_Transitions (sd_Status d)) = Some l /\
      forall ident t, observed req h ident t -> transitionsEqual l t = true
  | _ => fun _ => True
  end.

Lemma Reconcile_up_to_date h :
  wp (fun _ c => is_write c = false) up_to_date (Reconcile r req) (fun _ _ => True) h.
Proof.
  apply Reconcile_rule; [by intros h' []|done|done|].
  intros k ident t podFound pod _ _ Ho _.
  unfold recordTransition, ensureDecisionCreated, appendTransitionWithRetry.
  apply wp_bind. wp_step g1 Hg1. destruct Hg1 as (d1 & l1 & -> & _).
  apply wp_ret, wp_bind. apply (wp_OnError _ _ _ _
    (fun _ h' => observed req h' ident t)); [auto with audit|].
  intros m h2 Ho2. unfold appendTransition_once.
  wp_step g2 Hg2. destruct Hg2 as (d2 & l2 & -> & Hl & Heq).
  rewrite Hl, (Heq ident t Ho2). by apply wp_ret.
Qed.
End reobserve.

(** C21. Idempotence: re-deriving the outcome a decision already ends with makes no
    write at all, so unrelated Pod updates never grow the history. *)
Theorem Reconcile_idempotent `{!RetryOnError} r req tr err :
  runs (Reconcile r req) tr err ->
  latest_is (fun l => forall ident t, observed req tr ident t -> transitionsEqual l t = true) tr ->
  writes_of tr = [].
Proof.
  intros Hr Hl.
  destruct (wp_sound _ _ _ _ _ _ _ (Reconcile_up_to_date r req []) Hr) as [Hc _].
  - apply answers_ok_intro. intros pre [c a] post ->. simpl. destruct c; simpl; try done.
    destruct (Hl name a) as (d & l & -> & Hd & Heq); [set_solver|].
    exists d, l. split_and!; [done..|]. intros ident t Ho. apply (Heq ident).
    by apply observed_app.
  - apply writes_of_none. by apply calls_ok_Forall in Hc.
Qed.

Section subsecond.
Context `{!RetryOnError} (r : SchedulingDecisionReconciler) (req : NamespacedName).

(** The decision exists with a whole-second latest transition, and updates are
    accepted. *)
Definition stored_seconds (h : list exchange) (c : call) : answer c -> Prop :=
  match c with
  | GetDecision _ => fun a => exists d l, a = inr d /\
      last (st_Transitions (sd_Status d)) = Some l /\ nsec (tr_DecisionTimestamp l) = 0
  | UpdateDecisionStatus _ => fun a => a = None
  | _ => fun _ => True
  end.

(** Everything derived is dated within a second. *)
Definition subsecond (h : list exchange) : Prop :=
  forall ident t, observed req h ident t -> nsec (tr_DecisionTimestamp t) <> 0.

(** One write: the decision just read with its history one longer. *)
Definition appended_one (h : list exchange) (err : option error) : Prop :=
  err = None /\ exists d t ident, observed req h ident t /\
    writes_of h = [UpdateDecisionStatus (set_Status (applyTransition (sd_Status d) t) d)].

Lemma recordTransition_subsecond ident t podFound pod h :
  observed req h ident t -> writes_of h = [] ->
  wp any_call stored_seconds (recordTransition r ident t podFound pod)
    (fun h' err => subsecond h' -> appended_one h' err) h.
Proof.
  intros Ho Hw. unfold recordTransition, ensureDecisionCreated, appendTransitionWithRetry.
  apply wp_bind. wp_step g1 Hg1. destruct Hg1 as (d1 & l1 & -> & _).
  apply wp_ret, wp_bind.
  set (h2 := h ++ _).
  eapply wp_mono; [|apply (wp_OnError _ _ _ _ (fun _ h' => h' = h2)
    (fun h' err => err = None /\ (subsecond h' -> appended_one h' None)))]; [|done|].
  - intros h' err [-> HQ]. by apply wp_ret.
  - intros m h' ->. unfold appendTransition_once.
    wp_step g2 Hg2. destruct Hg2 as (d2 & l2 & -> & Hl & Hns). rewrite Hl.
    destruct (transitionsEqual l2 t) eqn:Heq.
    + apply wp_ret. split; [split; [done|]|done]. intros Hs. exfalso.
      apply transitionsEqual_spec in Heq as (_ & _ & _ & Heq).
      apply (Hs ident t); [subst h2; auto with audit|]. by rewrite <- Heq.
    + wp_step u Hu. subst u. split; [split; [done|]|done]. intros _. split; [done|].
      exists d2, t, ident. split; [subst h2; auto with audit|].
      subst h2. by rewrite !writes_of_app, Hw.
Qed.

Lemma Reconcile_subsecond_wp :
  wp any_call stored_seconds (Reconcile r req)
    (fun h' err => err = None -> subsecond h' ->
       nothing_observed req h' \/ appended_one h' err) [].
Proof.
  apply Reconcile_rule; [done|done|by left|].
  intros k ident t podFound pod Hk _ Ho _.
  eapply wp_mono; [|apply (recordTransition_subsecond ident t); [done|]].
  - intros h' err HQ _ Hs. right. by apply HQ.
  - apply writes_of_none. eapply Forall_impl; [exact Hk|]. by intros [].
Qed.
End subsecond.

(** C36. The comparison of a derived transition with a stored one is exact, but the
    API server stores whole seconds: when the derived instant has a fractional
    second (an Event's [EventTime] is in microseconds, [metav1.Now] in
    nanoseconds), a reconcile over unchanged inputs finds its own stored
    transition different and appends it again. *)
Theorem Reconcile_subsecond_duplicates `{!RetryOnError} r req persist_time tr :
  whole_seconds persist_time ->
  runs (Reconcile r req) tr None ->
  subsecond req tr ->
  latest_is (fun l => exists t, l = persist_transition persist_time t) tr ->
  (forall d a, Exch (UpdateDecisionStatus d) a ∈ tr -> a = None) ->
  nothing_observed req tr \/ appended_one req tr None.
Proof.
  intros Hp Hr Hsub Hl Hup.
  destruct (wp_sound _ _ _ _ _ _ _ (Reconcile_subsecond_wp r req) Hr) as [_ HQ];
    [|by apply HQ].
  apply answers_ok_intro. intros pre [c a] post ->. simpl. destruct c; simpl; try done.
  - destruct (Hl name a) as (d & l & -> & Hd & t & ->); [set_solver|].
    exists d, (persist_transition persist_time t). split_and!; [done..|].
    simpl. by rewrite Hp.
  - apply (Hup d). set_solver.
Qed.

(** ** Watches and reads *)

(** C28. The watch and the read agree: an object passes the watch predicate exactly
    when it is an Event on a Pod with a relevant reason; such an Event enqueues
    one request, is indexed under exactly the key and namespace that request's
    reconcile lists, and is kept by its filter. *)
Theorem watch_agrees_with_list obj :
  relevantEventPredicate obj = true <->
  exists e, obj = EventObject e /\
    or_Kind (ev_InvolvedObject e) = podKind /\ ev_Reason e ∈ relevantEventReasons /\
    exists req, mapEventToPodRequest obj = [req] /\
      nn_Namespace req = or_Namespace (ev_InvolvedObject e) /\
      indexEventInvolvedObject obj = [NamespacedName_String req] /\
      (forall items, e ∈ items -> e ∈ relevant_events items).
Proof.
  destruct obj as [e|]; simpl; [|naive_solver].
  destruct (bool_decide (or_Kind (ev_InvolvedObject e) = podKind)) eqn:Hk; simpl;
    bool_simpl; [|naive_solver].
  rewrite bool_decide_eq_true. split.
  - intros Hr. exists e. split_and!; [done..|]. eexists. split_and!; [done..|].
    intros items Hin. unfold relevant_events. by apply list_elem_of_filter.
  - intros (e' & Heq & _ & Hr & _). by simplify_eq.
Qed.
