(* ===== verification/Sweep.v ===== *)
(** * [cmd/sweep]: the retention sweep

    A one-shot program: list every decision, delete those whose expiry label has
    passed, report, and exit with status 1 if a deletion failed. The three
    counters are Go [int]s bounded by the length of the list, so they are plain
    integers here. *)

From S2P Require Import Prelude Strconv GoTime Api Decision Effects Controller.

(** ** Operations *)

Definition isExpired (labels : gmap string string) (now : Time) : fallible error bool :=
  match labels !! ExpiresAtLabel with
  | None => inl (Errorf "missing %s label" [ExpiresAtLabel] None)
  | Some value =>
      match ParseInt value with
      | inl err =>
          inl (Errorf "parsing %s label %q: %w" [ExpiresAtLabel; value]
                 (Some (NumError "ParseInt" value err)))
      | inr expiresAt => inr (negb (Before now (Unix expiresAt)))
      end
  end.

Record counters := mkCounters { deleted : Z; skipped : Z; failed : Z }.

Fixpoint sweep_loop (now : Time) (items : list SchedulingDecision) (n : counters)
    : prog counters :=
  match items with
  | [] => mret n
  | decision :: rest =>
      match isExpired (sd_Labels decision) now with
      | inl err =>
          _ ← do_call (Log "skipping %s: %v" [sd_Name decision] (Some err));
          sweep_loop now rest (mkCounters (deleted n) (skipped n + 1) (failed n))
      | inr expired =>
          if negb expired then sweep_loop now rest n
          else
            err ← do_call (DeleteDecision decision);
            let hard := match err with Some e => negb (IsNotFound e) | None => false end in
            if hard then
              _ ← do_call (Log "deleting %s: %v" [sd_Name decision] err);
              sweep_loop now rest (mkCounters (deleted n) (skipped n) (failed n + 1))
            else
              sweep_loop now rest (mkCounters (deleted n + 1) (skipped n) (failed n))
      end
  end.

(** [os.Exit(code)]: the program ends. *)
Definition os_Exit {A} (code : Z) : prog A := Call (Exit code) (Empty_set_rect _).

Definition sweep_format : string :=
  "sweep complete: %d total, %d deleted, %d skipped (missing/invalid %s label), %d failed".

Definition sweep_report (items : list SchedulingDecision) (n : counters) : list string :=
  [FormatInt (Z.of_nat (length items)); FormatInt (deleted n); FormatInt (skipped n);
   ExpiresAtLabel; FormatInt (failed n)].

Definition sweep (now : Time) : prog (option error) :=
  list ← do_call ListDecisions;
  match list with
  | inl err => mret (Some (Errorf "listing SchedulingDecisions: %w" [] (Some err)))
  | inr items =>
      n ← sweep_loop now items (mkCounters 0 0 0);
      _ ← do_call (Log sweep_format (sweep_report items n) None);
      if 0 <? failed n then os_Exit 1 else mret None
  end.

(** [main], after the client is built: sweep as of now; [log.Fatal] logs and
    exits with status 1. *)
Definition main : prog unit :=
  now ← do_call Now;
  err ← sweep now;
  match err with
  | Some e => _ ← do_call (Log "%v" [] (Some e)); os_Exit 1
  | None => mret tt
  end.

(** ** Specification *)

(** The items a sweep as of [now] is to delete, to skip and to keep. *)
Definition is_swept (now : Time) (d : SchedulingDecision) : bool :=
  match isExpired (sd_Labels d) now with inr true => true | _ => false end.
Definition is_skipped (now : Time) (d : SchedulingDecision) : bool :=
  match isExpired (sd_Labels d) now with inl _ => true | inr _ => false end.

Definition to_delete (now : Time) (items : list SchedulingDecision) : list SchedulingDecision :=
  filter (fun d => is_swept now d = true) items.
Definition to_skip (now : Time) (items : list SchedulingDecision) : list SchedulingDecision :=
  filter (fun d => is_skipped now d = true) items.

(** A deletion that failed for another reason than the record being gone. *)
Definition is_hard_failure (x : exchange) : bool :=
  match x with
  | Exch (DeleteDecision _) (Some e) => negb (IsNotFound e)
  | _ => false
  end.

Definition deletions_failed (h : list exchange) : Z :=
  Z.of_nat (length (filter (fun x => is_hard_failure x = true) h)).

(** A finished sweep: the history lists the decisions once, deletes exactly the
    expired ones, in order and once each, and ends with the report. *)
Definition sweep_done (now : Time) (h : list exchange) : Prop :=
  exists items n fmt,
    head h = Some (Exch ListDecisions (inr items)) /\
    writes_of h = DeleteDecision <$> to_delete now items /\
    last h = Some (Exch (Log fmt (sweep_report items n) None) tt) /\
    failed n = deletions_failed h /\
    deleted n = Z.of_nat (length (to_delete now items)) - failed n /\
    skipped n = Z.of_nat (length (to_skip now items)).

(** The calls a sweep as of [now] may make: deletions of expired items, in order, each
    once. *)
Definition sweep_allows (now : Time) (h : list exchange) (c : call) : Prop :=
  match c with
  | ListDecisions => h = []
  | DeleteDecision d =>
      exists items, head h = Some (Exch ListDecisions (inr items)) /\
        d ∈ items /\ isExpired (sd_Labels d) now = inr true /\
        (writes_of h ++ [DeleteDecision d]) `prefix_of` (DeleteDecision <$> to_delete now items)
  | Log _ _ _ => True
  | Exit code => code = 1 /\ sweep_done now h /\ 0 < deletions_failed h
  | _ => False
  end.

(** The latest instant of the [Unix] range that does not overflow. *)
Definition unix_limit : Z := int64_max - unixToInternal.

(** ** Lemmas *)

(** An expiry label read at an instant, in integer seconds. *)
Lemma isExpired_value labels now value :
  labels !! ExpiresAtLabel = Some value ->
  forall n, decimal value = Some n -> in_int64 n -> n <= unix_limit ->
    valid_time now ->
    isExpired labels now = inr (bool_decide ((n + unixToInternal) * Second <= instant now)).
Proof.
  intros Hl n Hd Hn Hlim Hnow. unfold isExpired. rewrite Hl.
  rewrite (proj2 (ParseInt_decimal value n)) by done. f_equal.
  unfold unix_limit in Hlim. unfold Unix, Before. cbn [sec nsec].
  rewrite wrap64_id by (unfold unixToInternal in *; solve_int64).
  apply eq_bool_prop_intro. rewrite negb_True, bool_decide_spec.
  rewrite orb_True, andb_True, !Is_true_true, !Z.ltb_lt, Z.eqb_eq.
  unfold valid_time, instant, Second, unixToInternal in *. lia.
Qed.

(** The expiry label of a new record. *)
Lemma newDecision_expiry name ident n :
  sd_Labels (newDecision name ident n) !! ExpiresAtLabel = Some (FormatInt n).
Proof. done. Qed.

Lemma set_VolumeContext_Labels v d : sd_Labels (set_VolumeContext v d) = sd_Labels d.
Proof. done. Qed.

Lemma retentionWindow_pos r : 0 < retentionWindow r.
Proof. unfold retentionWindow. split_if; [done|]. by vm_compute. Qed.

Lemma retentionWindow_range r :
  in_int64 (RetentionWindow r) -> in_int64 (retentionWindow r).
Proof. unfold retentionWindow. split_if; [done|]. intros _. by vm_compute. Qed.

(** The seconds [Add] and [Unix] compute are those of the exact sum. *)
Lemma expiry_seconds now w :
  rfc3339 now -> in_int64 w ->
  Time_Unix (Add now w) = (instant now + w) / Second - unixToInternal /\
  - 2 ^ 40 <= Time_Unix (Add now w) <= 2 ^ 40.
Proof.
  intros Hn Hw. pose proof (rfc3339_valid _ Hn) as Hv.
  destruct (Add_valid now w Hv Hw) as (Hi & Hns & _).
  assert (sec (Add now w) = (instant now + w) / Second) as Hs.
  { rewrite <- Hi. unfold instant. rewrite Z.div_add_l by done.
    rewrite (Z.div_small (nsec _)) by done. lia. }
  assert (- 2 ^ 35 <= sec (Add now w) <= 2 ^ 39).
  { rewrite Hs. unfold rfc3339, instant, Second in *. split.
    - apply Z.div_le_lower_bound; solve_int64.
    - apply Z.div_le_upper_bound; solve_int64. }
  unfold Time_Unix. rewrite wrap64_id by (unfold unixToInternal; solve_int64).
  unfold unixToInternal in *. lia.
Qed.

Lemma whole_seconds n : n - Second < n / Second * Second <= n.
Proof.
  pose proof (Z.div_mod n Second ltac:(done)). pose proof (Z.mod_pos_bound n Second ltac:(done)). lia.
Qed.

(** A label for the end of a window [w] from [now] on, read at [now']. *)
Lemma label_expired now w labels now' :
  rfc3339 now -> in_int64 w -> valid_time now' ->
  labels !! ExpiresAtLabel = Some (FormatInt (Time_Unix (Add now w))) ->
  isExpired labels now' =
    inr (bool_decide ((instant now + w) / Second * Second <= instant now')).
Proof.
  intros Hn Hw Hn' Hl. destruct (expiry_seconds now _ Hn Hw) as [Hs Hb].
  assert (in_int64 (Time_Unix (Add now w))) as Hi by solve_int64.
  pose proof (ParseInt_FormatInt _ Hi) as Hp. apply ParseInt_decimal in Hp as [Hp _].
  rewrite (isExpired_value _ now' _ Hl _ Hp Hi);
    [|unfold unix_limit, unixToInternal; solve_int64|done].
  by rewrite Hs, Z.sub_add.
Qed.

(** An expired label stays expired. *)
Lemma isExpired_mono labels now now' :
  valid_time now -> valid_time now' -> instant now <= instant now' ->
  isExpired labels now = inr true -> isExpired labels now' = inr true.
Proof.
  unfold isExpired. destruct (labels !! ExpiresAtLabel) as [value|]; [|done].
  destruct (ParseInt value) as [e|n]; [done|]. intros Hv Hv' Hle He.
  injection He as He. f_equal. revert He.
  rewrite <- !Is_true_true, !negb_True. unfold Before, Unix. cbn [sec nsec].
  rewrite !orb_True, !andb_True, !Is_true_true, !Z.ltb_lt, !Z.eqb_eq.
  unfold valid_time, instant, Second in *. lia.
Qed.

Lemma deletions_failed_app h k :
  deletions_failed (h ++ k) = deletions_failed h + deletions_failed k.
Proof. unfold deletions_failed. rewrite filter_app, length_app. lia. Qed.

Lemma deletions_failed_nonneg h : 0 <= deletions_failed h.
Proof. unfold deletions_failed. lia. Qed.

Lemma deletions_failed_single x :
  deletions_failed [x] = if is_hard_failure x then 1 else 0.
Proof.
  unfold deletions_failed. destruct (is_hard_failure x) eqn:Hx.
  - by rewrite filter_cons_True.
  - rewrite filter_cons_False; [done|]. by rewrite Hx.
Qed.

Lemma to_delete_cons now d items :
  to_delete now (d :: items) =
  if is_swept now d then d :: to_delete now items else to_delete now items.
Proof.
  unfold to_delete. destruct (is_swept now d) eqn:Hd.
  - by rewrite filter_cons_True.
  - rewrite filter_cons_False; [done|]. by rewrite Hd.
Qed.

Lemma to_skip_cons now d items :
  to_skip now (d :: items) =
  if is_skipped now d then d :: to_skip now items else to_skip now items.
Proof.
  unfold to_skip. destruct (is_skipped now d) eqn:Hd.
  - by rewrite filter_cons_True.
  - rewrite filter_cons_False; [done|]. by rewrite Hd.
Qed.

Lemma head_app_Some {A} (l k : list A) x : head l = Some x -> head (l ++ k) = Some x.
Proof. by destruct l. Qed.

#[export] Hint Rewrite writes_of_app writes_of_single deletions_failed_app
  deletions_failed_single : sweep_rw.

(** The loop over the rest of a listed sequence: what it adds to the history and
    to the counters. *)
Lemma sweep_loop_wp now all rest n h :
  head h = Some (Exch ListDecisions (inr all)) -> rest ⊆ all ->
  writes_of h ++ (DeleteDecision <$> to_delete now rest) = DeleteDecision <$> to_delete now all ->
  wp (sweep_allows now) any_answer (sweep_loop now rest n)
    (fun h' n' => head h' = Some (Exch ListDecisions (inr all)) /\
       writes_of h' = writes_of h ++ (DeleteDecision <$> to_delete now rest) /\
       failed n' - failed n = deletions_failed h' - deletions_failed h /\
       deleted n' + failed n' =
         deleted n + failed n + Z.of_nat (length (to_delete now rest)) /\
       skipped n' = skipped n + Z.of_nat (length (to_skip now rest))) h.
Proof.
  revert n h. induction rest as [|d rest IH]; intros n h Hh Hsub Hall.
  { cbn [sweep_loop]. apply wp_ret. unfold to_delete, to_skip. simpl.
    rewrite app_nil_r. split_and!; [done|done|lia..]. }
  cbn [sweep_loop]. rewrite to_delete_cons, to_skip_cons. rewrite to_delete_cons in Hall.
  unfold is_swept, is_skipped in *.
  assert (rest ⊆ all) as Hsub' by set_solver.
  destruct (isExpired (sd_Labels d) now) as [err|[]] eqn:He; cbn [negb].
  - wp_step u Hu.
    eapply wp_mono; [|apply IH; [by apply head_app_Some|done|]].
    2: by autorewrite with sweep_rw; simpl; rewrite app_nil_r.
    simpl. intros h' n' (H1 & H2 & H3 & H4 & H5).
    autorewrite with sweep_rw in H2, H3. simpl in *.
    rewrite app_nil_r in H2. split_and!; [done|done|lia..].
  - rewrite fmap_cons in Hall. wp_step a Ha.
    { exists all. split_and!; [done|set_solver|done|]. rewrite <- Hall.
      exists (DeleteDecision <$> to_delete now rest). by rewrite <- app_assoc. }
    set (h1 := h ++ _).
    assert (head h1 = Some (Exch ListDecisions (inr all))) as Hh1
      by by apply head_app_Some.
    destruct a as [e|]; [destruct (IsNotFound e) eqn:Hnf|]; cbn [negb].
    2: wp_step u Hu.
    all: eapply wp_mono; [|apply IH; [try (by apply head_app_Some); done|done|]].
    all: try (by subst h1; autorewrite with sweep_rw; simpl; rewrite ?app_nil_r, <- app_assoc).
    all: simpl; intros h' n' (H1 & H2 & H3 & H4 & H5).
    all: subst h1; autorewrite with sweep_rw in H2, H3; simpl in *.
    all: rewrite ?Hnf, ?app_nil_r, <- ?app_assoc in *; simpl in *.
    all: split_and!; [done|done|lia..].
  - eapply wp_mono; [|by apply IH]. done.
Qed.

Lemma sweep_done_log now items n h fmt a :
  head h = Some (Exch ListDecisions (inr items)) ->
  writes_of h = DeleteDecision <$> to_delete now items ->
  failed n = deletions_failed h ->
  deleted n + failed n = Z.of_nat (length (to_delete now items)) ->
  skipped n = Z.of_nat (length (to_skip now items)) ->
  sweep_done now (h ++ [Exch (Log fmt (sweep_report items n) None) a]).
Proof.
  intros Hh Hw Hf Hd Hs. exists items, n, fmt.
  autorewrite with sweep_rw. simpl. rewrite app_nil_r, last_snoc.
  destruct a. split_and!; [by apply head_app_Some|done|done|lia..].
Qed.

(** What a sweep that ends by itself has done. *)
Definition sweep_result (now : Time) (h : list exchange) (err : option error) : Prop :=
  match err with
  | None => sweep_done now h /\ deletions_failed h = 0
  | Some e => exists e0, h = [Exch ListDecisions (inl e0)] /\
      ReasonForError e = ReasonForError e0
  end.

Lemma sweep_wp now :
  wp (sweep_allows now) any_answer (sweep now) (sweep_result now) [].
Proof.
  unfold sweep. wp_step l Hl. destruct l as [e|items].
  { apply wp_ret. by exists e. }
  apply wp_bind. eapply wp_mono; [|by apply (sweep_loop_wp now items)].
  intros h n (Hh & Hw & Hf & Hd & Hs).
  simpl in Hw, Hf, Hd, Hs.
  change (deletions_failed [Exch ListDecisions (inr items)]) with 0 in Hf.
  change (writes_of [Exch ListDecisions (inr items)]) with (@nil call) in Hw.
  wp_step u Hu. set (x := Exch (Log _ _ _) u).
  assert (sweep_done now (h ++ [x])) as Hdone by (apply sweep_done_log; [done|done|lia..]).
  assert (deletions_failed (h ++ [x]) = deletions_failed h) as Hdf
    by (autorewrite with sweep_rw; simpl; lia).
  split_if.
  - split; [split_and!; [done|done|lia]|by intros []].
  - pose proof (deletions_failed_nonneg h). apply wp_ret. split; [done|lia].
Qed.

(** ** Theorems *)

(** C17. Retention end to end: the label the controller gives a new record at [now]
    is read back by the sweep exactly: at [now'] the record is expired when the
    whole second in which the window ends has been reached. So a sweep never
    takes a record more than a second before its retention window has elapsed,
    and always takes it afterwards. *)
Theorem retention_window_respected r name ident v now now' :
  rfc3339 now -> valid_time now' -> in_int64 (RetentionWindow r) ->
  let d := set_VolumeContext v (newDecision name ident
             (Time_Unix (Add now (retentionWindow r)))) in
  exists expired, isExpired (sd_Labels d) now' = inr expired /\
    (expired = true <->
       (instant now + retentionWindow r) / Second * Second <= instant now') /\
    (instant now' <= instant now + retentionWindow r - Second -> expired = false) /\
    (instant now + retentionWindow r <= instant now' -> expired = true).
Proof.
  intros Hn Hn' Hr d. eexists. split.
  { eapply (label_expired now); [done|by apply retentionWindow_range|done|done]. }
  rewrite bool_decide_eq_true, bool_decide_eq_false.
  pose proof (whole_seconds (instant now + retentionWindow r)). split_and!; [done|lia..].
Qed.

(** C18. Safety of the sweep, whatever the server answers: the only writes are
    deletions of listed decisions whose label reads as expired, in the order of the
    list and each once; a record with a missing or malformed label is never deleted. *)
Theorem sweep_deletes_only_expired now tr :
  (exists err, runs (sweep now) tr err) \/ (exists code, exits (sweep now) tr code) ->
  calls_ok (sweep_allows now) [] tr.
Proof.
  intros [[err Hr]|[code Hr]].
  - by destruct (wp_runs _ _ _ _ _ (sweep_wp now) Hr).
  - by destruct (wp_any_exits _ _ _ _ _ (sweep_wp now) Hr).
Qed.

(** C19. Completeness and exit status: a sweep that returns nil has deleted every
    expired decision of the list exactly once, in order, with no failure, and its
    report counts them and the skipped ones; it returns an error only when the
    list could not be read, having done nothing; and it exits, with status 1,
    exactly when it has tried them all and some deletion failed for another
    reason than the record being gone. *)
Theorem sweep_complete now tr :
  (forall err, runs (sweep now) tr err -> sweep_result now tr err) /\
  (forall code, exits (sweep now) tr code ->
     code = 1 /\ sweep_done now tr /\ 0 < deletions_failed tr).
Proof.
  split.
  - intros err Hr. by destruct (wp_runs _ _ _ _ _ (sweep_wp now) Hr).
  - intros code Hr. by destruct (wp_any_exits _ _ _ _ _ (sweep_wp now) Hr).
Qed.

(** How [main] ends after the exchanges [tr]: with status 0 (it returns) when
    everything expired is gone, and with status 1 otherwise. *)
Inductive main_ends : list exchange -> option Z -> Prop :=
  | main_success now tr :
      sweep_done now tr -> deletions_failed tr = 0 -> main_ends (Exch Now now :: tr) None
  | main_list_failed now e e0 :
      ReasonForError e = ReasonForError e0 ->
      main_ends [Exch Now now; Exch ListDecisions (inl e0);
                 Exch (Log "%v" [] (Some e)) tt] (Some 1)
  | main_delete_failed now tr :
      sweep_done now tr -> 0 < deletions_failed tr ->
      main_ends (Exch Now now :: tr) (Some 1).

(** Exit status: against any API server that answers, the program ends, with
    status 0 when every expired decision of the list is gone, and with status 1
    when the list could not be read or some deletion failed. *)
Theorem main_exit_status {W} (srv : server W) w :
  answering srv ->
  (exists tr w', exec srv main w = (Some tt, tr, w') /\ main_ends tr None) \/
  (exists tr w' code, exec srv main w = (None, tr, w') /\ exits main tr code /\
     main_ends tr (Some code)).
Proof.
  intros Hs. destruct (exec_ends srv main w Hs)
    as [([] & tr & w' & He & Hr)|(tr & w' & code & He & Hx)].
  - left. exists tr, w'. split; [done|]. unfold main in Hr.
    apply runs_bind in Hr as (t1 & t2 & now & -> & ->%runs_do_call & Hr).
    apply runs_bind in Hr as (t3 & t4 & [e|] & -> & Hr & Hr').
    { apply runs_bind in Hr' as (? & ? & [] & -> & _ & (? & _)). done. }
    apply runs_ret in Hr' as [-> _]. rewrite app_nil_r.
    apply (wp_runs _ _ _ _ _ (sweep_wp now)) in Hr as [_ []]. by constructor.
  - right. exists tr, w', code. split_and!; [done|done|]. unfold main in Hx.
    apply exits_bind in Hx as [[[? _]|(? & ? & _ & [])]|(t1 & t2 & now & -> & ->%runs_do_call & Hx)];
      [done|].
    apply exits_bind in Hx as [Hx|(t3 & t4 & [e|] & -> & Hr & Hx)]; [| |done].
    + apply (wp_any_exits _ _ _ _ _ (sweep_wp now)) in Hx as [_ (-> & ? & ?)]. by constructor.
    + apply (wp_runs _ _ _ _ _ (sweep_wp now)) in Hr as [_ (e0 & -> & Hreason)].
      apply exits_bind in Hx as [[[? _]|(? & ? & _ & [])]|(t5 & t6 & [] & -> & ->%runs_do_call & Hx)];
        [done|].
      destruct Hx as [[[= <-] ->]|([] & _)]. by apply main_list_failed.
Qed.

(** C29. Reading a label: it is an error exactly when it is missing or is not a
    decimal numeral of an [int64]; otherwise, up to the limit of the [Unix]
    range, the record is expired when its second has been reached. *)
Theorem isExpired_spec labels now :
  valid_time now ->
  ((exists e, isExpired labels now = inl e) <->
     labels !! ExpiresAtLabel = None \/
     exists v, labels !! ExpiresAtLabel = Some v /\
       forall n, decimal v = Some n -> ~ in_int64 n) /\
  (forall v n, labels !! ExpiresAtLabel = Some v -> decimal v = Some n ->
     in_int64 n -> n <= unix_limit ->
     isExpired labels now = inr (bool_decide ((n + unixToInternal) * Second <= instant now))).
Proof.
  intros Hnow. split; [|intros; by eapply isExpired_value].
  unfold isExpired. destruct (labels !! ExpiresAtLabel) as [v|]; [|naive_solver].
  destruct (ParseInt v) as [e|n] eqn:Hp.
  - split; [|naive_solver]. intros _. right. exists v. split; [done|]. intros n Hd Hn.
    assert (ParseInt v = inr n) by (by apply ParseInt_decimal). congruence.
  - apply ParseInt_decimal in Hp as [Hd Hn]. naive_solver.
Qed.

(** C40. Beyond the [Unix] range the comparison is wrong: a label naming a second
    after [unix_limit], hundreds of millions of millennia away, wraps around and
    reads as expired at every instant from year 1 on, so the sweep deletes it. *)
Theorem isExpired_overflow labels now v n :
  labels !! ExpiresAtLabel = Some v -> decimal v = Some n ->
  unix_limit < n <= int64_max -> rfc3339 now ->
  isExpired labels now = inr true.
Proof.
  intros Hl Hd Hn [Hs Hns]. unfold isExpired. rewrite Hl.
  rewrite (proj2 (ParseInt_decimal v n))
    by (split; [done|unfold unix_limit, unixToInternal in *; solve_int64]).
  do 2 f_equal. unfold Unix, Before. cbn [sec nsec].
  assert (wrap64 (n + unixToInternal) < 0) as Hw.
  { replace (n + unixToInternal) with (n + unixToInternal - 2 ^ 64 + 1 * 2 ^ 64) by lia.
    rewrite wrap64_eq, wrap64_id; unfold unix_limit, unixToInternal in *; solve_int64. }
  rewrite (proj2 (Z.ltb_ge _ _)), (proj2 (Z.eqb_neq _ _)) by lia. done.
Qed.
