(* ===== verification/Http.v ===== *)
(** * HTTP handlers: what the two servers write

    A handler writes one response. [http.Error] writes a plain-text message; a
    JSON encoder writes the encoding of a value, or fails. Which bytes a value encodes to, and which request bodies decode, is
    the business of [encoding/json]: the handlers take the codec as parameters.
    [ServeMux] is the router of both servers. *)

From S2P Require Import Prelude GoTime Effects.

Definition StatusOK : Z := 200.
Definition StatusBadRequest : Z := 400.
Definition StatusNotFound : Z := 404.
Definition StatusInternalServerError : Z := 500.

(** A response body: an error message ([http.Error] of a formatted error), an
    encoded value, a static page, or nothing. *)
Inductive Body :=
  | ErrorText (format : string) (err : error)
  | Json (encoded : string)
  | Page (html : string)
  | NotFoundText
  | NoBody.

Record Response := mkResponse {
  resp_status : Z;
  resp_contentType : string;
  resp_body : Body;
}.

Definition text_plain : string := "text/plain; charset=utf-8".
Definition application_json : string := "application/json".
Definition text_html : string := "text/html; charset=utf-8".

(** [http.Error(w, fmt.Sprintf(format, err), code)] *)
Definition http_Error (format : string) (err : error) (code : Z) : Response :=
  mkResponse code text_plain (ErrorText format err).

(** [http.NotFound(w, r)] *)
Definition http_NotFound : Response := mkResponse StatusNotFound text_plain NotFoundText.

(** Set the JSON content type and run [json.NewEncoder(w).Encode(v)]. [Encode v] is what
    that returns on this request's connection: the encoding that was written, or an
    error, of the encoding or of the write to a client that is gone. An error is logged;
    what such a client has received before is not modelled. *)
Definition write_json {V} (Encode : V -> fallible error string) (v : V) (logFormat : string)
    : prog Response :=
  match Encode v with
  | inr s => mret (mkResponse StatusOK application_json (Json s))
  | inl err =>
      _ ← do_call (Log logFormat [] (Some err));
      mret (mkResponse StatusOK application_json NoBody)
  end.

(** [w.WriteHeader(http.StatusOK)], and nothing else: the health check of both
    servers. *)
Definition healthzHandler : Response := mkResponse StatusOK "" NoBody.

(** ** [http.ServeMux]

    A pattern is a path, or a subtree if it ends in a slash; the longest pattern that
    matches gets the request. The server cleans paths before; patterns with methods,
    hosts or wildcards are not used. *)

Record Request := mkRequest { req_Path : string; req_Body : string }.

Definition HandlerFunc : Type := Request -> prog Response.

Definition ServeMux : Type := list (string * HandlerFunc).

Definition NewServeMux : ServeMux := [].

Definition HandleFunc (pattern : string) (h : HandlerFunc) (mux : ServeMux) : ServeMux :=
  mux ++ [(pattern, h)].

Definition is_subtree (pattern : string) : bool :=
  match String.get (pred (String.length pattern)) pattern with
  | Some c => Ascii.eqb c "/"
  | None => false
  end.

Definition matches (pattern path : string) : bool :=
  (pattern =?s path) || (is_subtree pattern && String.prefix pattern path).

Fixpoint mux_match (mux : ServeMux) (path : string) : option (string * HandlerFunc) :=
  match mux with
  | [] => None
  | (pattern, h) :: rest =>
      let other := mux_match rest path in
      if matches pattern path then
        match other with
        | Some (p, _) =>
            if (String.length pattern <=? String.length p)%nat then other else Some (pattern, h)
        | None => Some (pattern, h)
        end
      else other
  end.

Definition ServeHTTP (mux : ServeMux) (r : Request) : prog Response :=
  match mux_match mux (req_Path r) with
  | Some (_, h) => h r
  | None => mret http_NotFound
  end.

(** ** Servers *)

(** [http.Server], as far as it is configured. *)
Record http_Server := mkServer {
  srv_Addr : string;
  srv_Handler : ServeMux;
  srv_ReadHeaderTimeout : Duration;
}.

(** What [ListenAndServe] returns when it does: [http.ErrServerClosed] or another
    error. *)
Inductive listen_error := ErrServerClosed | ListenError (err : error).

(** ** Lemmas *)

Lemma matches_exact p path : is_subtree p = false -> matches p path = (path =?s p).
Proof.
  unfold matches. intros ->. rewrite andb_false_l, orb_false_r.
  by apply bool_decide_ext.
Qed.

(** Only a pattern that matches gets the request. *)
Lemma mux_match_matches mux path p h :
  mux_match mux path = Some (p, h) -> (p, h) ∈ mux /\ matches p path = true.
Proof.
  induction mux as [|[p' h'] mux IH]; simpl; [done|]. rewrite elem_of_cons.
  destruct (matches p' path) eqn:Hm; [|naive_solver].
  destruct (mux_match mux path) as [[p1 h1]|]; [case_match|]; naive_solver.
Qed.
