(* ===== verification/Extender.v ===== *)
(** * [cmd/extender]: the scheduler extender that only observes

    The Filter handler records the candidate nodes of a pod as an Event and
    returns the nodes it was given. A node object is opaque beyond its name, and
    the JSON codec is [encoding/json]'s: both are parameters of the section. *)

From S2P Require Import Prelude GoTime GoStrings Api Decision Effects Http Controller.

(** [reportingController] *)
Definition reportingController : string := "sch-audit-extender".

(** ** Operations *)

Section extender.
Context {Node : Type} (node_Name : Node -> string).

(** [extenderv1.ExtenderArgs] *)
Record ExtenderArgs := mkExtenderArgs {
  args_Pod : option Pod;
  args_Nodes : option (list Node);
  args_NodeNames : option (list string);
}.

(** [extenderv1.ExtenderFilterResult] *)
Record ExtenderFilterResult := mkFilterResult {
  res_Nodes : option (list Node);
  res_NodeNames : option (list string);
  res_FailedNodes : gmap string string;
  res_FailedAndUnresolvableNodes : gmap string string;
  res_Error : string;
}.

Context (Decode : string -> fallible error ExtenderArgs).
Context (Encode : ExtenderFilterResult -> fallible error string).

Definition candidateNodeNames (args : ExtenderArgs) : list string :=
  match args_NodeNames args with
  | Some names => names
  | None =>
      match args_Nodes args with
      | Some nodes => node_Name <$> nodes
      | None => []
      end
  end.

Definition passthroughResult (args : ExtenderArgs) : ExtenderFilterResult :=
  mkFilterResult (args_Nodes args) (args_NodeNames args) ∅ ∅ "".

Definition candidateNodesEvent (pod : Pod) (names : list string) (now : Time) : Event :=
  mkEvent "" "sch-audit-candidates-" (pod_Namespace pod) Time_zero
    (mkObjectReference "Pod" (pod_Namespace pod) (pod_Name pod) (pod_UID pod))
    CandidateNodesEventReason (Join names ",") EventTypeNormal reportingController ""
    now now Time_zero.

Definition recordCandidateNodes (pod : Pod) (names : list string) : prog (option error) :=
  now ← do_call Now;
  do_call (CreateEvent (candidateNodesEvent pod names now)).

(** [args.Pod != nil && len(names) > 0] guards the recording; its failure is
    only logged. *)
Definition record_if_any (args : ExtenderArgs) : prog unit :=
  let names := candidateNodeNames args in
  match args_Pod args with
  | Some pod =>
      if 0 <? Z.of_nat (length names) then
        err ← recordCandidateNodes pod names;
        match err with
        | Some e =>
            do_call (Log "recording candidate nodes for pod %s/%s: %v"
                       [pod_Namespace pod; pod_Name pod] (Some e))
        | None => mret tt
        end
      else mret tt
  | None => mret tt
  end.

Definition filterHandler (body : string) : prog Response :=
  match Decode body with
  | inl err => mret (http_Error "decoding ExtenderArgs: %v" err StatusBadRequest)
  | inr args =>
      _ ← record_if_any args;
      write_json Encode (passthroughResult args) "encoding ExtenderFilterResult: %v"
  end.

(** The mux of [main]. *)
Definition extender_mux : ServeMux :=
  HandleFunc "/healthz" (fun _ => mret healthzHandler)
    (HandleFunc "/filter" (fun r => filterHandler (req_Body r)) NewServeMux).

Definition extender_serve (r : Request) : prog Response := ServeHTTP extender_mux r.

(** ** Specification *)

(** The answer that changes nothing: the nodes of the request in the form in which they
    came, no failed node and no error. *)
Definition all_nodes (args : ExtenderArgs) : ExtenderFilterResult :=
  {| res_Nodes := args_Nodes args; res_NodeNames := args_NodeNames args;
     res_FailedNodes := ∅; res_FailedAndUnresolvableNodes := ∅; res_Error := "" |}.

(** The response to a decoded request, whatever happened to the Event. *)
Definition passthrough_response (args : ExtenderArgs) : Response :=
  mkResponse 200 "application/json"
    (match Encode (all_nodes args) with inr s => Json s | inl _ => NoBody end).

(** The names of the nodes that a request offers, in whichever form. *)
Inductive offers (args : ExtenderArgs) : list string -> Prop :=
  | offers_names names : args_NodeNames args = Some names -> offers args names
  | offers_nodes nodes :
      args_NodeNames args = None -> args_Nodes args = Some nodes ->
      offers args (node_Name <$> nodes)
  | offers_none : args_NodeNames args = None -> args_Nodes args = None -> offers args [].

(** [e] reports [names] for [pod]. *)
Record reports_candidates (pod : Pod) (names : list string) (now : Time) (e : Event) : Prop := {
  rc_object : ev_InvolvedObject e =
    mkObjectReference "Pod" (pod_Namespace pod) (pod_Name pod) (pod_UID pod);
  rc_namespace : ev_Namespace e = pod_Namespace pod;
  rc_prefix : ev_GenerateName e = "sch-audit-candidates-";
  rc_reason : ev_Reason e = "CandidateNodes";
  rc_message : ev_Message e = Join names ",";
  rc_type : ev_Type e = "Normal";
  rc_controller : ev_ReportingController e = "sch-audit-extender";
  rc_times : ev_FirstTimestamp e = now /\ ev_LastTimestamp e = now;
}.

(** Recording the names: the clock is read, one such Event is created, and a failure of
    that is logged. Without a pod or without names nothing is done. *)
Inductive records_names (args : ExtenderArgs) : list string -> list exchange -> Prop :=
  | records_created pod names now e :
      args_Pod args = Some pod -> names <> [] -> reports_candidates pod names now e ->
      records_names args names [Exch Now now; Exch (CreateEvent e) None]
  | records_failed pod names now e err :
      args_Pod args = Some pod -> names <> [] -> reports_candidates pod names now e ->
      records_names args names [Exch Now now; Exch (CreateEvent e) (Some err);
        Exch (Log "recording candidate nodes for pod %s/%s: %v"
                [pod_Namespace pod; pod_Name pod] (Some err)) tt]
  | records_nothing names :
      args_Pod args = None \/ names = [] -> records_names args names [].

(** An answer that cannot be encoded is logged. *)
Definition encoding_log (args : ExtenderArgs) : list exchange :=
  match Encode (all_nodes args) with
  | inl err => [Exch (Log "encoding ExtenderFilterResult: %v" [] (Some err)) tt]
  | inr _ => []
  end.

(** The only write a request may cause. *)
Definition filter_allows (body : string) (h : list exchange) (c : call) : Prop :=
  match c with
  | CreateEvent e =>
      writes_of h = [] /\
      exists args pod now, Decode body = inr args /\ args_Pod args = Some pod /\
        Exch Now now ∈ h /\ candidateNodeNames args <> [] /\
        e = candidateNodesEvent pod (candidateNodeNames args) now
  | Now | Log _ _ _ => True
  | _ => False
  end.

(** What a request is answered, and the calls it makes. *)
Inductive extender_serves : Request -> list exchange -> Response -> Prop :=
  | serves_filter body args names tr :
      Decode body = inr args -> offers args names -> records_names args names tr ->
      extender_serves (mkRequest "/filter" body) (tr ++ encoding_log args)
        (passthrough_response args)
  | serves_undecodable body err :
      Decode body = inl err ->
      extender_serves (mkRequest "/filter" body) []
        (mkResponse 400 text_plain (ErrorText "decoding ExtenderArgs: %v" err))
  | serves_healthy body :
      extender_serves (mkRequest "/healthz" body) [] (mkResponse 200 "" NoBody)
  | serves_unknown path body :
      path <> "/filter" -> path <> "/healthz" ->
      extender_serves (mkRequest path body) [] (mkResponse 404 text_plain NotFoundText).

(** ** Lemmas *)

Lemma extender_routes path body :
  extender_serve (mkRequest path body) =
  if path =?s "/filter" then filterHandler body
  else if path =?s "/healthz" then mret healthzHandler
  else mret http_NotFound.
Proof.
  unfold extender_serve, ServeHTTP.
  cbn [app req_Path extender_mux HandleFunc NewServeMux mux_match].
  rewrite !matches_exact by done.
  case_bool_decide; subst; [done|]. by case_bool_decide; subst.
Qed.

Lemma write_json_wp {V} G R (enc : V -> fallible error string) v fmt Q h :
  (forall h' f l e, G h' (Log f l e)) ->
  (forall h', Q h' (mkResponse StatusOK application_json
     (match enc v with inr s => Json s | inl _ => NoBody end))) ->
  wp G R (write_json enc v fmt) Q h.
Proof.
  intros HG HQ. unfold write_json. destruct (enc v) as [e|s] eqn:He.
  - wp_step u Hu. apply wp_ret, HQ.
  - apply wp_ret, HQ.
Qed.

Lemma filterHandler_wp body R :
  wp (filter_allows body) R (filterHandler body)
    (fun h r => match Decode body with
       | inl err => h = [] /\ r = http_Error "decoding ExtenderArgs: %v" err StatusBadRequest
       | inr args => r = passthrough_response args
       end) [].
Proof.
  unfold filterHandler. destruct (Decode body) as [err|args] eqn:Hd; [by apply wp_ret|].
  apply wp_bind.
  assert (forall h, wp (filter_allows body) R
    (write_json Encode (passthroughResult args) "encoding ExtenderFilterResult: %v")
    (fun _ r => r = passthrough_response args) h) as Hw.
  { intros h. by apply write_json_wp. }
  unfold record_if_any, recordCandidateNodes.
  destruct (args_Pod args) as [pod|] eqn:Hp; [|apply wp_ret, Hw].
  split_if; [|apply wp_ret, Hw]. apply wp_bind, wp_bind.
  wp_step now Hnow. wp_step e He.
  - split; [by vm_compute|]. exists args, pod, now. split_and!; try done; [set_solver|].
    by intros Hn; rewrite Hn in *.
  - destruct e as [e|]; [wp_step u Hu|apply wp_ret]; apply Hw.
Qed.

Lemma offers_candidates args : offers args (candidateNodeNames args).
Proof.
  unfold candidateNodeNames. destruct (args_NodeNames args) as [names|] eqn:Hn;
    [by apply offers_names|]. destruct (args_Nodes args) as [nodes|] eqn:Hs;
    [by apply offers_nodes|by apply offers_none].
Qed.

Lemma candidatesEvent_reports pod names now :
  reports_candidates pod names now (candidateNodesEvent pod names now).
Proof. by split. Qed.

Lemma record_if_any_records args tr :
  runs (record_if_any args) tr tt -> records_names args (candidateNodeNames args) tr.
Proof.
  unfold record_if_any, recordCandidateNodes.
  destruct (args_Pod args) as [pod|] eqn:Hp; [|intros [-> _]%runs_ret; apply records_nothing; by left].
  set (names := candidateNodeNames args). split_if.
  2: { intros [-> _]%runs_ret. apply records_nothing. right. by destruct names. }
  assert (names <> []) as Hn by (by intros Hn; rewrite Hn in *).
  intros (t1 & t2 & err & -> & (t3 & t4 & now & -> & ->%runs_do_call & ->%runs_do_call)%runs_bind
    & Hr)%runs_bind.
  pose proof (candidatesEvent_reports pod names now) as He. destruct err as [err|].
  - apply runs_do_call in Hr as ->. by eapply records_failed.
  - apply runs_ret in Hr as [-> _]. by eapply records_created.
Qed.

Lemma write_json_runs {V} (enc : V -> fallible error string) v fmt tr resp :
  runs (write_json enc v fmt) tr resp ->
  tr = match enc v with inl err => [Exch (Log fmt [] (Some err)) tt] | inr _ => [] end /\
  resp = mkResponse StatusOK application_json
    (match enc v with inr s => Json s | inl _ => NoBody end).
Proof.
  unfold write_json. destruct (enc v) as [err|out]; [|done].
  intros (t1 & t2 & [] & -> & ->%runs_do_call & [-> ->]%runs_ret)%runs_bind. done.
Qed.
End extender.

Arguments ExtenderArgs Node : clear implicits.
Arguments ExtenderFilterResult Node : clear implicits.

(** What the controller reads back from the message of a recorded Event. *)
Lemma candidates_of_message events names e :
  latestEventWithReason events eventReasonCandidateNodes = Some e ->
  ev_Message e = Join names "," -> names <> [] ->
  candidateNodesFrom events = names ≫= (fun n => Split n "," ≫= candidate_of).
Proof.
  intros He Hm Hn. unfold candidateNodesFrom. rewrite He, Hm.
  case_bool_decide as Hj.
  - (* an empty message holds only empty names *)
    destruct names as [|n [|n' names]]; [done| |].
    + simpl in Hj. by subst.
    + exfalso. change (Join (n :: n' :: names) ",")
        with (n +:+ "," +:+ Join (n' :: names) ",") in Hj.
      by destruct n.
  - change ","%string with (String "," "") in *. rewrite Split_Join by done.
    clear. induction names as [|n names IH]; [done|]. csimpl.
    by rewrite bind_app, IH.
Qed.

Lemma candidate_of_dns n : dns_name n = true -> candidate_of n = [mkCandidateNode n "" None].
Proof.
  intros Hn. unfold candidate_of. rewrite dns_name_trimmed by done.
  rewrite bool_decide_eq_false_2; [done|]. by apply dns_name_nonempty.
Qed.

Lemma candidates_of_dns names :
  Forall (fun n => dns_name n = true) names ->
  names ≫= (fun n => Split n "," ≫= candidate_of) =
  (fun n => mkCandidateNode n "" None) <$> names.
Proof.
  induction 1 as [|n names Hn _ IH]; [done|]. csimpl. rewrite IH.
  rewrite Split_no_sep by by apply dns_name_no_comma. csimpl.
  by rewrite candidate_of_dns.
Qed.

(** ** Theorems *)

Section theorems.
Context {Node : Type} (node_Name : Node -> string).
Context (Decode : string -> fallible error (ExtenderArgs Node)).
Context (Encode : ExtenderFilterResult Node -> fallible error string).

(** The extender never affects scheduling: for every request and every
    behaviour of the API server, a decodable request is answered with status 200
    and exactly the nodes it carried, no failed nodes and no error, whether or
    not the Event could be written; an undecodable one is refused with 400. *)
Theorem filterHandler_passthrough body tr resp :
  runs (filterHandler node_Name Decode Encode body) tr resp ->
  match Decode body with
  | inl err => tr = [] /\ resp = http_Error "decoding ExtenderArgs: %v" err StatusBadRequest
  | inr args => resp = passthrough_response Encode args
  end.
Proof.
  intros Hr.
  by destruct (wp_runs _ _ _ _ _ (filterHandler_wp node_Name Decode Encode body _) Hr).
Qed.

(** The only write of a request is at most one Event on its pod, carrying the
    candidate names, and none without a pod or without candidates. *)
Theorem filterHandler_records body tr resp :
  runs (filterHandler node_Name Decode Encode body) tr resp ->
  calls_ok (filter_allows node_Name Decode body) [] tr.
Proof.
  intros Hr.
  by destruct (wp_runs _ _ _ _ _ (filterHandler_wp node_Name Decode Encode body _) Hr).
Qed.

(** C30. The extender answers every request by one of the cases of its specification: a
    decodable filter request with status 200 and exactly the nodes it carried, in the
    form in which they came, no node failed and no error, after exactly one Event on
    the request's pod with the names of the nodes has been created, or its failure
    logged, if there are a pod and names, and after no call otherwise; an undecodable
    one with 400; the health check with 200; and any other path with 404, without a
    call. *)
Theorem extender_serve_refines r tr resp :
  runs (extender_serve node_Name Decode Encode r) tr resp ->
  extender_serves node_Name Decode Encode r tr resp.
Proof.
  destruct r as [path body]. rewrite extender_routes.
  case_bool_decide as Hf; [|case_bool_decide as Hh]; subst.
  - unfold filterHandler. destruct (Decode body) as [err|args] eqn:Hd.
    { intros [-> ->]%runs_ret. by apply serves_undecodable. }
    intros (t1 & t2 & [] & -> & Hrec & [-> ->]%write_json_runs)%runs_bind.
    eapply serves_filter; [done|apply offers_candidates|by apply record_if_any_records].
  - intros [-> ->]%runs_ret. constructor.
  - intros [-> ->]%runs_ret. by constructor.
Qed.
End theorems.

(** From extender to record: when the latest CandidateNodes Event of a pod is
    the one the extender wrote for some node names, the reconciler reads back
    exactly those names, in order, with no filter result or score. *)
Theorem candidateNodes_roundtrip pod names now events e :
  latestEventWithReason events eventReasonCandidateNodes = Some e ->
  ev_Message e = ev_Message (candidateNodesEvent pod names now) ->
  names <> [] -> Forall (fun n => dns_name n = true) names ->
  candidateNodesFrom events = (fun n => mkCandidateNode n "" None) <$> names.
Proof.
  intros He Hm Hn Hdns. rewrite (candidates_of_message events names e) by done.
  by apply candidates_of_dns.
Qed.

(** The Event the extender writes reaches the reconciler: it passes the watch
    predicate, enqueues the request of its pod, is indexed under that request's
    key, and is kept by the reconcile's filter. *)
Theorem candidateNodesEvent_watched pod names now :
  let e := candidateNodesEvent pod names now in
  let req := mkNamespacedName (pod_Namespace pod) (pod_Name pod) in
  relevantEventPredicate (EventObject e) = true /\
  mapEventToPodRequest (EventObject e) = [req] /\
  indexEventInvolvedObject (EventObject e) = [NamespacedName_String req] /\
  (forall items, e ∈ items -> e ∈ relevant_events items) /\
  (now <> Time_zero -> eventTimestamp e = now).
Proof.
  intros e req. split_and!; [done..| |].
  - intros items Hin. apply list_elem_of_filter. by split.
  - intros Hnow. unfold eventTimestamp. subst e; simpl.
    destruct (IsZero now) eqn:Hz; [|done]. by apply IsZero_spec in Hz.
Qed.

(** The candidates of any message are in normal form: each name is non-empty,
    carries no comma and no surrounding white space, and no other field is set. *)
Theorem candidateNodesFrom_normal events :
  Forall (fun n => cn_Name n <> "" /\ has_byte "," (cn_Name n) = false /\
                   TrimSpace (cn_Name n) = cn_Name n /\
                   cn_FilterResult n = "" /\ cn_Score n = None)
    (candidateNodesFrom events).
Proof.
  unfold candidateNodesFrom. destruct (latestEventWithReason _ _) as [e|]; [|done].
  case_match; [done|]. apply Forall_bind.
  eapply Forall_impl; [apply (Split_has_byte _ ",")|]. intros n Hn. simpl in *.
  unfold candidate_of. destruct (TrimSpace n =?s "") eqn:Ht; [by constructor|]. bool_simpl.
  apply Forall_singleton; simpl. split_and!; try done; [|by apply TrimSpace_idemp].
  by apply TrimSpace_has_byte.
Qed.
