(* ===== verification/Dashboard.v ===== *)
(** * [cmd/dashboard]: the read-only dashboard

    The three routes of the mux: two exact patterns, and the root pattern, which
    gets every other path. The JSON codec and the embedded page are parameters. *)

From S2P Require Import Prelude Api Effects Http.

(** ** Operations *)

Section dashboard.
Context (Encode : list SchedulingDecision -> fallible error string).
Context (indexHTML : string).

Definition decisionsHandler : prog Response :=
  list ← do_call ListDecisions;
  match list with
  | inl err => mret (http_Error "%v" err StatusInternalServerError)
  | inr items => write_json Encode items "encoding decisions response: %v"
  end.

(** The handler registered for the root pattern. *)
Definition rootHandler (path : string) : Response :=
  if path <>?s "/" then http_NotFound
  else mkResponse StatusOK text_html (Page indexHTML).

(** The mux of [main]. *)
Definition dashboard_mux : ServeMux :=
  HandleFunc "/" (fun r => mret (rootHandler (req_Path r)))
    (HandleFunc "/healthz" (fun _ => mret healthzHandler)
       (HandleFunc "/api/decisions" (fun _ => decisionsHandler) NewServeMux)).

(** The answer to a request; no handler looks at the body. *)
Definition serve (path : string) : prog Response :=
  ServeHTTP dashboard_mux (mkRequest path "").

(** ** Specification *)

(** The response a path is entitled to, given the exchanges it caused. *)
Inductive serves : string -> list exchange -> Response -> Prop :=
  | serves_page : serves "/" [] (mkResponse StatusOK text_html (Page indexHTML))
  | serves_health : serves "/healthz" [] (mkResponse StatusOK "" NoBody)
  | serves_decisions items s :
      Encode items = inr s ->
      serves "/api/decisions" [Exch ListDecisions (inr items)]
        (mkResponse StatusOK application_json (Json s))
  | serves_unencodable items e fmt :
      Encode items = inl e ->
      serves "/api/decisions" [Exch ListDecisions (inr items); Exch (Log fmt [] (Some e)) tt]
        (mkResponse StatusOK application_json NoBody)
  | serves_failure e :
      serves "/api/decisions" [Exch ListDecisions (inl e)]
        (http_Error "%v" e StatusInternalServerError)
  | serves_nothing path :
      path ∉ ["/"; "/healthz"; "/api/decisions"] -> serves path [] http_NotFound.

(** ** Lemmas *)

(** The routes, spelled out. *)
Lemma serve_routes path :
  serve path =
  if path =?s "/api/decisions" then decisionsHandler
  else if path =?s "/healthz" then mret healthzHandler
  else mret (rootHandler path).
Proof.
  unfold serve, ServeHTTP. cbn [app req_Path dashboard_mux HandleFunc NewServeMux mux_match].
  rewrite !(matches_exact "/api/decisions"), !(matches_exact "/healthz") by done.
  case_bool_decide; subst; [done|]. case_bool_decide; subst; [done|].
  destruct (matches "/" path) eqn:Hm; [done|].
  unfold matches in Hm. apply orb_false_iff in Hm as [Hm _]. unfold rootHandler.
  case_bool_decide; by case_bool_decide.
Qed.

(** ** Theorems *)

(** C31. The dashboard serves what the list of records says and nothing else:
    every request is answered by exactly one of the cases of [serves] - the whole
    list as the API server gave it, a 500 with its error, the page, the health
    answer, or a 404 - and no request ever writes to the API server. *)
Theorem serve_refines path tr resp :
  runs (serve path) tr resp -> serves path tr resp /\ writes_of tr = [].
Proof.
  rewrite serve_routes. case_bool_decide as Hd; [|case_bool_decide as Hh].
  - unfold decisionsHandler. subst. rewrite runs_bind.
    intros (t1 & t2 & [e|items] & -> & ->%runs_do_call & Hr).
    + apply runs_ret in Hr as [-> ->]. split; [apply serves_failure|done].
    + unfold write_json in Hr. destruct (Encode items) as [e|s] eqn:He.
      * apply runs_bind in Hr as (t3 & t4 & [] & -> & ->%runs_do_call & [-> ->]%runs_ret).
        split; [by apply serves_unencodable|done].
      * apply runs_ret in Hr as [-> ->]. split; [by apply serves_decisions|done].
  - subst. intros [-> ->]%runs_ret. split; [constructor|done].
  - intros [-> ->]%runs_ret. split; [|done]. unfold rootHandler.
    case_bool_decide as Hr; simpl; subst; [constructor|].
    apply serves_nothing. rewrite !elem_of_cons, elem_of_nil. naive_solver.
Qed.
End dashboard.
