(* ===== verification/Rbac.v ===== *)
(** * Permissions: the roles of the [+kubebuilder:rbac] markers

    Each program declares, in markers beside its handlers, the permissions it needs.
    The deployment has one role for them all, [manager-role], which controller-gen
    makes from the markers ([make manifests]); the manifests run every program under
    the one ServiceAccount it is bound to. This file has the permissions as the
    markers ask for them, the role as [config/rbac/role.yaml] has it, the API requests
    behind each call of [Effects], and what connects them. Because the role is shared,
    it does not keep a program from another one's writes: what each program writes is
    the business of its own theorems. The manager and the dashboard read through
    controller-runtime's cache, which lists and watches every type that is read;
    the sweep and the extender use direct clients. *)

From S2P Require Import Prelude Strconv GoTime GoStrings Api Decision Effects.
From S2P Require Import VolumeContext Controller ReconcileProps Sweep Http Extender Dashboard.

(** ** Roles *)









(** ** Requests *)

(** A request to the API server, as its authorizer sees it. *)
Record action := Action { act_Group : string; act_Resource : string; act_Verb : string }.








(** ** Lemmas *)



#[global] Instance action_eq_dec : EqDecision action.
Proof. solve_decision. Defined.






(** ** Theorem *)

Section roles.
Context `{!RetryOnError}.
Context {Node : Type} (node_Name : Node -> string).
Context (Decode : string -> fallible error (ExtenderArgs Node)).
Context (Encode : ExtenderFilterResult Node -> fallible error string).
Context (EncodeList : list SchedulingDecision -> fallible error string) (indexHTML : string).

End roles.
