(* ===== verification/Scheme.v ===== *)
(** * [api/v1alpha1/groupversion_info.go]: the type registry

    A client can only encode and decode kinds its [runtime.Scheme] knows. The
    registry itself is apimachinery's: [SchemeLib] is its interface. The API group
    registers its kinds through a [SchemeBuilder], and every binary builds a scheme
    from client-go's kinds and, except for the extender, the group's. The theorem
    says that each binary's scheme covers every call its handlers make. *)

From S2P Require Import Prelude GoTime Api Effects Controller Sweep Http Extender Dashboard.

(** ** The interface of the registry *)

Record GroupVersion := mkGroupVersion { gv_Group : string; gv_Version : string }.

#[global] Instance GroupVersion_eq_dec : EqDecision GroupVersion.
Proof. solve_decision. Defined.

(** A kind of a group and version. *)
Definition GroupVersionKind : Type := GroupVersion * string.

Definition core_v1 : GroupVersion := mkGroupVersion "" "v1".
Definition storage_v1 : GroupVersion := mkGroupVersion "storage.k8s.io" "v1".

(** The kinds of client-go the programs use. *)
Definition clientgo_kinds : list GroupVersionKind :=
  [(core_v1, "Pod"); (core_v1, "Event"); (core_v1, "EventList");
   (core_v1, "PersistentVolumeClaim"); (storage_v1, "StorageClass")]%string.

(** The registrations in order, to the first error. *)
Fixpoint apply_all {S} (fs : list (S -> fallible error S)) (s : S) : fallible error S :=
  match fs with
  | [] => inr s
  | f :: fs =>
      match f s with
      | inl err => inl err
      | inr s' => apply_all fs s'
      end
  end.

(** A registration changes the scheme it is given, or fails. *)
Class SchemeLib := {
  Scheme : Type;
  NewScheme : Scheme;
  knows : Scheme -> GroupVersionKind -> Prop;
  AddKnownTypes : Scheme -> GroupVersion -> list string -> Scheme;
  AddToGroupVersion : Scheme -> GroupVersion -> Scheme;
  clientgo_AddToScheme : Scheme -> fallible error Scheme;
  builder_AddToScheme : list (Scheme -> fallible error Scheme) -> Scheme -> fallible error Scheme;
  (* a builder applies its registrations *)
  builder_applies fs s : builder_AddToScheme fs s = apply_all fs s;
  (* types are added, none is forgotten *)
  knows_added s gv kinds k :
    knows (AddKnownTypes s gv kinds) k <-> knows s k \/ (k.1 = gv /\ k.2 ∈ kinds);
  knows_group s gv k : knows s k -> knows (AddToGroupVersion s gv) k;
  knows_clientgo s s' k :
    clientgo_AddToScheme s = inr s' -> knows s k \/ k ∈ clientgo_kinds -> knows s' k;
}.

(** ** Operations *)

Section scheme.
Context `{!SchemeLib}.

Definition SchemeGroupVersion : GroupVersion :=
  mkGroupVersion "scheduling.purestorage.io" "v1alpha1".

(** A [runtime.SchemeBuilder] is the list of its registrations. *)
Definition SchemeBuilder_init : list (Scheme -> fallible error Scheme) :=
  [fun scheme => inr (AddToGroupVersion scheme SchemeGroupVersion)].

(** After [init] of [schedulingdecision_types.go] has called [Register]. *)
Definition SchemeBuilder : list (Scheme -> fallible error Scheme) :=
  SchemeBuilder_init ++
  [fun s => inr (AddKnownTypes s SchemeGroupVersion
                   ["SchedulingDecision"; "SchedulingDecisionList"])].

Definition AddToScheme : Scheme -> fallible error Scheme := builder_AddToScheme SchemeBuilder.

(** The scheme of the manager, the sweep and the dashboard; [utilruntime.Must]
    panics with the error of a failed registration. *)
Definition api_scheme : fallible error Scheme :=
  match clientgo_AddToScheme NewScheme with
  | inl err => inl err
  | inr s => AddToScheme s
  end.

(** The scheme of the extender. *)
Definition extender_scheme : fallible error Scheme := clientgo_AddToScheme NewScheme.

(** ** Specification *)

(** The kind a call must encode or decode. *)
Definition call_kind (c : call) : option GroupVersionKind :=
  match c with
  | ListEvents _ _ => Some (core_v1, "EventList")
  | GetPod _ => Some (core_v1, "Pod")
  | GetPVC _ => Some (core_v1, "PersistentVolumeClaim")
  | GetStorageClass _ => Some (storage_v1, "StorageClass")
  | CreateEvent _ => Some (core_v1, "Event")
  | ListDecisions => Some (SchemeGroupVersion, "SchedulingDecisionList")
  | GetDecision _ | CreateDecision _ | UpdateDecisionStatus _ | DeleteDecision _ =>
      Some (SchemeGroupVersion, "SchedulingDecision")
  | Now | Log _ _ _ | Exit _ => None
  end%string.

(** A client with scheme [s] can make the call. *)
Definition covers (s : Scheme) (c : call) : Prop :=
  forall k, call_kind c = Some k -> knows s k.

(** ** Lemmas *)

Lemma apply_all_app {S} (fs gs : list (S -> fallible error S)) s :
  apply_all (fs ++ gs) s =
  match apply_all fs s with
  | inl err => inl err
  | inr s' => apply_all gs s'
  end.
Proof.
  revert s. induction fs as [|f fs IH]; intros s; simpl; [done|].
  by destruct (f s) as [|s'].
Qed.

(** The kinds of the API group. *)
Definition group_kinds : list string := ["SchedulingDecision"; "SchedulingDecisionList"].

Lemma AddToScheme_knows s s' k :
  AddToScheme s = inr s' ->
  knows s k \/ (k.1 = SchemeGroupVersion /\ k.2 ∈ group_kinds) -> knows s' k.
Proof.
  unfold AddToScheme, SchemeBuilder. rewrite builder_applies, apply_all_app. simpl.
  intros [= <-] Hk. apply knows_added.
  destruct Hk as [Hk|Hk]; [left; by apply knows_group|by right].
Qed.

Lemma call_kind_known c k :
  call_kind c = Some k ->
  k ∈ clientgo_kinds \/ (k.1 = SchemeGroupVersion /\ k.2 ∈ group_kinds).
Proof.
  destruct c; intros [= <-];
    first [left; unfold GroupVersionKind in *; refine (bool_decide_unpack _ _); vm_compute; exact I
          |right; split; [done|]; refine (bool_decide_unpack _ _); vm_compute; exact I].
Qed.

Lemma api_scheme_covers s c : api_scheme = inr s -> covers s c.
Proof.
  unfold api_scheme. destruct (clientgo_AddToScheme NewScheme) as [|s0] eqn:Hs0; [done|].
  intros Hs k [Hk|Hk]%call_kind_known; (eapply AddToScheme_knows; [exact Hs|]); [left|by right].
  eapply knows_clientgo; eauto.
Qed.

Lemma extender_scheme_covers s e : extender_scheme = inr s -> covers s (CreateEvent e).
Proof.
  intros Hs k [= <-]. eapply knows_clientgo; [exact Hs|]. right.
  apply list_elem_of_further, list_elem_of_here.
Qed.

Lemma covers_none s c : call_kind c = None -> covers s c.
Proof. intros Hc k. by rewrite Hc. Qed.
End scheme.
