(* ===== verification/Process.v ===== *)
(** * The [main] functions of [cmd/sweep], [cmd/extender] and [cmd/dashboard]

    From the parsed flags to the end of the process. A program ends by returning
    from [main] (status 0) or by [os.Exit]: [log.Fatalf] logs and exits with status 1,
    a panic ends the process with status 2. The client, the manager with its cache
    and the listening socket are controller-runtime's and the operating system's:
    parameters, as is what a server returned once it ended. *)

From S2P Require Import Prelude GoTime Api Effects Controller ReconcileProps Sweep Http.
From S2P Require Import Extender Dashboard Scheme.

(** ** Ends of a process *)

(** [log.Fatalf(format, err)] *)
Definition Fatalf {A} (format : string) (err : error) : prog A :=
  _ ← do_call (Log format [] (Some err)); os_Exit 1.

(** [utilruntime.Must]: panic on an error. *)
Definition Must {A} (r : fallible error A) : prog A :=
  match r with inl _ => os_Exit 2 | inr x => mret x end.

(** The default addresses of the two servers. *)
Definition default_extender_addr : string := ":8099".
Definition default_dashboard_addr : string := ":8080".

Section process.
Context {SL : SchemeLib} {Config Client : Type}.

(** [ctrl.GetConfigOrDie] ends the process with status 1 when there is no
    configuration. *)
Context (GetConfig : option Config).
Context (client_New : Config -> Scheme -> fallible error Client).

(** The codecs of the handlers. *)
Context {Node : Type} (node_Name : Node -> string).
Context (Decode : string -> fallible error (ExtenderArgs Node)).
Context (Encode : ExtenderFilterResult Node -> fallible error string).
Context (EncodeList : list SchedulingDecision -> fallible error string).

(** ** Operations *)

Definition GetConfigOrDie : prog Config :=
  match GetConfig with Some config => mret config | None => os_Exit 1 end.

(** The scheme, then the client. *)
Definition build_client (scheme : fallible error Scheme) : prog Client :=
  scheme ← Must scheme;
  config ← GetConfigOrDie;
  match client_New config scheme with
  | inl err => Fatalf "building client: %v" err
  | inr c => mret c
  end.

(** [cmd/sweep] *)
Definition sweep_process : prog unit :=
  _ ← build_client api_scheme;
  Sweep.main.

(** [ListenAndServe], and what [main] does when it returns. *)
Section serving.
Context (ListenAndServe : http_Server -> option listen_error).

Definition listen (logFormat : string) (server : http_Server) : prog unit :=
  _ ← do_call (Log logFormat [srv_Addr server] None);
  match ListenAndServe server with
  | Some (ListenError err) => Fatalf "serving: %v" err
  | Some ErrServerClosed | None => mret tt
  end.

(** [cmd/extender]; the handlers of the mux use the client that was built. *)
Definition extender_server (addr : string) : http_Server :=
  mkServer addr (extender_mux node_Name Decode Encode) (5 * Second).

Definition extender_process (addr : string) : prog unit :=
  _ ← build_client extender_scheme;
  listen "extender listening on %s" (extender_server addr).

(** [cmd/dashboard]. The manager is built with a disabled metrics endpoint; the
    server runs in a goroutine beside it. *)
Context {M : Type} (NewManager : Config -> Scheme -> string -> fallible error M).
Context (ReadFile : string -> fallible error string).
Context (Start : M -> option error).

Definition dashboard_server (addr indexHTML : string) : http_Server :=
  mkServer addr (dashboard_mux EncodeList indexHTML) (5 * Second).

Definition dashboard_setup (addr : string) : prog (M * http_Server) :=
  scheme ← Must api_scheme;
  config ← GetConfigOrDie;
  match NewManager config scheme "0" with
  | inl err => Fatalf "building manager: %v" err
  | inr mgr =>
      match ReadFile "static/index.html" with
      | inl err => Fatalf "reading embedded index.html: %v" err
      | inr indexHTML => mret (mgr, dashboard_server addr indexHTML)
      end
  end.

Definition dashboard_goroutine (server : http_Server) : prog unit :=
  listen "dashboard listening on %s" server.

Definition dashboard_start (mgr : M) : prog unit :=
  match Start mgr with
  | Some err => Fatalf "running manager: %v" err
  | None => mret tt
  end.

(** The possible ends of the dashboard's process: the set-up exits, the goroutine exits, or
    the manager stops first. [main] does not wait for the goroutine: when both the server
    fails and the manager stops, either end is possible, so that returning from [main]
    is one even if [ListenAndServe] would fail. *)
Inductive dashboard_ends (addr : string) : option Z -> Prop :=
  | ends_setup tr code :
      exits (dashboard_setup addr) tr code -> dashboard_ends addr (Some code)
  | ends_serving tr mgr server tr' code :
      runs (dashboard_setup addr) tr (mgr, server) ->
      exits (dashboard_goroutine server) tr' code -> dashboard_ends addr (Some code)
  | ends_manager tr mgr server tr' code :
      runs (dashboard_setup addr) tr (mgr, server) ->
      exits (dashboard_start mgr) tr' code -> dashboard_ends addr (Some code)
  | ends_returned tr mgr server tr' :
      runs (dashboard_setup addr) tr (mgr, server) ->
      runs (dashboard_start mgr) tr' tt -> dashboard_ends addr None.

(** ** Lemmas *)

Lemma os_Exit_runs {A} code tr (a : A) : ~ runs (os_Exit code) tr a.
Proof. by intros ([] & _). Qed.

Lemma Fatalf_runs {A} format err tr (a : A) : ~ runs (Fatalf format err) tr a.
Proof.
  unfold Fatalf. intros (tr1 & tr2 & [] & _ & _ & Hx)%runs_bind. by apply os_Exit_runs in Hx.
Qed.

Lemma Must_runs {A} (r : fallible error A) tr a : runs (Must r) tr a <-> tr = [] /\ r = inr a.
Proof.
  destruct r as [err|x]; simpl.
  - split; [intros Hx; by apply os_Exit_runs in Hx|by intros []].
  - split; [by intros [-> ->]|by intros [-> [= ->]]].
Qed.

Lemma GetConfigOrDie_runs tr config :
  runs GetConfigOrDie tr config <-> tr = [] /\ GetConfig = Some config.
Proof.
  unfold GetConfigOrDie. destruct GetConfig as [c|]; simpl.
  - split; [by intros [-> ->]|by intros [-> [= ->]]].
  - split; [intros Hx; by apply os_Exit_runs in Hx|by intros []].
Qed.

Lemma build_client_runs scheme tr c :
  runs (build_client scheme) tr c <->
  tr = [] /\ exists s config, scheme = inr s /\ GetConfig = Some config /\
    client_New config s = inr c.
Proof.
  unfold build_client. rewrite runs_bind. setoid_rewrite runs_bind.
  setoid_rewrite Must_runs. setoid_rewrite GetConfigOrDie_runs. split.
  - intros (t1 & t2 & s & -> & [-> ->] & t3 & t4 & config & -> & [-> Hc] & Hr).
    destruct (client_New config s) as [err|c'] eqn:Hnew; [by apply Fatalf_runs in Hr|].
    apply runs_ret in Hr as [-> ->]. split; [done|]. eauto.
  - intros (-> & s & config & -> & Hc & Hnew). exists [], [], s. split_and!; [done..|].
    exists [], [], config. by rewrite Hnew.
Qed.

Lemma listen_runs fmt server :
  (exists tr, runs (listen fmt server) tr tt) <->
  forall err, ListenAndServe server <> Some (ListenError err).
Proof.
  unfold listen. setoid_rewrite runs_bind. setoid_rewrite runs_do_call. split.
  - intros (tr & t1 & t2 & [] & _ & _ & Hr) err Herr. rewrite Herr in Hr.
    by apply Fatalf_runs in Hr.
  - intros Hok. eexists _, _, _, tt. split; [done|]. split; [done|].
    destruct (ListenAndServe server) as [[|err]|]; [done| |done]. by destruct (Hok err).
Qed.

Lemma dashboard_setup_runs addr tr mgr server :
  runs (dashboard_setup addr) tr (mgr, server) <->
  tr = [] /\ exists s config indexHTML, api_scheme = inr s /\ GetConfig = Some config /\
    NewManager config s "0" = inr mgr /\ ReadFile "static/index.html" = inr indexHTML /\
    server = dashboard_server addr indexHTML.
Proof.
  unfold dashboard_setup. rewrite runs_bind. setoid_rewrite runs_bind.
  setoid_rewrite Must_runs. setoid_rewrite GetConfigOrDie_runs. split.
  - intros (t1 & t2 & s & -> & [-> Hs] & t3 & t4 & config & -> & [-> Hc] & Hr).
    destruct (NewManager config s "0") as [err|m] eqn:Hnew; [by apply Fatalf_runs in Hr|].
    destruct (ReadFile "static/index.html") as [err|html] eqn:Hread;
      [by apply Fatalf_runs in Hr|].
    apply runs_ret in Hr as [-> [= -> ->]]. split; [done|]. by exists s, config, html.
  - intros (-> & s & config & html & Hs & Hc & Hnew & Hread & ->). exists [], [], s.
    split_and!; [done..|]. exists [], [], config. by rewrite Hnew, Hread.
Qed.

(** ** Theorems *)

(** C33. The servers' processes end well only when all went well: the extender returns
    from [main] exactly when its scheme, configuration and client could be built and
    its server was closed without error, and the dashboard exactly when its scheme,
    configuration, manager and page could be had and the manager stopped without
    error. *)
Theorem servers_return addr :
  ((exists tr, runs (extender_process addr) tr tt) <->
    (exists s config c, extender_scheme = inr s /\ GetConfig = Some config /\
       client_New config s = inr c) /\
    forall err, ListenAndServe (extender_server addr) <> Some (ListenError err)) /\
  (dashboard_ends addr None <->
    exists s config mgr indexHTML, api_scheme = inr s /\ GetConfig = Some config /\
      NewManager config s "0" = inr mgr /\ ReadFile "static/index.html" = inr indexHTML /\
      Start mgr = None).
Proof.
  split; split.
  - unfold extender_process. setoid_rewrite runs_bind. setoid_rewrite build_client_runs.
    intros (tr & t1 & t2 & c & _ & (_ & s & config & Hc) & Hl).
    split; [by exists s, config, c|]. apply (listen_runs "extender listening on %s"). eauto.
  - intros [(s & config & c & H1 & H2 & H3) Hl].
    apply (listen_runs "extender listening on %s") in Hl as [tr Hl].
    exists tr. unfold extender_process. rewrite runs_bind. exists [], tr, c.
    split_and!; [done| |done]. apply build_client_runs. eauto 10.
  - intros Hd. inversion Hd as [| | |tr mgr server tr' Hs Hr]; subst.
    apply dashboard_setup_runs in Hs as (_ & s & config & html & H1 & H2 & H3 & H4 & _).
    exists s, config, mgr, html. split_and!; [done..|]. unfold dashboard_start in Hr.
    destruct (Start mgr); [by apply Fatalf_runs in Hr|done].
  - intros (s & config & mgr & html & H1 & H2 & H3 & H4 & H5).
    apply (ends_returned addr [] mgr (dashboard_server addr html) []).
    + apply dashboard_setup_runs. split; [done|]. by exists s, config, html.
    + unfold dashboard_start. by rewrite H5.
Qed.
End serving.
End process.

(** ** Every client's scheme covers its calls *)

Section covered.
Context {SL : SchemeLib} `{!RetryOnError}.
Context {Node : Type} (node_Name : Node -> string).
Context (Decode : string -> fallible error (ExtenderArgs Node)).
Context (Encode : ExtenderFilterResult Node -> fallible error string).
Context (EncodeList : list SchedulingDecision -> fallible error string) (indexHTML : string).

(** C35. No call fails for an unregistered type: the scheme of the extender covers every
    call that serving any request makes, and the scheme of the other programs covers
    every call of a reconcile, a sweep and a dashboard request. *)
Theorem schemes_cover_calls :
  (forall s r tr resp, extender_scheme = inr s ->
     runs (extender_serve node_Name Decode Encode r) tr resp ->
     Forall (covers s) (calls_of tr)) /\
  (forall s, api_scheme = inr s ->
     (forall r req tr err, runs (Reconcile r req) tr err -> Forall (covers s) (calls_of tr)) /\
     (forall tr, runs Sweep.main tr tt -> Forall (covers s) (calls_of tr)) /\
     (forall path tr resp, runs (serve EncodeList indexHTML path) tr resp ->
        Forall (covers s) (calls_of tr))).
Proof.
  split.
  - intros s [path body] tr resp Hs Hr. rewrite extender_routes in Hr.
    case_bool_decide; [|case_bool_decide; apply runs_ret in Hr as [-> _]; by constructor].
    destruct (wp_runs _ _ _ _ _ (filterHandler_wp node_Name Decode Encode body _) Hr) as [Hc _].
    apply (calls_ok_Forall _ []). eapply calls_ok_weaken; [|exact Hc]. intros h c Hok.
    destruct c; try done; try (by apply covers_none). by apply extender_scheme_covers.
  - intros s Hs. split_and!; intros; apply Forall_forall; intros c _;
      by apply api_scheme_covers.
Qed.
End covered.
