(* ===== verification/Manager.v ===== *)
(** * [cmd/manager]: how the controller process is put together

    From the parsed flags to the options of the manager, and from there through
    the start-up stages to the end of the process. The manager itself, with its servers,
    caches and health checks, is controller-runtime's: what the program asks of it are
    the [stage]s, of which any may fail, and a run leaves the list of the stages it
    asked for. A [tls.Config] is modelled by the protocols it offers, the only
    field the program sets, and the lines logged on the way are left out. *)

From S2P Require Import Prelude GoTime Api Decision Effects Controller Scheme.

(** ** Flags and options *)

Record flags := mkFlags {
  metricsAddr : string;
  probeAddr : string;
  enableLeaderElection : bool;
  secureMetrics : bool;
  webhookCertPath : string;
  webhookCertName : string;
  webhookCertKey : string;
  metricsCertPath : string;
  metricsCertName : string;
  metricsCertKey : string;
  enableHTTP2 : bool;
  retentionWindow_flag : Duration;
}.

(** The values of the flags that are not given. *)
Definition default_flags : flags :=
  mkFlags "0" ":8081" false true "" "tls.crt" "tls.key" "" "tls.crt" "tls.key" false
    DefaultRetentionWindow.

Record tls_Config := mkTLSConfig { NextProtos : list string }.

(** [webhook.Options] *)
Record webhook_Options := mkWebhookOptions {
  wo_TLSOpts : list (tls_Config -> tls_Config);
  wo_CertDir : string;
  wo_CertName : string;
  wo_KeyName : string;
}.

(** [metricsserver.Options]; [FilterProvider] is set or nil. *)
Record metrics_Options := mkMetricsOptions {
  mo_BindAddress : string;
  mo_SecureServing : bool;
  mo_TLSOpts : list (tls_Config -> tls_Config);
  mo_FilterProvider : bool;
  mo_CertDir : string;
  mo_CertName : string;
  mo_KeyName : string;
}.

(** [ctrl.Options] *)
Record ctrl_Options `{!SchemeLib} := mkCtrlOptions {
  co_Scheme : Scheme;
  co_Metrics : metrics_Options;
  co_WebhookServer : webhook_Options;
  co_HealthProbeBindAddress : string;
  co_LeaderElection : bool;
  co_LeaderElectionID : string;
}.
Arguments mkCtrlOptions {_}.

Definition disableHTTP2 (c : tls_Config) : tls_Config := mkTLSConfig ["http/1.1"].

Definition tlsOpts (f : flags) : list (tls_Config -> tls_Config) :=
  if negb (enableHTTP2 f) then [disableHTTP2] else [].

Definition webhookServerOptions (f : flags) : webhook_Options :=
  if 0 <? Z.of_nat (String.length (webhookCertPath f))
  then mkWebhookOptions (tlsOpts f) (webhookCertPath f) (webhookCertName f) (webhookCertKey f)
  else mkWebhookOptions (tlsOpts f) "" "" "".

Definition metricsServerOptions (f : flags) : metrics_Options :=
  let o := mkMetricsOptions (metricsAddr f) (secureMetrics f) (tlsOpts f) false "" "" "" in
  let o := if secureMetrics f
    then mkMetricsOptions (mo_BindAddress o) (mo_SecureServing o) (mo_TLSOpts o) true "" "" ""
    else o in
  if 0 <? Z.of_nat (String.length (metricsCertPath f))
  then mkMetricsOptions (mo_BindAddress o) (mo_SecureServing o) (mo_TLSOpts o)
         (mo_FilterProvider o) (metricsCertPath f) (metricsCertName f) (metricsCertKey f)
  else o.

Definition managerOptions `{!SchemeLib} (scheme : Scheme) (f : flags) : ctrl_Options :=
  mkCtrlOptions scheme (metricsServerOptions f) (webhookServerOptions f) (probeAddr f)
    (enableLeaderElection f) "e8cc7387.purestorage.io".

Definition reconciler_of (f : flags) : SchedulingDecisionReconciler :=
  mkReconciler (retentionWindow_flag f).

(** ** Wiring the controller *)

Definition eventInvolvedObjectIndex : string := "involvedObject.nsName".

(** What [ctrl.NewControllerManagedBy] is told: the kind the controller is for, the
    watched kind with its request mapping and predicate, the name and the
    reconciler. *)
Record Builder := mkBuilder {
  b_For : string;
  b_Watches : string * (Object -> list NamespacedName) * (Object -> bool);
  b_Name : string;
  b_Reconciler : SchedulingDecisionReconciler;
}.

(** How the process ends: by a return of [main], in [ctrl.GetConfigOrDie] without a
    configuration, by a logged error and status 1, or by a panic of [init]. *)
Inductive ending :=
  | Returned
  | NoConfiguration
  | Exited (message : string) (err : error)
  | Panicked (err : error).

Section startup.
Context {SL : SchemeLib} {Config : Type}.

(** What the program asks of controller-runtime. *)
Inductive stage :=
  | NewManager (config : Config) (options : ctrl_Options)
  | IndexField (kind key : string) (index : Object -> list string)
  | Complete (builder : Builder)
  | AddHealthzCheck (name : string)
  | AddReadyzCheck (name : string)
  | Start.

(** The configuration that is found, and the error of a stage that is asked for after
    the given ones. *)
Context (GetConfig : option Config).
Context (answers : list stage -> stage -> option error).

(** A start-up from the stages asked for so far: the stages afterwards, and a value or
    the end of the process. *)
Definition boot (A : Type) : Type := list stage -> list stage * (ending + A).
#[local] Instance boot_ret : MRet boot := fun A a before => (before, inr a).
#[local] Instance boot_bind : MBind boot := fun A B k m before =>
  match m before with
  | (after, inr a) => k a after
  | (after, inl e) => (after, inl e)
  end.

Definition ask (s : stage) : boot (option error) :=
  fun before => (before ++ [s], inr (answers before s)).

(** [setupLog.Error(err, message); os.Exit(1)], where a stage fails. *)
Definition end_with {A} (e : ending) : boot A := fun before => (before, inl e).

Definition or_exit (message : string) (m : boot (option error)) : boot unit :=
  err ← m;
  match err with Some err => end_with (Exited message err) | None => mret tt end.

Definition GetConfigOrDie : boot Config :=
  match GetConfig with Some config => mret config | None => end_with NoConfiguration end.

Definition controllerBuilder (r : SchedulingDecisionReconciler) : Builder :=
  mkBuilder podKind ("Event", mapEventToPodRequest, relevantEventPredicate)
    "schedulingdecision" r.

Definition SetupWithManager (r : SchedulingDecisionReconciler) : boot (option error) :=
  err ← ask (IndexField "Event" eventInvolvedObjectIndex indexEventInvolvedObject);
  match err with
  | Some err => mret (Some (Errorf "indexing event involvedObject: %w" [] (Some err)))
  | None => ask (Complete (controllerBuilder r))
  end.

(** [main] after the flags are parsed. *)
Definition manager_main (scheme : Scheme) (f : flags) : boot unit :=
  config ← GetConfigOrDie;
  _ ← or_exit "Failed to start manager" (ask (NewManager config (managerOptions scheme f)));
  _ ← or_exit "Failed to create controller" (SetupWithManager (reconciler_of f));
  _ ← or_exit "Failed to set up health check" (ask (AddHealthzCheck "healthz"));
  _ ← or_exit "Failed to set up ready check" (ask (AddReadyzCheck "readyz"));
  or_exit "Failed to run manager" (ask Start).

(** [main] returns when nothing ended the process before. *)
Definition finish (r : list stage * (ending + unit)) : list stage * ending :=
  (r.1, match r.2 with inl e => e | inr tt => Returned end).

(** The process: [init] builds the scheme before [main] runs. *)
Definition manager_process (f : flags) : list stage * ending :=
  match api_scheme with
  | inl err => ([], Panicked err)
  | inr scheme => finish (manager_main scheme f [])
  end.

(** ** Specification: what is set up, and in which order *)

(** The protocols a server offers: its TLS options applied in order. *)
Definition offered (opts : list (tls_Config -> tls_Config)) (c : tls_Config) : list string :=
  NextProtos (fold_left (fun c o => o c) opts c).

(** A server's certificate is the flags' if their path is given, and the protocols it
    offers are those of its configuration only if HTTP/2 is enabled. *)
Definition served_as_flagged (f : flags) (path name key : string)
    (opts : list (tls_Config -> tls_Config)) (cert : string * string * string) : Prop :=
  (forall c, offered opts c = if enableHTTP2 f then NextProtos c else ["http/1.1"%string]) /\
  (path = EmptyString -> cert = (EmptyString, EmptyString, EmptyString)) /\
  (path <> EmptyString -> cert = (path, name, key)).

(** The manager's options say what the flags say. *)
Record options_as_flagged (scheme : Scheme) (f : flags) (o : ctrl_Options) : Prop := {
  flagged_scheme : co_Scheme o = scheme;
  flagged_probe : co_HealthProbeBindAddress o = probeAddr f;
  flagged_election : co_LeaderElection o = enableLeaderElection f;
  flagged_election_id : co_LeaderElectionID o = "e8cc7387.purestorage.io"%string;
  flagged_metrics : mo_BindAddress (co_Metrics o) = metricsAddr f;
  flagged_secure : mo_SecureServing (co_Metrics o) = secureMetrics f;
  flagged_protected : mo_FilterProvider (co_Metrics o) = secureMetrics f;
  flagged_metrics_server : let m := co_Metrics o in
    served_as_flagged f (metricsCertPath f) (metricsCertName f) (metricsCertKey f)
      (mo_TLSOpts m) (mo_CertDir m, mo_CertName m, mo_KeyName m);
  flagged_webhook_server : let w := co_WebhookServer o in
    served_as_flagged f (webhookCertPath f) (webhookCertName f) (webhookCertKey f)
      (wo_TLSOpts w) (wo_CertDir w, wo_CertName w, wo_KeyName w);
}.

(** Events are indexed by the pod they are about, and by nothing else. *)
Definition indexes_pods (index : Object -> list string) : Prop :=
  index OtherObject = [] /\
  forall e, let o := ev_InvolvedObject e in
    (or_Kind o = "Pod"%string ->
       index (EventObject e) = [or_Namespace o +:+ "/" +:+ or_Name o]) /\
    (or_Kind o <> "Pod"%string -> index (EventObject e) = []).

(** The controller is for pods; an Event about a pod, with one of the four reasons,
    asks for a reconcile of that pod; and the records' window is the flag's if that is
    positive, and 72 hours otherwise. *)
Record watches_pods (f : flags) (b : Builder) : Prop := {
  watches_for : b_For b = "Pod"%string;
  watches_events : (b_Watches b).1.1 = "Event"%string;
  watches_owner : forall e, let o := ev_InvolvedObject e in
    (b_Watches b).1.2 (EventObject e) = [mkNamespacedName (or_Namespace o) (or_Name o)];
  watches_nothing_else : (b_Watches b).1.2 OtherObject = [];
  watches_relevant : forall obj, (b_Watches b).2 obj = true <->
    exists e, obj = EventObject e /\ or_Kind (ev_InvolvedObject e) = "Pod"%string /\
      ev_Reason e ∈ ["Scheduled"; "FailedScheduling"; "Preempted"; "CandidateNodes"]%string;
  watches_named : b_Name b = "schedulingdecision"%string;
  watches_window : retentionWindow (b_Reconciler b) =
    if 0 <? retentionWindow_flag f then retentionWindow_flag f else 259200000000000;
}.

(** Stages asked for in a given order, each with how its failure ends the process: the
    first that fails ends it, and it returns if none does. *)
Inductive plays : list stage -> list (stage * (error -> ending)) -> list stage * ending -> Prop :=
  | plays_all before : plays before [] (before, Returned)
  | plays_fails before s fails plan err :
      answers before s = Some err ->
      plays before ((s, fails) :: plan) (before ++ [s], fails err)
  | plays_on before s fails plan r :
      answers before s = None -> plays (before ++ [s]) plan r ->
      plays before ((s, fails) :: plan) r.

(** ** Theorems *)

Lemma options_flagged scheme f : options_as_flagged scheme f (managerOptions scheme f).
Proof.
  unfold managerOptions, metricsServerOptions, webhookServerOptions, tlsOpts.
  split; simpl; try (unfold served_as_flagged);
    destruct (metricsCertPath f), (webhookCertPath f), (secureMetrics f), (enableHTTP2 f);
    by repeat split.
Qed.

Lemma index_indexes_pods : indexes_pods indexEventInvolvedObject.
Proof.
  split; [done|]. intros e o. subst o. simpl. unfold podKind.
  case_bool_decide; simpl; split; congruence.
Qed.

Lemma builder_watches_pods f : watches_pods f (controllerBuilder (reconciler_of f)).
Proof.
  split; try done.
  - intros [e|]; simpl; [|naive_solver]. unfold podKind. case_bool_decide as Hk; simpl.
    + rewrite bool_decide_eq_true. split.
      * intros Hr. exists e. split_and!; [done..|]. set_solver.
      * intros (e' & [= <-] & _ & Hr). set_solver.
    + split; [done|]. intros (e' & [= <-] & Hp & _). done.
Qed.

Lemma stage_plays message s (k : unit -> boot unit) plan before :
  plays (before ++ [s]) plan (finish (k tt (before ++ [s]))) ->
  plays before ((s, Exited message) :: plan) (finish ((or_exit message (ask s) ≫= k) before)).
Proof.
  intros Hk. unfold or_exit, ask, end_with, mbind, boot_bind, mret, boot_ret.
  destruct (answers before s) as [err|] eqn:Hs; [by apply plays_fails|by apply plays_on].
Qed.

Lemma setup_plays message r (k : unit -> boot unit) plan before :
  (forall after, plays after plan (finish (k tt after))) ->
  plays before
    ((IndexField "Event" eventInvolvedObjectIndex indexEventInvolvedObject, fun err =>
        Exited message (Errorf "indexing event involvedObject: %w" [] (Some err))) ::
     (Complete (controllerBuilder r), Exited message) :: plan)
    (finish ((or_exit message (SetupWithManager r) ≫= k) before)).
Proof.
  intros Hk. unfold SetupWithManager, or_exit, ask, end_with, mbind, boot_bind, mret, boot_ret.
  destruct (answers before _) as [err|] eqn:Hi.
  - by apply plays_fails with (fails := fun err => Exited message _).
  - apply plays_on; [done|]. destruct (answers (before ++ _) _) as [err|] eqn:Hc.
    + by apply plays_fails.
    + by apply plays_on.
Qed.

Lemma last_stage_plays message s before :
  plays before [(s, Exited message)] (finish (or_exit message (ask s) before)).
Proof.
  unfold or_exit, ask, end_with, mbind, boot_bind, mret, boot_ret.
  destruct (answers before s) as [err|] eqn:Hs; [by apply plays_fails|].
  apply plays_on; [done|]. constructor.
Qed.

(** C32. Start-up: with a scheme that could be built (the process panics otherwise, asking
    for nothing) and a configuration (it exits without one), the process asks for exactly
    these stages in this order, and no further than the first that fails: the manager,
    with options that say what the flags say; the index of Events by pod, under the key
    the reconciler lists them by; the controller for pods, which is also told of every
    Event on a pod with one of the four reasons and whose window is the flag's, or 72
    hours if that is not positive; the health check; the ready check; and only then the
    run of the manager. It returns exactly when no stage fails, and otherwise exits
    with that stage's message and error. *)
Theorem manager_starts f :
  match api_scheme, GetConfig with
  | inl err, _ => manager_process f = ([], Panicked err)
  | inr _, None => manager_process f = ([], NoConfiguration)
  | inr scheme, Some config =>
      exists o index b,
        options_as_flagged scheme f o /\ indexes_pods index /\ watches_pods f b /\
        plays []
          [(NewManager config o, Exited "Failed to start manager");
           (IndexField "Event" "involvedObject.nsName" index, fun err =>
              Exited "Failed to create controller"
                (Errorf "indexing event involvedObject: %w" [] (Some err)));
           (Complete b, Exited "Failed to create controller");
           (AddHealthzCheck "healthz", Exited "Failed to set up health check");
           (AddReadyzCheck "readyz", Exited "Failed to set up ready check");
           (Start, Exited "Failed to run manager")]
          (manager_process f)
  end.
Proof.
  unfold manager_process. destruct api_scheme as [err|scheme]; [done|].
  destruct GetConfig as [config|] eqn:Hcfg; cycle 1.
  { unfold manager_main, GetConfigOrDie. by rewrite Hcfg. }
  exists (managerOptions scheme f), indexEventInvolvedObject, (controllerBuilder (reconciler_of f)).
  split; [apply options_flagged|]. split; [apply index_indexes_pods|].
  split; [apply builder_watches_pods|].
  unfold manager_main, GetConfigOrDie. rewrite Hcfg.
  apply stage_plays, setup_plays. intros after.
  apply stage_plays, stage_plays, last_stage_plays.
Qed.
End startup.
