(* ===== verification/System.v ===== *)
(** * The running system: reconciles and sweeps over one API server

    Reconciles of several requests, of several replicas, and sweeps run at once,
    each call of each of them interleaved with the others' and any of them lost
    in a crash. What they share is the store of decisions behind the API server,
    which is known by its documented contract only: the class [ApiServer]. The
    abstract specification is an audit log, [audit_step]: records are created
    empty, grow by one transition at a time, and are removed when expired.

    The contract includes the behaviours that make this hard: a read may be stale
    (the controller reads through a cache), a write may fail, and a write may be
    applied although its answer is an error. *)

From S2P Require Import Prelude Strconv GoTime GoStrings Api Decision Effects.
From S2P Require Import VolumeContext Controller ReconcileProps Sweep.

(** ** The contract of the API server *)

(** What the status subresource keeps of a status. *)
Definition persist_status (persist_time : Time -> Time) (s : SchedulingDecisionStatus)
    : SchedulingDecisionStatus :=
  mkStatus (st_Outcome s) (st_ChosenNode s) (st_ReasonSummary s)
    (persist_time (st_DecisionTimestamp s)) (st_SchedulingLatencyMs s)
    (persist_transition persist_time <$> st_Transitions s).

(** [d'] is stored for the new object [d]: the server sets the UID and the resource
    version and drops the status. *)
Definition created_as (d d' : SchedulingDecision) : Prop :=
  sd_Name d' = sd_Name d /\ sd_Labels d' = sd_Labels d /\ sd_Spec d' = sd_Spec d /\
  sd_Status d' = Status_zero.

(** [d'] replaces [cur]: only the status and the resource version change. *)
Definition updated_as (cur : SchedulingDecision) (s : SchedulingDecisionStatus)
    (d' : SchedulingDecision) : Prop :=
  sd_Name d' = sd_Name cur /\ sd_Labels d' = sd_Labels cur /\ sd_UID d' = sd_UID cur /\
  sd_Spec d' = sd_Spec cur /\ sd_Status d' = s.

(** The documented behaviour of the API server on decisions. [store] is what it
    holds, [seen] every version it has held. *)
Class ApiServer := {
  world : Type;
  store : world -> gmap string SchedulingDecision;
  seen : world -> SchedulingDecision -> Prop;
  api_step : world -> forall c, answer c -> world -> Prop;
  persist_time : Time -> Time;
  (* a serialised time reads back as itself *)
  persist_time_idemp t : persist_time (persist_time t) = persist_time t;
  persist_time_zero : persist_time Time_zero = Time_zero;
  store_seen w n d : store w !! n = Some d -> seen w d /\ sd_Name d = n;
  seen_mono w c a w' d : api_step w c a w' -> seen w d -> seen w' d;
  seen_only w c a w' d : api_step w c a w' -> seen w' d ->
    seen w d \/ store w' !! sd_Name d = Some d;
  (* a resource version names one version of an object *)
  seen_version w d d' : seen w d -> seen w d' -> sd_Name d = sd_Name d' ->
    sd_ResourceVersion d = sd_ResourceVersion d' -> d = d';
  (* reads return versions, current or not, and change nothing *)
  api_get w n d w' : api_step w (GetDecision n) (inr d) w' -> seen w d /\ sd_Name d = n;
  api_list w ds w' d : api_step w ListDecisions (inr ds) w' -> d ∈ ds -> seen w d;
  api_unrelated w c a w' : api_step w c a w' ->
    match c with
    | CreateDecision _ | UpdateDecisionStatus _ | DeleteDecision _ => True
    | _ => store w' = store w
    end;
  (* creation: only if the name is free, under a UID never used before *)
  api_create w d a w' : api_step w (CreateDecision d) a w' ->
    (store w' = store w /\ a <> None) \/
    store w !! sd_Name d = None /\ exists d', created_as d d' /\
      (forall old, seen w old -> sd_UID old <> sd_UID d') /\
      store w' = <[sd_Name d := d']> (store w);
  (* a status update: only if the resource version is the current one *)
  api_update w d a w' : api_step w (UpdateDecisionStatus d) a w' ->
    (store w' = store w /\ a <> None) \/
    exists cur d', store w !! sd_Name d = Some cur /\
      sd_ResourceVersion cur = sd_ResourceVersion d /\
      updated_as cur (persist_status persist_time (sd_Status d)) d' /\
      store w' = <[sd_Name d := d']> (store w);
  (* deletion, by name *)
  api_delete w d a w' : api_step w (DeleteDecision d) a w' ->
    (store w' = store w /\ a <> None) \/ store w' = delete (sd_Name d) (store w);
}.

(** ** The system *)

(** A running handler: what was started, what is left of it, and its exchanges so far. *)
Record thread := Thread {
  th_start : prog (option error);
  th_prog : prog (option error);
  th_history : list exchange;
}.

(** After the exchanges of [h], [p] has become [q]. *)
Fixpoint becomes {A} (p : prog A) (h : list exchange) (q : prog A) : Prop :=
  match h with
  | [] => p = q
  | x :: h' => exists k, p = Call (ex_call x) k /\ becomes (k (ex_answer x)) h' q
  end.

Section system.
Context `{!RetryOnError} `{!ApiServer}.

(** What the deployed programs run: reconciles of any request, sweeps at any time. *)
Inductive handler : prog (option error) -> Prop :=
  | handler_reconcile r req : handler (Reconcile r req)
  | handler_sweep now : handler (sweep now).

Record system := System { sys_world : world; sys_threads : list thread }.

Inductive step : system -> system -> Prop :=
  | step_start w ths p :
      handler p -> step (System w ths) (System w (Thread p p [] :: ths))
  | step_call w ths i p c k h a w' :
      ths !! i = Some (Thread p (Call c k) h) -> api_step w c a w' ->
      step (System w ths) (System w' (<[i := Thread p (k a) (h ++ [Exch c a])]> ths))
  | step_gone w ths i :
      step (System w ths) (System w (delete i ths)).

Definition initial (s : system) : Prop := store (sys_world s) = ∅ /\ sys_threads s = [].

Definition reachable (s : system) : Prop := exists s0, initial s0 /\ rtc step s0 s.

(** ** The abstract specification: an audit log *)

(** A record as the controller writes it. *)
Record record_ok (d : SchedulingDecision) : Prop := {
  record_name : sd_Name d = decisionName (spec_PodUID (sd_Spec d));
  record_label : sd_Labels d !! podUIDLabel = Some (spec_PodUID (sd_Spec d));
  record_sweepable : forall now, exists b, isExpired (sd_Labels d) now = inr b;
  record_mirrors : status_mirrors (sd_Status d);
  record_history : Forall (fun t => terminal_outcome (tr_Outcome t) /\ node_ok t)
    (st_Transitions (sd_Status d));
  record_persisted : persist_status persist_time (sd_Status d) = sd_Status d;
}.

(** Steps of the log while the system is in the state [s]: what is written is what one of
    the running handlers has grounds for. *)
Inductive audit_step (s : system) (log log' : gmap string SchedulingDecision) : Prop :=
  | audit_stutter : log' = log -> audit_step s log log'
  (* a reconcile that has seen a transition of a pod without a record makes one, empty,
     for the pod, to be kept for the window from its reading of the clock on *)
  | audit_create r req p h ident t now d :
      Thread (Reconcile r req) p h ∈ sys_threads s ->
      observed req h ident t -> Exch Now now ∈ h ->
      sd_Name d = decisionName (id_UID ident) -> log !! sd_Name d = None -> record_ok d ->
      spec_PodUID (sd_Spec d) = id_UID ident -> spec_PodName (sd_Spec d) = id_Name ident ->
      spec_PodNamespace (sd_Spec d) = id_Namespace ident ->
      spec_SchedulerName (sd_Spec d) = id_SchedulerName ident ->
      sd_Labels d !! ExpiresAtLabel =
        Some (FormatInt (Time_Unix (Add now (retentionWindow r)))) ->
      st_Transitions (sd_Status d) = [] ->
      log' = <[sd_Name d := d]> log -> audit_step s log log'
  (* a reconcile appends the transition it has seen to the pod's record *)
  | audit_append r req p h ident t d d' :
      Thread (Reconcile r req) p h ∈ sys_threads s ->
      observed req h ident t ->
      log !! decisionName (id_UID ident) = Some d -> unrecorded d t ->
      updated_as d (persist_status persist_time (applyTransition (sd_Status d) t)) d' ->
      st_Transitions (sd_Status d') =
        st_Transitions (sd_Status d) ++ [persist_transition persist_time t] ->
      log' = <[decisionName (id_UID ident) := d']> log -> audit_step s log log'
  (* a sweep as of [now] removes a record; it has listed a version that had expired *)
  | audit_expire now p h items d cur :
      Thread (sweep now) p h ∈ sys_threads s ->
      Exch ListDecisions (inr items) ∈ h -> d ∈ items -> seen (sys_world s) d ->
      isExpired (sd_Labels d) now = inr true ->
      log !! sd_Name d = Some cur ->
      log' = delete (sd_Name d) log -> audit_step s log log'.

(** ** Lemmas: the invariant *)

(** The calls of a handler that was started as [p]. *)
Definition handler_allows (p : prog (option error)) (h : list exchange) (c : call) : Prop :=
  (exists r req, p = Reconcile r req /\ reconcile_allows r req h c) \/
  (exists now, p = sweep now /\ sweep_allows now h c).

Lemma handler_wp p :
  handler p -> wp (handler_allows p) any_answer p (fun _ _ => True) [].
Proof.
  intros [r req|now].
  - eapply wp_weaken; [|eapply wp_mono; [|apply (Reconcile_wp r req)]]; [|done].
    intros h c Hc. left. by exists r, req.
  - eapply wp_weaken; [|eapply wp_mono; [|apply (sweep_wp now)]]; [|done].
    intros h c Hc. right. by exists now.
Qed.

Lemma becomes_call {A} (p : prog A) h c k a :
  becomes p h (Call c k) -> becomes p (h ++ [Exch c a]) (k a).
Proof.
  revert p. induction h as [|x h IH]; intros p; simpl.
  - intros ->. by exists k.
  - intros (k' & -> & Hb). exists k'. split; [done|by apply IH].
Qed.

Lemma becomes_ret {A} (p : prog A) h a : becomes p h (Ret a) -> runs p h a.
Proof.
  revert p. induction h as [|[c r] h IH]; intros p; simpl.
  - by intros ->.
  - intros (k & -> & Hb%IH). by exists r, h.
Qed.

(** Every decision a thread has read is a version the server has held, and so is the
    result of every update it had accepted. *)
Definition reads_seen (w : world) (h : list exchange) : Prop :=
  (forall n d, Exch (GetDecision n) (inr d) ∈ h -> seen w d /\ sd_Name d = n) /\
  (forall ds d, Exch ListDecisions (inr ds) ∈ h -> d ∈ ds -> seen w d) /\
  (forall d, Exch (UpdateDecisionStatus d) None ∈ h ->
     exists d', seen w d' /\ sd_Name d' = sd_Name d /\
       sd_Status d' = persist_status persist_time (sd_Status d)).

Definition thread_ok (w : world) (th : thread) : Prop :=
  (wp (handler_allows (th_start th)) any_answer (th_prog th) (fun _ _ => True)
     (th_history th) /\
   becomes (th_start th) (th_history th) (th_prog th)) /\
  reads_seen w (th_history th).

Definition records_ok (s : gmap string SchedulingDecision) : Prop :=
  forall n d, s !! n = Some d -> record_ok d.

Definition system_ok (s : system) : Prop :=
  Forall (thread_ok (sys_world s)) (sys_threads s) /\ records_ok (store (sys_world s)).

Lemma reads_seen_step w c a w' h :
  api_step w c a w' -> reads_seen w h -> reads_seen w' h.
Proof.
  intros Hs (H1 & H2 & H3). split_and!.
  - intros n d Hd. destruct (H1 n d Hd). split; [by eapply seen_mono|done].
  - intros ds d Hds Hd. eapply seen_mono; [done|]. by eapply H2.
  - intros d Hd. destruct (H3 d Hd) as (d' & ? & ?). exists d'.
    split; [by eapply seen_mono|done].
Qed.

Lemma reads_seen_snoc w x w' h :
  api_step w (ex_call x) (ex_answer x) w' -> reads_seen w h -> reads_seen w' (h ++ [x]).
Proof.
  intros Hs Hh. pose proof (reads_seen_step _ _ _ _ _ Hs Hh) as (H1 & H2 & H3). split_and!.
  - intros n d [Hd|Hd%list_elem_of_singleton]%elem_of_app; [by apply H1|]. subst x.
    destruct (api_get _ _ _ _ Hs). split; [by eapply seen_mono|done].
  - intros ds d [Hd|Hd%list_elem_of_singleton]%elem_of_app Hin; [by eapply H2|]. subst x.
    eapply seen_mono; [done|]. by eapply api_list.
  - intros d [Hd|Hd%list_elem_of_singleton]%elem_of_app; [by apply H3|]. subst x.
    destruct (api_update _ _ _ _ Hs) as [[_ ?]|(cur & d' & Hcur & _ & Hu & Hw')]; [done|].
    destruct (store_seen w' (sd_Name d) d') as [Hseen Hname];
      [simpl in *; rewrite Hw'; apply lookup_insert_eq|].
    exists d'. split_and!; [done|done|apply Hu].
Qed.

Lemma persist_transition_idemp t :
  persist_transition persist_time (persist_transition persist_time t) =
  persist_transition persist_time t.
Proof. unfold persist_transition; simpl. by rewrite persist_time_idemp. Qed.

Lemma persist_status_idemp s :
  persist_status persist_time (persist_status persist_time s) =
  persist_status persist_time s.
Proof.
  unfold persist_status; simpl. rewrite persist_time_idemp, <- list_fmap_compose.
  f_equal. apply list_fmap_ext. intros i t _. apply persist_transition_idemp.
Qed.

Lemma persist_status_append s t :
  persist_status persist_time s = s ->
  st_Transitions (persist_status persist_time (applyTransition s t)) =
  st_Transitions s ++ [persist_transition persist_time t].
Proof.
  intros Hs. simpl. rewrite fmap_app. f_equal.
  by apply (f_equal st_Transitions) in Hs.
Qed.

Lemma persist_status_mirrors s t :
  status_mirrors (persist_status persist_time (applyTransition s t)).
Proof.
  unfold status_mirrors. cbn [st_Transitions persist_status applyTransition].
  rewrite fmap_app, list_fmap_singleton, last_snoc. done.
Qed.

(** A new record is well formed. *)
Lemma newDecision_ok name ident n v d' :
  name = decisionName (id_UID ident) -> in_int64 n ->
  created_as (set_VolumeContext v (newDecision name ident n)) d' -> record_ok d'.
Proof.
  intros -> Hn (H1 & H2 & H3 & H4). split.
  - by rewrite H1, H3.
  - rewrite H2, H3. apply lookup_insert_eq.
  - intros now. rewrite H2. unfold isExpired.
    rewrite set_VolumeContext_Labels, newDecision_expiry, ParseInt_FormatInt by done. eauto.
  - by rewrite H4.
  - by rewrite H4.
  - rewrite H4. unfold persist_status, Status_zero; simpl. by rewrite persist_time_zero.
Qed.

Lemma observed_ok req h ident t :
  observed req h ident t -> terminal_outcome (tr_Outcome t) /\ node_ok t.
Proof.
  intros (now & pf & pod & events & _ & Hd)%observed_derived.
  split; [by eapply derive_outcome|by eapply derive_node_ok].
Qed.

(** Appending an observed transition keeps a record well formed. *)
Lemma append_ok d d' t req h ident :
  observed req h ident t -> record_ok d ->
  updated_as d (persist_status persist_time (applyTransition (sd_Status d) t)) d' ->
  record_ok d'.
Proof.
  intros Ho [] (H1 & H2 & H3 & H4 & H5). split.
  - by rewrite H1, H4.
  - by rewrite H2, H4.
  - intros now. rewrite H2. auto.
  - rewrite H5. apply persist_status_mirrors.
  - rewrite H5, persist_status_append by done. apply Forall_app. split; [done|].
    apply Forall_singleton. by apply observed_ok in Ho.
  - rewrite H5. apply persist_status_idemp.
Qed.

(** A write a running handler is allowed to make takes the store one abstract step. *)
Lemma write_simulates s th x w' :
  api_step (sys_world s) (ex_call x) (ex_answer x) w' -> th ∈ sys_threads s ->
  reads_seen (sys_world s) (th_history th) -> records_ok (store (sys_world s)) ->
  handler_allows (th_start th) (th_history th) (ex_call x) ->
  audit_step s (store (sys_world s)) (store w').
Proof.
  intros Hs Hth Hr Hok Hc. destruct x as [c a], th as [p0 p h]; simpl in *.
  pose proof (api_unrelated _ _ _ _ Hs) as Hun.
  destruct c; try (by apply audit_stutter).
  - (* creation *)
    destruct (api_create _ _ _ _ Hs) as [[? _]|(Hn & d' & Hd' & _ & Hw')];
      [by apply audit_stutter|].
    destruct Hc as [(r & req & -> & ident & t & now & v & Ho & Hnow & ->)|[now [_ []]]].
    pose proof Hd' as (Hname & Hlab & Hspec & Hst).
    eapply (audit_create s _ _ r req p h ident t now d'); rewrite ?Hname, ?Hlab, ?Hspec, ?Hst;
      try done. eapply newDecision_ok; [done| |exact Hd']. apply wrap64_range.
  - (* update *)
    destruct (api_update _ _ _ _ Hs) as [[? _]|(cur & d' & Hn & Hrv & Hu & Hw')];
      [by apply audit_stutter|].
    destruct Hc as [(r & req & -> & ident & t & h0 & d0 & Ho & Hh & Hun' & ->)|[now [_ []]]].
    destruct Hr as [Hget _]. destruct (Hget (decisionName (id_UID ident)) d0) as [Hs0 Hn0];
      [rewrite Hh; set_solver|].
    destruct (store_seen _ _ _ Hn) as [Hsc Hnc].
    assert (cur = d0) as -> by by eapply seen_version.
    change (sd_Name (set_Status _ d0)) with (sd_Name d0) in *. rewrite Hn0 in *.
    destruct (Hok _ _ Hn). eapply audit_append; [exact Hth|exact Ho|exact Hn|done|exact Hu| |done].
    destruct Hu as (_ & _ & _ & _ & ->). by apply persist_status_append.
  - (* deletion *)
    destruct (api_delete _ _ _ _ Hs) as [[? _]|Hw']; [by apply audit_stutter|].
    destruct Hc as [(r & req & _ & [])|[now (-> & items & Hh & Hd & He & _)]].
    apply head_Some_elem_of in Hh. destruct Hr as (_ & Hlist & _).
    destruct (store (sys_world s) !! sd_Name d) as [cur|] eqn:Hcur.
    + eapply audit_expire; [exact Hth|exact Hh|exact Hd|by eapply Hlist|done..].
    + apply audit_stutter. by rewrite Hw', delete_id.
Qed.

Lemma audit_step_ok s log log' : audit_step s log log' -> records_ok log -> records_ok log'.
Proof.
  intros Hs Hok m d'. destruct Hs as [->
    |r req p h ident t now d _ _ _ _ _ Hd _ _ _ _ _ _ ->
    |r req p h ident t d d1 _ Ho Hn _ Hu _ ->|now p h items d cur _ _ _ _ _ _ ->].
  - apply Hok.
  - intros [[<- <-]|[_ ?]]%lookup_insert_Some; [done|by eapply Hok].
  - intros [[<- <-]|[_ ?]]%lookup_insert_Some; [|by eapply Hok].
    eapply append_ok; [exact Ho| |exact Hu]. by eapply Hok.
  - intros [_ ?]%lookup_delete_Some. by eapply Hok.
Qed.

Lemma step_simulates s s' :
  step s s' -> system_ok s ->
  audit_step s (store (sys_world s)) (store (sys_world s')).
Proof.
  intros [w ths p Hp|w ths i p c k h a w' Hi Ha|w ths i] [Hths Hok]; simpl in *;
    [by apply audit_stutter| |by apply audit_stutter].
  destruct (proj1 (Forall_lookup _ _) Hths _ _ Hi) as [[[Hc _] _] Hr].
  apply list_elem_of_lookup_2 in Hi.
  by apply (write_simulates (System w ths) (Thread p (Call c k) h) (Exch c a) w').
Qed.

Lemma step_ok s s' : step s s' -> system_ok s -> system_ok s'.
Proof.
  intros Hst Hs. pose proof (audit_step_ok _ _ _ (step_simulates _ _ Hst Hs) (proj2 Hs)) as Hok.
  split; [|done]. destruct Hs as [Hths _].
  destruct Hst as [w ths p Hp|w ths i p c k h a w' Hi Ha|w ths i]; simpl in *.
  - constructor; [|done]. split; [split; [by apply handler_wp|done]|].
    split_and!; set_solver.
  - destruct (proj1 (Forall_lookup _ _) Hths _ _ Hi) as [[[_ Hk] Hb] Hr].
    apply Forall_insert.
    + eapply Forall_impl; [exact Hths|]. intros th [??]. split; [done|].
      by eapply reads_seen_step.
    + split; [split; [by apply Hk|by apply (becomes_call p h c k a)]|].
      by apply (reads_seen_snoc w (Exch c a)).
  - by apply Forall_delete.
Qed.

Lemma reachable_ok s : reachable s -> system_ok s.
Proof.
  intros (s0 & [Hw Ht] & Hs). assert (system_ok s0) as Hok0.
  { split; [by rewrite Ht|]. intros n d. by rewrite Hw, lookup_empty. }
  clear Hw Ht. induction Hs as [|x y z Hxy _ IH]; [done|]. by eapply IH, step_ok.
Qed.

(** What two versions of one record have in common: all but the status, whose
    history has grown at its end. *)
Definition grows (d d' : SchedulingDecision) : Prop :=
  sd_Spec d' = sd_Spec d /\ sd_Labels d' = sd_Labels d /\
  st_Transitions (sd_Status d) `prefix_of` st_Transitions (sd_Status d').

#[global] Instance grows_preorder : PreOrder grows.
Proof.
  split; [by intros d|]. intros d1 d2 d3 (H1 & H2 & H3) (H4 & H5 & H6).
  split_and!; [congruence|congruence|by etrans].
Qed.

(** One step back from a stored version whose UID has been seen. *)
Lemma step_grows s s' d n d' :
  step s s' -> system_ok s -> seen (sys_world s) d ->
  store (sys_world s') !! n = Some d' -> sd_UID d' = sd_UID d ->
  exists d0, store (sys_world s) !! n = Some d0 /\ sd_UID d0 = sd_UID d /\ grows d0 d'.
Proof.
  intros Hst Hs Hd Hn Hu.
  assert (store (sys_world s') = store (sys_world s) ->
    exists d0, store (sys_world s) !! n = Some d0 /\ sd_UID d0 = sd_UID d /\ grows d0 d')
    as Hsame by (intros Heq; rewrite Heq in Hn; by exists d').
  destruct Hs as [Hths Hok].
  destruct Hst as [w ths p Hp|w ths i p c k h a w' Hi Ha|w ths i]; simpl in *;
    [by apply Hsame| |by apply Hsame].
  pose proof (api_unrelated _ _ _ _ Ha) as Hun. destruct c; try (by apply Hsame).
  - destruct (api_create _ _ _ _ Ha) as [[? _]|(_ & d1 & _ & Hf & Hw')]; [by apply Hsame|].
    rewrite Hw' in Hn. apply lookup_insert_Some in Hn as [[<- ->]|[_ Hn]].
    + by destruct (Hf d Hd).
    + by exists d'.
  - destruct (proj1 (Forall_lookup _ _) Hths _ _ Hi) as [[[Hc _] _] [Hget _]].
    destruct (api_update _ _ _ _ Ha) as [[? _]|(cur & d1 & Hcur & Hrv & Hup & Hw')];
      [by apply Hsame|].
    rewrite Hw' in Hn. apply lookup_insert_Some in Hn as [[<- ->]|[_ Hn]]; [|by exists d'].
    destruct Hc as [(r & req & _ & ident & t & h0 & dr & _ & Hh & _ & ->)|[now [_ []]]].
    destruct (Hget (decisionName (id_UID ident)) dr) as [Hs0 Hn0]; [rewrite Hh; set_solver|].
    destruct (store_seen _ _ _ Hcur) as [Hsc Hnc].
    assert (cur = dr) as -> by by eapply seen_version.
    destruct (Hok _ _ Hcur), Hup as (_ & Hl & Hu' & Hsp & Hstat). simpl in *.
    exists dr. split_and!; [done|congruence|]. split_and!; [done|done|].
    rewrite Hstat, persist_status_append by done. by eexists.
  - destruct (api_delete _ _ _ _ Ha) as [[? _]|Hw']; [by apply Hsame|].
    rewrite Hw' in Hn. apply lookup_delete_Some in Hn as [_ Hn]. by exists d'.
Qed.

Lemma seen_steps s s' d : rtc step s s' -> seen (sys_world s) d -> seen (sys_world s') d.
Proof.
  induction 1 as [|x y z Hxy _ IH]; [done|]. intros Hd. apply IH.
  destruct Hxy; simpl in *; [done| |done]. by eapply seen_mono.
Qed.

Lemma reachable_steps s s' : reachable s -> rtc step s s' -> reachable s'.
Proof. intros (s0 & Hi & Hs) Hs'. exists s0. split; [done|by etrans]. Qed.

Lemma steps_grow s s' d n d' :
  reachable s -> rtc step s s' -> store (sys_world s) !! n = Some d ->
  store (sys_world s') !! n = Some d' -> sd_UID d' = sd_UID d -> grows d d'.
Proof.
  intros Hr Hs Hn. revert s' Hs d'. apply (rtc_ind_r (fun s' => forall d',
    store (sys_world s') !! n = Some d' -> sd_UID d' = sd_UID d -> grows d d'));
    [intros d' Hn' Hu; by simplify_eq|intros y z Hs Hyz IH d' Hn' Hu].
  assert (system_ok y) as Hy by by eapply reachable_ok, reachable_steps.
  destruct (step_grows y z d n d') as (d0 & Hn0 & Hu0 & Hg); [done..| |done|done|].
  - eapply seen_steps; [done|]. by eapply store_seen.
  - etrans; [by apply IH|done].
Qed.

(** ** Theorems *)

(** C1. Refinement: whatever the interleaving of reconciles and sweeps, the stale
    reads, the failed and the lost writes, every step of the running system
    takes the stored decisions through one step of the audit log: a new empty,
    well-formed record of the pod that a running reconcile has read about, to be kept
    for the window from a clock reading of that reconcile on; one transition, derived
    from what a running reconcile was answered about that record's pod, appended to the
    current version; the removal of a record by a running sweep that has listed a
    version of that name which had expired at the sweep's instant; or no change. *)
Theorem system_refines s s' :
  reachable s -> step s s' -> audit_step s (store (sys_world s)) (store (sys_world s')).
Proof. intros Hr Hst. by apply step_simulates; [|apply reachable_ok]. Qed.

(** C20. Every record ever stored is well formed: named and labelled after its pod's
    UID, with an expiry label the sweep can read, with scalar status fields that
    mirror its last transition, and with a history of valid outcomes that name a
    node only when Scheduled. *)
Theorem stored_records_wellformed s n d :
  reachable s -> store (sys_world s) !! n = Some d -> record_ok d.
Proof. intros Hr Hn. by eapply (proj2 (reachable_ok _ Hr)). Qed.

(** C2. No update is lost: as long as a record is not deleted and recreated, its
    spec and labels never change and its history only grows at the end, even
    with reconciles racing on stale reads. *)
Theorem history_append_only s s' n d d' :
  reachable s -> rtc step s s' ->
  store (sys_world s) !! n = Some d -> store (sys_world s') !! n = Some d' ->
  sd_UID d' = sd_UID d ->
  sd_Spec d' = sd_Spec d /\ sd_Labels d' = sd_Labels d /\
  st_Transitions (sd_Status d) `prefix_of` st_Transitions (sd_Status d').
Proof. intros Hr Hs Hn Hn' Hu. by apply (steps_grow s s' d n d'). Qed.

(** Nothing observed is lost: when a reconcile of the running system returns nil,
    then either what it read supported no transition, or the server has stored a
    version of the pod's record that ends with the transition derived from it. *)
Theorem reconcile_stored s i r req h :
  reachable s -> sys_threads s !! i = Some (Thread (Reconcile r req) (Ret None) h) ->
  nothing_observed req h \/
  exists ident t d l, observed req h ident t /\ seen (sys_world s) d /\
    sd_Name d = decisionName (id_UID ident) /\ last (st_Transitions (sd_Status d)) = Some l /\
    (transitionsEqual l t = true \/ l = persist_transition persist_time t).
Proof.
  intros Hr Hi. destruct (reachable_ok _ Hr) as [Hths _].
  destruct (proj1 (Forall_lookup _ _) Hths _ _ Hi) as [[_ Hb] (Hget & _ & Hup)]. simpl in *.
  apply becomes_ret in Hb.
  destruct (wp_runs _ _ _ _ _ (Reconcile_wp r req _ []) Hb) as [_ HQ].
  destruct (HQ eq_refl) as [?|(ident & t & Ho & Hrec)]; [by left|right].
  destruct Hrec as [(h0 & d & l & Hh & Hl & Heq)|(h0 & d0 & d & Hh & ->)].
  - destruct (Hget (decisionName (id_UID ident)) d); [rewrite Hh; set_solver|].
    exists ident, t, d, l. split_and!; [done..|by left].
  - destruct (Hget (decisionName (id_UID ident)) d0) as [_ Hn0]; [rewrite Hh; set_solver|].
    destruct (Hup (set_Status (applyTransition (sd_Status d0) t) d0)) as (d' & Hs & Hn & Hst);
      [rewrite Hh; set_solver|].
    exists ident, t, d', (persist_transition persist_time t).
    split_and!; [done|done|rewrite Hn; exact Hn0| |by right].
    rewrite Hst. cbn [st_Transitions persist_status applyTransition sd_Status set_Status].
    by rewrite fmap_app, list_fmap_singleton, last_snoc.
Qed.
End system.
