(* ===== verification/RefServer.v ===== *)
(** * A reference API server

    An executable server with the contract of [ApiServer]: it holds the objects the
    program reads, numbers UIDs and resource versions, checks the resource version
    of a status update, and stores times as whole seconds. As a class instance it
    may also answer with any version it has held, fail, or apply a write and report
    an error. It shows that the contract can hold, and runs the handlers on
    concrete clusters. *)

From stdpp Require Import pretty.
From S2P Require Import Prelude GoTime Api Decision Effects Controller ReconcileProps.
From S2P Require Import Sweep System.

(** ** State *)

Record cluster := mkCluster {
  cl_store : gmap string SchedulingDecision;
  cl_seen : list SchedulingDecision;
  cl_next : N;
  cl_pods : list Pod;
  cl_events : list Event;
  cl_pvcs : list PersistentVolumeClaim;
  cl_classes : list StorageClass;
  cl_clock : Time;
}.

(** ** Operations *)

Definition find_by {A} (f : A -> bool) (l : list A) : fallible error A :=
  match list_find (fun x => f x = true) l with
  | Some (_, x) => inr x
  | None => inl (StatusError StatusReasonNotFound "not found")
  end.

Definition whole_second (t : Time) : Time := MkTime (sec t) 0.

(** Store a version under the next number. *)
Definition put (d : SchedulingDecision) (s : cluster) : cluster :=
  mkCluster (<[sd_Name d := d]> (cl_store s)) (d :: cl_seen s) (cl_next s + 1)
    (cl_pods s) (cl_events s) (cl_pvcs s) (cl_classes s) (cl_clock s).

Definition set_store (m : gmap string SchedulingDecision) (s : cluster) : cluster :=
  mkCluster m (cl_seen s) (cl_next s)
    (cl_pods s) (cl_events s) (cl_pvcs s) (cl_classes s) (cl_clock s).

Definition add_event (e : Event) (s : cluster) : cluster :=
  mkCluster (cl_store s) (cl_seen s) (cl_next s)
    (cl_pods s) (e :: cl_events s) (cl_pvcs s) (cl_classes s) (cl_clock s).

Definition with_version (d : SchedulingDecision) (uid : UID) (version : N)
    (st : SchedulingDecisionStatus) : SchedulingDecision :=
  mkDecision (mkObjectMeta (sd_Name d) uid (pretty version) (sd_Labels d)) (sd_Spec d) st.

Definition ref_create (d : SchedulingDecision) (s : cluster) : option error * cluster :=
  match cl_store s !! sd_Name d with
  | Some _ => (Some (StatusError StatusReasonAlreadyExists "already exists"), s)
  | None => (None, put (with_version d (pretty (cl_next s)) (cl_next s) Status_zero) s)
  end.

Definition ref_update (d : SchedulingDecision) (s : cluster) : option error * cluster :=
  match cl_store s !! sd_Name d with
  | None => (Some (StatusError StatusReasonNotFound "not found"), s)
  | Some cur =>
      if sd_ResourceVersion cur <>?s sd_ResourceVersion d then
        (Some (StatusError StatusReasonConflict "the object has been modified"), s)
      else (None, put (with_version cur (sd_UID cur) (cl_next s)
                         (persist_status whole_second (sd_Status d))) s)
  end.

Definition ref_delete (d : SchedulingDecision) (s : cluster) : option error * cluster :=
  match cl_store s !! sd_Name d with
  | None => (Some (StatusError StatusReasonNotFound "not found"), s)
  | Some _ => (None, set_store (delete (sd_Name d) (cl_store s)) s)
  end.

Definition answered {A S} (r : A * S) : option A * S := (Some r.1, r.2).

(** The server without staleness or failures. *)
Definition ref_server : server cluster := fun c s =>
  match c return option (answer c) * cluster with
  | ListEvents ns nsName =>
      (Some (inr (filter (fun e => ev_Namespace e = ns /\
         nsName ∈ indexEventInvolvedObject (EventObject e)) (cl_events s))), s)
  | GetPod key =>
      (Some (find_by (fun p => bool_decide
         (mkNamespacedName (pod_Namespace p) (pod_Name p) = key)) (cl_pods s)), s)
  | GetPVC key =>
      (Some (find_by (fun p => bool_decide
         (mkNamespacedName (pvc_Namespace p) (pvc_Name p) = key)) (cl_pvcs s)), s)
  | GetStorageClass n => (Some (find_by (fun c => sc_Name c =?s n) (cl_classes s)), s)
  | GetDecision n =>
      (Some match cl_store s !! n with
            | Some d => inr d
            | None => inl (StatusError StatusReasonNotFound "not found")
            end, s)
  | ListDecisions => (Some (inr (map_to_list (cl_store s)).*2), s)
  | CreateDecision d => answered (ref_create d s)
  | UpdateDecisionStatus d => answered (ref_update d s)
  | DeleteDecision d => answered (ref_delete d s)
  | CreateEvent e => (Some None, add_event e s)
  | Now => (Some (cl_clock s), s)
  | Log _ _ _ => (Some tt, s)
  | Exit _ => (None, s)
  end.

(** ** The contract *)

(** Stored objects are versions, versions are told apart by their number, and all
    numbers in use are below the next one. *)
Record cluster_ok (s : cluster) : Prop := {
  ok_store n d : cl_store s !! n = Some d -> d ∈ cl_seen s /\ sd_Name d = n;
  ok_version d d' : d ∈ cl_seen s -> d' ∈ cl_seen s ->
    sd_ResourceVersion d = sd_ResourceVersion d' -> d = d';
  ok_numbers d : d ∈ cl_seen s ->
    (exists k, (k < cl_next s)%N /\ sd_ResourceVersion d = pretty k) /\
    (exists k, (k < cl_next s)%N /\ sd_UID d = pretty k);
}.

(** What the server may do: as [ref_server], or fail, or answer with an old version,
    or apply a write and answer with an error. *)
Definition ref_step (s : cluster) (c : call) : answer c -> cluster -> Prop :=
  match c return answer c -> cluster -> Prop with
  | GetDecision n => fun a s' => s' = s /\
      forall d, a = inr d -> d ∈ cl_seen s /\ sd_Name d = n
  | ListDecisions => fun a s' => s' = s /\ forall ds, a = inr ds -> ds ⊆ cl_seen s
  | CreateDecision d => fun a s' =>
      (s' = s /\ a <> None) \/ ref_create d s = (None, s')
  | UpdateDecisionStatus d => fun a s' =>
      (s' = s /\ a <> None) \/ ref_update d s = (None, s')
  | DeleteDecision d => fun a s' =>
      (s' = s /\ a <> None) \/ ref_delete d s = (None, s')
  | CreateEvent e => fun _ s' => s' = s \/ s' = add_event e s
  | Exit _ => fun _ _ => False
  | _ => fun _ s' => s' = s
  end.

(** ** Lemmas *)

Lemma put_ok d s :
  cluster_ok s -> sd_ResourceVersion d = pretty (cl_next s) ->
  (exists k, (k < cl_next s + 1)%N /\ sd_UID d = pretty k) -> cluster_ok (put d s).
Proof.
  intros [Hst Hv Hnum] Hrv Huid. split; simpl.
  - intros n d' [[<- <-]|[_ H]]%lookup_insert_Some; [set_solver|].
    destruct (Hst _ _ H). set_solver.
  - assert (forall d', d' ∈ cl_seen s -> sd_ResourceVersion d' <> sd_ResourceVersion d) as Hne.
    { intros d' Hd'. destruct (Hnum d' Hd') as [(k & Hk & ->) _]. rewrite Hrv.
      intros ?%(inj pretty). lia. }
    intros d1 d2 [->|H1]%elem_of_cons [->|H2]%elem_of_cons; [done|..|by apply Hv].
    + intros Heq. by destruct (Hne d2 H2).
    + intros Heq. by destruct (Hne d1 H1).
  - intros d' [->|H]%elem_of_cons.
    + split; [|done]. exists (cl_next s). split; [lia|done].
    + destruct (Hnum d' H) as [(k & ? & ?) (k' & ? & ?)].
      split; [exists k|exists k']; (split; [lia|done]).
Qed.

Lemma set_store_ok n s :
  cluster_ok s -> cluster_ok (set_store (delete n (cl_store s)) s).
Proof.
  intros [Hst Hv Hnum]. split; [|done|done]. simpl.
  intros m d [_ H]%lookup_delete_Some. by apply Hst.
Qed.

Lemma add_event_ok e s : cluster_ok s -> cluster_ok (add_event e s).
Proof. by intros []. Qed.

Lemma ref_create_cases d s s' :
  ref_create d s = (None, s') ->
  cl_store s !! sd_Name d = None /\
  s' = put (with_version d (pretty (cl_next s)) (cl_next s) Status_zero) s.
Proof. unfold ref_create. case_match; naive_solver. Qed.

Lemma ref_update_cases d s s' :
  ref_update d s = (None, s') ->
  exists cur, cl_store s !! sd_Name d = Some cur /\
    sd_ResourceVersion cur = sd_ResourceVersion d /\
    s' = put (with_version cur (sd_UID cur) (cl_next s)
                (persist_status whole_second (sd_Status d))) s.
Proof.
  unfold ref_update. destruct (cl_store s !! sd_Name d) as [cur|]; [|done].
  split_if; [done|]. naive_solver.
Qed.

Lemma ref_delete_cases d s s' :
  ref_delete d s = (None, s') -> s' = set_store (delete (sd_Name d) (cl_store s)) s.
Proof. unfold ref_delete. case_match; naive_solver. Qed.

Lemma ref_step_ok s c a s' : ref_step s c a s' -> cluster_ok s -> cluster_ok s'.
Proof.
  intros Hs Hok. destruct c; simpl in *; subst; try done.
  - by destruct Hs as [-> _].
  - by destruct Hs as [-> _].
  - destruct Hs as [[-> _]|[_ ->]%ref_create_cases]; [done|].
    apply put_ok; [done|done|]. exists (cl_next s). split; [lia|done].
  - destruct Hs as [[-> _]|(cur & Hcur & _ & ->)%ref_update_cases]; [done|].
    apply put_ok; [done|done|].
    destruct (ok_store _ Hok _ _ Hcur) as [Hin _].
    destruct (ok_numbers _ Hok _ Hin) as [_ (k & ? & ?)]. exists k. split; [lia|done].
  - destruct Hs as [[-> _]| ->%ref_delete_cases]; [done|]. by apply set_store_ok.
  - destruct Hs as [->| ->]; [done|]. by apply add_event_ok.
Qed.

(** The contract holds. *)
#[global, refine] Instance ref_ApiServer : ApiServer := {|
  world := sig cluster_ok;
  store w := cl_store (proj1_sig w);
  seen w d := d ∈ cl_seen (proj1_sig w);
  api_step w c a w' := ref_step (proj1_sig w) c a (proj1_sig w');
  persist_time := whole_second;
|}.
Proof.
  all: try done; intros [s Hs]; simpl.
  - intros n d. by apply (ok_store s Hs).
  - intros c a [s' Hs'] d; simpl. intros Hst Hd. destruct c; simpl in *; subst; try done.
    + by destruct Hst as [-> _].
    + by destruct Hst as [-> _].
    + destruct Hst as [[-> _]|[_ ->]%ref_create_cases]; [done|]. set_solver.
    + destruct Hst as [[-> _]|(cur & _ & _ & ->)%ref_update_cases]; [done|]. set_solver.
    + by destruct Hst as [[-> _]| ->%ref_delete_cases].
    + by destruct Hst as [->| ->].
  - intros c a [s' Hs'] d; simpl. intros Hst Hd. destruct c; simpl in *; subst; try by left.
    + destruct Hst as [-> _]. by left.
    + destruct Hst as [-> _]. by left.
    + destruct Hst as [[-> _]|[_ ->]%ref_create_cases]; [by left|]. simpl in *.
      apply elem_of_cons in Hd as [->|Hd]; [right; apply lookup_insert_eq|by left].
    + destruct Hst as [[-> _]|(cur & _ & _ & ->)%ref_update_cases]; [by left|]. simpl in *.
      apply elem_of_cons in Hd as [->|Hd]; [right; apply lookup_insert_eq|by left].
    + destruct Hst as [[-> _]| ->%ref_delete_cases]; by left.
    + destruct Hst as [->| ->]; by left.
  - intros d d' Hd Hd' _. by apply (ok_version s Hs).
  - intros n d _ [_ H]. by apply H.
  - intros ds _ d [_ H] Hd. by apply (H ds).
  - intros c a [s' Hs']; simpl. destruct c; simpl; try done; try (by intros ->);
      try (by intros [-> _]). by intros [->| ->].
  - intros d a [s' Hs']; simpl. intros [[-> Ha]|[Hn ->]%ref_create_cases]; [by left|].
    right. split; [done|]. eexists. split_and!; [| |done].
    + split_and!; done.
    + intros old Hold. destruct (ok_numbers _ Hs _ Hold) as [_ (k & ? & ->)].
      change (pretty k <> pretty (cl_next s)). intros ?%(inj pretty). lia.
  - intros d a [s' Hs']; simpl.
    intros [[-> Ha]|(cur & Hcur & Hrv & ->)%ref_update_cases]; [by left|].
    right. exists cur, (with_version cur (sd_UID cur) (cl_next s)
      (persist_status whole_second (sd_Status d))).
    split; [done|]. split; [done|]. split; [by unfold updated_as|].
    destruct (ok_store _ Hs _ _ Hcur) as [_ <-]. done.
  - intros d a [s' Hs']; simpl. intros [[-> Ha]| ->%ref_delete_cases]; [by left|by right].
Defined.

(** ** Running handlers on a cluster *)

(** A cluster as a state of the instance. *)
Definition ref_world (s : cluster) (Hs : cluster_ok s) : world := exist cluster_ok s Hs.

(** [RetryOnError] with the four steps of [retry.DefaultBackoff]. *)
#[global, refine] Instance default_backoff : RetryOnError := {|
  OnError retriable fn := attempts retriable fn 4;
  OnError_steps := 4;
|}.
Proof. all: [> lia|done]. Defined.

(** Up to [n] calls of a handler, without interference. *)
Fixpoint advance {W A} (n : nat) (srv : server W) (p : prog A) (h : list exchange) (w : W)
    : prog A * list exchange * W :=
  match n, p with
  | S n', Call c k =>
      match srv c w with
      | (Some r, w') => advance n' srv (k r) (h ++ [Exch c r]) w'
      | (None, _) => (p, h, w)
      end
  | _, _ => (p, h, w)
  end.

Lemma ref_server_step s c a s' :
  ref_server c s = (Some a, s') -> cluster_ok s -> ref_step s c a s'.
Proof.
  intros Hs Hok. destruct c; simpl in *; try (by simplify_eq).
  - destruct (cl_store s !! name) as [d|] eqn:Hd; simplify_eq; (split; [done|]).
    + intros d' ?. simplify_eq. by apply ok_store.
    + done.
  - simplify_eq. split; [done|]. intros ds ? d Hd. simplify_eq.
    apply list_elem_of_fmap in Hd as ([n d'] & -> & Hd%elem_of_map_to_list).
    by apply (ok_store _ Hok n d').
  - unfold answered in Hs. simplify_eq. unfold ref_create. case_match; simpl; auto.
  - unfold answered in Hs. simplify_eq. unfold ref_update.
    case_match; [|by left]. split_if; simpl; auto.
  - unfold answered in Hs. simplify_eq. unfold ref_delete. case_match; simpl; auto.
  - simplify_eq. by right.
Qed.

(** An undisturbed run of the first thread is a run of the system, by any server that
    does what the instance may do. *)
Lemma advance_steps_by srv n p0 p h s Hs p' h' s' ths :
  (forall s c a s', srv c s = (Some a, s') -> cluster_ok s -> ref_step s c a s') ->
  advance n srv p h s = (p', h', s') ->
  exists Hs', rtc step (System (ref_world s Hs) (Thread p0 p h :: ths))
                       (System (ref_world s' Hs') (Thread p0 p' h' :: ths)).
Proof.
  intros Hsrv. revert p h s Hs. induction n as [|n IH]; intros p h s Hs; simpl;
    [intros ?; simplify_eq; by exists Hs|].
  destruct p as [a|c k]; [intros ?; simplify_eq; by exists Hs|].
  destruct (srv c s) as [[a|] s1] eqn:Hc; [|intros ?; simplify_eq; by exists Hs].
  pose proof (Hsrv _ _ _ _ Hc Hs) as Hst. pose proof (ref_step_ok _ _ _ _ Hst Hs) as Hs1.
  intros (Hs' & Hrun)%(IH _ _ _ Hs1). exists Hs'.
  eapply rtc_l; [|exact Hrun].
  by apply (step_call (ref_world s Hs) (Thread p0 (Call c k) h :: ths) 0 p0 c k h a (ref_world s1 Hs1)).
Qed.

Lemma advance_steps n p0 p h s Hs p' h' s' ths :
  advance n ref_server p h s = (p', h', s') ->
  exists Hs', rtc step (System (ref_world s Hs) (Thread p0 p h :: ths))
                       (System (ref_world s' Hs') (Thread p0 p' h' :: ths)).
Proof. apply advance_steps_by. intros ? ? ? ?. apply ref_server_step. Qed.

(** [ref_server] when the clock reads [now]. *)
Definition clocked (now : Time) : server cluster := fun c s =>
  match c return option (answer c) * cluster with
  | Now => (Some now, s)
  | c => ref_server c s
  end.

Lemma clocked_step now s c a s' :
  clocked now c s = (Some a, s') -> cluster_ok s -> ref_step s c a s'.
Proof.
  intros Hs Hok. destruct c; try by apply (ref_server_step _ _ _ _ Hs Hok).
  simpl in *. by simplify_eq.
Qed.

(** A cluster without decisions. *)
Definition fresh (s : cluster) : Prop := cl_store s = ∅ /\ cl_seen s = [].

Lemma fresh_ok s : fresh s -> cluster_ok s.
Proof. intros [H1 H2]. split; [by intros; rewrite H1 in *|rewrite H2; set_solver..]. Qed.

(** After [n] calls of a handler started on a fresh cluster. *)
Lemma advance_reachable n p s p' h' s' :
  handler p -> fresh s -> advance n ref_server p [] s = (p', h', s') ->
  exists Hs', reachable (System (ref_world s' Hs') [Thread p p' h']).
Proof.
  intros Hp Hf Ha. destruct (advance_steps _ p _ _ _ (fresh_ok _ Hf) _ _ _ [] Ha) as [Hs' Hrun].
  exists Hs', (System (ref_world s (fresh_ok _ Hf)) []). split; [by destruct Hf|].
  eapply rtc_l; [|exact Hrun]. by apply step_start.
Qed.

(** One call of the first thread is one step of the system. *)
Lemma advance_one p0 p h s Hs p' h' s' ths :
  advance 1 ref_server p h s = (p', h', s') -> h' <> h ->
  exists Hs', step (System (ref_world s Hs) (Thread p0 p h :: ths))
                   (System (ref_world s' Hs') (Thread p0 p' h' :: ths)).
Proof.
  intros Ha Hh. destruct p as [a|c k]; simpl in Ha; [by simplify_eq|].
  destruct (ref_server c s) as [[a|] s1] eqn:Hc; [|by simplify_eq].
  pose proof (ref_server_step _ _ _ _ Hc Hs) as Hst.
  pose proof (ref_step_ok _ _ _ _ Hst Hs) as Hs1.
  injection Ha as <- <- <-. exists Hs1.
  by apply (step_call (ref_world s Hs) (Thread p0 (Call c k) h :: ths) 0 p0 c k h a (ref_world s1 Hs1)).
Qed.
