(* ===== verification/GoHeap.v ===== *)
(** * Go's memory: pointers, slices and what a deep copy promises

    The types of the API group contain pointers and slices, so two Go values can
    share storage. This file has the heap they live in, the monad of functions on
    it, and [DeepCopyable], the interface between a Go type, the value it stands
    for and its copying function.

    A heap maps locations to cells; a cell holds one variable or one backing
    array. A slice is a backing array with a length and a capacity (the program
    never reslices, so a slice starts at index 0). [None] as the result of a
    function is a run-time panic. *)

From S2P Require Import Prelude.

Abbreviation loc := positive (only parsing).
Abbreviation heap C := (gmap positive C) (only parsing).

(** Functions on the heap. *)
Definition mem (C A : Type) : Type := heap C -> option (A * heap C).

#[global] Instance mem_ret {C} : MRet (mem C) := fun A a h => Some (a, h).
#[global] Instance mem_bind {C} : MBind (mem C) := fun A B f m h =>
  match m h with Some (a, h') => f a h' | None => None end.

Definition panic {C A} : mem C A := fun _ => None.

(** A kind of cell: the variables of one Go type. *)
Class Cell (C T : Type) := {
  to_cell : T -> C;
  of_cell : C -> option T;
  of_to_cell x : of_cell (to_cell x) = Some x;
}.
#[global] Hint Mode Cell - ! : typeclass_instances.

Section memory.
Context {C : Type}.

(** [new(T)], with an initial value. *)
Definition alloc `{!Cell C T} (x : T) : mem C loc := fun h =>
  let l := fresh (dom h) in Some (l, <[l := to_cell x]> h).

Definition contents `{!Cell C T} (h : heap C) (l : loc) : option T := h !! l ≫= of_cell.

Definition load `{!Cell C T} (l : loc) : mem C T := fun h =>
  match contents h l with Some x => Some (x, h) | None => None end.

(** An assignment through a pointer. *)
Definition assign `{!Cell C T} (l : loc) (x : T) : mem C unit := fun h =>
  match contents (T := T) h l with
  | Some _ => Some (tt, <[l := to_cell x]> h)
  | None => None
  end.
End memory.

Record slice := mkSlice { sl_array : loc; sl_len : nat; sl_cap : nat }.

Section slices.
Context {C T : Type} `{!Cell C (list T)}.

(** [make([]T, n)] *)
Definition make_slice (zero : T) (n : nat) : mem C slice :=
  l ← alloc (replicate n zero); mret (mkSlice l n n).

(** [s[i]], which panics out of range. *)
Definition slice_get (s : slice) (i : nat) : mem C T :=
  xs ← load (T := list T) (sl_array s);
  match xs !! i with
  | Some x => if (i <? sl_len s)%nat then mret x else panic
  | None => panic
  end.

(** [s[i] = x] *)
Definition slice_set (s : slice) (i : nat) (x : T) : mem C unit :=
  xs ← load (T := list T) (sl_array s);
  if (i <? sl_len s)%nat then assign (sl_array s) (<[i := x]> xs) else panic.

(** The elements of a slice; a nil slice has none. *)
Definition elements (h : heap C) (s : option slice) : option (list T) :=
  match s with
  | None => Some []
  | Some s =>
      xs ← contents (T := list T) h (sl_array s);
      if (sl_len s <=? sl_cap s)%nat && (length xs =? sl_cap s)%nat
      then Some (take (sl_len s) xs) else None
  end.
End slices.

(** ** Deep copies

    [rd h x] is the value a Go value [x] stands for in the heap [h], undefined if a
    pointer dangles; [rch h x] are the locations it is stored in; [copy] is the
    copying function of the type. A copy terminates, leaves the heap it
    started from as it was, reads as the original does, and lives in locations
    that did not exist. *)
Class DeepCopyable (C T V : Type) := {
  rd : heap C -> T -> option V;
  rch : heap C -> T -> gset loc;
  copy : T -> mem C T;
  (* what is read depends only on the locations reached *)
  rd_local h h' x v : rd h x = Some v ->
    (forall l, l ∈ rch h x -> h' !! l = h !! l) -> rd h' x = Some v /\ rch h' x = rch h x;
  rch_dom h x v : rd h x = Some v -> rch h x ⊆ dom h;
  copy_ok h x v : rd h x = Some v ->
    exists y h', copy x h = Some (y, h') /\ h ⊆ h' /\ rd h' y = Some v /\
      rch h' y ## dom h;
}.
#[global] Hint Mode DeepCopyable - ! - : typeclass_instances.

(** A type without pointers is copied by assignment. *)
Definition copy_flat {C T} : T -> mem C T := fun x => mret x.

(** ** Lemmas *)

Section lemmas.
Context {C : Type}.
Implicit Types h : heap C.

Lemma alloc_spec `{!Cell C T} (x : T) h :
  exists l, alloc x h = Some (l, <[l := to_cell x]> h) /\ h !! l = None.
Proof. eexists. split; [done|]. apply not_elem_of_dom, is_fresh. Qed.

Lemma contents_insert `{!Cell C T} h l (x : T) : contents (<[l := to_cell x]> h) l = Some x.
Proof. unfold contents. rewrite lookup_insert_eq. apply of_to_cell. Qed.

Lemma contents_mono `{!Cell C T} h h' l (x : T) :
  h !! l = h' !! l -> contents h l = Some x -> contents h' l = Some x.
Proof. unfold contents. by intros ->. Qed.

Lemma contents_dom `{!Cell C T} h l (x : T) : contents h l = Some x -> l ∈ dom h.
Proof.
  unfold contents. intros (c & Hc & _)%bind_Some. by apply elem_of_dom_2 in Hc.
Qed.

(** A subheap agrees on its own locations. *)
Lemma sub_lookup h h' l : h ⊆ h' -> l ∈ dom h -> h' !! l = h !! l.
Proof.
  intros Hs [c Hc]%elem_of_dom. rewrite Hc. by eapply lookup_weaken.
Qed.

Lemma rd_mono `{!DeepCopyable C T V} h h' (x : T) (v : V) :
  rd h x = Some v -> h ⊆ h' -> rd h' x = Some v /\ rch (V := V) h' x = rch (V := V) h x.
Proof.
  intros Hx Hs. apply rd_local; [done|]. intros l Hl. apply sub_lookup; [done|].
  by eapply rch_dom.
Qed.

(** Two copies one after the other. *)
Lemma copy_two `{!DeepCopyable C T1 V1, !DeepCopyable C T2 V2}
    h (x1 : T1) (x2 : T2) (v1 : V1) (v2 : V2) :
  rd h x1 = Some v1 -> rd h x2 = Some v2 ->
  exists y1 h1 y2 h2, copy (V := V1) x1 h = Some (y1, h1) /\
    copy (V := V2) x2 h1 = Some (y2, h2) /\
    h ⊆ h2 /\ rd h2 y1 = Some v1 /\ rd h2 y2 = Some v2 /\
    rch (V := V1) h2 y1 ## dom h /\ rch (V := V2) h2 y2 ## dom h /\ h ⊆ h1.
Proof.
  intros H1 H2. destruct (copy_ok h x1 v1 H1) as (y1 & h1 & Hc1 & Hs1 & Hr1 & Hd1).
  destruct (rd_mono _ _ _ _ H2 Hs1) as [H2' _].
  destruct (copy_ok h1 x2 v2 H2') as (y2 & h2 & Hc2 & Hs2 & Hr2 & Hd2).
  destruct (rd_mono _ _ _ _ Hr1 Hs2) as [Hr1' Hrch].
  exists y1, h1, y2, h2. split_and!; [done|done|by etrans|done|done|by rewrite Hrch| |done].
  assert (dom h ⊆ dom h1) by by apply subseteq_dom. set_solver.
Qed.

#[global, refine] Instance flat_copyable {T} : DeepCopyable C T T | 100 := {|
  rd _ x := Some x;
  rch _ _ := ∅;
  copy := copy_flat;
|}.
Proof.
  all: try done. intros h x v ?. simplify_eq. exists v, h. by split_and!.
Defined.
End lemmas.

(** ** Copies of pointers and slices, as the generated functions make them *)

(** The zero value of a type. *)
Class Zero (T : Type) := zero : T.

Section pointers.
Context {C T V : Type} `{!Cell C T, !Zero T}.

(** [if p == nil { return nil }; out := new(T); copyInto(p, out); return out] *)
Definition copy_ptr (copyInto : T -> mem C T) (p : option loc) : mem C (option loc) :=
  match p with
  | None => mret None
  | Some l =>
      out ← alloc (zero : T);
      x ← load l;
      y ← copyInto x;
      _ ← assign out y;
      mret (Some out)
  end.
End pointers.

Section slice_copies.
Context {C T : Type} `{!Cell C (list T), !Zero T}.

(** The loop that copies element by element, over the indices of the range. *)
Fixpoint copy_elements (copyInto : T -> mem C T) (s out : slice) (idx : list nat)
    : mem C unit :=
  match idx with
  | [] => mret tt
  | i :: idx =>
      x ← slice_get s i;
      y ← copyInto x;
      _ ← slice_set out i y;
      copy_elements copyInto s out idx
  end.

(** A nil slice is copied as nil, another one into a new array of its length. *)
Definition copy_slice (copyInto : T -> mem C T) (s : option slice)
    : mem C (option slice) :=
  match s with
  | None => mret None
  | Some s =>
      out ← make_slice (zero : T) (sl_len s);
      _ ← copy_elements copyInto s out (seq 0 (sl_len s));
      mret (Some out)
  end.
End slice_copies.

(** ** Pointers and slices are deeply copyable when what they hold is *)

Section pointer_instance.
Context {C T V : Type} `{!Cell C T, !Zero T, !DeepCopyable C T V}.
Implicit Types h : heap C.

Definition rd_ptr h (p : option loc) : option (option V) :=
  match p with
  | None => Some None
  | Some l => x ← contents (T := T) h l; v ← rd h x; Some (Some v)
  end.

Definition rch_ptr h (p : option loc) : gset loc :=
  match p with
  | None => ∅
  | Some l => {[l]} ∪ match contents (T := T) h l with Some x => rch (V := V) h x | None => ∅ end
  end.

Lemma rd_ptr_Some h l v :
  rd_ptr h (Some l) = Some v <->
  exists x w, contents (T := T) h l = Some x /\ rd h x = Some w /\ v = Some w.
Proof.
  simpl. rewrite bind_Some. split.
  - intros (x & Hx & (w & Hw & [= <-])%bind_Some). eauto.
  - intros (x & w & Hx & Hw & ->). exists x. by rewrite Hw.
Qed.

Lemma rd_ptr_local h h' p v :
  rd_ptr h p = Some v -> (forall l, l ∈ rch_ptr h p -> h' !! l = h !! l) ->
  rd_ptr h' p = Some v /\ rch_ptr h' p = rch_ptr h p.
Proof.
  destruct p as [l|]; [|done]. intros (x & w & Hx & Hw & ->)%rd_ptr_Some Hl.
  simpl in Hl. rewrite Hx in Hl.
  assert (contents (T := T) h' l = Some x) as Hx'
    by (eapply contents_mono; [symmetry; apply Hl; set_solver|done]).
  destruct (rd_local h h' x w Hw) as [Hw' Hr]; [set_solver|].
  split; [apply rd_ptr_Some; eauto|]. simpl. by rewrite Hx, Hx', Hr.
Qed.

Lemma rch_ptr_dom h p v : rd_ptr h p = Some v -> rch_ptr h p ⊆ dom h.
Proof.
  destruct p as [l|]; [|set_solver]. intros (x & w & Hx & Hw & ->)%rd_ptr_Some.
  simpl. rewrite Hx. pose proof (contents_dom _ _ _ Hx). pose proof (rch_dom _ _ _ Hw).
  set_solver.
Qed.

Lemma copy_ptr_ok h p v :
  rd_ptr h p = Some v ->
  exists q h', copy_ptr copy p h = Some (q, h') /\ h ⊆ h' /\ rd_ptr h' q = Some v /\
    rch_ptr h' q ## dom h.
Proof.
  destruct p as [l|]; [|intros ?; exists None, h; simplify_eq; by split_and!].
  intros (x & w & Hx & Hw & ->)%rd_ptr_Some.
  destruct (alloc_spec (C := C) (zero : T) h) as (out & Halloc & Hout).
  set (h1 := <[out := to_cell (zero : T)]> h) in *.
  assert (h ⊆ h1) as Hs1 by by apply insert_subseteq.
  destruct (rd_mono h h1 x w Hw Hs1) as [Hw1 _].
  destruct (copy_ok h1 x w Hw1) as (y & h2 & Hc & Hs2 & Hr2 & Hd2).
  assert (contents h2 out = Some (zero : T)) as Hz.
  { eapply contents_mono; [|apply (contents_insert h out)].
    symmetry. apply (sub_lookup h1 h2); [done|]. subst h1. set_solver. }
  assert (out ∉ rch (V := V) h2 y) as Hny by (subst h1; set_solver).
  set (h3 := <[out := to_cell y]> h2).
  destruct (rd_local h2 h3 y w Hr2) as [Hr3 Hrch3].
  { intros l' Hl'. apply lookup_insert_ne. set_solver. }
  exists (Some out), h3. split_and!.
  - unfold copy_ptr, mbind, mem_bind. rewrite Halloc. unfold load.
    rewrite (contents_mono h h1 l x) by
      (done || (symmetry; apply sub_lookup; [done|by eapply contents_dom])).
    rewrite Hc. unfold assign. by rewrite Hz.
  - apply insert_subseteq_r; [done|by etrans].
  - apply rd_ptr_Some. exists y, w. split_and!; [apply contents_insert|done|done].
  - simpl. unfold h3 at 1. rewrite contents_insert, Hrch3.
    apply not_elem_of_dom in Hout. assert (dom h ⊆ dom h1) by by apply subseteq_dom.
    set_solver.
Qed.

#[global] Instance ptr_copyable : DeepCopyable C (option loc) (option V) | 200 := {|
  rd := rd_ptr;
  rch := rch_ptr;
  copy := copy_ptr copy;
  rd_local := rd_ptr_local;
  rch_dom := rch_ptr_dom;
  copy_ok := copy_ptr_ok;
|}.
End pointer_instance.

Section slice_instance.
Context {C T V : Type} `{!Cell C (list T), !Zero T, !DeepCopyable C T V}.
Implicit Types h : heap C.

Definition rd_slice h (s : option slice) : option (list V) :=
  xs ← elements h s; mapM (rd h) (xs : list T).

Definition rch_elements h (xs : list T) : gset loc := ⋃ (rch (V := V) h <$> xs).

Definition rch_slice h (s : option slice) : gset loc :=
  match s with
  | None => ∅
  | Some s' => {[sl_array s']} ∪ rch_elements h (default [] (elements h s))
  end.

Lemma rch_elements_nil h : rch_elements h [] = ∅.
Proof. done. Qed.

Lemma rch_elements_cons h x xs :
  rch_elements h (x :: xs) = rch (V := V) h x ∪ rch_elements h xs.
Proof. done. Qed.

Lemma elements_local h h' s (xs : list T) :
  elements h s = Some xs ->
  (forall s', s = Some s' -> h' !! sl_array s' = h !! sl_array s') ->
  elements h' s = Some xs.
Proof.
  destruct s as [s|]; [|done]. intros Hx Hl. simpl in *.
  assert (contents (T := list T) h' (sl_array s) = contents h (sl_array s)) as ->; [|done].
  unfold contents. by rewrite Hl.
Qed.

Lemma mapM_rd_local h h' xs (vs : list V) :
  mapM (rd h) xs = Some vs -> (forall l, l ∈ rch_elements h xs -> h' !! l = h !! l) ->
  mapM (rd h') xs = Some vs /\ rch_elements h' xs = rch_elements h xs.
Proof.
  rewrite !mapM_Some. intros Hall Hl.
  induction Hall as [|x v xs vs Hx _ IH]; [done|]. rewrite !rch_elements_cons in *.
  destruct (rd_local h h' x v Hx) as [Hx' Hr]; [intros; apply Hl; set_solver|].
  destruct IH as [IH1 IH2]; [intros; apply Hl; set_solver|].
  split; [by constructor|]. by rewrite Hr, IH2.
Qed.

Lemma rd_slice_local h h' s v :
  rd_slice h s = Some v -> (forall l, l ∈ rch_slice h s -> h' !! l = h !! l) ->
  rd_slice h' s = Some v /\ rch_slice h' s = rch_slice h s.
Proof.
  unfold rd_slice. intros (xs & Hxs & Hv)%bind_Some Hl.
  assert (elements h' s = Some xs) as Hxs'.
  { eapply elements_local; [done|]. intros s' ->. apply Hl. simpl. set_solver. }
  assert (forall l, l ∈ rch_elements h xs -> h' !! l = h !! l) as Hl'.
  { intros l Hin. destruct s as [s|].
    2: { simpl in Hxs. simplify_eq. rewrite rch_elements_nil in Hin. set_solver. }
    apply Hl. unfold rch_slice. rewrite Hxs. set_solver. }
  destruct (mapM_rd_local _ _ _ _ Hv Hl') as [Hv' Hr]. rewrite Hxs'. split; [done|].
  destruct s as [s|]; [|done]. unfold rch_slice. rewrite Hxs, Hxs'. simpl. by rewrite Hr.
Qed.

Lemma rch_elements_dom h xs (vs : list V) :
  mapM (rd h) xs = Some vs -> rch_elements h xs ⊆ dom h.
Proof.
  rewrite mapM_Some. induction 1 as [|x v xs vs Hx _ IH].
  - rewrite rch_elements_nil. set_solver.
  - rewrite rch_elements_cons. pose proof (rch_dom _ _ _ Hx). set_solver.
Qed.

Lemma elements_Some h s (xs : list T) :
  elements h (Some s) = Some xs <->
  exists ys, contents h (sl_array s) = Some ys /\ (sl_len s <= sl_cap s)%nat /\
    length ys = sl_cap s /\ xs = take (sl_len s) ys.
Proof.
  simpl. rewrite bind_Some. split.
  - intros (ys & Hys & Hx). case_match eqn:Hb; [|done]. simplify_eq.
    apply andb_true_iff in Hb as [H1%Nat.leb_le H2%Nat.eqb_eq]. eauto.
  - intros (ys & Hys & H1 & H2 & ->). exists ys.
    by rewrite (proj2 (Nat.leb_le _ _) H1), (proj2 (Nat.eqb_eq _ _) H2).
Qed.

Lemma rch_slice_dom h s v : rd_slice h s = Some v -> rch_slice h s ⊆ dom h.
Proof.
  unfold rd_slice. intros (xs & Hxs & Hv)%bind_Some. destruct s as [s|]; [|set_solver].
  unfold rch_slice. rewrite Hxs. simpl.
  apply elements_Some in Hxs as (ys & Hys & _).
  pose proof (contents_dom _ _ _ Hys). pose proof (rch_elements_dom _ _ _ Hv). set_solver.
Qed.

Lemma slice_get_ok h s (xs : list T) i x :
  elements h (Some s) = Some xs -> xs !! i = Some x -> slice_get s i h = Some (x, h).
Proof.
  intros (ys & Hys & Hlen & Hcap & ->)%elements_Some Hi.
  apply lookup_take_Some in Hi as [Hi Hlt].
  unfold slice_get, mbind, mem_bind, load. rewrite Hys, Hi.
  by rewrite (proj2 (Nat.ltb_lt _ _) Hlt).
Qed.

Lemma slice_set_ok h s (ys : list T) i x :
  contents h (sl_array s) = Some ys -> (i < sl_len s)%nat ->
  slice_set s i x h = Some (tt, <[sl_array s := to_cell (<[i := x]> ys)]> h).
Proof.
  intros Hys Hi. unfold slice_set, mbind, mem_bind, load, assign.
  by rewrite Hys, (proj2 (Nat.ltb_lt _ _) Hi), Hys.
Qed.

(** The loop, with [ys] copied so far: [h0] is the heap before the copy, of which the
    new array is no part. *)
Lemma copy_elements_ok h0 s out (xs1 xs2 : list T) vs1 vs2 ys h :
  elements h0 (Some s) = Some (xs1 ++ xs2) -> mapM (rd h0) xs2 = Some vs2 ->
  sl_array out ∉ dom h0 -> sl_len out = length (xs1 ++ xs2) -> length ys = length xs1 ->
  h0 ⊆ h -> contents h (sl_array out) = Some (ys ++ replicate (length xs2) zero) ->
  mapM (rd h) ys = Some vs1 -> rch_elements h ys ## {[sl_array out]} ∪ dom h0 ->
  exists zs h', copy_elements copy s out (seq (length xs1) (length xs2)) h = Some (tt, h') /\
    h0 ⊆ h' /\ contents h' (sl_array out) = Some zs /\ length zs = sl_len out /\
    mapM (rd h') zs = Some (vs1 ++ vs2) /\ rch_elements h' zs ## {[sl_array out]} ∪ dom h0.
Proof.
  intros Hxs Hv2 Hout Hlen. revert xs1 vs1 vs2 ys h Hxs Hv2 Hlen.
  induction xs2 as [|x xs2 IH]; intros xs1 vs1 vs2 ys h Hxs Hv2 Hlen Hys Hsub Hc Hv1 Hr.
  { apply mapM_Some, Forall2_nil_inv_l in Hv2 as ->. simpl in *.
    rewrite !app_nil_r in *. exists ys, h. split_and!; try done. by rewrite Hys, Hlen. }
  apply mapM_Some in Hv2. inversion Hv2 as [|? v ? vs2' Hx Hv2']; subst.
  destruct (rd_mono h0 h x v Hx Hsub) as [Hxh _].
  destruct (copy_ok h x v Hxh) as (y & h1 & Hcopy & Hs1 & Hry & Hdy).
  assert (sl_array out ∈ dom h) as Houth by by eapply contents_dom.
  assert (contents h1 (sl_array out) = Some (ys ++ replicate (length (x :: xs2)) zero))
    as Hc1 by (eapply contents_mono; [symmetry; by apply sub_lookup|done]).
  assert (mapM (rd h1) ys = Some vs1 /\ rch_elements h1 ys = rch_elements h ys) as [Hv1' Hr1].
  { apply mapM_rd_local; [done|]. intros l Hl. apply sub_lookup; [done|].
    by eapply rch_elements_dom. }
  assert (dom h0 ⊆ dom h) as Hdom by by apply subseteq_dom.
  set (h2 := <[sl_array out := to_cell (<[length xs1 := y]>
    (ys ++ replicate (length (x :: xs2)) zero))]> h1).
  assert (forall l, l ∉ ({[sl_array out]} : gset loc) -> h2 !! l = h1 !! l) as Hh2.
  { intros l Hl. apply lookup_insert_ne. set_solver. }
  destruct (rd_local h1 h2 y v Hry) as [Hry2 Hry2']; [intros; apply Hh2; set_solver|].
  destruct (mapM_rd_local h1 h2 ys vs1 Hv1') as [Hv2'' Hr2].
  { intros l Hl. apply Hh2. rewrite Hr1 in Hl. set_solver. }
  destruct (IH (xs1 ++ [x]) (vs1 ++ [v]) vs2' (ys ++ [y]) h2)
    as (zs & h' & Hrun & Hsub' & Hcz & Hlz & Hvz & Hrz).
  - by rewrite <- app_assoc.
  - by apply mapM_Some.
  - by rewrite <- app_assoc.
  - rewrite !length_app. simpl. lia.
  - apply insert_subseteq_r; [by apply not_elem_of_dom|by etrans].
  - unfold h2. rewrite contents_insert. f_equal. simpl replicate.
    rewrite <- Hys, insert_app_r_alt, Nat.sub_diag by lia. simpl. by rewrite <- app_assoc.
  - apply mapM_Some, Forall2_app; [by apply mapM_Some|by repeat constructor].
  - unfold rch_elements. rewrite fmap_app, union_list_app_L. simpl.
    fold (rch_elements h2 ys). rewrite Hr2, Hr1, Hry2'. set_solver.
  - exists zs, h'. rewrite <- app_assoc in Hvz. split_and!; try done.
    replace (seq (length xs1) (length (x :: xs2)))
      with (length xs1 :: seq (length (xs1 ++ [x])) (length xs2))
      by (rewrite length_app; simpl; by rewrite Nat.add_1_r).
    cbn [copy_elements]. unfold mbind, mem_bind.
    rewrite (slice_get_ok h s (xs1 ++ x :: xs2) (length xs1) x).
    + rewrite Hcopy. rewrite (slice_set_ok _ _ _ _ _ Hc1); [done|].
      rewrite Hlen, length_app. simpl. lia.
    + eapply elements_local; [done|]. intros s' [= <-]. apply sub_lookup; [done|].
      apply elements_Some in Hxs as (full & Hfull & _). by eapply contents_dom.
    + rewrite lookup_app_r, Nat.sub_diag by lia. done.
Qed.

Lemma copy_slice_ok h s v :
  rd_slice h s = Some v ->
  exists q h', copy_slice copy s h = Some (q, h') /\ h ⊆ h' /\ rd_slice h' q = Some v /\
    rch_slice h' q ## dom h.
Proof.
  unfold rd_slice at 1. intros (xs & Hxs & Hv)%bind_Some.
  destruct s as [s|]; [|exists None, h; simpl in *; simplify_eq; by split_and!].
  assert (length xs = sl_len s) as Hlen.
  { apply elements_Some in Hxs as (ys & _ & ? & ? & ->). rewrite length_take. lia. }
  destruct (alloc_spec (C := C) (replicate (sl_len s) (zero : T)) h)
    as (out & Halloc & Hout).
  set (h1 := <[out := _]> h) in *.
  destruct (copy_elements_ok h s (mkSlice out (sl_len s) (sl_len s)) [] xs [] v [] h1)
    as (zs & h' & Hrun & Hsub & Hcz & Hlz & Hvz & Hrz).
  - done.
  - done.
  - by apply not_elem_of_dom.
  - done.
  - done.
  - by apply insert_subseteq.
  - unfold h1. simpl. by rewrite contents_insert, Hlen.
  - done.
  - rewrite rch_elements_nil. set_solver.
  - simpl in *. exists (Some (mkSlice out (sl_len s) (sl_len s))), h'.
    assert (elements h' (Some (mkSlice out (sl_len s) (sl_len s))) = Some zs) as Hel.
    { apply elements_Some. exists zs. simpl. split_and!; [done|lia|done|].
      by rewrite <- Hlz, firstn_all. }
    split_and!.
    + unfold copy_slice, make_slice, mbind, mem_bind, mret, mem_ret. rewrite Halloc.
      rewrite Hlen in Hrun. by rewrite Hrun.
    + done.
    + unfold rd_slice. by rewrite Hel.
    + unfold rch_slice. rewrite Hel. simpl. apply not_elem_of_dom in Hout. set_solver.
Qed.

#[global] Instance slice_copyable : DeepCopyable C (option slice) (list V) | 200 := {|
  rd := rd_slice;
  rch := rch_slice;
  copy := copy_slice copy;
  rd_local := rd_slice_local;
  rch_dom := rch_slice_dom;
  copy_ok := copy_slice_ok;
|}.
End slice_instance.

(** ** Structs

    A struct is copied field by field: [by_field] makes a struct copyable through one
    field that needs it, a pair of fields being a field. *)

Section structs.
Context {C : Type}.

Definition copy_pair {A B VA VB} `{!DeepCopyable C A VA, !DeepCopyable C B VB} (x : A * B)
    : mem C (A * B) :=
  a ← copy (V := VA) x.1; b ← copy (V := VB) x.2; mret (a, b).

#[global, refine] Instance pair_copyable {A B VA VB}
    `{!DeepCopyable C A VA, !DeepCopyable C B VB} : DeepCopyable C (A * B) (VA * VB) | 50 := {|
  rd h x := v ← rd h x.1; w ← rd h x.2; Some (v, w);
  rch h x := rch (V := VA) h x.1 ∪ rch (V := VB) h x.2;
  copy := copy_pair;
|}.
Proof.
  - intros h h' [a b] v (va & Ha & (vb & Hb & [= <-])%bind_Some)%bind_Some Hl. simpl in *.
    destruct (rd_local h h' a va Ha) as [-> ->]; [set_solver|].
    destruct (rd_local h h' b vb Hb) as [-> ->]; [set_solver|]. done.
  - intros h [a b] v (va & Ha & (vb & Hb & [= <-])%bind_Some)%bind_Some. simpl in *.
    apply rch_dom in Ha, Hb. set_solver.
  - intros h [a b] v (va & Ha & (vb & Hb & [= <-])%bind_Some)%bind_Some. simpl in *.
    destruct (copy_two h a b va vb Ha Hb)
      as (y1 & h1 & y2 & h2 & Hc1 & Hc2 & Hs & Hr1 & Hr2 & Hd1 & Hd2 & _).
    exists (y1, y2), h2. simpl. split_and!; [|done| |set_solver].
    + unfold copy_pair, mbind, mem_bind. simpl. by rewrite Hc1, Hc2.
    + by rewrite Hr1, Hr2.
Defined.

Lemma copy_pair_run {A B VA VB} `{!DeepCopyable C A VA, !DeepCopyable C B VB} (a : A) (b : B) h :
  copy (V := VA * VB) (a, b) h =
  match copy (V := VA) a h with
  | Some (a', h1) =>
      match copy (V := VB) b h1 with Some (b', h2) => Some ((a', b'), h2) | None => None end
  | None => None
  end.
Proof. done. Qed.

Section field.
Context {T A V B : Type} `{!DeepCopyable C A B}.
Context (get : T -> A) (put : A -> T -> T) (val : B -> T -> V) (copyInto : T -> mem C T).
Context (get_put : forall a x, get (put a x) = a).
Context (val_put : forall b a x, val b (put a x) = val b x).
Context (copyInto_field : forall x h, copyInto x h = (a ← copy (V := B) (get x); mret (put a x)) h).

Definition by_field : DeepCopyable C T V.
Proof using get_put val_put copyInto_field.
  refine {|
    rd h x := b ← rd h (get x); Some (val b x);
    rch h x := rch (V := B) h (get x);
    copy := copyInto;
  |}.
  - intros h h' x v (b & Hb & [= <-])%bind_Some Hl.
    by destruct (rd_local h h' _ _ Hb Hl) as [-> ->].
  - intros h x v (b & Hb & _)%bind_Some. by apply rch_dom in Hb.
  - intros h x v (b & Hb & [= <-])%bind_Some.
    destruct (copy_ok h _ _ Hb) as (y & h' & Hc & Hs & Hr & Hd).
    exists (put y x), h'. rewrite get_put, copyInto_field. unfold mbind, mem_bind at 1.
    rewrite Hc, Hr. simpl. by rewrite val_put.
Defined.
End field.
End structs.

(** ** [append] *)

Section append.
Context {C T V : Type} `{!Cell C (list T), !Zero T, !DeepCopyable C T V}.

(** The capacity [append] gives a new array that must hold [n] elements: the
    language promises no more than that they fit. *)
Context (growth : nat -> nat).

(** [append(s, x)]: in place while the capacity lasts, else in a new array. *)
Definition append_slice (s : option slice) (x : T) : mem C slice :=
  match s with
  | None =>
      l ← alloc (x :: replicate (growth 1 - 1) zero);
      mret (mkSlice l 1 (growth 1))
  | Some s =>
      xs ← load (T := list T) (sl_array s);
      if (sl_len s <? sl_cap s)%nat then
        _ ← assign (sl_array s) (<[sl_len s := x]> xs);
        mret (mkSlice (sl_array s) (S (sl_len s)) (sl_cap s))
      else
        let n := S (sl_len s) in
        l ← alloc (take (sl_len s) xs ++ x :: replicate (growth n - n) zero);
        mret (mkSlice l n (growth n))
  end.

Context (growth_fits : forall n, (n <= growth n)%nat).

(** Appending changes at most the backing array, and only that, of the slice: the
    old elements are read as before if none of them is stored in that array. *)
Lemma append_slice_ok (h : heap C) s x vs v :
  rd_slice h s = Some vs -> rd h x = Some v ->
  (forall s', s = Some s' ->
     (sl_array s' ∉ rch_elements h (default [] (elements h s))) /\
     (sl_array s' ∉ rch (V := V) h x)) ->
  exists q h', append_slice s x h = Some (q, h') /\ rd_slice h' (Some q) = Some (vs ++ [v]) /\
    forall l, (forall s', s = Some s' -> l <> sl_array s') -> l ∈ dom h -> h' !! l = h !! l.
Proof using growth_fits.
  unfold rd_slice at 1. intros (xs & Hxs & Hvs)%bind_Some Hx Hsep.
  (* a new array [zs ++ x :: _] *)
  assert (forall h' q zs rest, mapM (rd h) zs = Some vs ->
    contents h' (sl_array q) = Some (zs ++ x :: rest) -> sl_len q = S (length zs) ->
    sl_cap q = (length zs + S (length rest))%nat ->
    (forall l, l ∈ rch_elements h zs ∪ rch (V := V) h x -> h' !! l = h !! l) ->
    rd_slice h' (Some q) = Some (vs ++ [v])) as Hread.
  { intros h' q zs rest Hzs Hc Hlen Hcap Hl.
    destruct (mapM_rd_local h h' zs vs Hzs) as [Hzs' _]; [set_solver|].
    destruct (rd_local h h' x v Hx) as [Hx' _]; [set_solver|].
    unfold rd_slice. rewrite (proj2 (elements_Some h' q (zs ++ [x]))).
    - simpl. apply mapM_Some, Forall2_app; [by apply mapM_Some|by repeat constructor].
    - exists (zs ++ x :: rest). rewrite length_app. simpl.
      split_and!; [done|lia|lia|]. rewrite Hlen. symmetry.
      rewrite cons_middle, app_assoc. apply take_app_length'. rewrite length_app. simpl. lia. }
  destruct s as [s|].
  - pose proof Hxs as (ys & Hys & Hlc & Hcap & ->)%elements_Some.
    destruct (Hsep s eq_refl) as [Hs1 Hs2]. rewrite Hxs in Hs1. simpl in Hs1.
    unfold append_slice, mbind, mem_bind, load, mret, mem_ret. rewrite Hys.
    destruct (sl_len s <? sl_cap s)%nat eqn:Hlt.
    + apply Nat.ltb_lt in Hlt. unfold assign. rewrite Hys. eexists _, _. split; [done|].
      split; [|intros l Hl _; apply lookup_insert_ne; intros He; by apply (Hl s)].
      eapply (Hread _ _ (take (sl_len s) ys) (drop (S (sl_len s)) ys)); [done|..].
      * simpl. rewrite contents_insert. f_equal. rewrite insert_take_drop by lia. done.
      * simpl. rewrite length_take. lia.
      * simpl. rewrite length_take, length_drop. lia.
      * intros l Hl. apply lookup_insert_ne. set_solver.
    + apply Nat.ltb_ge in Hlt.
      destruct (alloc_spec (take (sl_len s) ys ++ x :: replicate (growth (S (sl_len s)) -
        S (sl_len s)) (zero : T)) h) as (out & Halloc & Hout).
      rewrite Halloc. eexists _, _. split; [done|].
      assert (forall l, l ∈ dom h -> l <> out) as Hne.
      { intros l Hl ->. by apply not_elem_of_dom in Hout. }
      split; [|intros l _ Hl; apply lookup_insert_ne; symmetry; by apply Hne].
      specialize (growth_fits (S (sl_len s))).
      eapply (Hread _ _ (take (sl_len s) ys)); [done|..]; simpl.
      * apply contents_insert.
      * rewrite length_take. lia.
      * rewrite length_take, length_replicate. lia.
      * intros l Hl. apply lookup_insert_ne. symmetry. apply Hne.
        apply rch_elements_dom in Hvs. apply rch_dom in Hx. set_solver.
  - simpl in Hxs. simplify_eq. destruct (alloc_spec (x :: replicate (growth 1 - 1) (zero : T)) h)
      as (out & Halloc & Hout).
    unfold append_slice, mbind, mem_bind, mret, mem_ret. rewrite Halloc.
    eexists _, _. split; [done|].
    assert (forall l, l ∈ dom h -> l <> out) as Hne.
    { intros l Hl ->. by apply not_elem_of_dom in Hout. }
    split; [|intros l _ Hl; apply lookup_insert_ne; symmetry; by apply Hne].
    specialize (growth_fits 1%nat).
    eapply (Hread _ _ []); [done|..]; simpl.
    * apply contents_insert.
    * done.
    * rewrite length_replicate. lia.
    * intros l Hl. apply lookup_insert_ne. symmetry. apply Hne.
      rewrite rch_elements_nil in Hl. apply rch_dom in Hx. set_solver.
Qed.
End append.
