(* ===== verification/DeepCopy.v ===== *)
(** * [api/v1alpha1/zz_generated.deepcopy.go]: deep copies, and why updates are local

    The Go values of the API types, with their pointers and slices, the generated
    copying functions, and the in-place [applyTransition] of
    [controllers/decision.go]. The reconciler changes objects it has read; what it
    reads is a deep copy of an object in a shared cache, so its changes must not
    be visible there. The theorems say that they are not, and that the in-place
    update computes what the function of [Decision] computes on values.

    [metav1.ObjectMeta] and [metav1.ListMeta] and their copying functions are
    apimachinery's: they come through the interface [DeepCopyable]. [metav1.Time],
    [types.UID] and the strings hold no pointer a program can write through and
    are copied by assignment. *)

From S2P Require Import Prelude GoTime Api Decision Effects Controller GoHeap.

(** ** The types in memory *)

Record CandidateNode_m := mkCandidateNode_m {
  cnm_Name : string;
  cnm_FilterResult : string;
  cnm_Score : option loc;
}.

Record SchedulingTransition_m := mkTransition_m {
  trm_Outcome : SchedulingOutcome;
  trm_ChosenNode : string;
  trm_ReasonSummary : string;
  trm_DecisionTimestamp : Time;
  trm_SchedulingLatencyMs : Z;
  trm_CandidateNodes : option slice;
  trm_SourceRef : SourceRef;
}.

Record SchedulingDecisionStatus_m := mkStatus_m {
  stm_Outcome : SchedulingOutcome;
  stm_ChosenNode : string;
  stm_ReasonSummary : string;
  stm_DecisionTimestamp : Time;
  stm_SchedulingLatencyMs : Z;
  stm_Transitions : option slice;
}.

Record SchedulingDecisionSpec_m := mkSpec_m {
  spm_PodName : string;
  spm_PodNamespace : string;
  spm_PodUID : UID;
  spm_SchedulerName : string;
  spm_VolumeContext : option loc;
}.

(** [metav1.TypeMeta] *)
Record TypeMeta := mkTypeMeta { tm_Kind : string; tm_APIVersion : string }.

Record SchedulingDecision_m (OM : Type) := mkDecision_m {
  sdm_TypeMeta : TypeMeta;
  sdm_ObjectMeta : OM;
  sdm_Spec : SchedulingDecisionSpec_m;
  sdm_Status : SchedulingDecisionStatus_m;
}.
Arguments mkDecision_m {OM}.
Arguments sdm_TypeMeta {OM}.
Arguments sdm_ObjectMeta {OM}.
Arguments sdm_Spec {OM}.
Arguments sdm_Status {OM}.

Record SchedulingDecisionList_m (LM : Type) := mkDecisionList_m {
  slm_TypeMeta : TypeMeta;
  slm_ListMeta : LM;
  slm_Items : option slice;
}.
Arguments mkDecisionList_m {LM}.
Arguments slm_TypeMeta {LM}.
Arguments slm_ListMeta {LM}.
Arguments slm_Items {LM}.

(** [SchedulingDecisionList], as a value. *)
Record SchedulingDecisionList (LV : Type) := mkDecisionList {
  sl_TypeMeta : TypeMeta;
  sl_ListMeta : LV;
  sl_Items : list (TypeMeta * SchedulingDecision);
}.
Arguments mkDecisionList {LV}.

(** The kinds of variables and arrays in the heap. *)
Inductive cell (OM LM : Type) :=
  | CInt64 (z : Z)
  | CVolumeContext (v : VolumeContext)
  | CSourceRef (r : SourceRef)
  | CCandidateNode (n : CandidateNode_m)
  | CCandidateNodes (ns : list CandidateNode_m)
  | CTransition (t : SchedulingTransition_m)
  | CTransitions (ts : list SchedulingTransition_m)
  | CStatus (s : SchedulingDecisionStatus_m)
  | CSpec (s : SchedulingDecisionSpec_m)
  | CDecision (d : SchedulingDecision_m OM)
  | CDecisions (ds : list (SchedulingDecision_m OM))
  | CDecisionList (l : SchedulingDecisionList_m LM)
  | CStringMap (m : gmap string string).

Arguments CInt64 {OM LM}.
Arguments CVolumeContext {OM LM}.
Arguments CSourceRef {OM LM}.
Arguments CCandidateNode {OM LM}.
Arguments CCandidateNodes {OM LM}.
Arguments CTransition {OM LM}.
Arguments CTransitions {OM LM}.
Arguments CStatus {OM LM}.
Arguments CSpec {OM LM}.
Arguments CDecision {OM LM}.
Arguments CDecisions {OM LM}.
Arguments CDecisionList {OM LM}.
Arguments CStringMap {OM LM}.

Section cells.
Context {OM LM : Type}.
Abbreviation C := (cell OM LM).

#[global, refine] Instance int64_cell : Cell C Z :=
  {| to_cell := CInt64; of_cell c := match c with CInt64 z => Some z | _ => None end |}.
Proof. done. Defined.
#[global, refine] Instance VolumeContext_cell : Cell C VolumeContext :=
  {| to_cell := CVolumeContext;
     of_cell c := match c with CVolumeContext z => Some z | _ => None end |}.
Proof. done. Defined.
#[global, refine] Instance SourceRef_cell : Cell C SourceRef :=
  {| to_cell := CSourceRef; of_cell c := match c with CSourceRef z => Some z | _ => None end |}.
Proof. done. Defined.
#[global, refine] Instance CandidateNode_cell : Cell C CandidateNode_m :=
  {| to_cell := CCandidateNode;
     of_cell c := match c with CCandidateNode z => Some z | _ => None end |}.
Proof. done. Defined.
#[global, refine] Instance CandidateNodes_cell : Cell C (list CandidateNode_m) :=
  {| to_cell := CCandidateNodes;
     of_cell c := match c with CCandidateNodes z => Some z | _ => None end |}.
Proof. done. Defined.
#[global, refine] Instance Transition_cell : Cell C SchedulingTransition_m :=
  {| to_cell := CTransition; of_cell c := match c with CTransition z => Some z | _ => None end |}.
Proof. done. Defined.
#[global, refine] Instance Transitions_cell : Cell C (list SchedulingTransition_m) :=
  {| to_cell := CTransitions;
     of_cell c := match c with CTransitions z => Some z | _ => None end |}.
Proof. done. Defined.
#[global, refine] Instance Status_cell : Cell C SchedulingDecisionStatus_m :=
  {| to_cell := CStatus; of_cell c := match c with CStatus z => Some z | _ => None end |}.
Proof. done. Defined.
#[global, refine] Instance Spec_cell : Cell C SchedulingDecisionSpec_m :=
  {| to_cell := CSpec; of_cell c := match c with CSpec z => Some z | _ => None end |}.
Proof. done. Defined.
#[global, refine] Instance Decision_cell : Cell C (SchedulingDecision_m OM) :=
  {| to_cell := CDecision; of_cell c := match c with CDecision z => Some z | _ => None end |}.
Proof. done. Defined.
#[global, refine] Instance Decisions_cell : Cell C (list (SchedulingDecision_m OM)) :=
  {| to_cell := CDecisions; of_cell c := match c with CDecisions z => Some z | _ => None end |}.
Proof. done. Defined.
#[global, refine] Instance DecisionList_cell : Cell C (SchedulingDecisionList_m LM) :=
  {| to_cell := CDecisionList;
     of_cell c := match c with CDecisionList z => Some z | _ => None end |}.
Proof. done. Defined.
#[global, refine] Instance StringMap_cell : Cell C (gmap string string) :=
  {| to_cell := CStringMap; of_cell c := match c with CStringMap z => Some z | _ => None end |}.
Proof. done. Defined.
End cells.

(** ** Zero values *)

#[global] Instance int64_zero : Zero Z := 0.
#[global] Instance VolumeContext_zero : Zero VolumeContext := mkVolumeContext "" "" "" "" "".
#[global] Instance SourceRef_zero' : Zero SourceRef := SourceRef_zero.
#[global] Instance TypeMeta_zero : Zero TypeMeta := mkTypeMeta "" "".
#[global] Instance CandidateNode_zero : Zero CandidateNode_m := mkCandidateNode_m "" "" None.
#[global] Instance Transition_zero : Zero SchedulingTransition_m :=
  mkTransition_m "" "" "" Time_zero 0 None SourceRef_zero.
#[global] Instance Status_zero' : Zero SchedulingDecisionStatus_m :=
  mkStatus_m "" "" "" Time_zero 0 None.
#[global] Instance Spec_zero : Zero SchedulingDecisionSpec_m := mkSpec_m "" "" "" "" None.
#[global] Instance Decision_zero `{!Zero OM} : Zero (SchedulingDecision_m OM) :=
  mkDecision_m zero zero zero zero.
#[global] Instance DecisionList_zero `{!Zero LM} : Zero (SchedulingDecisionList_m LM) :=
  mkDecisionList_m zero zero None.

(** ** The generated functions *)

Section deepcopy.
Context {OM LM LV : Type} `{ZOM : !Zero OM, ZLM : !Zero LM}.
Abbreviation M := (mem (cell OM LM)).
Context `{HOM : !DeepCopyable (cell OM LM) OM ObjectMeta}.
Context `{HLM : !DeepCopyable (cell OM LM) LM LV}.

(** [metav1.Time]'s function assigns. *)
Definition Time_DeepCopyInto : Time -> M Time := copy_flat.

(** [DeepCopyInto(out)] is modelled by the value it assigns to [*out]. *)
Definition CandidateNode_DeepCopyInto (x : CandidateNode_m) : M CandidateNode_m :=
  score ← copy_ptr (T := Z) copy_flat (cnm_Score x);
  mret (mkCandidateNode_m (cnm_Name x) (cnm_FilterResult x) score).

Definition CandidateNode_DeepCopy : option loc -> M (option loc) :=
  copy_ptr CandidateNode_DeepCopyInto.

Definition SourceRef_DeepCopyInto : SourceRef -> M SourceRef := copy_flat.
Definition SourceRef_DeepCopy : option loc -> M (option loc) :=
  copy_ptr SourceRef_DeepCopyInto.

Definition VolumeContext_DeepCopyInto : VolumeContext -> M VolumeContext := copy_flat.
Definition VolumeContext_DeepCopy : option loc -> M (option loc) :=
  copy_ptr VolumeContext_DeepCopyInto.

Definition SchedulingTransition_DeepCopyInto (x : SchedulingTransition_m)
    : M SchedulingTransition_m :=
  ts ← Time_DeepCopyInto (trm_DecisionTimestamp x);
  nodes ← copy_slice CandidateNode_DeepCopyInto (trm_CandidateNodes x);
  mret (mkTransition_m (trm_Outcome x) (trm_ChosenNode x) (trm_ReasonSummary x) ts
          (trm_SchedulingLatencyMs x) nodes (trm_SourceRef x)).

Definition SchedulingTransition_DeepCopy : option loc -> M (option loc) :=
  copy_ptr SchedulingTransition_DeepCopyInto.

Definition SchedulingDecisionStatus_DeepCopyInto (x : SchedulingDecisionStatus_m)
    : M SchedulingDecisionStatus_m :=
  ts ← Time_DeepCopyInto (stm_DecisionTimestamp x);
  transitions ← copy_slice SchedulingTransition_DeepCopyInto (stm_Transitions x);
  mret (mkStatus_m (stm_Outcome x) (stm_ChosenNode x) (stm_ReasonSummary x) ts
          (stm_SchedulingLatencyMs x) transitions).

Definition SchedulingDecisionStatus_DeepCopy : option loc -> M (option loc) :=
  copy_ptr SchedulingDecisionStatus_DeepCopyInto.

Definition SchedulingDecisionSpec_DeepCopyInto (x : SchedulingDecisionSpec_m)
    : M SchedulingDecisionSpec_m :=
  v ← copy_ptr (T := VolumeContext) copy_flat (spm_VolumeContext x);
  mret (mkSpec_m (spm_PodName x) (spm_PodNamespace x) (spm_PodUID x)
          (spm_SchedulerName x) v).

Definition SchedulingDecisionSpec_DeepCopy : option loc -> M (option loc) :=
  copy_ptr SchedulingDecisionSpec_DeepCopyInto.

Definition SchedulingDecision_DeepCopyInto (x : SchedulingDecision_m OM)
    : M (SchedulingDecision_m OM) :=
  meta ← copy (V := ObjectMeta) (sdm_ObjectMeta x);
  spec ← SchedulingDecisionSpec_DeepCopyInto (sdm_Spec x);
  status ← SchedulingDecisionStatus_DeepCopyInto (sdm_Status x);
  mret (mkDecision_m (sdm_TypeMeta x) meta spec status).

Definition SchedulingDecision_DeepCopy : option loc -> M (option loc) :=
  copy_ptr SchedulingDecision_DeepCopyInto.

Definition SchedulingDecisionList_DeepCopyInto (x : SchedulingDecisionList_m LM)
    : M (SchedulingDecisionList_m LM) :=
  meta ← copy (V := LV) (slm_ListMeta x);
  items ← copy_slice SchedulingDecision_DeepCopyInto (slm_Items x);
  mret (mkDecisionList_m (slm_TypeMeta x) meta items).

Definition SchedulingDecisionList_DeepCopy : option loc -> M (option loc) :=
  copy_ptr SchedulingDecisionList_DeepCopyInto.

(** A [runtime.Object]: an interface holding a pointer to one of the two kinds, or
    the nil interface. *)
Inductive runtime_Object :=
  | SchedulingDecision_Object (p : loc)
  | SchedulingDecisionList_Object (p : loc).

Definition SchedulingDecision_DeepCopyObject (p : option loc) : M (option runtime_Object) :=
  c ← SchedulingDecision_DeepCopy p;
  match c with Some l => mret (Some (SchedulingDecision_Object l)) | None => mret None end.

Definition SchedulingDecisionList_DeepCopyObject (p : option loc)
    : M (option runtime_Object) :=
  c ← SchedulingDecisionList_DeepCopy p;
  match c with Some l => mret (Some (SchedulingDecisionList_Object l)) | None => mret None end.

(** ** [applyTransition] in place *)

Context (growth : nat -> nat).

(** [status.Transitions = append(status.Transitions, *transition)] and the mirror
    fields: the status after the assignments. *)
Definition applyTransition_m (status : SchedulingDecisionStatus_m)
    (transition : SchedulingTransition_m) : M SchedulingDecisionStatus_m :=
  transitions ← append_slice growth (stm_Transitions status) transition;
  mret (mkStatus_m (trm_Outcome transition) (trm_ChosenNode transition)
          (trm_ReasonSummary transition) (trm_DecisionTimestamp transition)
          (trm_SchedulingLatencyMs transition) (Some transitions)).

Definition transitionsEqual_m (a b : SchedulingTransition_m) : bool :=
  bool_decide (trm_Outcome a = trm_Outcome b) &&
  (trm_ChosenNode a =?s trm_ChosenNode b) &&
  (trm_ReasonSummary a =?s trm_ReasonSummary b) &&
  Equal (trm_DecisionTimestamp a) (trm_DecisionTimestamp b).

(** [n := len(ts); n > 0 && transitionsEqual(ts[n-1], transition)] *)
Definition last_equal (ts : option slice) (transition : SchedulingTransition_m) : M bool :=
  match ts with
  | Some s =>
      if (0 <? sl_len s)%nat then
        l ← slice_get s (sl_len s - 1); mret (transitionsEqual_m l transition)
      else mret false
  | None => mret false
  end.

(** What one attempt of [appendTransitionWithRetry] does in memory. The client
    answers [Get] with a deep copy of the object its cache has at [cached]; the
    attempt compares, and updates the status in place. The result is the decision
    handed to [Update], nil if there is no update. *)
Definition appendTransition_once_m (cached : loc) (transition : SchedulingTransition_m)
    : M (option loc) :=
  decision ← SchedulingDecision_DeepCopy (Some cached);
  match decision with
  | None => panic
  | Some q =>
      d ← load (T := SchedulingDecision_m OM) q;
      unchanged ← last_equal (stm_Transitions (sdm_Status d)) transition;
      if unchanged : bool then mret None
      else
        status ← applyTransition_m (sdm_Status d) transition;
        _ ← assign q (mkDecision_m (sdm_TypeMeta d) (sdm_ObjectMeta d) (sdm_Spec d) status);
        mret (Some q)
  end.

(** ** The values the Go values stand for *)

#[global] Instance CandidateNode_copyable : DeepCopyable (cell OM LM) CandidateNode_m CandidateNode.
Proof.
  refine (@by_field _ _ _ _ _ (ptr_copyable (T := Z) (V := Z)) cnm_Score
    (fun s x => mkCandidateNode_m (cnm_Name x) (cnm_FilterResult x) s)
    (fun s x => mkCandidateNode (cnm_Name x) (cnm_FilterResult x) s)
    CandidateNode_DeepCopyInto _ _ _); done.
Defined.

#[global] Instance Transition_copyable
    : DeepCopyable (cell OM LM) SchedulingTransition_m SchedulingTransition.
Proof.
  refine (@by_field _ _ _ _ _
    (slice_copyable (T := CandidateNode_m) (V := CandidateNode)) trm_CandidateNodes
    (fun ns x => mkTransition_m (trm_Outcome x) (trm_ChosenNode x) (trm_ReasonSummary x)
       (trm_DecisionTimestamp x) (trm_SchedulingLatencyMs x) ns (trm_SourceRef x))
    (fun ns x => mkTransition (trm_Outcome x) (trm_ChosenNode x) (trm_ReasonSummary x)
       (trm_DecisionTimestamp x) (trm_SchedulingLatencyMs x) ns (trm_SourceRef x))
    SchedulingTransition_DeepCopyInto _ _ _); done.
Defined.

#[global] Instance Status_copyable
    : DeepCopyable (cell OM LM) SchedulingDecisionStatus_m SchedulingDecisionStatus.
Proof.
  refine (@by_field _ _ _ _ _
    (slice_copyable (T := SchedulingTransition_m) (V := SchedulingTransition)) stm_Transitions
    (fun ts x => mkStatus_m (stm_Outcome x) (stm_ChosenNode x) (stm_ReasonSummary x)
       (stm_DecisionTimestamp x) (stm_SchedulingLatencyMs x) ts)
    (fun ts x => mkStatus (stm_Outcome x) (stm_ChosenNode x) (stm_ReasonSummary x)
       (stm_DecisionTimestamp x) (stm_SchedulingLatencyMs x) ts)
    SchedulingDecisionStatus_DeepCopyInto _ _ _); done.
Defined.

#[global] Instance Spec_copyable
    : DeepCopyable (cell OM LM) SchedulingDecisionSpec_m SchedulingDecisionSpec.
Proof.
  refine (@by_field _ _ _ _ _
    (ptr_copyable (T := VolumeContext) (V := VolumeContext)) spm_VolumeContext
    (fun v x => mkSpec_m (spm_PodName x) (spm_PodNamespace x) (spm_PodUID x)
       (spm_SchedulerName x) v)
    (fun v x => mkSpec (spm_PodName x) (spm_PodNamespace x) (spm_PodUID x)
       (spm_SchedulerName x) v)
    SchedulingDecisionSpec_DeepCopyInto _ _ _); done.
Defined.

#[global] Instance Decision_copyable
    : DeepCopyable (cell OM LM) (SchedulingDecision_m OM) (TypeMeta * SchedulingDecision).
Proof using HOM.
  refine (by_field
    (B := ObjectMeta * (SchedulingDecisionSpec * SchedulingDecisionStatus))
    (fun x => (sdm_ObjectMeta x, (sdm_Spec x, sdm_Status x)))
    (fun p x => mkDecision_m (sdm_TypeMeta x) p.1 p.2.1 p.2.2)
    (fun p x => (sdm_TypeMeta x, mkDecision p.1 p.2.1 p.2.2))
    SchedulingDecision_DeepCopyInto _ _ _).
  - by intros [? []] ?.
  - done.
  - intros x h. unfold SchedulingDecision_DeepCopyInto, mbind, mem_bind, mret, mem_ret.
    rewrite copy_pair_run. destruct (copy (sdm_ObjectMeta x) h) as [[m h1]|]; [|done].
    rewrite copy_pair_run. change (copy (sdm_Spec x) h1) with
      (SchedulingDecisionSpec_DeepCopyInto (sdm_Spec x) h1).
    destruct (SchedulingDecisionSpec_DeepCopyInto _ _) as [[s h2]|]; [|done].
    change (copy (sdm_Status x) h2) with
      (SchedulingDecisionStatus_DeepCopyInto (sdm_Status x) h2).
    by destruct (SchedulingDecisionStatus_DeepCopyInto _ _) as [[s' h3]|].
Defined.

#[global] Instance DecisionList_copyable
    : DeepCopyable (cell OM LM) (SchedulingDecisionList_m LM) (SchedulingDecisionList LV).
Proof using HOM HLM ZOM.
  refine (@by_field _ _ _ _ _ (pair_copyable (VA := LV)
    (DeepCopyable1 := slice_copyable (T := SchedulingDecision_m OM) (V := TypeMeta * SchedulingDecision)))
    (fun x => (slm_ListMeta x, slm_Items x))
    (fun p x => mkDecisionList_m (slm_TypeMeta x) p.1 p.2)
    (fun p x => mkDecisionList (slm_TypeMeta x) p.1 p.2)
    SchedulingDecisionList_DeepCopyInto _ _ _).
  - by intros [] ?.
  - done.
  - intros x h. unfold SchedulingDecisionList_DeepCopyInto, mbind, mem_bind, mret, mem_ret.
    rewrite copy_pair_run. destruct (copy (slm_ListMeta x) h) as [[m h1]|]; [|done].
    change (copy (slm_Items x) h1) with
      (copy_slice SchedulingDecision_DeepCopyInto (slm_Items x) h1).
    by destruct (copy_slice _ _ _) as [[s' h3]|].
Defined.

(** ** Copies are independent *)

(** [f] copies what a pointer refers to: the copy reads as the original does, and no
    change to the storage of one can be seen through the other, whatever happens to
    the heap afterwards. *)
Definition independent_copy (T V : Type) `{!Cell (cell OM LM) T, !DeepCopyable (cell OM LM) T V}
    (f : option loc -> M (option loc)) : Prop :=
  forall h p v, rd_ptr (T := T) (V := V) h p = Some v ->
  exists q h', f p h = Some (q, h') /\ rd_ptr (T := T) (V := V) h' q = Some v /\
    (forall h2, (forall l, l ∈ dom h -> h2 !! l = h' !! l) ->
       rd_ptr (T := T) (V := V) h2 p = Some v) /\
    (forall h2, (forall l, l ∉ dom h -> h2 !! l = h' !! l) ->
       rd_ptr (T := T) (V := V) h2 q = Some v).

Lemma copy_ptr_independent {T V} `{!Cell (cell OM LM) T, !Zero T,
    !DeepCopyable (cell OM LM) T V} f :
  f = copy_ptr (copy (T := T) (V := V)) -> independent_copy T V f.
Proof.
  intros -> h p v Hp. destruct (copy_ptr_ok h p v Hp) as (q & h' & Hrun & Hsub & Hq & Hd).
  exists q, h'. split_and!; [done|done|..].
  - intros h2 Hh2. apply (rd_ptr_local h); [done|]. intros l Hl.
    apply rch_ptr_dom in Hp. rewrite Hh2 by set_solver. apply sub_lookup; set_solver.
  - intros h2 Hh2. apply (rd_ptr_local h'); [done|]. intros l Hl. apply Hh2. set_solver.
Qed.

(** What [DeepCopyObject] returns is the interface holding the pointer [DeepCopy]
    returns, and the nil interface, not a nil pointer in an interface, for nil. *)
Definition object_of (deepCopy : option loc -> M (option loc)) (kind : loc -> runtime_Object)
    (deepCopyObject : option loc -> M (option runtime_Object)) : Prop :=
  (forall h, deepCopyObject None h = Some (None, h)) /\
  forall h l q h', deepCopy (Some l) h = Some (q, h') ->
    exists l', q = Some l' /\ deepCopyObject (Some l) h = Some (Some (kind l'), h').

Lemma copy_ptr_not_nil {T} `{!Cell (cell OM LM) T, !Zero T} (f : T -> M T) l h q h' :
  copy_ptr f (Some l) h = Some (q, h') -> exists l', q = Some l'.
Proof.
  unfold copy_ptr, mbind, mem_bind, mret, mem_ret. intros H.
  repeat (case_match; simplify_eq; eauto).
Qed.

Lemma copy_ptr_object {T} `{!Cell (cell OM LM) T, !Zero T} (f : T -> M T) kind object :
  (forall p h, object p h =
    (c ← copy_ptr f p; mret (kind <$> c)) h) ->
  object_of (copy_ptr f) kind object.
Proof.
  intros Ho. split; [intros h; by rewrite Ho|]. intros h l q h' Hq.
  destruct (copy_ptr_not_nil _ _ _ _ _ Hq) as [l' ->]. exists l'. split; [done|].
  rewrite Ho. unfold mbind, mem_bind. by rewrite Hq.
Qed.

(** C14. Every generated [DeepCopy], of a value that can be read, ends without a panic
    and returns a copy that reads as the original does and shares no storage with
    it: whatever happens afterwards to the storage of the one, the other reads the
    same. [DeepCopyObject] wraps that pointer, and maps nil to nil. *)
Theorem deepcopies_independent :
  independent_copy CandidateNode_m CandidateNode CandidateNode_DeepCopy /\
  independent_copy SourceRef SourceRef SourceRef_DeepCopy /\
  independent_copy VolumeContext VolumeContext VolumeContext_DeepCopy /\
  independent_copy SchedulingTransition_m SchedulingTransition SchedulingTransition_DeepCopy /\
  independent_copy SchedulingDecisionStatus_m SchedulingDecisionStatus SchedulingDecisionStatus_DeepCopy /\
  independent_copy SchedulingDecisionSpec_m SchedulingDecisionSpec SchedulingDecisionSpec_DeepCopy /\
  independent_copy (SchedulingDecision_m OM) (TypeMeta * SchedulingDecision)
    SchedulingDecision_DeepCopy /\
  independent_copy (SchedulingDecisionList_m LM) (SchedulingDecisionList LV)
    SchedulingDecisionList_DeepCopy /\
  object_of SchedulingDecision_DeepCopy SchedulingDecision_Object
    SchedulingDecision_DeepCopyObject /\
  object_of SchedulingDecisionList_DeepCopy SchedulingDecisionList_Object
    SchedulingDecisionList_DeepCopyObject.
Proof.
  split_and!.
  1-8: by apply copy_ptr_independent.
  all: apply copy_ptr_object; intros p h;
    unfold SchedulingDecision_DeepCopyObject, SchedulingDecisionList_DeepCopyObject,
      SchedulingDecision_DeepCopy, SchedulingDecisionList_DeepCopy, mbind, mem_bind;
    by destruct (copy_ptr _ p h) as [[[] ]|].
Qed.

(** ** The in-place update *)

(** [x] is stored in cells satisfying [P] only. *)
Definition stored_in (T V : Type) `{!DeepCopyable (cell OM LM) T V} (P : cell OM LM -> Prop) : Prop :=
  forall h (x : T) (v : V), rd h x = Some v ->
    forall l c, l ∈ rch (V := V) h x -> h !! l = Some c -> P c.

Lemma elements_stored {T V} `{!DeepCopyable (cell OM LM) T V} P h (xs : list T) (vs : list V) l c :
  stored_in T V P -> mapM (rd h) xs = Some vs ->
  l ∈ rch_elements (V := V) h xs -> h !! l = Some c -> P c.
Proof.
  intros HP Hvs Hl Hc. apply mapM_Some in Hvs.
  induction Hvs as [|x v xs vs Hx _ IH].
  { by rewrite rch_elements_nil, elem_of_empty in Hl. }
  rewrite rch_elements_cons in Hl. apply elem_of_union in Hl as [Hl|Hl]; eauto.
Qed.

Lemma ptr_stored {T V} `{!Cell (cell OM LM) T, !DeepCopyable (cell OM LM) T V} P h p v l c :
  stored_in T V P -> (forall x : T, P (to_cell x)) ->
  (forall c x, of_cell (T := T) c = Some x -> c = to_cell x) ->
  rd_ptr (T := T) (V := V) h p = Some v -> l ∈ rch_ptr (T := T) (V := V) h p ->
  h !! l = Some c -> P c.
Proof.
  intros HP HT Hinv Hv Hl Hc. destruct p as [l'|]; [|by apply elem_of_empty in Hl].
  apply rd_ptr_Some in Hv as (x & w & Hx & Hw & ->). simpl in Hl. rewrite Hx in Hl.
  apply elem_of_union in Hl as [->%elem_of_singleton|Hl]; [|by eapply HP].
  unfold contents in Hx. rewrite Hc in Hx. simpl in Hx. by rewrite (Hinv _ _ Hx).
Qed.

Lemma slice_stored {T V} `{!Cell (cell OM LM) (list T), !DeepCopyable (cell OM LM) T V}
    (P : cell OM LM -> Prop) h s v l c :
  stored_in T V P -> (forall xs : list T, P (to_cell xs)) ->
  (forall c xs, of_cell (T := list T) c = Some xs -> c = to_cell xs) ->
  rd_slice (T := T) (V := V) h s = Some v -> l ∈ rch_slice (T := T) (V := V) h s ->
  h !! l = Some c -> P c.
Proof.
  unfold rd_slice. intros HP HT Hinv (xs & Hxs & Hv)%bind_Some Hl Hc.
  destruct s as [s|]; [|by apply elem_of_empty in Hl].
  unfold rch_slice in Hl. rewrite Hxs in Hl. simpl in Hl.
  apply elem_of_union in Hl as [->%elem_of_singleton|Hl]; [|by eapply elements_stored].
  apply elements_Some in Hxs as (ys & Hys & _). unfold contents in Hys.
  rewrite Hc in Hys. simpl in Hys. by rewrite (Hinv _ _ Hys).
Qed.

(** The cells a transition is stored in, those of a history, and those that can hold
    neither a history nor a decision. *)
Definition node_cell (c : cell OM LM) : Prop :=
  match c with CCandidateNodes _ | CInt64 _ => True | _ => False end.
Definition history_cell (c : cell OM LM) : Prop :=
  match c with CTransitions _ => True | _ => node_cell c end.
Definition foreign_cell (c : cell OM LM) : Prop :=
  match c with CTransitions _ | CDecision _ => False | _ => True end.

Lemma flat_stored {T} P : stored_in T T P.
Proof. intros h x v _ l c Hl. by apply elem_of_empty in Hl. Qed.

Lemma CandidateNode_stored : stored_in CandidateNode_m CandidateNode node_cell.
Proof.
  intros h x v (b & Hb & _)%bind_Some l c Hl Hc.
  eapply (ptr_stored (T := Z) (V := Z)); [apply flat_stored|done| |exact Hb|exact Hl|done].
  intros [] ? [= ->]; done.
Qed.

Lemma Transition_stored : stored_in SchedulingTransition_m SchedulingTransition node_cell.
Proof.
  intros h x v (b & Hb & _)%bind_Some l c Hl Hc.
  eapply (slice_stored (T := CandidateNode_m) (V := CandidateNode));
    [apply CandidateNode_stored|done| |exact Hb|exact Hl|done].
  intros [] ? [= ->]; done.
Qed.

Lemma Status_stored : stored_in SchedulingDecisionStatus_m SchedulingDecisionStatus history_cell.
Proof.
  intros h x v (b & Hb & _)%bind_Some l c Hl Hc.
  eapply (slice_stored (T := SchedulingTransition_m) (V := SchedulingTransition));
    [|done| |exact Hb|exact Hl|done].
  - intros ?? ? Hx ? c' Hl' Hc'. pose proof (Transition_stored _ _ _ Hx _ _ Hl' Hc').
    by destruct c'.
  - intros [] ? [= ->]; done.
Qed.

Lemma Spec_stored : stored_in SchedulingDecisionSpec_m SchedulingDecisionSpec foreign_cell.
Proof.
  intros h x v (b & Hb & _)%bind_Some l c Hl Hc.
  eapply (ptr_stored (T := VolumeContext) (V := VolumeContext));
    [apply flat_stored|done| |exact Hb|exact Hl|done].
  intros [] ? [= ->]; done.
Qed.

Lemma history_array h s (ts : list SchedulingTransition) :
  rd_slice (T := SchedulingTransition_m) h (Some s) = Some ts ->
  exists ys, h !! sl_array s = Some (CTransitions ys).
Proof.
  unfold rd_slice. intros (xs & (ys & Hys & _)%elements_Some & _)%bind_Some.
  unfold contents in Hys. destruct (h !! sl_array s) as [[]|]; simpl in Hys; simplify_eq.
  eauto.
Qed.

Lemma transitionsEqual_m_ok h a b (va vb : SchedulingTransition) :
  rd h a = Some va -> rd h b = Some vb -> transitionsEqual_m a b = transitionsEqual va vb.
Proof.
  by intros (? & _ & [= <-])%bind_Some (? & _ & [= <-])%bind_Some.
Qed.

Lemma last_equal_ok h s ts t (tv : SchedulingTransition) :
  rd_slice (T := SchedulingTransition_m) h s = Some ts -> rd h t = Some tv ->
  last_equal s t h =
    Some (match last ts with Some l => transitionsEqual l tv | None => false end, h).
Proof.
  unfold rd_slice. intros (xs & Hxs & Hts%mapM_Some)%bind_Some Ht.
  destruct s as [s|]; [|simpl in Hxs; simplify_eq; by inversion Hts].
  assert (length xs = sl_len s) as Hlen.
  { apply elements_Some in Hxs as (ys & _ & ? & ? & ->). rewrite length_take. lia. }
  rewrite last_lookup, <- (Forall2_length _ _ _ Hts), Hlen. unfold last_equal.
  destruct (sl_len s) as [|n] eqn:Hn; simpl.
  { apply nil_length_inv in Hlen as ->. by inversion Hts. }
  destruct (lookup_lt_is_Some_2 xs n) as [x Hx]; [lia|].
  destruct (Forall2_lookup_l _ _ _ _ _ Hts Hx) as (v & -> & Hv).
  unfold mbind, mem_bind. rewrite Nat.sub_0_r, (slice_get_ok _ _ _ _ _ Hxs Hx).
  by rewrite (transitionsEqual_m_ok _ _ _ _ _ Hv Ht).
Qed.

Context (growth_fits : forall n, (n <= growth n)%nat).

Lemma applyTransition_m_ok h s sv t tv :
  rd h s = Some sv -> rd h t = Some tv ->
  exists s' h', applyTransition_m s t h = Some (s', h') /\
    rd h' s' = Some (applyTransition sv tv) /\
    forall l, (forall sl, stm_Transitions s = Some sl -> l <> sl_array sl) -> l ∈ dom h ->
      h' !! l = h !! l.
Proof using growth_fits.
  intros (ts & Hts & [= <-])%bind_Some Ht.
  destruct (append_slice_ok growth growth_fits h (stm_Transitions s) t ts tv Hts Ht)
    as (q & h' & Hrun & Hq & Hframe).
  { intros sl Hsl. rewrite Hsl in Hts. destruct (history_array _ _ _ Hts) as [ys Hys].
    split; intros Hin; [|by apply (Transition_stored _ _ _ Ht _ _ Hin Hys)].
    unfold rd_slice in Hts. apply bind_Some in Hts as (xs & Hxs & Hv).
    rewrite Hsl, Hxs in Hin.
    by apply (elements_stored _ _ _ _ _ _ Transition_stored Hv Hin Hys). }
  eexists _, h'. unfold applyTransition_m, mbind, mem_bind. rewrite Hrun.
  apply bind_Some in Ht as (? & _ & [= <-]). split_and!; [done| |done].
  apply bind_Some. eexists. split; [exact Hq|done].
Qed.

Lemma rd_decision h x tm d :
  rd h x = Some (tm, d) <->
  tm = sdm_TypeMeta x /\ rd h (sdm_ObjectMeta x) = Some (sd_ObjectMeta d) /\
  rd h (sdm_Spec x) = Some (sd_Spec d) /\ rd h (sdm_Status x) = Some (sd_Status d).
Proof.
  split.
  - intros (b & (m & Hm & (p & (sp & Hsp & (st & Hst & [= <-])%bind_Some)%bind_Some &
      [= <-])%bind_Some)%bind_Some & [= <- <-])%bind_Some. done.
  - intros (-> & Hm & Hsp & Hst). apply bind_Some.
    exists (sd_ObjectMeta d, (sd_Spec d, sd_Status d)). split; [|by destruct d].
    apply bind_Some. exists (sd_ObjectMeta d). split; [done|].
    apply bind_Some. exists (sd_Spec d, sd_Status d). split; [|done].
    apply bind_Some. exists (sd_Spec d). split; [done|].
    apply bind_Some. exists (sd_Status d). by split.
Qed.

(** Nothing of [ObjectMeta] is stored in this API group's variables. *)
Context (meta_foreign : stored_in OM ObjectMeta foreign_cell).

(** Writing a status whose history has grown back into its decision. *)
Lemma decision_write_ok h h1 q x tm d s' sv' :
  contents h q = Some x -> rd h x = Some (tm, d) -> rd h1 s' = Some sv' ->
  (forall l, (forall sl, stm_Transitions (sdm_Status x) = Some sl -> l <> sl_array sl) ->
     l ∈ dom h -> h1 !! l = h !! l) ->
  let x' := mkDecision_m (sdm_TypeMeta x) (sdm_ObjectMeta x) (sdm_Spec x) s' in
  exists h2, assign q x' h1 = Some (tt, h2) /\ h2 = <[q := to_cell x']> h1 /\
    rd_ptr (T := SchedulingDecision_m OM) h2 (Some q) = Some (Some (tm, set_Status sv' d)).
Proof using meta_foreign.
  intros Hq Hx Hs Hframe x'.
  assert (h !! q = Some (to_cell x)) as Hcell.
  { unfold contents in Hq. destruct (h !! q) as [[]|]; simpl in Hq; by simplify_eq. }
  apply rd_decision in Hx as (-> & Hm & Hsp & Hst).
  (* what is stored in foreign cells is left alone *)
  assert (forall l c, h !! l = Some c -> foreign_cell c -> <[q := to_cell x']> h1 !! l = h !! l)
    as Hforeign.
  { intros l c Hc Hf. rewrite lookup_insert_ne by (intros ->; by simplify_eq).
    apply Hframe; [|by apply elem_of_dom_2 in Hc]. intros sl Hsl ->.
    apply bind_Some in Hst as (ts & Hts & _). rewrite Hsl in Hts.
    destruct (history_array _ _ _ Hts) as [ys Hys]. by simplify_eq. }
  assert (h1 !! q = Some (to_cell x)) as Hq1.
  { rewrite <- Hcell. apply Hframe; [|by apply elem_of_dom_2 in Hcell]. intros sl Hsl ->.
    apply bind_Some in Hst as (ts & Hts & _). rewrite Hsl in Hts.
    destruct (history_array _ _ _ Hts) as [ys Hys]. by simplify_eq. }
  eexists. split_and!; [|done|].
  { unfold assign, contents. rewrite Hq1. simpl. done. }
  apply rd_ptr_Some. exists x', (sdm_TypeMeta x, set_Status sv' d).
  split_and!; [apply contents_insert| |done]. apply rd_decision. split_and!; [done|..].
  - apply (rd_local h); [done|]. intros l Hl.
    destruct (proj1 (elem_of_dom h l)) as [c Hc]; [by eapply (rch_dom h _ _ Hm)|].
    eapply Hforeign; [done|]. exact (meta_foreign _ _ _ Hm _ _ Hl Hc).
  - apply (rd_local h); [done|]. intros l Hl.
    destruct (proj1 (elem_of_dom h l)) as [c Hc]; [by eapply (rch_dom h _ _ Hsp)|].
    eapply Hforeign; [done|]. exact (Spec_stored _ _ _ Hsp _ _ Hl Hc).
  - apply (rd_local h1); [done|]. intros l Hl. apply lookup_insert_ne. intros ->.
    by apply (Status_stored _ _ _ Hs _ _ Hl Hq1).
Qed.

Lemma history_array_reached h q x sl :
  contents h q = Some x -> stm_Transitions (sdm_Status x) = Some sl ->
  sl_array sl ∈ rch_ptr (T := SchedulingDecision_m OM) (V := TypeMeta * SchedulingDecision)
    h (Some q).
Proof.
  intros Hx Hsl. simpl. rewrite Hx. apply elem_of_union_r.
  change (sl_array sl ∈ rch (V := ObjectMeta) h (sdm_ObjectMeta x) ∪
    (rch (V := SchedulingDecisionSpec) h (sdm_Spec x) ∪
     rch_slice (T := SchedulingTransition_m) h (stm_Transitions (sdm_Status x)))).
  rewrite Hsl. apply elem_of_union_r, elem_of_union_r, elem_of_union_l.
  by apply elem_of_singleton.
Qed.

(** C10. One attempt of [appendTransitionWithRetry], run in memory on the client's deep
    copy of a cached decision, does not panic and does what the function on values
    does: it asks for no update exactly when the last recorded transition is equal,
    and otherwise updates the status in place to the decision that function sends.
    The cached object still reads as before, whether [append] found room in an old
    array or made a new one, and so does the transition. *)
Theorem append_in_memory_refines name h cached tm d t tv :
  rd_ptr (T := SchedulingDecision_m OM) h (Some cached) = Some (Some (tm, d)) ->
  rd h t = Some tv ->
  exists r h', appendTransition_once_m cached t h = Some (r, h') /\
    rd_ptr (T := SchedulingDecision_m OM) h' (Some cached) = Some (Some (tm, d)) /\
    rd h' t = Some tv /\
    exists k, appendTransition_once name tv = Call (GetDecision name) k /\
    match r with
    | None => k (inr d) = Ret None
    | Some q => exists d', k (inr d) = do_call (UpdateDecisionStatus d') /\
        rd_ptr (T := SchedulingDecision_m OM) h' (Some q) = Some (Some (tm, d'))
    end.
Proof using growth_fits meta_foreign.
  intros Hcached Ht.
  destruct (copy_ptr_ok h (Some cached) _ Hcached) as ([q|] & h1 & Hcopy & Hsub & Hq & Hfresh);
    [|done].
  destruct (rd_mono _ _ _ _ Ht Hsub) as [Ht1 _].
  pose proof Hq as (x & ? & Hx & Hd & [= <-])%rd_ptr_Some.
  pose proof Hd as (-> & _ & _ & Hst)%rd_decision.
  pose proof Hst as (ts & Hts & Heq)%bind_Some.
  assert (ts = st_Transitions (sd_Status d)) as ->
    by (apply (f_equal (option_map st_Transitions)) in Heq; by injection Heq).
  (* whatever changes in the copy's storage only *)
  assert (forall h2, (forall l, l ∈ dom h -> h2 !! l = h1 !! l) ->
    rd_ptr (T := SchedulingDecision_m OM) h2 (Some cached) = Some (Some (sdm_TypeMeta x, d)) /\
    rd h2 t = Some tv) as Hold.
  { intros h2 Hh2. split.
    - apply (rd_ptr_local h); [done|]. intros l Hl. apply rch_ptr_dom in Hcached.
      rewrite Hh2 by set_solver. apply sub_lookup; set_solver.
    - apply (rd_local h); [done|]. intros l Hl. apply rch_dom in Ht.
      rewrite Hh2 by set_solver. apply sub_lookup; set_solver. }
  change (SchedulingDecision_DeepCopy (Some cached) h = Some (Some q, h1)) in Hcopy.
  unfold appendTransition_once_m, mbind, mem_bind, load.
  rewrite Hcopy, Hx, (last_equal_ok _ _ _ _ _ Hts Ht1).
  eassert (appendTransition_once name tv = Call (GetDecision name) _) as Hpure by done.
  destruct (match last _ with Some l => _ | None => _ end) eqn:Hlast.
  - exists None, h1. split; [done|]. destruct (Hold h1) as [? ?]; [done|].
    split_and!; [done|done|]. eexists. split; [exact Hpure|]. simpl. by rewrite Hlast.
  - destruct (applyTransition_m_ok h1 _ _ t tv Hst Ht1) as (s' & h2 & Happ & Hs' & Hframe).
    destruct (decision_write_ok h1 h2 q x _ d s' _ Hx Hd Hs' Hframe)
      as (h3 & Hassign & Hh3 & Hread).
    rewrite Happ, Hassign. exists (Some q), h3. split; [done|].
    destruct (Hold h3) as [? ?]; [|split_and!; [done|done|]].
    + intros l Hl. rewrite Hh3, lookup_insert_ne.
      * apply Hframe; [|by apply subseteq_dom in Hsub; set_solver]. intros sl Hsl ->.
        by apply (Hfresh (sl_array sl)); [apply (history_array_reached _ _ _ _ Hx Hsl)|].
      * intros ->. apply (Hfresh l); [simpl; set_solver|done].
    + eexists. split; [exact Hpure|]. simpl. rewrite Hlast. eexists. by split.
Qed.
End deepcopy.
