(* ===== verification/Wire.v ===== *)
(** * The wire format and the schema of [api/v1alpha1]

    The struct tags of [schedulingdecision_types.go] say how a decision is encoded,
    its kubebuilder markers what the API server accepts. This file has both,
    field by field, and shows that they fit each other and the reconciler: what is
    written is read back, with times cut to seconds, and every decision that a
    reconcile writes is one that the server's validation accepts.

    Times and object metadata encode themselves, in apimachinery: [MetaCodec]. *)

From S2P Require Import Prelude Strconv GoTime GoStrings Json Api Decision Effects.
From S2P Require Import VolumeContext Controller ReconcileProps System DeepCopy.

(** ** What apimachinery encodes *)

(** [metav1.Time] is a string in the format of RFC 3339, to the second, or null if zero;
    [ObjectMeta] is an object that is read back as it was written. *)
Class MetaCodec := {
  format_time : Time -> string;
  parse_time : string -> option Time;
  is_date_time : string -> bool;
  parse_format t : rfc3339 t -> parse_time (format_time t) = Some (MkTime (sec t) 0);
  format_date_time t : rfc3339 t -> is_date_time (format_time t) = true;
  #[global] meta_wire :: Wire ObjectMeta;
  meta_object (m : ObjectMeta) : exists ms, to_json m = JObject ms;
  meta_kept (m : ObjectMeta) : on_wire m /\ persisted m = m;
}.

(** What is kept of a time. *)
Definition whole_seconds_of (t : Time) : Time := MkTime (sec t) 0.

(** ** Struct tags *)

#[global, refine] Instance Wire_Time `{!MetaCodec} : Wire Time := {|
  to_json t := if IsZero t then JNull else JString (format_time t);
  of_json j := match j with JNull => Some Time_zero | JString s => parse_time s | _ => None end;
  zero_value := Time_zero;
  is_empty _ := false;
  is_zero t := IsZero t;
  on_wire t := IsZero t = true \/ rfc3339 t;
  persisted t := whole_seconds_of t;
|}.
Proof.
  all: [> done| |].
  - intros t Ht. destruct (IsZero t) eqn:Hz; [by apply IsZero_spec in Hz as ->|].
    destruct Ht as [?|Ht]; [done|]. by apply parse_format.
  - by intros t [?|Hz%IsZero_spec]; subst.
Defined.

(** The type [SchedulingOutcome] is a string. *)
#[global] Instance Wire_Outcome : Wire SchedulingOutcome := Wire_string.

Definition CandidateNode_members (n : CandidateNode) : members :=
  field Always "name" (cn_Name n) ++
  field OmitEmpty "filterResult" (cn_FilterResult n) ++
  field OmitEmpty "score" (cn_Score n) ++ [].

Definition CandidateNode_zero : CandidateNode := mkCandidateNode "" "" None.

#[global, refine] Instance Wire_CandidateNode : Wire CandidateNode := {|
  to_json n := JObject (CandidateNode_members n);
  of_json := of_members CandidateNode_zero (fun ms =>
    name ← fetch "name" ms;
    filterResult ← fetch "filterResult" ms;
    score ← fetch "score" ms;
    Some (mkCandidateNode name filterResult score));
  zero_value := CandidateNode_zero;
  is_empty _ := false;
  is_zero n := bool_decide (n = CandidateNode_zero);
  on_wire n := on_wire (cn_Score n);
  persisted n := n;
|}.
Proof.
  all: [> done| |].
  - intros [n f [z|]] Hn; simpl in Hn; unfold of_members, CandidateNode_members; by fetch_fields.
  - by intros n [?|?]; bool_simpl.
Defined.

(** *** Structs of strings *)

Definition SourceRef_members (r : SourceRef) : members :=
  field OmitEmpty "eventUID" (sr_EventUID r) ++
  field OmitEmpty "auditRequestID" (sr_AuditRequestID r) ++ [].

#[global, refine] Instance Wire_SourceRef : Wire SourceRef := {|
  to_json r := JObject (SourceRef_members r);
  of_json := of_members SourceRef_zero (fun ms =>
    eventUID ← fetch "eventUID" ms;
    auditRequestID ← fetch "auditRequestID" ms;
    Some (mkSourceRef eventUID auditRequestID));
  zero_value := SourceRef_zero;
  is_empty _ := false;
  is_zero r := bool_decide (r = SourceRef_zero);
  on_wire _ := True;
  persisted r := r;
|}.
Proof.
  all: [> done| |].
  - intros [e a] _. unfold of_members, SourceRef_members. by fetch_fields.
  - by intros r [?|?]; bool_simpl.
Defined.

Definition VolumeContext_members (v : VolumeContext) : members :=
  field OmitEmpty "pvcName" (vc_PVCName v) ++
  field OmitEmpty "storageClass" (vc_StorageClass v) ++
  field OmitEmpty "driverType" (vc_DriverType v) ++
  field OmitEmpty "bindingMode" (vc_BindingMode v) ++
  field OmitEmpty "topologyConstraint" (vc_TopologyConstraint v) ++ [].

Definition VolumeContext_zero : VolumeContext := mkVolumeContext "" "" "" "" "".

#[global, refine] Instance Wire_VolumeContext : Wire VolumeContext := {|
  to_json v := JObject (VolumeContext_members v);
  of_json := of_members VolumeContext_zero (fun ms =>
    pvcName ← fetch "pvcName" ms;
    storageClass ← fetch "storageClass" ms;
    driverType ← fetch "driverType" ms;
    bindingMode ← fetch "bindingMode" ms;
    topologyConstraint ← fetch "topologyConstraint" ms;
    Some (mkVolumeContext pvcName storageClass driverType bindingMode topologyConstraint));
  zero_value := VolumeContext_zero;
  is_empty _ := false;
  is_zero v := bool_decide (v = VolumeContext_zero);
  on_wire _ := True;
  persisted v := v;
|}.
Proof.
  all: [> done| |].
  - intros [p s d b t] _. unfold of_members, VolumeContext_members. by fetch_fields.
  - by intros v [?|?]; bool_simpl.
Defined.

#[global] Instance NeverNull_VolumeContext : NeverNull VolumeContext.
Proof. done. Qed.

(** *** The spec *)

Definition Spec_members (s : SchedulingDecisionSpec) : members :=
  field Always "podName" (spec_PodName s) ++
  field Always "podNamespace" (spec_PodNamespace s) ++
  field Always "podUID" (spec_PodUID s) ++
  field OmitEmpty "schedulerName" (spec_SchedulerName s) ++
  field OmitEmpty "volumeContext" (spec_VolumeContext s) ++ [].

Definition Spec_zero : SchedulingDecisionSpec := mkSpec "" "" "" "" None.

#[global, refine] Instance Wire_Spec : Wire SchedulingDecisionSpec := {|
  to_json s := JObject (Spec_members s);
  of_json := of_members Spec_zero (fun ms =>
    podName ← fetch "podName" ms;
    podNamespace ← fetch "podNamespace" ms;
    podUID ← fetch "podUID" ms;
    schedulerName ← fetch "schedulerName" ms;
    volumeContext ← fetch "volumeContext" ms;
    Some (mkSpec podName podNamespace podUID schedulerName volumeContext));
  zero_value := Spec_zero;
  is_empty _ := false;
  is_zero s := bool_decide (s = Spec_zero);
  on_wire _ := True;
  persisted s := s;
|}.
Proof.
  all: [> done| |].
  - intros [p n u s [v|]] _; unfold of_members, Spec_members; by fetch_fields.
  - by intros s [?|?]; bool_simpl.
Defined.

(** *** Transitions and the status *)

Section status.
Context `{!MetaCodec}.

Definition Transition_members (t : SchedulingTransition) : members :=
  field Always "outcome" (tr_Outcome t) ++
  field OmitEmpty "chosenNode" (tr_ChosenNode t) ++
  field OmitEmpty "reasonSummary" (tr_ReasonSummary t) ++
  field Always "decisionTimestamp" (tr_DecisionTimestamp t) ++
  field OmitEmpty "schedulingLatencyMs" (tr_SchedulingLatencyMs t) ++
  field OmitEmpty "candidateNodes" (tr_CandidateNodes t) ++
  field OmitEmpty "sourceRef" (tr_SourceRef t) ++ [].

Definition Transition_of_members (ms : members) : option SchedulingTransition :=
  outcome ← fetch "outcome" ms;
  chosenNode ← fetch "chosenNode" ms;
  reasonSummary ← fetch "reasonSummary" ms;
  decisionTimestamp ← fetch "decisionTimestamp" ms;
  schedulingLatencyMs ← fetch "schedulingLatencyMs" ms;
  candidateNodes ← fetch "candidateNodes" ms;
  sourceRef ← fetch "sourceRef" ms;
  Some (mkTransition outcome chosenNode reasonSummary decisionTimestamp schedulingLatencyMs
    candidateNodes sourceRef).
End status.

Definition Transition_zero : SchedulingTransition :=
  mkTransition "" "" "" Time_zero 0 [] SourceRef_zero.

(** A transition that can be encoded. *)
Definition transition_on_wire (t : SchedulingTransition) : Prop :=
  (IsZero (tr_DecisionTimestamp t) = true \/ rfc3339 (tr_DecisionTimestamp t)) /\
  in_int64 (tr_SchedulingLatencyMs t) /\ on_wire (tr_CandidateNodes t).

#[global, refine] Instance Wire_Transition `{!MetaCodec} : Wire SchedulingTransition := {|
  to_json t := JObject (Transition_members t);
  of_json := of_members Transition_zero Transition_of_members;
  zero_value := Transition_zero;
  is_empty _ := false;
  is_zero t := bool_decide (t = Transition_zero);
  on_wire t := transition_on_wire t;
  persisted t := persist_transition whole_seconds_of t;
|}.
Proof.
  all: [> done| |].
  - intros [o c rs ts l ns sr] (Ht & Hl & Hn). cbn in Ht, Hl, Hn.
    unfold of_members, Transition_members, Transition_of_members. fetch_fields.
    simpl. by rewrite list_fmap_id.
  - by intros t [?|?]; bool_simpl; subst.
Defined.

Definition Status_members `{!MetaCodec} (s : SchedulingDecisionStatus) : members :=
  field OmitEmpty "outcome" (st_Outcome s) ++
  field OmitEmpty "chosenNode" (st_ChosenNode s) ++
  field OmitEmpty "reasonSummary" (st_ReasonSummary s) ++
  field OmitEmpty "decisionTimestamp" (st_DecisionTimestamp s) ++
  field OmitEmpty "schedulingLatencyMs" (st_SchedulingLatencyMs s) ++
  field OmitEmpty "transitions" (st_Transitions s) ++ [].

Definition Status_of_members `{!MetaCodec} (ms : members) : option SchedulingDecisionStatus :=
  outcome ← fetch "outcome" ms;
  chosenNode ← fetch "chosenNode" ms;
  reasonSummary ← fetch "reasonSummary" ms;
  decisionTimestamp ← fetch "decisionTimestamp" ms;
  schedulingLatencyMs ← fetch "schedulingLatencyMs" ms;
  transitions ← fetch "transitions" ms;
  Some (mkStatus outcome chosenNode reasonSummary decisionTimestamp schedulingLatencyMs
    transitions).

(** A status that can be encoded. *)
Definition status_on_wire (s : SchedulingDecisionStatus) : Prop :=
  (IsZero (st_DecisionTimestamp s) = true \/ rfc3339 (st_DecisionTimestamp s)) /\
  in_int64 (st_SchedulingLatencyMs s) /\ Forall transition_on_wire (st_Transitions s).

#[global] Instance CandidateNode_on_wire_dec (n : CandidateNode) : Decision (on_wire n).
Proof. destruct n as [? ? [z|]]; simpl; apply _. Defined.

#[global] Instance status_on_wire_dec s : Decision (status_on_wire s).
Proof.
  unfold status_on_wire. apply and_dec; [apply _|]. apply and_dec; [apply _|].
  apply Forall_dec. intros t. unfold transition_on_wire. apply and_dec; [apply _|].
  apply and_dec; [apply _|]. apply Forall_dec. apply _.
Defined.

#[global, refine] Instance Wire_Status `{!MetaCodec} : Wire SchedulingDecisionStatus := {|
  to_json s := JObject (Status_members s);
  of_json := of_members Status_zero Status_of_members;
  zero_value := Status_zero;
  is_empty _ := false;
  is_zero s := bool_decide (s = Status_zero);
  on_wire s := status_on_wire s;
  persisted s := persist_status whole_seconds_of s;
|}.
Proof.
  all: [> done| |].
  - intros [o c rs ts l trs] (Ht & Hl & Htrs). cbn in Ht, Hl, Htrs.
    unfold of_members, Status_members, Status_of_members. by fetch_fields.
  - by intros s [?|?]; bool_simpl; subst.
Defined.

(** *** The decision *)

#[global] Instance TypeMeta_eq_dec : EqDecision TypeMeta.
Proof. solve_decision. Defined.

(** [TypeMeta] is inlined. *)
Definition Decision_members `{!MetaCodec} (d : TypeMeta * SchedulingDecision) : members :=
  field OmitEmpty "kind" (tm_Kind d.1) ++
  field OmitEmpty "apiVersion" (tm_APIVersion d.1) ++
  field OmitZero "metadata" (sd_ObjectMeta d.2) ++
  field Always "spec" (sd_Spec d.2) ++
  field OmitZero "status" (sd_Status d.2) ++ [].

Definition Decision_of_members `{!MetaCodec} (ms : members)
    : option (TypeMeta * SchedulingDecision) :=
  kind ← fetch "kind" ms;
  apiVersion ← fetch "apiVersion" ms;
  metadata ← fetch "metadata" ms;
  spec ← fetch "spec" ms;
  status ← fetch "status" ms;
  Some (mkTypeMeta kind apiVersion, mkDecision metadata spec status).

Definition Decision_zero `{!MetaCodec} : TypeMeta * SchedulingDecision :=
  (mkTypeMeta "" "", mkDecision zero_value Spec_zero Status_zero).

#[global, refine] Instance Wire_Decision `{!MetaCodec} : Wire (TypeMeta * SchedulingDecision) := {|
  to_json d := JObject (Decision_members d);
  of_json := of_members Decision_zero Decision_of_members;
  zero_value := Decision_zero;
  is_empty _ := false;
  is_zero d := bool_decide (d = Decision_zero);
  on_wire d := status_on_wire (sd_Status d.2);
  persisted d := (d.1, set_Status (persist_status whole_seconds_of (sd_Status d.2)) d.2);
|}.
Proof.
  all: [> done| |].
  - intros [[k v] [m sp st]] Hst. cbn in Hst. destruct (meta_kept m) as [Hm Hkept].
    unfold of_members, Decision_members, Decision_of_members. fetch_fields. simpl.
    by rewrite Hkept.
  - by intros d [?|?]; bool_simpl; subst.
Defined.

(** *** The list *)

Section list.
Context `{!MetaCodec} {LV : Type} `{!Wire LV}.

Definition List_members (l : SchedulingDecisionList LV) : members :=
  field OmitEmpty "kind" (tm_Kind (sl_TypeMeta _ l)) ++
  field OmitEmpty "apiVersion" (tm_APIVersion (sl_TypeMeta _ l)) ++
  field OmitZero "metadata" (sl_ListMeta _ l) ++
  field Always "items" (sl_Items _ l) ++ [].

Definition List_of_members (ms : members) : option (SchedulingDecisionList LV) :=
  kind ← fetch "kind" ms;
  apiVersion ← fetch "apiVersion" ms;
  metadata ← fetch "metadata" ms;
  items ← fetch "items" ms;
  Some (mkDecisionList (mkTypeMeta kind apiVersion) metadata items).
End list.

(** ** The schema of the markers *)

Definition text : schema := SString None.

(** [+kubebuilder:validation:Enum] *)
Definition SchedulingOutcome_schema : schema :=
  SString (Some ["Scheduled"; "FailedScheduling"; "Preempted"]%string).

Definition CandidateNode_schema : schema :=
  SObject [("name", text); ("filterResult", text); ("score", SInt64)]%string ["name"%string].

Definition VolumeContext_schema : schema :=
  SObject [("pvcName", text); ("storageClass", text); ("driverType", text);
           ("bindingMode", text); ("topologyConstraint", text)]%string [].

Definition SourceRef_schema : schema :=
  SObject [("eventUID", text); ("auditRequestID", text)]%string [].

Definition Spec_schema : schema :=
  SObject [("podName", text); ("podNamespace", text); ("podUID", text);
           ("schedulerName", text); ("volumeContext", VolumeContext_schema)]%string
    ["podName"; "podNamespace"; "podUID"]%string.

Definition Transition_schema : schema :=
  SObject [("outcome", SchedulingOutcome_schema); ("chosenNode", text); ("reasonSummary", text);
           ("decisionTimestamp", SDateTime); ("schedulingLatencyMs", SInt64);
           ("candidateNodes", SArray CandidateNode_schema); ("sourceRef", SourceRef_schema)]%string
    ["outcome"; "decisionTimestamp"]%string.

Definition Status_schema : schema :=
  SObject [("outcome", SchedulingOutcome_schema); ("chosenNode", text); ("reasonSummary", text);
           ("decisionTimestamp", SDateTime); ("schedulingLatencyMs", SInt64);
           ("transitions", SArray Transition_schema)]%string [].

Definition SchedulingDecision_schema : schema :=
  SObject [("kind", text); ("apiVersion", text); ("metadata", SObject [] []);
           ("spec", Spec_schema); ("status", Status_schema)]%string ["spec"%string].

(** ** What validates *)

Section validation.
Context `{!MetaCodec}.

(** The server's validation of a decision. *)
Definition accepted (tm : TypeMeta) (d : SchedulingDecision) : bool :=
  validates is_date_time SchedulingDecision_schema (to_json (tm, d)).

(** An instant that is set and can be written. *)
Definition stamped (t : Time) : Prop := IsZero t = false /\ rfc3339 t.

(** A transition the schema accepts. *)
Definition transition_accepted (t : SchedulingTransition) : Prop :=
  validates is_date_time Transition_schema (to_json t) = true.

Lemma VolumeContext_accepted (v : VolumeContext) :
  validates is_date_time VolumeContext_schema (to_json v) = true.
Proof. simpl to_json. unfold VolumeContext_members. solve_object. Qed.

Lemma SourceRef_accepted (r : SourceRef) :
  validates is_date_time SourceRef_schema (to_json r) = true.
Proof. simpl to_json. unfold SourceRef_members. solve_object. Qed.

Lemma Spec_accepted (s : SchedulingDecisionSpec) :
  validates is_date_time Spec_schema (to_json s) = true.
Proof.
  simpl to_json. unfold Spec_members. solve_object.
  destruct (spec_VolumeContext s) as [v|]; [|by left]. right. right. apply VolumeContext_accepted.
Qed.

Lemma CandidateNode_accepted (n : CandidateNode) :
  cn_Score n = None -> validates is_date_time CandidateNode_schema (to_json n) = true.
Proof. intros Hn. simpl to_json. unfold CandidateNode_members. solve_object.
  left. by rewrite Hn.
Qed.

Lemma Outcome_accepted o :
  terminal_outcome o ->
  validates is_date_time SchedulingOutcome_schema (to_json o) = true.
Proof. intros Ho. unfold terminal_outcome in Ho. set_unfold. naive_solver. Qed.

Lemma Time_accepted t :
  stamped t -> to_json t <> JNull /\ validates is_date_time SDateTime (to_json t) = true.
Proof.
  intros [Hz Ht]. simpl to_json. rewrite Hz. split; [done|]. by apply format_date_time.
Qed.

Lemma Int64_accepted n : in_int64 n -> validates is_date_time SInt64 (to_json n) = true.
Proof. apply bool_decide_eq_true_2. Qed.

Lemma slice_accepted `{!Wire A} s (l : list A) :
  Forall (fun a => validates is_date_time s (to_json a) = true) l ->
  validates is_date_time (SArray s) (to_json l) = true.
Proof. intros Hl. apply validates_array. simpl. by apply Forall_fmap. Qed.

Lemma Transition_accepted (t : SchedulingTransition) :
  terminal_outcome (tr_Outcome t) -> stamped (tr_DecisionTimestamp t) ->
  in_int64 (tr_SchedulingLatencyMs t) ->
  Forall (fun n => cn_Score n = None) (tr_CandidateNodes t) -> transition_accepted t.
Proof.
  intros Ho Ht Hl Hn. unfold transition_accepted. simpl to_json. unfold Transition_members.
  destruct (Time_accepted _ Ht). solve_object; right; right.
  - by apply Outcome_accepted.
  - done.
  - by apply Int64_accepted.
  - apply slice_accepted. eapply Forall_impl; [exact Hn|]. apply CandidateNode_accepted.
  - apply SourceRef_accepted.
Qed.

Lemma Status_accepted (s : SchedulingDecisionStatus) :
  terminal_outcome (st_Outcome s) ->
  stamped (st_DecisionTimestamp s) -> in_int64 (st_SchedulingLatencyMs s) ->
  Forall transition_accepted (st_Transitions s) ->
  validates is_date_time Status_schema (to_json s) = true.
Proof.
  intros Ho Ht Hl Htrs. simpl to_json. unfold Status_members.
  destruct (Time_accepted _ Ht). solve_object.
  - right. right. by apply Outcome_accepted.
  - by right; right.
  - right. right. by apply Int64_accepted.
  - right. right. by apply slice_accepted.
Qed.

Lemma accepted_status tm d :
  sd_Status d = Status_zero \/
  validates is_date_time Status_schema (to_json (sd_Status d)) = true ->
  accepted tm d = true.
Proof.
  intros Hs. unfold accepted. simpl to_json. unfold Decision_members.
  destruct (meta_object (sd_ObjectMeta d)) as [ms Hms]. solve_object; cbn [fst snd].
  - right. right. by rewrite Hms.
  - right. right. apply Spec_accepted.
  - destruct Hs as [Hs|Hs]; [left|by right; right]. simpl. by apply bool_decide_eq_true_2.
Qed.

(** The history of an accepted decision is accepted. *)
Lemma accepted_transitions tm d :
  accepted tm d = true -> Forall transition_accepted (st_Transitions (sd_Status d)).
Proof.
  intros Ha. unfold accepted in Ha. simpl to_json in Ha. unfold Decision_members in Ha.
  apply validates_object in Ha as [_ Ha]. rewrite !Forall_cons in Ha.
  destruct Ha as (_ & _ & _ & _ & Hst & _). cbn [fst snd] in Hst.
  rewrite !get_member_field in Hst by discriminate.
  destruct (decide (sd_Status d = Status_zero)) as [->|Hne]; [done|].
  apply member_field_inv in Hst; [|solve_absent|by apply bool_decide_eq_false_2|done].
  simpl to_json in Hst. unfold Status_members in Hst.
  apply validates_object in Hst as [_ Hst]. rewrite !Forall_cons in Hst.
  destruct Hst as (_ & _ & _ & _ & _ & Htr & _). cbn [fst snd] in Htr.
  rewrite !get_member_field in Htr by discriminate.
  destruct (st_Transitions (sd_Status d)) as [|t trs] eqn:Heq; [done|].
  apply member_field_inv in Htr; [|solve_absent|done|done].
  apply validates_array in Htr. apply (Forall_fmap to_json) in Htr. exact Htr.
Qed.

(** *** What a reconcile writes *)

(** What is answered is dated as the API server dates things, and the decisions read are
    accepted ones. *)
Definition dated (tm : TypeMeta) (x : exchange) : Prop :=
  match x with
  | Exch c a => match c return answer c -> Prop with
    | ListEvents _ _ => fun a => forall items e, a = inr items -> e ∈ items ->
        stamped (eventTimestamp e)
    | GetPod _ => fun a => forall pod, a = inr pod ->
        valid_time (pod_CreationTimestamp pod) /\
        forall c, c ∈ pod_Conditions pod -> IsZero (pc_LastTransitionTime c) = false ->
          rfc3339 (pc_LastTransitionTime c)
    | GetDecision _ => fun a => forall d, a = inr d -> accepted tm d = true
    | Now => fun now => stamped now
    | _ => fun _ => True
    end a
  end.

Lemma inputs_dated tm req h podFound pod events :
  Forall (dated tm) h -> inputs req h podFound pod events ->
  (forall e, e ∈ events -> stamped (eventTimestamp e)) /\
  valid_time (pod_CreationTimestamp pod) /\
  (forall c, c ∈ pod_Conditions pod -> IsZero (pc_LastTransitionTime c) = false ->
     stamped (pc_LastTransitionTime c)).
Proof.
  rewrite Forall_forall. intros Hh (items & g & Hl & Hg & -> & Hin). split.
  - intros e [_ He]%list_elem_of_filter. by apply (Hh _ Hl items).
  - destruct g as [err|p]; [destruct Hin as (_ & _ & ->)|destruct Hin as [_ ->]].
    + split; [apply valid_time_zero|]. by intros c Hc%not_elem_of_nil.
    + destruct (Hh _ Hg p eq_refl) as [Hc Hconds]. split; [done|].
      intros c Hcin Hz. split; [done|by apply Hconds].
Qed.

Lemma observed_accepted tm req h ident t :
  Forall (dated tm) h -> observed req h ident t ->
  terminal_outcome (tr_Outcome t) /\
  transition_accepted t /\ stamped (tr_DecisionTimestamp t) /\
  in_int64 (tr_SchedulingLatencyMs t).
Proof.
  intros Hh (pf & pod & events & Hin & Hd).
  destruct (inputs_dated _ _ _ _ _ _ Hh Hin) as (Hev & Hc & Hconds).
  assert (exists now, stamped now /\ deriveTransition now pod pf events = Some (ident, t))
    as (now & Hnow & Hdr).
  { destruct Hd as [(now & Hn & Hd)|Hd].
    - exists now. split; [|done]. rewrite Forall_forall in Hh. exact (Hh _ Hn).
    - exists (MkTime 1 0). split; [|done]. by split; [|apply (bool_decide_unpack _)]. }
  pose proof (derive_time stamped _ _ _ _ _ _ Hdr Hnow Hev Hconds) as Ht.
  assert (in_int64 (tr_SchedulingLatencyMs t)) as Hl.
  { destruct (derive_latency _ _ _ _ _ _ Hdr Hc) as [H1 H2]; [by apply rfc3339_valid, Ht|].
    assert (int64_max / 10 ^ 6 <= int64_max) by by vm_compute. solve_int64. }
  pose proof (derive_outcome _ _ _ _ _ _ Hdr) as Hout.
  split_and!; [done| |done..]. apply Transition_accepted; [done..|]. by eapply derive_scores.
Qed.

Lemma append_accepted tm d t :
  accepted tm d = true -> terminal_outcome (tr_Outcome t) -> transition_accepted t -> stamped (tr_DecisionTimestamp t) ->
  in_int64 (tr_SchedulingLatencyMs t) ->
  accepted tm (set_Status (applyTransition (sd_Status d) t) d) = true.
Proof.
  intros Hd%accepted_transitions Ho Ht Hts Hl. apply accepted_status. right.
  apply Status_accepted; [done..|]. simpl. apply Forall_app. by split; [|apply Forall_singleton].
Qed.

(** ** Theorems *)

(** C12. The wire format keeps a decision: what is decoded from an encoded decision is that
    decision with its times cut to seconds, and nothing else lost, whatever the tags
    omit; the same for a list of decisions. *)
Theorem wire_roundtrip {LV : Type} `{!Wire LV} :
  (forall tm d, status_on_wire (sd_Status d) ->
     of_json (to_json (tm, d)) =
       Some (tm, set_Status (persist_status whole_seconds_of (sd_Status d)) d)) /\
  (forall l : SchedulingDecisionList LV, on_wire (sl_ListMeta _ l) ->
     Forall (fun d => status_on_wire (sd_Status d.2)) (sl_Items _ l) ->
     List_of_members (List_members l) =
       Some (mkDecisionList (sl_TypeMeta _ l) (persisted (sl_ListMeta _ l))
         ((fun d => (d.1, set_Status (persist_status whole_seconds_of (sd_Status d.2)) d.2)) <$>
            sl_Items _ l))).
Proof.
  split.
  - intros tm d Hd. exact (of_to_json (tm, d) Hd).
  - intros [[k v] m items] Hm Hitems. unfold List_members, List_of_members. simpl in Hm, Hitems.
    by fetch_fields.
Qed.

(** C11. The schema accepts every write: when what the API server answers is dated and the
    decisions it returns are accepted ones, every decision that a reconcile creates or
    updates passes the validation of the custom resource, so no write is rejected as
    invalid. *)
Theorem writes_accepted `{!RetryOnError} r req tm tr err d :
  runs (Reconcile r req) tr err -> Forall (dated tm) tr ->
  CreateDecision d ∈ calls_of tr \/ UpdateDecisionStatus d ∈ calls_of tr ->
  accepted tm d = true.
Proof.
  intros Hr Hh Hd.
  destruct (wp_runs _ _ _ _ _ (Reconcile_wp r req _ []) Hr) as [Hc _].
  assert (exists h c, reconcile_allows r req h c /\ Forall (dated tm) h /\
    (c = CreateDecision d \/ c = UpdateDecisionStatus d)) as (h & c & Ha & Hdated & Hcd).
  { assert (exists c, c ∈ calls_of tr /\ (c = CreateDecision d \/ c = UpdateDecisionStatus d))
      as (c & Hin & Hcd) by (destruct Hd; eauto).
    apply list_elem_of_fmap in Hin as (x & -> & (pre & post & ->)%list_elem_of_split).
    exists pre, (ex_call x). split_and!; [|by apply Forall_app in Hh as [? _]|done].
    by apply calls_ok_elem in Hc. }
  destruct Hcd as [-> | ->].
  - destruct Ha as (ident & t & now & v & _ & _ & ->). apply accepted_status. by left.
  - destruct Ha as (ident & t & h0 & d0 & Ho & -> & _ & ->).
    destruct (observed_accepted _ _ _ _ _ Hdated Ho) as (Hout & H1 & H2 & H3).
    apply append_accepted; [|done..]. rewrite Forall_forall in Hdated.
    apply (Hdated (Exch (GetDecision (decisionName (id_UID ident))) (inr d0))); [set_solver|done].
Qed.
End validation.
