(* ===== verification/Loop.v ===== *)
(** * The controller's event loop: caches, work queue, workers

    [SetupWithManager] hands the reconciler to controller-runtime, which keeps a
    cache of Pods and Events up to date by watches, turns every change it delivers
    into requests, holds the requests in a queue without duplicates, and runs
    [Reconcile] for them on its workers, a request never on two workers at once; a
    reconcile that fails is queued again. This file has that loop as a step relation
    around the reconciler's programs, with the watches of [SetupWithManager], and
    shows that it misses nothing: a request that is neither queued nor being
    processed has its pod's current outcome recorded. *)

From S2P Require Import Prelude Strconv GoTime GoStrings Api Decision Effects.
From S2P Require Import VolumeContext Controller ReconcileProps System.

(** Requests as keys of maps and sets. *)
#[global] Instance NamespacedName_countable : Countable NamespacedName.
Proof.
  apply (inj_countable' (fun n => (nn_Namespace n, nn_Name n))
    (fun p => mkNamespacedName p.1 p.2)). by intros [].
Defined.

(** ** The watches *)

(** [For(&corev1.Pod{})]: every change of a pod enqueues its key. *)
Definition pod_requests (key : NamespacedName) : gset NamespacedName := {[key]}.

(** [Watches(&corev1.Event{}, EnqueueRequestsFromMapFunc(mapEventToPodRequest),
    WithPredicates(relevantEventPredicate()))]: a change of an Event that passes the
    predicate, on the new object if there is one, enqueues what the old and the new
    object map to. *)
Definition event_requests (old new : option Event) : gset NamespacedName :=
  let mapped o := match o with
    | Some e => list_to_set (mapEventToPodRequest (EventObject e))
    | None => ∅
    end in
  match old, new with
  | _, Some e => if relevantEventPredicate (EventObject e) then mapped old ∪ mapped new else ∅
  | Some e, None => if relevantEventPredicate (EventObject e) then mapped old else ∅
  | None, None => ∅
  end.

(** ** The caches *)

Abbreviation pod_cache := (gmap NamespacedName Pod) (only parsing).

(** Events under their own keys. *)
Abbreviation event_cache := (gmap string Event) (only parsing).

(** The Events a [List] in a namespace finds under an index key. *)
Definition indexed (events : event_cache) (ns nsName : string) : list Event :=
  filter (fun e => ev_Namespace e = ns /\ nsName ∈ indexEventInvolvedObject (EventObject e))
    (map_to_list events).*2.

(** A change of one object. *)
Definition deliver {K A} `{Countable K} (key : K) (new : option A) : gmap K A -> gmap K A :=
  partial_alter (fun _ => new) key.

(** What the first lists of the watches enqueue. *)
Definition initial_requests (pods : pod_cache) (events : event_cache) : gset NamespacedName :=
  dom pods ∪ ⋃ ((fun e => event_requests None (Some e)) <$> (map_to_list events).*2).

(** ** Lemmas: caches *)

Lemma filter_values {K A} `{Countable K} (P : A -> Prop) `{!forall x, Decision (P x)}
    (m : gmap K A) :
  filter P (map_to_list m).*2 ≡ₚ (map_to_list (filter (fun kv => P kv.2) m)).*2.
Proof.
  induction m as [|k x m Hk IH] using map_ind; [by rewrite map_filter_empty, map_to_list_empty|].
  rewrite map_to_list_insert by done. rewrite fmap_cons, filter_cons. simpl.
  destruct (decide (P x)) as [Hp|Hp].
  - rewrite map_filter_insert_True by done.
    rewrite map_to_list_insert by (by apply map_lookup_filter_None; left). by rewrite fmap_cons, IH.
  - rewrite map_filter_insert_not' by (try done; intros ? ?; by simplify_eq). exact IH.
Qed.

(** A change that [P] does not see. *)
Lemma filter_deliver {K A} `{Countable K} (P : A -> Prop) `{!forall x, Decision (P x)}
    (m : gmap K A) key new :
  (forall x, m !! key = Some x -> ~ P x) -> (forall x, new = Some x -> ~ P x) ->
  filter (fun kv => P kv.2) (deliver key new m) = filter (fun kv => P kv.2) m.
Proof.
  intros Hold Hnew. apply map_eq. intros k. apply option_eq. intros x.
  rewrite !map_lookup_filter_Some. unfold deliver. simpl.
  destruct (decide (k = key)) as [->|Hne].
  - rewrite lookup_partial_alter_eq. naive_solver.
  - by rewrite lookup_partial_alter_ne.
Qed.

Lemma lookup_deliver {K A} `{Countable K} (m : gmap K A) key new :
  deliver key new m !! key = new.
Proof. apply lookup_partial_alter_eq. Qed.

Lemma lookup_deliver_ne {K A} `{Countable K} (m : gmap K A) key key' new :
  key <> key' -> deliver key new m !! key' = m !! key'.
Proof. apply lookup_partial_alter_ne. Qed.

Lemma map_Forall_deliver {K A} `{Countable K} (P : K -> A -> Prop) (m : gmap K A) key new :
  map_Forall P m -> (forall x, new = Some x -> P key x) -> map_Forall P (deliver key new m).
Proof.
  intros Hm Hnew k x. destruct (decide (key = k)) as [<-|Hne].
  - rewrite lookup_deliver. apply Hnew.
  - rewrite lookup_deliver_ne by done. apply Hm.
Qed.

Section loop.
Context `{!RetryOnError} `{!ApiServer} (r : SchedulingDecisionReconciler).

(** The pod a UID belongs to: UIDs are never used for two pods. *)
Context (owner : UID -> NamespacedName).

(** Whether reads of decisions, which go through a cache as well, may be stale. *)
Context (stale : bool).

Definition pod_ok (key : NamespacedName) (pod : Pod) : Prop := owner (pod_UID pod) = key.

(** An Event on a pod is in the pod's namespace and carries its UID. *)
Definition event_ok (e : Event) : Prop :=
  or_Kind (ev_InvolvedObject e) = podKind ->
  ev_Namespace e = or_Namespace (ev_InvolvedObject e) /\
  owner (or_UID (ev_InvolvedObject e)) =
    mkNamespacedName (or_Namespace (ev_InvolvedObject e)) (or_Name (ev_InvolvedObject e)).

(** An update of an Event changes its counts and times only. *)
Definition same_subject (old new : option Event) : Prop :=
  match old, new with
  | Some e, Some e' => ev_Namespace e' = ev_Namespace e /\
      ev_InvolvedObject e' = ev_InvolvedObject e /\ ev_Reason e' = ev_Reason e
  | _, _ => True
  end.

Definition caches_ok (pods : pod_cache) (events : event_cache) : Prop :=
  map_Forall pod_ok pods /\ map_Forall (fun _ => event_ok) events.

(** ** The loop *)

Record loop := Loop {
  lp_world : world;                            (* the API server *)
  lp_pods : pod_cache;
  lp_events : event_cache;
  lp_queue : gset NamespacedName;
  lp_workers : gmap NamespacedName thread;     (* what is being processed *)
  lp_deleted : gset string;                    (* the decisions ever deleted *)
}.

(** The answers that come from the caches. A decision read is a version that has been
    stored ([api_get]), the current one if reads are not stale; a read may also miss it,
    or fail. *)
Definition cache_answers (s : loop) (c : call) : answer c -> Prop :=
  match c with
  | ListEvents ns nsName => fun a => forall items, a = inr items ->
      items ≡ₚ indexed (lp_events s) ns nsName
  | GetPod key => fun a => match a with
      | inr pod => lp_pods s !! key = Some pod
      | inl err => IsNotFound err = true -> lp_pods s !! key = None
      end
  | GetDecision n => fun a => forall d, a = inr d -> stale = false ->
      store (lp_world s) !! n = Some d
  | _ => fun _ => True
  end.

(** What the caches, the queue and the workers do without a call. *)
Inductive inner_step : loop -> loop -> Prop :=
  (* the watches deliver a change *)
  | loop_pod w pods events q ws del key new :
      (forall pod, new = Some pod -> pod_ok key pod) ->
      inner_step (Loop w pods events q ws del)
                 (Loop w (deliver key new pods) events (q ∪ pod_requests key) ws del)
  | loop_event w pods events q ws del k new :
      (forall e, new = Some e -> event_ok e) -> same_subject (events !! k) new ->
      inner_step (Loop w pods events q ws del)
                 (Loop w pods (deliver k new events) (q ∪ event_requests (events !! k) new) ws del)
  (* a worker takes a request that no other worker has *)
  | loop_take w pods events q ws del req :
      req ∈ q -> ws !! req = None ->
      inner_step (Loop w pods events q ws del)
                 (Loop w pods events (q ∖ {[req]})
                    (<[req := Thread (Reconcile r req) (Reconcile r req) []]> ws) del)
  (* a failed reconcile is queued again *)
  | loop_done w pods events q ws del req p err h :
      ws !! req = Some (Thread p (Ret err) h) ->
      inner_step (Loop w pods events q ws del)
                 (Loop w pods events (match err with Some _ => q ∪ {[req]} | None => q end)
                    (delete req ws) del)
  (* the process ends and starts again, with new caches *)
  | loop_restart w pods events q ws del pods' events' :
      caches_ok pods' events' ->
      inner_step (Loop w pods events q ws del)
                 (Loop w pods' events' (initial_requests pods' events') ∅ del).

(** What the other clients of the API do: sweeps delete decisions, the extender creates
    Events, the dashboard reads; only reconciles write decisions. *)
Definition writes_decision (c : call) : bool :=
  match c with CreateDecision _ | UpdateDecisionStatus _ => true | _ => false end.

Definition removes (c : call) : gset string :=
  match c with DeleteDecision d => {[sd_Name d]} | _ => ∅ end.

Inductive loop_step : loop -> loop -> Prop :=
  | loop_inner s s' : inner_step s s' -> loop_step s s'
  (* a worker makes a call *)
  | loop_call w pods events q ws del req p c k h a w' :
      ws !! req = Some (Thread p (Call c k) h) -> api_step w c a w' ->
      cache_answers (Loop w pods events q ws del) c a ->
      loop_step (Loop w pods events q ws del)
                (Loop w' pods events q (<[req := Thread p (k a) (h ++ [Exch c a])]> ws) del)
  (* another client makes a call *)
  | loop_other w pods events q ws del c a w' :
      api_step w c a w' -> writes_decision c = false ->
      loop_step (Loop w pods events q ws del) (Loop w' pods events q ws (del ∪ removes c)).

(** What was written before: the server stores what it would store again, and the history
    of every version is the beginning of the stored one's, but for what was deleted. *)
Record versions_ok (w : world) (deleted : gset string) : Prop := {
  versions_persisted n d : store w !! n = Some d ->
    persist_status persist_time (sd_Status d) = sd_Status d;
  versions_grow d : seen w d -> sd_Name d ∈ deleted \/
    exists d', store w !! sd_Name d = Some d' /\
      st_Transitions (sd_Status d) `prefix_of` st_Transitions (sd_Status d');
}.

(** The controller starts on whatever decisions there are. *)
Definition loop_initial (s : loop) : Prop :=
  exists w pods events deleted, caches_ok pods events /\ versions_ok w deleted /\
    s = Loop w pods events (initial_requests pods events) ∅ deleted.

Definition loop_reachable (s : loop) : Prop := exists s0, loop_initial s0 /\ rtc loop_step s0 s.

(** ** Specification *)

(** The history of [d] has [t], as derived or as the server stores it: at its end, if
    reads are not stale. *)
Definition shows (t : SchedulingTransition) (d : SchedulingDecision) : Prop :=
  exists l, l ∈ st_Transitions (sd_Status d) /\
    (stale = false -> last (st_Transitions (sd_Status d)) = Some l) /\
    (transitionsEqual l t = true \/ l = persist_transition persist_time t).

(** The decision [n] is stored and satisfies [P], unless it has been deleted. *)
Definition stored_or_deleted (w : world) (deleted : gset string) (n : string)
    (P : SchedulingDecision -> Prop) : Prop :=
  (exists d, store w !! n = Some d /\ P d) \/
  (n ∈ deleted /\ (stale = false -> store w !! n = None)).

(** What the caches show of [req]. *)
Definition cached_pod (pods : pod_cache) (req : NamespacedName) (podFound : bool) (pod : Pod)
    : Prop :=
  match pods !! req with
  | Some p => podFound = true /\ pod = p
  | None => podFound = false /\ pod = Pod_zero
  end.

Definition cached_events (events : event_cache) (req : NamespacedName) : list Event :=
  relevant_events (indexed events (nn_Namespace req) (NamespacedName_String req)).

(** The outcome that the caches show for [req], at some instant and in some order of the
    Events, is recorded, or there is none. *)
Definition settled (s : loop) (req : NamespacedName) : Prop :=
  exists podFound pod events now,
    cached_pod (lp_pods s) req podFound pod /\ events ≡ₚ cached_events (lp_events s) req /\
    match deriveTransition now pod podFound events with
    | None => True
    | Some (ident, t) =>
        stored_or_deleted (lp_world s) (lp_deleted s) (decisionName (id_UID ident)) (shows t)
    end.
End loop.

(** ** Lemmas: what a reconcile reads of the Events *)

(** [e] is an Event that a reconcile of [req] takes into account. *)
Definition concerns (req : NamespacedName) (e : Event) : Prop :=
  ev_Reason e ∈ relevantEventReasons /\ ev_Namespace e = nn_Namespace req /\
  NamespacedName_String req ∈ indexEventInvolvedObject (EventObject e).

#[export] Instance concerns_dec req e : Decision (concerns req e).
Proof. unfold concerns. apply _. Defined.

Lemma cached_events_concerns events req :
  cached_events events req ≡ₚ
    (map_to_list (filter (fun kv => concerns req kv.2) events)).*2.
Proof.
  etrans; [|apply (filter_values (concerns req))].
  unfold cached_events, relevant_events, indexed. rewrite list_filter_filter.
  by rewrite (list_filter_iff _ (concerns req)).
Qed.

(** It is watched, and enqueues [req]. *)
Lemma concerns_watched owner req e :
  event_ok owner e -> concerns req e ->
  relevantEventPredicate (EventObject e) = true /\
  mapEventToPodRequest (EventObject e) = [req] /\ owner (or_UID (ev_InvolvedObject e)) = req.
Proof.
  intros Hok (Hr & Hns & Hin). unfold event_ok in Hok. simpl in *.
  destruct (bool_decide (or_Kind (ev_InvolvedObject e) = podKind)) eqn:Hk; simpl in *;
    bool_simpl; [|by apply not_elem_of_nil in Hin].
  destruct (Hok Hk) as [Hens Hown]. apply list_elem_of_singleton in Hin.
  assert (req = mkNamespacedName (or_Namespace (ev_InvolvedObject e))
    (or_Name (ev_InvolvedObject e))) as ->.
  { destruct req as [ns name]. unfold NamespacedName_String in Hin. simpl in *.
    rewrite <- Hens, Hns in *. apply (inj (String.app ns)) in Hin. by simplify_eq. }
  by rewrite bool_decide_eq_true_2.
Qed.

Lemma unqueued_change owner req old new :
  (forall e, old = Some e -> event_ok owner e) -> (forall e, new = Some e -> event_ok owner e) ->
  same_subject old new -> req ∉ event_requests old new ->
  (forall e, old = Some e -> ~ concerns req e) /\ (forall e, new = Some e -> ~ concerns req e).
Proof.
  intros Hold Hnew Hsame Hq.
  assert (forall e, new = Some e -> ~ concerns req e) as Hn.
  { intros e -> Hc. destruct (concerns_watched owner req e) as (Hp & Hm & _); [by apply Hnew|done|].
    apply Hq. unfold event_requests. rewrite Hp, Hm. destruct old; set_solver. }
  split; [|done]. intros e -> Hc. destruct new as [e'|].
  - apply (Hn e' eq_refl). destruct Hsame as (H1 & H2 & H3). unfold concerns in *. simpl in *.
    by rewrite H1, H2, H3.
  - destruct (concerns_watched owner req e) as (Hp & Hm & _); [by apply Hold|done|].
    apply Hq. unfold event_requests. rewrite Hp, Hm. set_solver.
Qed.

(** What enqueues nothing for [req] changes nothing that [req]'s reconcile reads. *)
Lemma cached_events_deliver owner events k new req :
  map_Forall (fun _ => event_ok owner) events -> (forall e, new = Some e -> event_ok owner e) ->
  same_subject (events !! k) new -> req ∉ event_requests (events !! k) new ->
  cached_events (deliver k new events) req ≡ₚ cached_events events req.
Proof.
  intros Hev Hnew Hsame Hq.
  destruct (unqueued_change owner req (events !! k) new) as [H1 H2]; [|done..|].
  { intros e He. by apply (Hev k). }
  rewrite !cached_events_concerns. by rewrite filter_deliver.
Qed.

(** Nothing is left out of the first lists. *)
Lemma initial_requests_complete owner pods events req :
  map_Forall (fun _ => event_ok owner) events -> req ∉ initial_requests pods events ->
  pods !! req = None /\ cached_events events req = [].
Proof.
  intros Hev Hreq. unfold initial_requests in Hreq. apply not_elem_of_union in Hreq as [Hp He].
  split; [by apply not_elem_of_dom|].
  destruct (cached_events events req) as [|e l] eqn:Hc; [done|]. exfalso. apply He.
  assert (e ∈ cached_events events req) as Hin by (rewrite Hc; apply list_elem_of_here).
  rewrite cached_events_concerns in Hin.
  apply list_elem_of_fmap in Hin as ([k e'] & -> & Hin%elem_of_map_to_list). simpl in *.
  apply map_lookup_filter_Some in Hin as [Hk Hcon]. simpl in Hcon.
  destruct (concerns_watched owner req e') as (Hpr & Hm & _); [by apply (Hev k)|done|].
  apply elem_of_union_list. exists (event_requests None (Some e')). split.
  - apply list_elem_of_fmap. exists e'. split; [done|]. apply list_elem_of_fmap.
    exists (k, e'). split; [done|by apply elem_of_map_to_list].
  - unfold event_requests. rewrite Hpr, Hm. set_solver.
Qed.

(** Whoever a transition is about, the pod or the object of an Event, is [req]'s. *)
Lemma derive_owned (owner : UID -> NamespacedName) req now pod podFound events ident t :
  deriveTransition now pod podFound events = Some (ident, t) ->
  (podFound = true -> owner (pod_UID pod) = req) ->
  (forall e, e ∈ events -> owner (or_UID (ev_InvolvedObject e)) = req) ->
  owner (id_UID ident) = req.
Proof.
  intros Hd Hpod Hev. destruct (derive_supports _ _ _ _ _ Hd) as [ev Hs].
  rewrite (supports_derive now _ _ _ _ Hs) in Hd. injection Hd as Hd.
  destruct (result_of_reports now _ _ _ _ Hs) as [[_ Hi] _]. rewrite Hd in Hi. simpl in Hi.
  destruct podFound; [destruct Hi as (-> & _); by apply Hpod|].
  destruct Hi as (e & He & -> & _). apply Hev.
  inversion Hs; subst. injection He as ->. by eapply is_latest_elem.
Qed.

(** ** Lemmas: the invariant *)

Section invariant.
Context `{!RetryOnError} `{!ApiServer} (r : SchedulingDecisionReconciler).
Context (owner : UID -> NamespacedName) (stale : bool).
Local Abbreviation kept_or_deleted := (stored_or_deleted stale) (only parsing).

(** The name of a decision about [req]. *)
Definition owns (req : NamespacedName) (n : string) : Prop :=
  exists uid, n = decisionName uid /\ owner uid = req.

Lemma owns_unique req req' n : owns req n -> owns req' n -> req = req'.
Proof.
  intros (uid & -> & <-) (uid' & Heq & <-). by apply decisionName_inj in Heq as ->.
Qed.

(** What a reconcile of [req] was answered is about [req]. *)
Definition owned_answer (req : NamespacedName) (x : exchange) : Prop :=
  match x with
  | Exch c a => match c return answer c -> Prop with
    | ListEvents ns nsName => fun a => forall items e,
        ns = nn_Namespace req -> nsName = NamespacedName_String req -> a = inr items ->
        e ∈ relevant_events items -> owner (or_UID (ev_InvolvedObject e)) = req
    | GetPod key => fun a => forall pod, key = req -> a = inr pod -> owner (pod_UID pod) = req
    | GetDecision n => fun a => forall d, a = inr d -> sd_Name d = n
    | _ => fun _ => True
    end a
  end.

(** The decisions it has read are versions. *)
Definition read_seen (w : world) (h : list exchange) : Prop :=
  forall n d, Exch (GetDecision n) (inr d) ∈ h -> seen w d.

(** What it was answered about its pod and Events is what the caches still hold. *)
Definition current_answer (pods : pod_cache) (events : event_cache) (req : NamespacedName)
    (x : exchange) : Prop :=
  match x with
  | Exch c a => match c return answer c -> Prop with
    | ListEvents ns nsName => fun a => forall items,
        ns = nn_Namespace req -> nsName = NamespacedName_String req -> a = inr items ->
        relevant_events items ≡ₚ cached_events events req
    | GetPod key => fun a => key = req ->
        match a with
        | inr pod => pods !! req = Some pod
        | inl err => IsNotFound err = true -> pods !! req = None
        end
    | _ => fun _ => True
    end a
  end.

(** What its last exchange showed of its decision still holds. *)
Definition last_kept (w : world) (deleted : gset string) (req : NamespacedName)
    (h : list exchange) : Prop :=
  match last h with
  | Some (Exch c a) => match c return answer c -> Prop with
    | GetDecision n => fun a => forall d, a = inr d -> owns req n ->
        kept_or_deleted w deleted n (fun d' =>
          st_Transitions (sd_Status d) `prefix_of` st_Transitions (sd_Status d') /\
          (stale = false -> d' = d))
    | UpdateDecisionStatus d => fun a => a = None -> owns req (sd_Name d) ->
        kept_or_deleted w deleted (sd_Name d)
          (fun d' => sd_Status d' = persist_status persist_time (sd_Status d))
    | _ => fun _ => True
    end a
  | None => True
  end.

(** A reconcile that returns nil had nothing to record, or has recorded it. *)
Definition reports (req : NamespacedName) (h : list exchange) (err : option error) : Prop :=
  err = None ->
  nothing_observed req h \/
  exists ident t, observed req h ident t /\ recorded (decisionName (id_UID ident)) h t.

Record worker_ok (s : loop) (req : NamespacedName) (th : thread) : Prop := {
  worker_wp : wp (reconcile_allows r req) any_answer (th_prog th) (reports req) (th_history th);
  worker_owned : Forall (owned_answer req) (th_history th);
  worker_seen : read_seen (lp_world s) (th_history th);
  worker_current : req ∉ lp_queue s ->
    Forall (current_answer (lp_pods s) (lp_events s) req) (th_history th);
  worker_last : last_kept (lp_world s) (lp_deleted s) req (th_history th);
}.

Record loop_ok (s : loop) : Prop := {
  ok_caches : caches_ok owner (lp_pods s) (lp_events s);
  ok_versions : versions_ok (lp_world s) (lp_deleted s);
  ok_workers : map_Forall (worker_ok s) (lp_workers s);
  ok_settled req : req ∉ lp_queue s -> lp_workers s !! req = None -> settled stale s req;
}.

(** *** The end of a reconcile *)

Lemma inputs_cached pods events req h podFound pod evs :
  Forall (current_answer pods events req) h -> inputs req h podFound pod evs ->
  cached_pod pods req podFound pod /\ evs ≡ₚ cached_events events req.
Proof.
  rewrite Forall_forall. intros Hh (items & g & Hl & Hg & -> & Hin). split.
  - specialize (Hh _ Hg eq_refl). simpl in Hh. unfold cached_pod. destruct g as [err|p].
    + destruct Hin as (He & -> & ->). by rewrite Hh.
    + destruct Hin as [-> ->]. by rewrite Hh.
  - by apply (Hh _ Hl items).
Qed.

Lemma inputs_owned req h podFound pod evs :
  Forall (owned_answer req) h -> inputs req h podFound pod evs ->
  (podFound = true -> owner (pod_UID pod) = req) /\
  (forall e, e ∈ evs -> owner (or_UID (ev_InvolvedObject e)) = req).
Proof.
  rewrite Forall_forall. intros Hh (items & g & Hl & Hg & -> & Hin). split.
  - intros ->. destruct g as [err|p]; [by destruct Hin as (_ & ? & _)|].
    destruct Hin as [_ ->]. by apply (Hh _ Hg p).
  - intros e. by apply (Hh _ Hl items e).
Qed.

Lemma observed_owned req h ident t :
  Forall (owned_answer req) h -> observed req h ident t -> owner (id_UID ident) = req.
Proof.
  intros Hh (now & pf & pod & evs & Hin & Hd)%observed_derived.
  destruct (inputs_owned _ _ _ _ _ Hh Hin). by eapply derive_owned.
Qed.

Lemma derives_at h podFound pod evs res :
  derives h podFound pod evs res -> exists now, deriveTransition now pod podFound evs = res.
Proof. intros [(now & _ & ?)|?]; [by exists now|by exists Time_zero]. Qed.

Lemma stored_or_deleted_mono w deleted n (P Q : SchedulingDecision -> Prop) :
  (forall d, P d -> Q d) -> kept_or_deleted w deleted n P -> kept_or_deleted w deleted n Q.
Proof. intros HPQ [(d & Hd & HP)|Hdel]; [left; exists d; auto|by right]. Qed.

Lemma recorded_kept w deleted req n h t :
  Forall (owned_answer req) h -> last_kept w deleted req h -> owns req n -> recorded n h t ->
  kept_or_deleted w deleted n (shows stale t).
Proof.
  intros Hh Hlast Hn [(h0 & d & l & -> & Hl & Heq)|(h0 & d0 & d & -> & ->)].
  - unfold last_kept in Hlast. rewrite last_snoc in Hlast.
    eapply stored_or_deleted_mono; [|by apply (Hlast d)].
    intros d' [[ts Hts] Hcur]. exists l. split_and!; [|intros Hs; by rewrite (Hcur Hs)|by left].
    rewrite Hts. apply elem_of_app. left. by apply last_Some_elem_of.
  - unfold last_kept in Hlast. change [?x; ?y] with ([x] ++ [y]) in *.
    rewrite app_assoc, last_snoc in Hlast. cbn beta iota in Hlast.
    rewrite Forall_forall in Hh.
    assert (sd_Name d0 = n) as Hd0 by (apply (Hh (Exch (GetDecision n) (inr d0))); [set_solver|done]).
    change (sd_Name _) with (sd_Name d0) in Hlast. rewrite Hd0 in Hlast.
    eapply stored_or_deleted_mono; [|by apply Hlast].
    intros d' Hd'. exists (persist_transition persist_time t).
    assert (last (st_Transitions (sd_Status d')) = Some (persist_transition persist_time t)) as Hl.
    { rewrite Hd'. cbn [st_Transitions persist_status applyTransition sd_Status set_Status].
      by rewrite fmap_app, list_fmap_singleton, last_snoc. }
    split_and!; [by apply last_Some_elem_of|done|by right].
Qed.

Lemma done_settled s req th :
  worker_ok s req th -> th_prog th = Ret None -> req ∉ lp_queue s -> settled stale s req.
Proof.
  intros [Hwp Hown _ Hcur Hlast] Hp Hq. specialize (Hcur Hq). rewrite Hp in Hwp.
  destruct (Hwp eq_refl) as [(pf & pod & evs & Hin & Hd)|(ident & t & Ho & Hrec)].
  - destruct (inputs_cached _ _ _ _ _ _ _ Hcur Hin). apply derives_at in Hd as [now Hd].
    exists pf, pod, evs, now. by rewrite Hd.
  - pose proof (observed_owned _ _ _ _ Hown Ho) as Hreq.
    destruct Ho as (pf & pod & evs & Hin & Hd).
    destruct (inputs_cached _ _ _ _ _ _ _ Hcur Hin). apply derives_at in Hd as [now Hd].
    exists pf, pod, evs, now. rewrite Hd. split_and!; [done..|].
    eapply recorded_kept; [done..| |done]. by eexists.
Qed.

(** *** What others do leaves a request's decisions alone *)

(** The decisions of [req] are as before, or deleted. *)
Definition untouched (req : NamespacedName) (w w' : world) (deleted : gset string) : Prop :=
  forall n, owns req n ->
    store w' !! n = store w !! n \/ (store w' !! n = None /\ n ∈ deleted).

(** Time passes: versions stay versions, deletions are remembered. *)
Definition later (w w' : world) (deleted deleted' : gset string) : Prop :=
  deleted ⊆ deleted' /\ forall d, seen w d -> seen w' d.

Lemma untouched_stored req w w' deleted deleted' n P :
  later w w' deleted deleted' -> untouched req w w' deleted' -> owns req n ->
  kept_or_deleted w deleted n P -> kept_or_deleted w' deleted' n P.
Proof.
  intros [Hdel _] Hu Hn Hk. unfold stored_or_deleted in *. destruct (Hu n Hn) as [->|[-> ?]].
  - destruct Hk as [?|[? ?]]; [by left|right]. split; [by apply Hdel|done].
  - by right.
Qed.

Lemma untouched_last req w w' deleted deleted' h :
  later w w' deleted deleted' -> untouched req w w' deleted' ->
  last_kept w deleted req h -> last_kept w' deleted' req h.
Proof.
  intros Hdel Hu. unfold last_kept. destruct (last h) as [[c a]|]; [|done].
  destruct c; try done; intros Hl; intros; (eapply untouched_stored; [done..|]); by apply Hl.
Qed.

(** A change of the world and the deletions only. *)
Lemma untouched_worker w w' pods events q ws ws' deleted deleted' req th :
  later w w' deleted deleted' -> untouched req w w' deleted' ->
  worker_ok (Loop w pods events q ws deleted) req th ->
  worker_ok (Loop w' pods events q ws' deleted') req th.
Proof.
  intros Hdel Hu [Hwp Hown Hseen Hcur Hlast]. split; simpl in *; [done..| |done|].
  - intros n d Hd. by eapply Hdel, Hseen.
  - by eapply untouched_last.
Qed.

Lemma settled_owner s req podFound pod events now ident t :
  caches_ok owner (lp_pods s) (lp_events s) ->
  cached_pod (lp_pods s) req podFound pod -> events ≡ₚ cached_events (lp_events s) req ->
  deriveTransition now pod podFound events = Some (ident, t) -> owns req (decisionName (id_UID ident)).
Proof.
  intros [Hpods Hev] Hp He Hd. exists (id_UID ident). split; [done|].
  apply (derive_owned _ _ _ _ _ _ _ _ Hd).
  - intros ->. unfold cached_pod in Hp. destruct (lp_pods s !! req) as [p|] eqn:Hk.
    + destruct Hp as [_ ->]. by apply (Hpods req p).
    + by destruct Hp.
  - intros e. rewrite He, cached_events_concerns. intros Hin.
    apply list_elem_of_fmap in Hin as ([k e'] & -> & Hin%elem_of_map_to_list). simpl.
    apply map_lookup_filter_Some in Hin as [Hk Hcon].
    destruct (concerns_watched owner req e') as (_ & _ & ?); [by apply (Hev k)|done..].
Qed.

Lemma untouched_settled w w' pods events q q' ws ws' deleted deleted' req :
  caches_ok owner pods events ->
  later w w' deleted deleted' -> untouched req w w' deleted' ->
  settled stale (Loop w pods events q ws deleted) req ->
  settled stale (Loop w' pods events q' ws' deleted') req.
Proof.
  intros Hok Hdel Hu (pf & pod & evs & now & Hp & He & Hd). exists pf, pod, evs, now.
  split_and!; [done..|]. destruct (deriveTransition now pod pf evs) as [[ident t]|] eqn:Hdr; [|done].
  eapply untouched_stored; [done..| |exact Hd].
  by eapply (settled_owner (Loop w pods events q ws deleted)).
Qed.

Lemma untouched_refl req w deleted : untouched req w w deleted.
Proof. intros n _. by left. Qed.

(** A reconcile writes decisions of its own request only. *)
Lemma call_untouched req req' w c a w' h deleted :
  api_step w c a w' -> reconcile_allows r req' h c -> Forall (owned_answer req') h ->
  req <> req' -> untouched req w w' deleted.
Proof.
  intros Hs Hc Hh Hne n Hn. left. pose proof (api_unrelated _ _ _ _ Hs) as Hun.
  destruct c; try (by rewrite Hun); clear Hun.
  - destruct (api_create _ _ _ _ Hs) as [[-> _]|(_ & d' & _ & _ & ->)]; [done|].
    destruct Hc as (ident & t & now & v & Ho & _ & ->).
    apply lookup_insert_ne. intros <-. apply Hne. eapply owns_unique; [exact Hn|].
    eexists. split; [done|]. by eapply observed_owned.
  - destruct (api_update _ _ _ _ Hs) as [[-> _]|(cur & d' & _ & _ & _ & ->)]; [done|].
    destruct Hc as (ident & t & h0 & d0 & Ho & -> & _ & ->).
    apply lookup_insert_ne. change (sd_Name _) with (sd_Name d0). intros <-. apply Hne.
    pose proof (observed_owned _ _ _ _ Hh Ho) as Hid.
    rewrite Forall_forall in Hh.
    eapply owns_unique; [exact Hn|]. exists (id_UID ident). split; [|done].
    apply (Hh (Exch (GetDecision (decisionName (id_UID ident))) (inr d0))); [set_solver|done].
  - destruct Hc.
Qed.

(** Another client's call removes at most one decision. *)
Lemma other_stores w c a w' :
  api_step w c a w' -> writes_decision c = false ->
  store w' = store w \/ exists d, c = DeleteDecision d /\ store w' = delete (sd_Name d) (store w).
Proof.
  intros Hs Hq. pose proof (api_unrelated _ _ _ _ Hs) as Hun.
  destruct c; try done; try (by left).
  destruct (api_delete _ _ _ _ Hs) as [[? _]|?]; [by left|right]. by exists d.
Qed.

(** *** One call *)

Lemma call_owned s req c a w' :
  caches_ok owner (lp_pods s) (lp_events s) -> api_step (lp_world s) c a w' ->
  cache_answers stale s c a -> owned_answer req (Exch c a).
Proof.
  intros [Hpods Hev] Hs Ha. destruct c; simpl in *; try done.
  - intros items e -> -> -> He. specialize (Ha items eq_refl).
    assert (e ∈ cached_events (lp_events s) req) as Hin.
    { unfold cached_events, relevant_events in *. by rewrite <- Ha. }
    rewrite cached_events_concerns in Hin.
    apply list_elem_of_fmap in Hin as ([k e'] & -> & Hin%elem_of_map_to_list). simpl.
    apply map_lookup_filter_Some in Hin as [Hk Hcon].
    destruct (concerns_watched owner req e') as (_ & _ & ?); [by apply (Hev k)|done..].
  - intros pod -> ->. by apply (Hpods req pod).
  - intros d ->. by eapply api_get.
Qed.

Lemma call_seen w x w' h :
  api_step w (ex_call x) (ex_answer x) w' -> read_seen w h -> read_seen w' (h ++ [x]).
Proof.
  intros Hs Hh n d [Hd|Hd%list_elem_of_singleton]%elem_of_app.
  - eapply seen_mono; [done|by eapply Hh].
  - subst x. eapply seen_mono; [done|by eapply api_get].
Qed.

Lemma call_current s req c a :
  cache_answers stale s c a -> current_answer (lp_pods s) (lp_events s) req (Exch c a).
Proof.
  intros Ha. destruct c; simpl in *; try done.
  - intros items -> -> ->. unfold cached_events, relevant_events. by rewrite (Ha items eq_refl).
  - intros ->. done.
Qed.

Lemma call_last s req c a w' h :
  versions_ok (lp_world s) (lp_deleted s) ->
  api_step (lp_world s) c a w' -> cache_answers stale s c a ->
  last_kept w' (lp_deleted s) req (h ++ [Exch c a]).
Proof.
  intros Hv Hs Ha. unfold last_kept. rewrite last_snoc. pose proof (api_unrelated _ _ _ _ Hs) as Hun.
  destruct c; try done.
  - intros d Hd _. simpl in Ha. unfold stored_or_deleted. rewrite Hun. subst a.
    destruct (api_get _ _ _ _ Hs) as [Hseen Hname].
    destruct stale.
    + destruct (versions_grow _ _ Hv d Hseen) as [Hdel|(d' & Hd' & Hpre)]; rewrite Hname in *;
        [by right|]. left. by exists d'.
    + left. exists d. by rewrite (Ha d eq_refl eq_refl).
  - intros -> _. destruct (api_update _ _ _ _ Hs) as [[_ ?]|(cur & d' & _ & _ & Hu & Hw)]; [done|].
    left. exists d'. rewrite Hw, lookup_insert_eq. split; [done|apply Hu].
Qed.

Lemma same_versions w c a w' deleted :
  versions_ok w deleted -> api_step w c a w' -> store w' = store w -> versions_ok w' deleted.
Proof.
  intros [Hp Hg] Hs Heq. split; intros; rewrite Heq in *; [by eapply Hp|].
  destruct (seen_only _ _ _ _ _ Hs H1) as [?|Hst]; [by apply Hg|].
  right. rewrite Heq in Hst. by exists d.
Qed.

(** Writes keep the versions in order: a creation starts, an update extends a history. *)
Lemma call_versions req w c a w' h deleted :
  versions_ok w deleted -> api_step w c a w' -> reconcile_allows r req h c ->
  Forall (owned_answer req) h -> read_seen w h -> versions_ok w' deleted.
Proof.
  intros Hv Hs Hc Hh Hseen. pose proof (api_unrelated _ _ _ _ Hs) as Hun.
  pose proof (same_versions w c a w' deleted Hv Hs) as Hsame. destruct Hv as [Hp Hg].
  destruct c; try (by apply Hsame); clear Hun.
  - destruct (api_create _ _ _ _ Hs) as [[? _]|(Hn & d' & (_ & _ & _ & Hz) & _ & Hw)];
      [by apply Hsame|]. split; rewrite Hw.
    + intros n d0 [[<- <-]|[_ Hd0]]%lookup_insert_Some; [|by eapply Hp].
      rewrite Hz. unfold persist_status, Status_zero; simpl. by rewrite persist_time_zero.
    + intros d0 [Hd0|Hd0]%(seen_only _ _ _ _ _ Hs); [|rewrite Hw in Hd0; right; by exists d0].
      destruct (Hg d0 Hd0) as [?|(d1 & Hd1 & Hpre)]; [by left|right].
      exists d1. rewrite lookup_insert_ne; [done|]. intros Heq. rewrite Heq in Hn. congruence.
  - destruct (api_update _ _ _ _ Hs) as [[? _]|(cur & d' & Hcur & Hrv & Hu & Hw)];
      [by apply Hsame|].
    destruct Hc as (ident & t & h0 & d0 & _ & -> & _ & ->).
    rewrite Forall_forall in Hh. change (sd_Name (set_Status _ d0)) with (sd_Name d0) in *.
    change (sd_ResourceVersion (set_Status _ d0)) with (sd_ResourceVersion d0) in Hrv.
    assert (cur = d0) as ->.
    { destruct (store_seen _ _ _ Hcur). eapply seen_version; [done| |done..].
      apply (Hseen (decisionName (id_UID ident))). set_solver. }
    destruct Hu as (_ & _ & _ & _ & Hst). cbn [sd_Status set_Status] in Hst.
    pose proof (Hp _ _ Hcur) as Hpers. split; rewrite Hw.
    + intros n d1 [[<- <-]|[_ Hd1]]%lookup_insert_Some; [|by eapply Hp].
      rewrite Hst. apply persist_status_idemp.
    + intros d1 [Hd1|Hd1]%(seen_only _ _ _ _ _ Hs); [|rewrite Hw in Hd1; right; by exists d1].
      destruct (Hg d1 Hd1) as [?|(d2 & Hd2 & Hpre)]; [by left|right].
      destruct (decide (sd_Name d1 = sd_Name d0)) as [Heq|Hne].
      * exists d'. rewrite Heq, lookup_insert_eq. split; [done|]. rewrite Heq in Hd2. simplify_eq.
        rewrite Hst, persist_status_append by done. etrans; [done|]. by eexists.
      * exists d2. by rewrite lookup_insert_ne.
Qed.

Lemma delete_versions w d a w' deleted :
  versions_ok w deleted -> api_step w (DeleteDecision d) a w' ->
  versions_ok w' (deleted ∪ {[sd_Name d]}).
Proof.
  intros [Hp Hg] Hs. assert (forall n d0, store w' !! n = Some d0 -> store w !! n = Some d0) as Hback.
  { intros n d0. destruct (api_delete _ _ _ _ Hs) as [[-> _]| ->]; [done|].
    by intros [_ ?]%lookup_delete_Some. }
  split; [intros n d0 Hd0; by eapply Hp, Hback|].
  intros d0 [Hd0|Hd0]%(seen_only _ _ _ _ _ Hs); [|right; by exists d0].
  destruct (Hg d0 Hd0) as [?|(d1 & Hd1 & Hpre)]; [left; set_solver|].
  destruct (decide (sd_Name d0 = sd_Name d)) as [Heq|Hne]; [left; rewrite Heq; set_solver|].
  right. exists d1. destruct (api_delete _ _ _ _ Hs) as [[-> _]| ->]; [done|].
  by rewrite lookup_delete_ne.
Qed.

(** *** Preservation *)

(** A delivery that does not enqueue [req] does not change what [req] reads. *)
Definition same_caches (pods pods' : pod_cache) (events events' : event_cache)
    (req : NamespacedName) : Prop :=
  pods' !! req = pods !! req /\ cached_events events' req ≡ₚ cached_events events req.

Lemma same_caches_current pods pods' events events' req h :
  same_caches pods pods' events events' req ->
  Forall (current_answer pods events req) h -> Forall (current_answer pods' events' req) h.
Proof.
  intros [Hp He] Hh. eapply Forall_impl; [exact Hh|]. intros [c a]. destruct c; simpl; try done.
  - intros Hc items -> -> Hi. rewrite He. by apply Hc.
  - rewrite Hp. done.
Qed.

(** A delivery: the queue grows by what it enqueues. *)
Lemma deliver_ok w pods pods' events events' q new ws deleted :
  caches_ok owner pods' events' ->
  (forall req, req ∉ new -> same_caches pods pods' events events' req) ->
  loop_ok (Loop w pods events q ws deleted) ->
  loop_ok (Loop w pods' events' (q ∪ new) ws deleted).
Proof.
  intros Hok Hsame [_ Hv Hws Hst]; simpl in *. split; simpl; [done..| |].
  - intros req th Hth. destruct (Hws req th Hth) as [H1 H2 H3 H4 H5]. split; simpl in *; [done..| |done].
    intros [Hq Hnew]%not_elem_of_union. eapply same_caches_current; [by apply Hsame|by apply H4].
  - intros req [Hq Hnew]%not_elem_of_union Hth.
    destruct (Hst req Hq Hth) as (pf & pod & evs & now & Hp & He & Hd).
    destruct (Hsame req Hnew) as [Hsp Hse]. exists pf, pod, evs, now. simpl in *.
    split_and!; [unfold cached_pod in *; by rewrite Hsp|by rewrite Hse|done].
Qed.

Lemma loop_pod_ok w pods events q ws deleted key new :
  (forall pod, new = Some pod -> pod_ok owner key pod) ->
  loop_ok (Loop w pods events q ws deleted) ->
  loop_ok (Loop w (deliver key new pods) events (q ∪ pod_requests key) ws deleted).
Proof.
  intros Hnew Hs. destruct (ok_caches _ Hs) as [Hpods Hev].
  apply (deliver_ok w pods _ events); [|intros req Hreq|done].
  - split; [by apply map_Forall_deliver|done].
  - split; [|done]. apply lookup_deliver_ne. unfold pod_requests in Hreq. set_solver.
Qed.

Lemma loop_event_ok w pods events q ws deleted k new :
  (forall e, new = Some e -> event_ok owner e) -> same_subject (events !! k) new ->
  loop_ok (Loop w pods events q ws deleted) ->
  loop_ok (Loop w pods (deliver k new events) (q ∪ event_requests (events !! k) new) ws deleted).
Proof.
  intros Hnew Hsame Hs. destruct (ok_caches _ Hs) as [Hpods Hev].
  apply (deliver_ok w pods pods events); [|intros req Hreq|done].
  - split; [done|by apply map_Forall_deliver].
  - split; [done|by eapply cached_events_deliver].
Qed.

Lemma loop_take_ok w pods events q ws deleted req :
  loop_ok (Loop w pods events q ws deleted) ->
  loop_ok (Loop w pods events (q ∖ {[req]})
    (<[req := Thread (Reconcile r req) (Reconcile r req) []]> ws) deleted).
Proof.
  intros [Hc Hv Hws Hst]; simpl in *. split; simpl; [done..| |].
  - intros req' th. rewrite lookup_insert_Some. intros [[<- <-]|[Hne Hth]].
    + split; simpl; [apply Reconcile_wp|done| |done|done]. by intros n d Hd%not_elem_of_nil.
    + destruct (Hws req' th Hth) as [H1 H2 H3 H4 H5]. split; simpl in *; [done..| |done].
      intros Hq. apply H4. set_solver.
  - intros req' Hq. rewrite lookup_insert_None. intros [Hth Hne].
    destruct (Hst req') as (pf & pod & evs & now & H1 & H2 & H3); [set_solver|done|].
    by exists pf, pod, evs, now.
Qed.

Lemma loop_call_ok w pods events q ws deleted req p c k h a w' :
  ws !! req = Some (Thread p (Call c k) h) -> api_step w c a w' ->
  cache_answers stale (Loop w pods events q ws deleted) c a ->
  loop_ok (Loop w pods events q ws deleted) ->
  loop_ok (Loop w' pods events q (<[req := Thread p (k a) (h ++ [Exch c a])]> ws) deleted).
Proof.
  intros Hth Hs Ha [Hc Hv Hws Hst]. simpl in *.
  destruct (Hws _ _ Hth) as [[Hallow Hwp] Hown Hseen Hcur Hlast]. simpl in *.
  assert (later w w' deleted deleted) as Hlater by (split; [done|]; intros d; by eapply seen_mono).
  assert (forall req', req' <> req -> untouched req' w w' deleted) as Hother
    by (intros req' Hne; by eapply call_untouched).
  split; simpl; [done|by eapply call_versions|..].
  - intros req' th. rewrite lookup_insert_Some. intros [[<- <-]|[Hne Hth']].
    + split; simpl; [exact (Hwp a I)|apply Forall_app; split; [done|]|by apply (call_seen w (Exch c a))|..].
      * apply Forall_singleton. by apply (call_owned (Loop w pods events q ws deleted) req c a w').
      * intros Hq. apply Forall_app. split; [by apply Hcur|]. apply Forall_singleton.
        by apply (call_current (Loop w pods events q ws deleted) req c a).
      * by apply (call_last (Loop w pods events q ws deleted)).
    + eapply untouched_worker; [exact Hlater|by apply Hother|]. by apply Hws.
  - intros req' Hq. rewrite lookup_insert_None. intros [Hth' Hne].
    eapply untouched_settled; [done|exact Hlater|by apply Hother|]. by apply Hst.
Qed.

Lemma loop_done_ok w pods events q ws deleted req p err h :
  ws !! req = Some (Thread p (Ret err) h) ->
  loop_ok (Loop w pods events q ws deleted) ->
  loop_ok (Loop w pods events (match err with Some _ => q ∪ {[req]} | None => q end)
             (delete req ws) deleted).
Proof.
  intros Hth [Hc Hv Hws Hst]. simpl in *.
  assert (q ⊆ match err with Some _ => q ∪ {[req]} | None => q end) as Hq by (destruct err; set_solver).
  split; simpl; [done..| |].
  - intros req' th [_ Hth']%lookup_delete_Some.
    destruct (Hws _ _ Hth') as [H1 H2 H3 H4 H5]. split; simpl in *; [done..| |done].
    intros Hq'. apply H4. set_solver.
  - intros req' Hq' Hth'. assert (req' ∉ q) as Hq0 by set_solver.
    assert (settled stale (Loop w pods events q ws deleted) req') as (pf & pod & evs & now & Hset);
      [|by exists pf, pod, evs, now].
    destruct (decide (req' = req)) as [->|Hne].
    + destruct err as [e|]; [set_solver|]. by eapply done_settled; [by apply Hws| |].
    + apply Hst; [done|]. by rewrite lookup_delete_ne in Hth'.
Qed.

Lemma loop_other_ok w pods events q ws deleted c a w' :
  api_step w c a w' -> writes_decision c = false ->
  loop_ok (Loop w pods events q ws deleted) ->
  loop_ok (Loop w' pods events q ws (deleted ∪ removes c)).
Proof.
  intros Hs Hq [Hc Hv Hws Hst]. simpl in *.
  assert (later w w' deleted (deleted ∪ removes c)) as Hlater
    by (split; [set_solver|]; intros d0; by eapply seen_mono).
  destruct (other_stores w c a w' Hs Hq) as [Heq|(d & -> & Heq)].
  - assert (forall req, untouched req w w' (deleted ∪ removes c)) as Hu
      by (intros req n _; left; by rewrite Heq).
    split; simpl; [done| |..].
    + pose proof (same_versions w c a w' deleted Hv Hs Heq) as [H1 H2]. split; [done|].
      intros d [?|?]%H2; [left; set_solver|by right].
    + intros req th Hth. eapply untouched_worker; [exact Hlater|by apply Hu|by apply Hws].
    + intros req Hq' Hth. eapply untouched_settled; [done|exact Hlater|by apply Hu|by apply Hst].
  - assert (forall req, untouched req w w' (deleted ∪ {[sd_Name d]})) as Hu.
    { intros req n _. rewrite Heq. destruct (decide (n = sd_Name d)) as [->|Hne].
      - right. rewrite lookup_delete_eq. set_solver.
      - left. by apply lookup_delete_ne. }
    split; simpl; [done|by eapply delete_versions|..].
    + intros req th Hth. eapply untouched_worker; [exact Hlater|by apply Hu|by apply Hws].
    + intros req Hq' Hth. eapply untouched_settled; [done|exact Hlater|by apply Hu|by apply Hst].
Qed.

(** A request that has nothing in the first lists has nothing to record. *)
Lemma restart_ok w pods events deleted :
  caches_ok owner pods events -> versions_ok w deleted ->
  loop_ok (Loop w pods events (initial_requests pods events) ∅ deleted).
Proof.
  intros Hc Hv. split; simpl; [done|done|apply map_Forall_empty|]. intros req Hq _.
  destruct (initial_requests_complete owner pods events req) as [Hp He]; [apply Hc|done|].
  exists false, Pod_zero, [], Time_zero. simpl. unfold cached_pod. by rewrite Hp, He.
Qed.

Lemma inner_step_ok s s' : inner_step r owner s s' -> loop_ok s -> loop_ok s'.
Proof.
  destruct 1; intros Hok; eauto using loop_pod_ok, loop_event_ok, loop_take_ok, loop_done_ok.
  apply restart_ok; [done|apply (ok_versions _ Hok)].
Qed.

Lemma loop_step_ok s s' : loop_step r owner stale s s' -> loop_ok s -> loop_ok s'.
Proof. destruct 1; eauto using inner_step_ok, loop_call_ok, loop_other_ok. Qed.

Lemma loop_reachable_ok s : loop_reachable r owner stale s -> loop_ok s.
Proof.
  intros (s0 & (w & pods & events & deleted & Hc & Hv & ->) & Hs).
  pose proof (restart_ok w pods events deleted Hc Hv) as Hok. clear Hc Hv.
  induction Hs as [|x y z Hxy _ IH]; [done|]. by eapply IH, loop_step_ok.
Qed.

(** ** Theorem *)

(** C3. The controller misses nothing: whatever the order in which the watches deliver
    changes of pods and Events, reconciles of several requests interleave, calls
    fail, updates conflict, reads of decisions lag behind, decisions are deleted and
    the process restarts, a request that is neither queued nor being processed is
    settled: the outcome that its pod and Events show is in the history of its
    decision, at the end if reads do not lag, unless that has been deleted; or they
    show none. In particular so is every request once the queue has run empty. *)
Theorem idle_requests_settled s req :
  loop_reachable r owner stale s -> req ∉ lp_queue s -> lp_workers s !! req = None ->
  settled stale s req.
Proof. intros Hr. by apply ok_settled, loop_reachable_ok. Qed.
End invariant.
