(* ===== verification/Quiesce.v ===== *)
(** * Quiescence: when changes stop, the controller comes to rest

    [Loop] shows what holds whenever a request is idle; this file shows that requests
    become idle. Once no change is delivered, nothing is deleted, and the API server
    answers every call as its state says, the event loop can only take finitely many
    more steps, whatever the order of its workers, and it stops with an empty queue,
    every request settled. A reconcile that is under way when that begins may still
    fail, because of what was answered before; it is queued again and then succeeds. *)

From stdpp Require Import relations.
From S2P Require Import Prelude Strconv GoTime GoStrings Api Decision Effects.
From S2P Require Import VolumeContext Controller ReconcileProps System Loop.

(** ** Truthful answers *)

Section quiesce.
Context `{!RetryOnError} `{!ApiServer} (r : SchedulingDecisionReconciler).

(** The answer is what the state of the server says; pods and Events come from the caches. *)
Definition truthful (w : world) (c : call) : answer c -> Prop :=
  match c with
  | ListEvents _ _ => fun a => exists items, a = inr items
  | GetPod _ => fun a => match a with inr _ => True | inl err => IsNotFound err = true end
  | GetDecision n => fun a => match store w !! n with
      | Some d => a = inr d
      | None => exists err, a = inl err /\ IsNotFound err = true
      end
  | CreateDecision d => fun a => match store w !! sd_Name d with
      | Some _ => exists err, a = Some err /\ IsAlreadyExists err = true
      | None => a = None
      end
  | UpdateDecisionStatus d => fun a => match store w !! sd_Name d with
      | Some cur => sd_ResourceVersion cur = sd_ResourceVersion d -> a = None
      | None => exists err, a = Some err
      end
  | _ => fun _ => True
  end.

(** A server that can always answer a reconcile, truthfully. *)
Class LiveServer := {
  live_events w ns nsName items : exists w', api_step w (ListEvents ns nsName) (inr items) w';
  live_pod w key a : exists w', api_step w (GetPod key) a w';
  live_answer w c :
    match c with
    | GetDecision _ | CreateDecision _ | UpdateDecisionStatus _ | GetPVC _
    | GetStorageClass _ | Now | Log _ _ _ => True
    | _ => False
    end -> exists a w', api_step w c a w' /\ truthful w c a;
}.

(** ** The loop when nothing changes *)

(** The steps of [loop_step] that workers make, with truthful answers. *)
Inductive calm (stale : bool) : loop -> loop -> Prop :=
  | calm_take w pods events q ws del req :
      req ∈ q -> ws !! req = None ->
      calm stale (Loop w pods events q ws del)
                 (Loop w pods events (q ∖ {[req]})
                    (<[req := Thread (Reconcile r req) (Reconcile r req) []]> ws) del)
  | calm_call w pods events q ws del req p c k h a w' :
      ws !! req = Some (Thread p (Call c k) h) -> api_step w c a w' ->
      cache_answers stale (Loop w pods events q ws del) c a -> truthful w c a ->
      calm stale (Loop w pods events q ws del)
                 (Loop w' pods events q (<[req := Thread p (k a) (h ++ [Exch c a])]> ws) del)
  | calm_done w pods events q ws del req p err h :
      ws !! req = Some (Thread p (Ret err) h) ->
      calm stale (Loop w pods events q ws del)
                 (Loop w pods events (match err with Some _ => q ∪ {[req]} | None => q end)
                    (delete req ws) del).

(** *** A reconcile that only gets truthful answers succeeds *)

(** Answers that help: what exists is found, and an update of what has just been read is
    accepted. *)
Definition helpful (h : list exchange) (c : call) : answer c -> Prop :=
  match c with
  | ListEvents _ _ => fun a => exists items, a = inr items
  | GetPod _ => fun a => match a with inr _ => True | inl err => IsNotFound err = true end
  | GetDecision n => fun a => match a with
      | inr d => sd_Name d = n
      | inl err => IsNotFound err = true /\ ~ known n h
      end
  | CreateDecision _ => fun a => forall err, a = Some err -> IsAlreadyExists err = true
  | UpdateDecisionStatus d => fun a => forall h0 d0,
      h = h0 ++ [Exch (GetDecision (sd_Name d)) (inr d0)] ->
      sd_ResourceVersion d = sd_ResourceVersion d0 -> a = None
  | _ => fun _ => True
  end.

Definition succeeds (h : list exchange) (err : option error) : Prop := err = None.

Lemma ensureDecisionCreated_helpful name ident podFound pod h :
  wp any_call helpful (ensureDecisionCreated r name ident podFound pod)
    (fun h' err => err = None /\ known name h') h.
Proof.
  unfold ensureDecisionCreated. wp_step g Hg. destruct g as [e|d].
  2: { apply wp_ret. split; [done|]. left. exists d. set_solver. }
  destruct Hg as [-> _]. cbn [negb]. wp_step now Hnow.
  (* Once the record is built. *)
  assert (forall h' v n, wp any_call helpful
      (created ← do_call (CreateDecision (set_VolumeContext v (newDecision name ident n)));
       match created with
       | Some err =>
           if negb (IsAlreadyExists err)
           then mret (Some (Errorf "creating SchedulingDecision %s: %w" [name] (Some err)))
           else mret None
       | None => mret None
       end) (fun h' err => err = None /\ known name h') h') as Hcreate.
  { intros h' v n. wp_step c Hc. destruct c as [err|].
    - rewrite (Hc err eq_refl). cbn [negb]. apply wp_ret. split; [done|]. right.
      exists (set_VolumeContext v (newDecision name ident n)). split; [done|]. right.
      exists err. split; [by apply Hc|set_solver].
    - apply wp_ret. split; [done|]. right.
      exists (set_VolumeContext v (newDecision name ident n)). split; [done|]. left. set_solver. }
  apply wp_bind. destruct podFound; [|apply wp_ret, (Hcreate _ None)].
  apply wp_bind, resolveVolumeContext_reads; [done|]. intros k [e'|v] _.
  - wp_step u Hu. apply wp_ret, (Hcreate _ None).
  - apply wp_ret, Hcreate.
Qed.

Lemma appendTransition_once_helpful name t h :
  known name h ->
  wp any_call helpful (appendTransition_once name t)
    (fun h' err => err = None /\ known name h') h.
Proof.
  intros Hk. unfold appendTransition_once. wp_step g Hg. destruct g as [e|d]; [by destruct Hg|].
  assert (forall k, known name ((h ++ [Exch (GetDecision name) (inr d)]) ++ k)) as Hk'
    by (intros; by repeat apply known_app).
  case_match; [apply wp_ret; split; [done|]; rewrite <- (app_nil_r (h ++ _)); apply Hk'|].
  wp_step u Hu. split; [|apply Hk']. apply (Hu h d); [|done].
  change (sd_Name _) with (sd_Name d). by rewrite Hg.
Qed.

Lemma recordTransition_helpful ident t podFound pod h :
  wp any_call helpful (recordTransition r ident t podFound pod) succeeds h.
Proof.
  unfold recordTransition, appendTransitionWithRetry. apply wp_bind.
  eapply wp_mono; [|apply ensureDecisionCreated_helpful]. intros h1 err [-> Hk].
  apply wp_bind. eapply wp_mono; [|apply (wp_OnError _ _ _ _
    (fun _ h' => known (decisionName (id_UID ident)) h') (fun _ err => err = None)); [done|]].
  - intros h2 err ->. by apply wp_ret.
  - intros m h2 Hk2. eapply wp_mono; [|by apply appendTransition_once_helpful].
    by intros h3 err [-> ?].
Qed.

Lemma Reconcile_helpful req h : wp any_call helpful (Reconcile r req) succeeds h.
Proof.
  assert (forall events podFound pod h', wp any_call helpful
    (Reconcile_pod r events podFound pod) succeeds h') as Hpod.
  { intros events podFound pod h'. unfold Reconcile_pod.
    apply wp_bind, deriveTransitionM_wp; [done|]. intros k [[ident t]|] _ _.
    - apply recordTransition_helpful.
    - by apply wp_ret. }
  unfold Reconcile, listRelevantEvents. apply wp_bind. wp_step evs Hevs.
  destruct Hevs as [items ->]. apply wp_ret. wp_step g Hg. destruct g as [e|pod]; [|apply Hpod].
  rewrite Hg. apply Hpod.
Qed.

(** ** Lemmas: termination *)

(** [p'] is what is left of [p] after a call. *)
Definition prog_next {A} (p' p : prog A) : Prop :=
  match p with
  | Ret _ => False
  | Call c k => exists a, p' = k a
  end.

Lemma prog_next_wf {A} : well_founded (@prog_next A).
Proof.
  intros p. induction p as [b|c k IH]; constructor; intros p' Hp; [done|].
  destruct Hp as [a ->]. apply IH.
Qed.

(** One worker goes on or is done. *)
Definition workers_next (ws' ws : gmap NamespacedName thread) : Prop :=
  exists req th, ws !! req = Some th /\
    (ws' = delete req ws \/
     exists th', prog_next (th_prog th') (th_prog th) /\ ws' = <[req := th']> ws).

(** A worker more does not let the others run forever. *)
Lemma workers_next_insert ws req th :
  Acc workers_next ws -> ws !! req = None -> Acc workers_next (<[req := th]> ws).
Proof.
  intros Hws. remember (th_prog th) as p eqn:Hp. revert th Hp ws Hws.
  induction (prog_next_wf p) as [p _ IHp]. intros th -> ws Hws.
  induction Hws as [ws Hacc IHws]. intros Hreq. constructor.
  intros ws' (req' & th' & Hth' & Hnext). apply lookup_insert_Some in Hth' as [[<- <-]|[Hne Hth']].
  - destruct Hnext as [->|(th'' & Hnext & ->)].
    + rewrite delete_insert_id by done. by constructor.
    + rewrite insert_insert_eq. eapply IHp; [exact Hnext|done|by constructor|done].
  - assert (workers_next (delete req' ws) ws) as Hdel by (exists req', th'; by split; [|left]).
    destruct Hnext as [->|(th'' & Hnext & ->)].
    + rewrite delete_insert_ne by done. apply IHws; [done|]. by rewrite lookup_delete_ne.
    + rewrite insert_insert_ne by done. apply IHws.
      * exists req', th'. split; [done|]. right. by exists th''.
      * by rewrite lookup_insert_ne.
Qed.

Lemma workers_next_wf : well_founded workers_next.
Proof.
  intros ws. induction ws as [|req th ws Hreq IH] using map_ind.
  - constructor. intros ws' (req & th & Hth & _). by rewrite lookup_empty in Hth.
  - by apply workers_next_insert.
Qed.

(** ** Lemmas: workers that will succeed *)

Context (owner : UID -> NamespacedName) (stale : bool).

Lemma calm_loop s s' : calm stale s s' -> loop_step r owner stale s s'.
Proof. destruct 1; eauto using loop_inner, loop_take, loop_call, loop_done. Qed.

(** What a worker knows is there, and what it has just read is current. *)
Record informed (w : world) (req : NamespacedName) (h : list exchange) : Prop := {
  informed_known n : known n h -> is_Some (store w !! n);
  informed_last h0 n d : h = h0 ++ [Exch (GetDecision n) (inr d)] ->
    owns owner req n -> store w !! n = Some d;
}.

(** Such a worker will succeed. *)
Definition good_worker (w : world) (req : NamespacedName) (th : thread) : Prop :=
  wp any_call helpful (th_prog th) succeeds (th_history th) /\ informed w req (th_history th).

Lemma good_start w req : good_worker w req (Thread (Reconcile r req) (Reconcile r req) []).
Proof.
  split; [apply Reconcile_helpful|]. split; simpl.
  - intros n [(d & Hd)|(d & _ & [Hd|(err & _ & Hd)])]; by apply not_elem_of_nil in Hd.
  - intros h0 n d Hh. by destruct h0.
Qed.

(** Reconciles remove nothing. *)
Lemma call_keeps req w c a w' h n :
  api_step w c a w' -> reconcile_allows r req h c ->
  is_Some (store w !! n) -> is_Some (store w' !! n).
Proof.
  intros Hs Hc Hn. pose proof (api_unrelated _ _ _ _ Hs) as Hun.
  destruct c; try (by rewrite Hun); clear Hun.
  - destruct (api_create _ _ _ _ Hs) as [[-> _]|(_ & d' & _ & _ & ->)]; [done|].
    apply lookup_insert_is_Some'. by right.
  - destruct (api_update _ _ _ _ Hs) as [[-> _]|(cur & d' & _ & _ & _ & ->)]; [done|].
    apply lookup_insert_is_Some'. by right.
  - destruct Hc.
Qed.

(** Another worker's call leaves a good worker good. *)
Lemma good_other req req' w c a w' h th :
  api_step w c a w' -> reconcile_allows r req' h c -> Forall (owned_answer owner req') h ->
  req <> req' ->
  good_worker w req th -> good_worker w' req th.
Proof.
  intros Hs Hc Hh Hne [Hwp [Hknown Hlast]]. split; [done|]. split.
  - intros n Hn. eapply call_keeps; [done..|]. by apply Hknown.
  - intros h0 n d Heq Hn. specialize (Hlast h0 n d Heq Hn).
    destruct (call_untouched r owner req req' w c a w' h ∅ Hs Hc Hh Hne n Hn) as [->|[_ ?]];
      [done|set_solver].
Qed.

(** A truthful answer helps a good worker. *)
Lemma truthful_helpful req w c a w' h :
  api_step w c a w' -> truthful w c a -> reconcile_allows r req h c ->
  Forall (owned_answer owner req) h -> informed w req h -> helpful h c a.
Proof.
  intros Hs Ht Hc Hh [Hknown Hlast]. destruct c; simpl in *; try done.
  - destruct (store w !! name) as [d|] eqn:Hd.
    + subst a. by apply store_seen in Hd as [_ ?].
    + destruct Ht as (err & -> & Herr). split; [done|]. intros Hk%Hknown.
      rewrite Hd in Hk. by destruct Hk.
  - intros err ->. destruct (store w !! sd_Name d); [|done].
    by destruct Ht as (err' & [= ->] & ?).
  - intros h1 d1 Heq Hrv. destruct Hc as (ident & t & h0 & d0 & Ho & Heq0 & _ & ->).
    rewrite Heq0 in Heq. apply app_inj_tail in Heq as [_ Heq].
    pose proof (observed_owned owner _ _ _ _ Hh Ho) as Hid.
    assert (store w !! decisionName (id_UID ident) = Some d0) as Hst.
    { apply (Hlast h0); [done|]. by exists (id_UID ident). }
    change (sd_Name (set_Status _ d0)) with (sd_Name d0) in *.
    destruct (store_seen _ _ _ Hst) as [_ Hn]. rewrite Hn, Hst in Ht. by apply Ht.
Qed.

(** What a truthful answer shows to exist does. *)
Lemma truthful_known w x w' n :
  api_step w (ex_call x) (ex_answer x) w' -> truthful w (ex_call x) (ex_answer x) ->
  known n [x] -> is_Some (store w' !! n).
Proof.
  intros Hs Ht [(d & Hd)|(d & <- & [Hd|(err & He & Hd)])];
    apply list_elem_of_singleton in Hd; subst x; simpl in *.
  - pose proof (api_unrelated _ _ _ _ Hs) as Hun. simpl in Hun. rewrite Hun.
    destruct (store w !! n); [done|]. by destruct Ht as (err & ? & _).
  - destruct (api_create _ _ _ _ Hs) as [[_ ?]|(_ & d' & _ & _ & ->)]; [done|].
    rewrite lookup_insert_eq. by eexists.
  - destruct (api_create _ _ _ _ Hs) as [[-> _]|(_ & d' & _ & _ & ->)].
    + by destruct (store w !! sd_Name d).
    + rewrite lookup_insert_eq. by eexists.
Qed.

Lemma truthful_last w x w' n d :
  api_step w (ex_call x) (ex_answer x) w' -> truthful w (ex_call x) (ex_answer x) ->
  x = Exch (GetDecision n) (inr d) -> store w' !! n = Some d.
Proof.
  intros Hs Ht ->. simpl in *. pose proof (api_unrelated _ _ _ _ Hs) as Hun. simpl in Hun.
  rewrite Hun. destruct (store w !! n) as [d'|]; [by injection Ht as ->|].
  by destruct Ht as (err & ? & _).
Qed.

Lemma good_call req w c a w' p k h :
  api_step w c a w' -> truthful w c a -> reconcile_allows r req h c ->
  Forall (owned_answer owner req) h ->
  good_worker w req (Thread p (Call c k) h) ->
  good_worker w' req (Thread p (k a) (h ++ [Exch c a])).
Proof.
  intros Hs Ht Hc Hh [[_ Hwp] Hi]. simpl in *. split; simpl.
  - apply Hwp. by eapply truthful_helpful.
  - destruct Hi as [Hknown Hlast]. split.
    + intros n [Hn|Hn]%known_snoc; [eapply call_keeps; [done..|]; by apply Hknown|].
      by apply (truthful_known w (Exch c a)).
    + intros h0 n d [_ Heq]%app_inj_tail _. by apply (truthful_last w (Exch c a)).
Qed.

(** ** Lemmas: calm steps *)

(** All workers but those of [old] will succeed. *)
Definition good_but (old : gset NamespacedName) (s : loop) : Prop :=
  forall req th, lp_workers s !! req = Some th -> req ∉ old -> good_worker (lp_world s) req th.

Lemma good_but_call old w pods events q ws del req p c k h a w' :
  loop_ok r owner stale (Loop w pods events q ws del) ->
  ws !! req = Some (Thread p (Call c k) h) -> api_step w c a w' -> truthful w c a ->
  good_but old (Loop w pods events q ws del) ->
  good_but old (Loop w' pods events q (<[req := Thread p (k a) (h ++ [Exch c a])]> ws) del).
Proof.
  intros Hok Hth Hs Ht Hg. destruct (ok_workers _ _ _ _ Hok _ _ Hth) as [[Hc _] Hown _ _ _].
  intros req' th. simpl in *. rewrite lookup_insert_Some. intros [[<- <-]|[Hne Hth']] Hold.
  - eapply good_call; [done..|]. by apply (Hg req).
  - eapply (good_other req' req); [done..| |by apply (Hg req')]. done.
Qed.

(** Termination: first by the old workers left, then by the queue, then by the workers'
    programs. *)
Lemma calm_sn old s :
  loop_ok r owner stale s -> good_but old s -> sn (calm stale) s.
Proof.
  remember (size old) as u eqn:Hu. revert old Hu s.
  induction (lt_wf u) as [u _ IHold]. intros old -> s.
  remember (size (lp_queue s)) as m eqn:Hm. revert s Hm.
  induction (lt_wf m) as [m _ IHqueue]. intros s.
  remember (lp_workers s) as ws eqn:Hws. revert s Hws.
  induction (workers_next_wf ws) as [ws _ IHws]. intros s -> -> Hok Hgood.
  constructor. intros s' Hs'. pose proof Hs' as Hok'%calm_loop%loop_step_ok; [|done].
  destruct Hs' as [w pods events q ws del req Hq Hreq
    |w pods events q ws del req p c k h a w' Hth Hs Ha Ht
    |w pods events q ws del req p err h Hth]; simpl in *.
  - eapply IHqueue; [|reflexivity|done|]; simpl.
    + apply subset_size. set_solver.
    + intros req' th. simpl. rewrite lookup_insert_Some. intros [[<- <-]|[_ Hth]] Hold;
        [apply good_start|by apply Hgood].
  - eapply IHws; [|reflexivity|done|done|by eapply good_but_call].
    exists req, (Thread p (Call c k) h). split; [done|]. right. eexists. split; [|reflexivity].
    by exists a.
  - destruct (decide (req ∈ old)) as [Hin|Hin].
    + eapply (IHold (size (old ∖ {[req]}))); [|reflexivity|done|].
      * apply subset_size. set_solver.
      * intros req' th. simpl. intros [Hne Hth']%lookup_delete_Some Hold.
        apply Hgood; [done|]. set_solver.
    + destruct (Hgood _ _ Hth Hin) as [Herr _]. simpl in Herr. unfold wp, succeeds in Herr. subst err.
      eapply IHws; [|reflexivity|done|done|].
      * exists req, (Thread p (Ret None) h). split; [done|by left].
      * intros req' th. simpl. intros [Hne Hth']%lookup_delete_Some. by apply Hgood.
Qed.

(** ** Lemmas: progress *)

(** Any call of a reconcile can be answered, truthfully and from the caches. *)
Lemma live_call `{!LiveServer} s req h c :
  reconcile_allows r req h c ->
  exists a w', api_step (lp_world s) c a w' /\ cache_answers stale s c a /\
    truthful (lp_world s) c a.
Proof.
  intros Hc. destruct c; try (by destruct Hc);
    try (edestruct live_answer as (a & w' & Hs & Ht); [|exists a, w'; by split_and!]; exact I).
  - destruct (live_events (lp_world s) namespace nsName
        (indexed (lp_events s) namespace nsName)) as [w' Hs].
    eexists _, w'. split; [exact Hs|]. split; [|by eexists]. simpl. intros items Heq. by simplify_eq.
  - destruct (lp_pods s !! key) as [pod|] eqn:Hp.
    + destruct (live_pod (lp_world s) key (inr pod)) as [w' Hs]. by exists (inr pod), w'.
    + destruct (live_pod (lp_world s) key (inl (StatusError StatusReasonNotFound "not found")))
        as [w' Hs]. eexists _, w'. split_and!; [exact Hs|by intros _|by vm_compute].
  - destruct (live_answer (lp_world s) (GetDecision name) I) as (a & w' & Hs & Ht).
    exists a, w'. split; [done|]. split; [|done]. simpl in *. intros d -> _.
    destruct (store (lp_world s) !! name) as [d'|]; [by injection Ht as ->|].
    by destruct Ht as (err & ? & _).
Qed.

(** A loop that cannot go on has nothing to do. *)
Lemma calm_rest `{!LiveServer} s :
  loop_ok r owner stale s -> nf (calm stale) s -> lp_queue s = ∅ /\ lp_workers s = ∅.
Proof.
  intros Hok Hnf. assert (lp_workers s = ∅) as Hws.
  { apply map_empty. intros req. destruct (lp_workers s !! req) as [th|] eqn:Hth; [|done].
    exfalso. apply Hnf. destruct (ok_workers _ _ _ _ Hok _ _ Hth) as [Hwp _ _ _ _].
    destruct th as [p [err|c k] h]; simpl in Hwp; destruct s; simpl in *.
    - eexists. by eapply calm_done.
    - destruct Hwp as [Hc _].
      match goal with Hok : loop_ok _ _ _ ?s |- _ =>
        destruct (live_call s req h c Hc) as (a & w' & Hs & Ha & Ht) end.
      eexists. by eapply calm_call. }
  split; [|done]. apply leibniz_equiv, elem_of_equiv_empty. intros req Hreq. apply Hnf.
  destruct s; simpl in *; subst. eexists. apply calm_take; [exact Hreq|apply lookup_empty].
Qed.

Lemma calm_ok s s' : calm stale s s' -> loop_ok r owner stale s -> loop_ok r owner stale s'.
Proof. intros Hs. by eapply loop_step_ok, calm_loop. Qed.

Lemma calm_reaches s s' :
  rtc (calm stale) s s' -> loop_ok r owner stale s ->
  loop_ok r owner stale s' /\
  lp_pods s' = lp_pods s /\ lp_events s' = lp_events s /\ lp_deleted s' = lp_deleted s.
Proof.
  induction 1 as [|s s1 s' Hs _ IH]; [done|]. intros Hok.
  destruct (IH (calm_ok _ _ Hs Hok)) as (? & -> & -> & ->). by destruct Hs.
Qed.

(** ** Theorem *)

(** C4. The controller comes to rest: from any state it can reach, with any number of
    reconciles under way, once pods and Events stop changing, nothing is deleted and the
    server answers every call as its state says, the event loop takes only finitely many
    more steps, in whatever order its workers run; it never gets stuck before the queue
    is empty and no request is being processed; and then, with the caches as they were,
    every request is settled. *)
Theorem loop_comes_to_rest `{!LiveServer} s :
  loop_reachable r owner stale s ->
  sn (calm stale) s /\
  forall s', rtc (calm stale) s s' -> nf (calm stale) s' ->
    lp_queue s' = ∅ /\ lp_workers s' = ∅ /\
    lp_pods s' = lp_pods s /\ lp_events s' = lp_events s /\ lp_deleted s' = lp_deleted s /\
    forall req, settled stale s' req.
Proof.
  intros Hok%loop_reachable_ok. split.
  - apply (calm_sn (dom (lp_workers s))); [done|]. intros req th Hth Hreq.
    destruct Hreq. by apply elem_of_dom_2 in Hth.
  - intros s' Hs' Hnf. destruct (calm_reaches _ _ Hs' Hok) as (Hok' & ? & ? & ?).
    destruct (calm_rest _ Hok' Hnf) as [Hq Hws]. split_and!; [done..|].
    intros req. apply (ok_settled _ _ _ _ Hok'); [by rewrite Hq; set_solver|by rewrite Hws].
Qed.
End quiesce.
