(* ===== verification/Deployment.v ===== *)
(** * The deployment: the controller, the retention sweep and a clock

    The manager runs the event loop of [Loop]; the CronJob of [cmd/sweep] starts the sweep
    again and again, one at a time; the extender and the dashboard call the same API
    server. This file has all of them under one clock, and shows what they achieve
    together: no record goes before its label says so, and no outcome before its
    retention window has passed. *)

From S2P Require Import Prelude Strconv GoTime GoStrings Api Decision Effects.
From S2P Require Import VolumeContext Controller ReconcileProps Sweep System Loop Quiesce.

Section deployment.
Context `{!RetryOnError} `{!ApiServer} (r : SchedulingDecisionReconciler).
Context (owner : UID -> NamespacedName) (stale : bool).

(** ** The deployment *)

Record deployment := Deployment {
  dp_loop : loop;                (* the manager, and the API server *)
  dp_sweep : option thread;      (* the sweep that is running *)
  dp_clock : Time;
}.

Abbreviation dp_world s := (lp_world (dp_loop s)).

(** [Now] is answered by the clock. *)
Definition clock_answer (now : Time) (c : call) : answer c -> Prop :=
  match c with Now => fun t => t = now | _ => fun _ => True end.

(** The sweep's client has no cache: a list is what is stored. *)
Definition direct_answer (w : world) (c : call) : answer c -> Prop :=
  match c with
  | ListDecisions => fun a => forall ds, a = inr ds -> ds ≡ₚ (map_to_list (store w)).*2
  | _ => fun _ => True
  end.

(** After a call of another client than the controller. *)
Definition with_world (l : loop) (c : call) (w' : world) : loop :=
  Loop w' (lp_pods l) (lp_events l) (lp_queue l) (lp_workers l) (lp_deleted l ∪ removes c).

Inductive deploy_step : deployment -> deployment -> Prop :=
  (* the controller *)
  | deploy_inner l l' sw now :
      inner_step r owner l l' -> deploy_step (Deployment l sw now) (Deployment l' sw now)
  | deploy_call w pods events q ws del req p c k h a w' sw now :
      ws !! req = Some (Thread p (Call c k) h) -> api_step w c a w' ->
      cache_answers stale (Loop w pods events q ws del) c a -> clock_answer now c a ->
      deploy_step (Deployment (Loop w pods events q ws del) sw now)
        (Deployment (Loop w' pods events q (<[req := Thread p (k a) (h ++ [Exch c a])]> ws) del)
           sw now)
  (* the CronJob starts a sweep if none is running; it ends, or is killed *)
  | deploy_sweep l now :
      deploy_step (Deployment l None now)
                  (Deployment l (Some (Thread (sweep now) (sweep now) [])) now)
  | deploy_sweep_call l p c k h a w' now :
      api_step (lp_world l) c a w' -> direct_answer (lp_world l) c a ->
      deploy_step (Deployment l (Some (Thread p (Call c k) h)) now)
                  (Deployment (with_world l c w') (Some (Thread p (k a) (h ++ [Exch c a]))) now)
  | deploy_sweep_gone l sw now : deploy_step (Deployment l sw now) (Deployment l None now)
  (* the extender and the dashboard neither write nor delete decisions *)
  | deploy_other l c a w' sw now :
      api_step (lp_world l) c a w' -> writes_decision c = false -> removes c = ∅ ->
      deploy_step (Deployment l sw now) (Deployment (with_world l c w') sw now)
  | deploy_tick l sw now now' :
      instant now <= instant now' -> rfc3339 now' ->
      deploy_step (Deployment l sw now) (Deployment l sw now').

(** The expiry label is what a reconcile that read the clock by [now] writes. *)
Definition stamped (now : Time) (d : SchedulingDecision) : Prop :=
  exists t, rfc3339 t /\ instant t <= instant now /\
    sd_Labels d !! ExpiresAtLabel = Some (FormatInt (Time_Unix (Add t (retentionWindow r)))).

(** What is there already has been written by such a deployment. *)
Definition deploy_initial (s : deployment) : Prop :=
  loop_initial owner (dp_loop s) /\ lp_deleted (dp_loop s) = ∅ /\ dp_sweep s = None /\
  rfc3339 (dp_clock s) /\ forall d, seen (dp_world s) d -> stamped (dp_clock s) d.

Definition deploy_reachable (s : deployment) : Prop :=
  exists s0, deploy_initial s0 /\ rtc deploy_step s0 s.

(** ** The invariant *)

(** The clock readings of a reconcile are past. *)
Definition past_readings (now : Time) (h : list exchange) : Prop :=
  forall t, Exch Now t ∈ h -> rfc3339 t /\ instant t <= instant now.

(** Every item of the sweep's list is still to be deleted as it was listed, but for what
    has been appended to it, unless its deletion has been tried. *)
Definition listed (w : world) (h : list exchange) (items : list SchedulingDecision) : Prop :=
  NoDup (sd_Name <$> items) /\
  forall d, d ∈ items -> seen w d /\
    (DeleteDecision d ∈ writes_of h \/
     exists d', store w !! sd_Name d = Some d' /\ sd_Labels d' = sd_Labels d).

Record sweep_ok (w : world) (now : Time) (th : thread) : Prop := {
  sweep_started : exists now0, rfc3339 now0 /\ instant now0 <= instant now /\
    wp (sweep_allows now0) any_answer (th_prog th) (fun _ _ => True) (th_history th);
  sweep_listed items :
    head (th_history th) = Some (Exch ListDecisions (inr items)) ->
    listed w (th_history th) items;
}.

(** A version of the record has expired. *)
Definition has_expired (w : world) (now : Time) (n : string) : Prop :=
  exists d, seen w d /\ sd_Name d = n /\ isExpired (sd_Labels d) now = inr true.

Record deploy_ok (s : deployment) : Prop := {
  dok_loop : loop_ok r owner stale (dp_loop s);
  dok_clock : rfc3339 (dp_clock s);
  dok_readings req th : lp_workers (dp_loop s) !! req = Some th ->
    past_readings (dp_clock s) (th_history th);
  dok_stamped d : seen (dp_world s) d -> stamped (dp_clock s) d;
  dok_sweep th : dp_sweep s = Some th -> sweep_ok (dp_world s) (dp_clock s) th;
  dok_deleted n : n ∈ lp_deleted (dp_loop s) -> has_expired (dp_world s) (dp_clock s) n;
}.

(** ** Lemmas: calls of the controller *)

(** A reconcile's call keeps every record, but for what it appends. *)
Lemma call_grows req w c a w' h deleted n d :
  versions_ok w deleted -> api_step w c a w' -> reconcile_allows r req h c ->
  Forall (owned_answer owner req) h -> read_seen w h -> store w !! n = Some d ->
  exists d', store w' !! n = Some d' /\ sd_UID d' = sd_UID d /\ grows d d'.
Proof.
  intros Hv Hs Hc Hh Hseen Hn. pose proof (api_unrelated _ _ _ _ Hs) as Hun.
  assert (store w' = store w ->
    exists d', store w' !! n = Some d' /\ sd_UID d' = sd_UID d /\ grows d d') as Hsame
    by (intros ->; by exists d).
  destruct c; try (by apply Hsame); clear Hun.
  - destruct (api_create _ _ _ _ Hs) as [[? _]|(Hfree & d' & _ & _ & Hw)]; [by apply Hsame|].
    exists d. rewrite Hw, lookup_insert_ne; [done|]. intros Heq. by rewrite Heq, Hn in Hfree.
  - destruct (api_update _ _ _ _ Hs) as [[? _]|(cur & d' & Hcur & Hrv & Hu & Hw)];
      [by apply Hsame|].
    destruct (decide (n = sd_Name d0)) as [->|Hne];
      [|exists d; by rewrite Hw, lookup_insert_ne].
    exists d'. rewrite Hw, lookup_insert_eq. rewrite Hn in Hcur. injection Hcur as <-.
    destruct Hc as (ident & t & h0 & d1 & _ & -> & _ & ->).
    rewrite Forall_forall in Hh. change (sd_Name (set_Status _ d1)) with (sd_Name d1) in *.
    assert (d = d1) as <-.
    { destruct (store_seen _ _ _ Hn). eapply seen_version; [done| |done..].
      apply (Hseen (decisionName (id_UID ident))). set_solver. }
    destruct Hu as (_ & Hl & Huid & Hsp & Hst). split_and!; [done|done|]. split_and!; [done|done|].
    rewrite Hst. cbn [sd_Status set_Status].
    rewrite persist_status_append by by eapply versions_persisted. by eexists.
Qed.

(** It stamps what it creates with a past reading. *)
Lemma call_stamped req w c a w' h now d :
  api_step w c a w' -> reconcile_allows r req h c -> past_readings now h ->
  (forall d', seen w d' -> stamped now d') -> seen w' d -> stamped now d.
Proof.
  intros Hs Hc Hpast Hst Hd. destruct (seen_only _ _ _ _ _ Hs Hd) as [?|Hn]; [by apply Hst|].
  pose proof (api_unrelated _ _ _ _ Hs) as Hun.
  assert (forall d', store w !! sd_Name d = Some d' -> seen w d') as Hsw
    by (intros d' ?; by eapply store_seen).
  destruct c; try (rewrite Hun in Hn; by apply Hst, Hsw); clear Hun.
  - destruct (api_create _ _ _ _ Hs) as [[Hw _]|(_ & d' & (_ & Hl & _) & _ & Hw)];
      rewrite Hw in Hn; [by apply Hst, Hsw|].
    apply lookup_insert_Some in Hn as [[_ <-]|[_ Hn]]; [|by apply Hst, Hsw].
    destruct Hc as (ident & t & now0 & v & _ & Hnow & ->). destruct (Hpast _ Hnow).
    exists now0. by rewrite Hl.
  - destruct (api_update _ _ _ _ Hs) as [[Hw _]|(cur & d' & Hcur & _ & (_ & Hl & _) & Hw)];
      rewrite Hw in Hn; [by apply Hst, Hsw|].
    apply lookup_insert_Some in Hn as [[Heq <-]|[_ Hn]]; [|by apply Hst, Hsw].
    rewrite Heq in Hcur. destruct (Hst _ (Hsw _ Hcur)) as (t & ? & ? & Hlab).
    exists t. by rewrite Hl.
  - destruct Hc.
Qed.

Lemma call_readings now c a h :
  rfc3339 now -> clock_answer now c a -> past_readings now h ->
  past_readings now (h ++ [Exch c a]).
Proof.
  intros Hnow Ha Hh t [Ht|Ht%list_elem_of_singleton]%elem_of_app; [by apply Hh|].
  apply (f_equal (fun x => match x with Exch c a =>
    match c return answer c -> option Time with Now => Some | _ => fun _ => None end a end)) in Ht.
  destruct c; simplify_eq/=. by split.
Qed.

(** ** Lemmas: the steps of the event loop *)

Lemma deploy_loop s s' :
  deploy_step s s' -> deploy_ok s -> loop_ok r owner stale (dp_loop s').
Proof.
  intros Hs [Hok _ _ _ Hsw _]. destruct Hs; simpl in *; try done.
  - eapply loop_step_ok; [|exact Hok]. by apply loop_inner.
  - eapply loop_step_ok; [|exact Hok]. by eapply loop_call.
  - eapply loop_step_ok; [|exact Hok]. destruct l. eapply loop_other; [done|].
    destruct (sweep_started _ _ _ (Hsw _ eq_refl)) as (now0 & _ & _ & [Hc _]). by destruct c.
  - eapply loop_step_ok; [|exact Hok]. destruct l. by eapply loop_other.
Qed.

(** ** Lemmas: the sweep *)

Lemma stored_names_NoDup w : NoDup (sd_Name <$> (map_to_list (store w)).*2).
Proof.
  assert (sd_Name <$> (map_to_list (store w)).*2 = (map_to_list (store w)).*1) as ->.
  { rewrite <- list_fmap_compose. apply list_fmap_ext. intros i [n d] Hi. simpl.
    apply list_elem_of_lookup_2, elem_of_map_to_list in Hi. by eapply store_seen. }
  apply NoDup_fst_map_to_list.
Qed.

Lemma listed_now w ds a :
  ds ≡ₚ (map_to_list (store w)).*2 -> listed w [Exch ListDecisions a] ds.
Proof.
  intros Hds. split; [rewrite Hds; apply stored_names_NoDup|]. intros d. rewrite Hds.
  intros ([n d'] & -> & Hd%elem_of_map_to_list)%list_elem_of_fmap. simpl.
  destruct (store_seen _ _ _ Hd) as [? <-]. split; [done|]. right. by exists d'.
Qed.

(** What keeps versions and records, or has their deletion tried, keeps a list. *)
Lemma listed_later w w' h k items :
  listed w h items -> (forall d, seen w d -> seen w' d) ->
  (forall n d, store w !! n = Some d -> (exists d', store w' !! n = Some d' /\
     sd_Labels d' = sd_Labels d) \/ exists d0, DeleteDecision d0 ∈ writes_of k /\ sd_Name d0 = n) ->
  (forall d0, DeleteDecision d0 ∈ writes_of k -> d0 ∈ items) ->
  listed w' (h ++ k) items.
Proof.
  intros [Hnd Hl] Hseen Hst Hk. split; [done|]. intros d Hd. destruct (Hl d Hd) as [Hs Hor].
  split; [by apply Hseen|]. rewrite writes_of_app. destruct Hor as [?|(d' & Hd' & Hlab)];
    [left; set_solver|]. destruct (Hst _ _ Hd') as [(d2 & ? & ?)|(d0 & Hin & Hn)].
  - right. exists d2. split; [done|congruence].
  - left. apply elem_of_app. right.
    assert (d0 = d) as ->; [|done]. eapply NoDup_fmap_elem; [exact Hnd|by apply Hk|done|done].
Qed.

(** What the sweep is about to delete has expired, also as it is stored. *)
Lemma sweep_next w now p d k h :
  rfc3339 now -> sweep_ok w now (Thread p (Call (DeleteDecision d) k) h) ->
  seen w d /\ isExpired (sd_Labels d) now = inr true /\
  exists d', store w !! sd_Name d = Some d' /\ sd_Labels d' = sd_Labels d.
Proof.
  intros Hnow [(now0 & Hnow0 & Hle & [Hc _]) Hl]. simpl in *.
  destruct Hc as (items & Hh & Hd & He & [rest Hpre]). destruct (Hl items Hh) as [Hnd Hin].
  destruct (Hin d Hd) as [Hseen Hor]. split; [done|]. split.
  { eapply isExpired_mono; [by apply rfc3339_valid|by apply rfc3339_valid|exact Hle|done]. }
  destruct Hor as [Htried|?]; [exfalso|done].
  assert (NoDup (DeleteDecision <$> to_delete now0 items)) as Hnd'.
  { apply NoDup_fmap_2; [by intros ?? [=]|]. by eapply NoDup_filter, NoDup_fmap_1. }
  rewrite Hpre in Hnd'. apply NoDup_app in Hnd' as (Hnd' & _ & _).
  apply NoDup_app in Hnd' as (_ & Hne & _). apply (Hne _ Htried). set_solver.
Qed.

Lemma exch_list_inj a a' : Exch ListDecisions a = Exch ListDecisions a' -> a = a'.
Proof.
  intros Heq. apply (f_equal (fun x => match x with Exch c a =>
    match c return answer c -> option (answer ListDecisions) with
    | ListDecisions => Some | _ => fun _ => None end a end)) in Heq.
  by injection Heq.
Qed.

(** Others keep the list of the sweep. *)
Lemma sweep_undisturbed w w' now th :
  (forall d, seen w d -> seen w' d) ->
  (forall n d, store w !! n = Some d ->
     exists d', store w' !! n = Some d' /\ sd_UID d' = sd_UID d /\ grows d d') ->
  sweep_ok w now th -> sweep_ok w' now th.
Proof.
  intros Hseen Hst [Hwp Hl]. split; [done|]. intros items Hh.
  rewrite <- (app_nil_r (th_history th)).
  eapply listed_later; [by apply Hl|done| |by intros ? ?%not_elem_of_nil].
  intros n d Hd. left. destruct (Hst n d Hd) as (d' & ? & _ & _ & ? & _). by exists d'.
Qed.

Lemma sweep_call w now p c k h a w' :
  sweep_ok w now (Thread p (Call c k) h) -> api_step w c a w' -> direct_answer w c a ->
  sweep_ok w' now (Thread p (k a) (h ++ [Exch c a])).
Proof.
  intros [(now0 & Hnow0 & Hle & [Hc Hwp]) Hl] Hs Ha. simpl in *. split; simpl.
  { exists now0. split_and!; [done|done|]. by apply Hwp. }
  intros items Hh. destruct h as [|x h].
  - clear Hwp Hl. destruct c; simplify_eq/=.
    pose proof (api_unrelated _ _ _ _ Hs) as Hun. simpl in Hun.
    apply listed_now. rewrite Hun. by apply Ha, exch_list_inj.
  - injection Hh as ->. clear Hwp.
    eapply listed_later; [by apply Hl|intros d; by eapply seen_mono| |].
    + assert (writes_decision c = false) as Hq by by destruct c.
      intros n d Hn. destruct (other_stores w c a w' Hs Hq) as [->|(d0 & -> & ->)];
        [left; by exists d|].
      destruct (decide (n = sd_Name d0)) as [->|Hne]; [right; exists d0; set_solver|].
      left. exists d. by rewrite lookup_delete_ne.
    + intros d0. destruct c; try (by destruct Hc); try (by intros ?%not_elem_of_nil).
      intros Heq%list_elem_of_singleton. injection Heq as ->.
      destruct Hc as (items' & Hh' & Hd & _). apply (inj Some), exch_list_inj in Hh'.
      by simplify_eq.
Qed.

Lemma sweep_later w now now' th :
  instant now <= instant now' -> sweep_ok w now th -> sweep_ok w now' th.
Proof.
  intros Hle [(now0 & ? & ? & ?) Hl]. split; [|done]. exists now0. split_and!; [done|lia|done].
Qed.

(** ** Lemmas: preservation *)

Lemma has_expired_later w w' now now' n :
  rfc3339 now -> rfc3339 now' -> instant now <= instant now' ->
  (forall d, seen w d -> seen w' d) -> has_expired w now n -> has_expired w' now' n.
Proof.
  intros Hr Hr' Hle Hseen (d & Hd & Hn & He). exists d. split_and!; [by apply Hseen|done|].
  apply (isExpired_mono _ now); [by apply rfc3339_valid|by apply rfc3339_valid|done|done].
Qed.

Lemma stamped_later now now' d : instant now <= instant now' -> stamped now d -> stamped now' d.
Proof. intros Hle (t & ? & ? & ?). exists t. split_and!; [done|lia|done]. Qed.

Lemma other_stamped w c a w' now d :
  api_step w c a w' -> writes_decision c = false ->
  (forall d', seen w d' -> stamped now d') -> seen w' d -> stamped now d.
Proof.
  intros Hs Hq Hst Hd. destruct (seen_only _ _ _ _ _ Hs Hd) as [?|Hn]; [by apply Hst|].
  apply Hst. destruct (other_stores w c a w' Hs Hq) as [Hw|(d0 & _ & Hw)]; rewrite Hw in Hn;
    [by eapply store_seen|]. apply lookup_delete_Some in Hn as [_ Hn]. by eapply store_seen.
Qed.

(** Another client's call, that removes only what has expired. *)
Lemma other_call_ok l c a w' sw sw' now :
  deploy_ok (Deployment l sw now) -> api_step (lp_world l) c a w' -> writes_decision c = false ->
  (forall n, n ∈ removes c -> has_expired (lp_world l) now n) ->
  (forall th, sw' = Some th -> sweep_ok w' now th) ->
  loop_ok r owner stale (with_world l c w') ->
  deploy_ok (Deployment (with_world l c w') sw' now).
Proof.
  intros [_ Hclk Hrd Hst _ Hdel] Hs Hq Hrem Hsw Hok. simpl in *. split; simpl; try done.
  - intros d. by eapply other_stamped.
  - intros n Hn.
    apply (has_expired_later (lp_world l) _ now); [done|done|lia|intros d; by eapply seen_mono|].
    apply elem_of_union in Hn as [?|?]; auto.
Qed.

(** Steps without calls. *)
Lemma inner_keeps l l' :
  inner_step r owner l l' -> lp_world l' = lp_world l /\ lp_deleted l' = lp_deleted l.
Proof. by destruct 1. Qed.

Lemma inner_readings l l' now :
  inner_step r owner l l' ->
  (forall req th, lp_workers l !! req = Some th -> past_readings now (th_history th)) ->
  forall req th, lp_workers l' !! req = Some th -> past_readings now (th_history th).
Proof.
  intros Hin Hrd req' th. destruct Hin; simpl in *; try (by apply Hrd).
  - intros [[<- <-]|[_ ?]]%lookup_insert_Some; [by intros t ?%not_elem_of_nil|by eapply Hrd].
  - intros [_ ?]%lookup_delete_Some. by eapply Hrd.
  - by rewrite lookup_empty.
Qed.

(** The call of a worker. *)
Lemma worker_call_ok w pods events q ws del req p c k h a w' sw now :
  ws !! req = Some (Thread p (Call c k) h) -> api_step w c a w' -> clock_answer now c a ->
  deploy_ok (Deployment (Loop w pods events q ws del) sw now) ->
  loop_ok r owner stale (Loop w' pods events q (<[req := Thread p (k a) (h ++ [Exch c a])]> ws) del) ->
  deploy_ok (Deployment (Loop w' pods events q (<[req := Thread p (k a) (h ++ [Exch c a])]> ws) del)
               sw now).
Proof.
  intros Hth Hs Ha [Hok Hclk Hrd Hst Hsw Hdel] Hok'. simpl in *.
  destruct (ok_workers _ _ _ _ Hok _ _ Hth) as [[Hc _] Hown Hseen _ _]. simpl in *.
  assert (forall d, seen w d -> seen w' d) as Hmono by (intros d; by eapply seen_mono).
  split; simpl; [done|done|..].
  - intros req' th [[<- <-]|[_ Hth']]%lookup_insert_Some; [|by eapply Hrd].
    apply call_readings; [done|done|]. by apply (Hrd _ _ Hth).
  - intros d. eapply call_stamped; [done|done|by apply (Hrd _ _ Hth)|done].
  - intros th Hsth. eapply sweep_undisturbed; [exact Hmono| |by apply Hsw].
    intros n d. eapply call_grows; [apply (ok_versions _ _ _ _ Hok)|done..].
  - intros n Hn. by apply (has_expired_later w _ now); [..|apply Hdel].
Qed.

Lemma deploy_step_ok s s' : deploy_step s s' -> deploy_ok s -> deploy_ok s'.
Proof.
  intros Hs Hd. pose proof (deploy_loop _ _ Hs Hd) as Hok'.
  pose proof Hd as [Hok Hclk Hrd Hst Hsw Hdel].
  destruct Hs as [l l' sw now Hin|w pods events q ws del req p c k h a w' sw now Hth Hs Ha Hnow
    |l now|l p c k h a w' now Hs Ha|l sw now|l c a w' sw now Hs Hq Hrem|l sw now now' Hle Hr];
    simpl in *.
  - destruct (inner_keeps _ _ Hin) as [Hw Hdl]. split; simpl; rewrite ?Hw, ?Hdl; try done.
    by eapply inner_readings.
  - by apply (worker_call_ok w _ _ _ _ _ _ _ _ _ _ _ _ _ _ Hth Hs Hnow Hd).
  - split; simpl; [done..| |done]. intros th [= <-]. split; simpl; [|done].
    exists now. split_and!; [done|lia|]. eapply wp_mono; [|apply sweep_wp]. done.
  - pose proof (Hsw _ eq_refl) as Hsth.
    eapply other_call_ok; [exact Hd|exact Hs| | |by intros th [= <-]; eapply sweep_call|exact Hok'].
    + destruct (sweep_started _ _ _ Hsth) as (now0 & _ & _ & [Hc _]). by destruct c.
    + intros n Hn. destruct c; simpl in Hn; try set_solver.
      apply elem_of_singleton in Hn as ->. destruct (sweep_next _ _ _ _ _ _ Hclk Hsth) as (? & ? & _).
      by exists d.
  - split; simpl; [done..| |done]. by intros th.
  - eapply other_call_ok; [exact Hd|exact Hs|done| | |exact Hok'].
    + rewrite Hrem. by intros n ?%not_elem_of_empty.
    + intros th Hth. eapply sweep_undisturbed; [intros d; by eapply seen_mono| |by apply Hsw].
      intros n d Hn. exists d. destruct (other_stores _ _ _ _ Hs Hq) as [->|(d0 & -> & _)]; [done|].
      simpl in Hrem. set_solver.
  - split; simpl; [done|done|..].
    + intros req th Hth t Ht. destruct (Hrd _ _ Hth t Ht). split; [done|lia].
    + intros d Hs. by eapply stamped_later, Hst.
    + intros th Hth. by eapply sweep_later, Hsw.
    + intros n Hn. by apply (has_expired_later (lp_world l) _ now); [..|apply Hdel].
Qed.

Lemma deploy_reachable_ok s : deploy_reachable s -> deploy_ok s.
Proof.
  intros (s0 & (Hi & Hdel & Hsw & Hclk & Hst) & Hs).
  assert (deploy_ok s0) as Hok.
  { split; [|done| |done| |].
    - apply loop_reachable_ok. by exists (dp_loop s0).
    - destruct Hi as (w & pods & events & deleted & _ & _ & Heq). intros req th.
      rewrite Heq. simpl. by rewrite lookup_empty.
    - rewrite Hsw. by intros th.
    - rewrite Hdel. by intros n ?%not_elem_of_empty. }
  clear Hi Hdel Hsw Hclk Hst. induction Hs as [|x y z Hxy _ IH]; [done|].
  by eapply IH, deploy_step_ok.
Qed.

(** ** Lemmas: a record that has not expired *)

Lemma step_keeps s s' n d :
  deploy_step s s' -> deploy_ok s -> store (dp_world s) !! n = Some d ->
  isExpired (sd_Labels d) (dp_clock s') <> inr true ->
  exists d', store (dp_world s') !! n = Some d' /\ sd_UID d' = sd_UID d /\ grows d d'.
Proof.
  intros Hs [Hok Hclk _ _ Hsw _] Hn He.
  destruct Hs as [l l' sw now Hin|w pods events q ws del req p c k h a w' sw now Hth Hs Ha Hnow
    |l now|l p c k h a w' now Hs Ha|l sw now|l c a w' sw now Hs Hq Hrem|l sw now now' Hle Hr];
    simpl in *; try by exists d.
  - exists d. by destruct Hin.
  - destruct (ok_workers _ _ _ _ Hok _ _ Hth) as [[Hc _] Hown Hseen _ _].
    eapply call_grows; [apply (ok_versions _ _ _ _ Hok)|done..].
  - pose proof (Hsw _ eq_refl) as Hsth.
    assert (writes_decision c = false) as Hq
      by (destruct (sweep_started _ _ _ Hsth) as (now0 & _ & _ & [Hc _]); by destruct c).
    destruct (other_stores _ _ _ _ Hs Hq) as [->|(d0 & -> & ->)]; [by exists d|].
    destruct (decide (n = sd_Name d0)) as [->|Hne]; [|exists d; by rewrite lookup_delete_ne].
    destruct (sweep_next _ _ _ _ _ _ Hclk Hsth) as (_ & He0 & d' & Hd' & Hl). simplify_eq.
    by rewrite Hl in He.
  - exists d. destruct (other_stores _ _ _ _ Hs Hq) as [->|(d0 & -> & _)]; [done|].
    simpl in Hrem. set_solver.
Qed.

Lemma clock_steps s s' :
  rtc deploy_step s s' -> deploy_ok s ->
  deploy_ok s' /\ instant (dp_clock s) <= instant (dp_clock s').
Proof.
  induction 1 as [|s s1 s' Hs _ IH]; [done|]. intros Hok.
  destruct (IH (deploy_step_ok _ _ Hs Hok)) as [? ?]. split; [done|].
  destruct Hs; simpl in *; lia.
Qed.

Lemma steps_keep s s' n d :
  rtc deploy_step s s' -> deploy_ok s -> store (dp_world s) !! n = Some d ->
  isExpired (sd_Labels d) (dp_clock s') <> inr true ->
  exists d', store (dp_world s') !! n = Some d' /\ sd_UID d' = sd_UID d /\ grows d d'.
Proof.
  intros Hs. revert d. induction Hs as [|s s1 s' Hs Hs' IH]; intros d Hok Hn He; [by exists d|].
  pose proof (deploy_step_ok _ _ Hs Hok) as Hok1. destruct (clock_steps _ _ Hs' Hok1) as [Hok' Hle].
  destruct (step_keeps s s1 n d Hs Hok Hn) as (d1 & Hn1 & Hu1 & Hg1).
  { intros He1. apply He. apply (isExpired_mono _ (dp_clock s1)); [..|exact Hle|exact He1];
      by apply rfc3339_valid, dok_clock. }
  destruct (IH d1 Hok1 Hn1) as (d' & ? & Hu & Hg); [by destruct Hg1 as (_ & -> & _)|].
  exists d'. split_and!; [done|congruence|by etrans].
Qed.

(** The window that began when the record was made has passed. *)
Lemma expired_window w now n :
  in_int64 (RetentionWindow r) -> rfc3339 now -> (forall d, seen w d -> stamped now d) ->
  has_expired w now n ->
  exists d created, seen w d /\ sd_Name d = n /\ rfc3339 created /\
    sd_Labels d !! ExpiresAtLabel = Some (FormatInt (Time_Unix (Add created (retentionWindow r)))) /\
    instant created + retentionWindow r < instant now + Second.
Proof.
  intros Hr Hnow Hst (d & Hd & Hn & He). destruct (Hst d Hd) as (t & Ht & _ & Hl).
  exists d, t. split; [done|]. split; [done|]. split; [done|]. split; [done|].
  rewrite (label_expired t _ _ now Ht (retentionWindow_range r Hr) (rfc3339_valid _ Hnow) Hl) in He.
  injection He as He%bool_decide_eq_true. pose proof (whole_seconds (instant t + retentionWindow r)).
  lia.
Qed.

(** ** Theorems *)

(** C6. Retention is safe: with the controller, one sweep at a time, the extender and the
    dashboard running side by side, a record that is stored stays stored, as the same
    object, its spec and labels unchanged and its history only growing, until the clock
    reaches the expiry its label names: no sweep deletes it before, whatever calls fail,
    whenever sweeps are started or killed and the controller restarts. *)
Theorem kept_until_expiry s s' n d :
  deploy_reachable s -> rtc deploy_step s s' -> store (dp_world s) !! n = Some d ->
  isExpired (sd_Labels d) (dp_clock s') <> inr true ->
  exists d', store (dp_world s') !! n = Some d' /\ sd_UID d' = sd_UID d /\
    sd_Spec d' = sd_Spec d /\ sd_Labels d' = sd_Labels d /\
    st_Transitions (sd_Status d) `prefix_of` st_Transitions (sd_Status d').
Proof. intros Hr Hs. apply steps_keep; [done|by apply deploy_reachable_ok]. Qed.

(** C5. End to end: in every state that the deployment can reach, a request that is neither
    queued nor being processed has the outcome that its pod and Events show in the history
    of its record (at the end, if reads do not lag); or they show none; or a record of that
    pod was made a whole retention window ago, to the second, so that a sweep may have
    deleted it. *)
Theorem outcome_kept_for_window s req :
  in_int64 (RetentionWindow r) -> deploy_reachable s ->
  req ∉ lp_queue (dp_loop s) -> lp_workers (dp_loop s) !! req = None ->
  exists podFound pod events now,
    cached_pod (lp_pods (dp_loop s)) req podFound pod /\
    events ≡ₚ cached_events (lp_events (dp_loop s)) req /\
    match deriveTransition now pod podFound events with
    | None => True
    | Some (ident, t) => let n := decisionName (id_UID ident) in
        (exists d, store (dp_world s) !! n = Some d /\ shows stale t d) \/
        exists d created, seen (dp_world s) d /\ sd_Name d = n /\ rfc3339 created /\
          sd_Labels d !! ExpiresAtLabel =
            Some (FormatInt (Time_Unix (Add created (retentionWindow r)))) /\
          instant created + retentionWindow r < instant (dp_clock s) + Second
    end.
Proof.
  intros Hr [Hok Hclk _ Hst _ Hdel]%deploy_reachable_ok Hq Hws.
  destruct (ok_settled _ _ _ _ Hok req Hq Hws) as (pf & pod & evs & now & Hp & He & Hd).
  exists pf, pod, evs, now. split_and!; [done..|].
  destruct (deriveTransition now pod pf evs) as [[ident t]|]; [|done]. cbn zeta.
  destruct Hd as [?|[Hd _]]; [by left|right]. by apply expired_window, Hdel.
Qed.
End deployment.
