(* ===== verification/Converge.v ===== *)
(** * Convergence: what the programs achieve on a reliable API server

    The theorems of [ReconcileProps] and [System] hold whatever the server answers.
    This file has the other half: against a server that answers reads with its
    current state and accepts valid writes, the programs end, succeed, and leave
    the records their specification names. [ReliableServer] is that server's
    interface, [total] the logic of total correctness for programs run against it. *)

From S2P Require Import Prelude Strconv GoTime GoStrings Api Decision Effects.
From S2P Require Import VolumeContext Controller ReconcileProps Sweep Http Extender System.

(** ** Total correctness *)

(** Run against [srv] from [w] after the history [h], [p] is answered throughout and
    returns in a situation satisfying [Q]. *)
Fixpoint total {W A} (srv : server W) (p : prog A) (h : list exchange) (w : W)
    (Q : list exchange -> A -> W -> Prop) : Prop :=
  match p with
  | Ret a => Q h a w
  | Call c k => exists r w', srv c w = (Some r, w') /\ total srv (k r) (h ++ [Exch c r]) w' Q
  end.

Section total_rules.
Context {W : Type} (srv : server W).

Lemma total_ret {A} (a : A) h w (Q : list exchange -> A -> W -> Prop) :
  Q h a w -> total srv (mret a) h w Q.
Proof. done. Qed.

Lemma total_bind {A B} (p : prog A) (f : A -> prog B) h w Q :
  total srv p h w (fun h' a w' => total srv (f a) h' w' Q) -> total srv (p ≫= f) h w Q.
Proof.
  revert h w. induction p as [a|c k IH]; intros h w; simpl; [done|].
  intros (r & w' & Hs & Hk). exists r, w'. split; [done|by apply IH].
Qed.

Lemma total_call c h w (Q : list exchange -> answer c -> W -> Prop) r w' :
  srv c w = (Some r, w') -> Q (h ++ [Exch c r]) r w' -> total srv (do_call c) h w Q.
Proof. intros Hs HQ. by exists r, w'. Qed.

(** One call and what follows. *)
Lemma total_step {B} c (f : answer c -> prog B) h w Q r w' :
  srv c w = (Some r, w') -> total srv (f r) (h ++ [Exch c r]) w' Q ->
  total srv (do_call c ≫= f) h w Q.
Proof. intros Hs HQ. apply total_bind. by eapply total_call. Qed.

(** Consequence; the history only grows. *)
Lemma total_mono {A} (p : prog A) h w (Q Q' : list exchange -> A -> W -> Prop) :
  (forall h' a w', h `prefix_of` h' -> Q h' a w' -> Q' h' a w') ->
  total srv p h w Q -> total srv p h w Q'.
Proof.
  revert h w. induction p as [a|c k IH]; intros h w HQ; simpl; [by apply HQ|].
  intros (r & w' & Hs & Hk). exists r, w'. split; [done|]. eapply IH; [|done].
  intros h' a w'' Hp. apply HQ. etrans; [|exact Hp]. by exists [Exch c r].
Qed.

Lemma total_exec {A} (p : prog A) w (Q : list exchange -> A -> W -> Prop) :
  total srv p [] w Q -> exists a tr w', exec srv p w = (Some a, tr, w') /\ Q tr a w'.
Proof.
  enough (forall h, total srv p h w Q ->
    exists a tr w', exec srv p w = (Some a, tr, w') /\ Q (h ++ tr) a w') as Hx
    by (intros (a & tr & w' & ? & ?)%Hx; by exists a, tr, w').
  revert w. induction p as [a|c k IH]; intros w h; simpl.
  - intros HQ. exists a, [], w. by rewrite app_nil_r.
  - intros (r & w' & -> & (a & tr & w'' & -> & HQ)%IH).
    exists a, (Exch c r :: tr), w''. by rewrite <- app_assoc in HQ.
Qed.
End total_rules.

#[global] Arguments total {W A} srv p h w Q : simpl never.

(** ** The interface of a reliable server *)

(** What the server's state shows of decisions, pods and indexed Events. *)
Class ClusterView (W : Type) := {
  decisions : W -> gmap string SchedulingDecision;
  pod_at : W -> NamespacedName -> option Pod;
  events_at : W -> string -> string -> list Event;
}.

(** The same pods and Events. *)
Definition same_inputs `{!ClusterView W} (w w' : W) : Prop :=
  (forall key, pod_at w' key = pod_at w key) /\
  (forall ns k, events_at w' ns k = events_at w ns k).

(** The same decisions as well. *)
Definition same_view `{!ClusterView W} (w w' : W) : Prop :=
  same_inputs w w' /\ decisions w' = decisions w.

(** [e'] is stored for the new Event [e]: the server sets its name, UID and creation
    time, and may truncate its times. *)
Definition event_stored (e e' : Event) : Prop :=
  ev_Namespace e' = ev_Namespace e /\ ev_InvolvedObject e' = ev_InvolvedObject e /\
  ev_Reason e' = ev_Reason e /\ ev_Message e' = ev_Message e.

Definition found_or_missing {A} (o : option A) (r : fallible error A) : Prop :=
  match o with
  | Some x => r = inr x
  | None => exists e, r = inl e /\ IsNotFound e = true
  end.

Class ReliableServer {W} (srv : server W) := {
  #[global] reliable_view :: ClusterView W;
  stored_time : Time -> Time;
  decisions_named w n d : decisions w !! n = Some d -> sd_Name d = n;
  (* reads show the current state *)
  reads_events ns k w : exists w',
    srv (ListEvents ns k) w = (Some (inr (events_at w ns k)), w') /\ same_view w w';
  reads_pod key w : exists r w',
    srv (GetPod key) w = (Some r, w') /\ same_view w w' /\ found_or_missing (pod_at w key) r;
  reads_decision n w : exists r w',
    srv (GetDecision n) w = (Some r, w') /\ same_view w w' /\
    found_or_missing (decisions w !! n) r;
  reads_decisions w : exists ds w',
    srv ListDecisions w = (Some (inr ds), w') /\ same_view w w' /\
    ds ≡ₚ (map_to_list (decisions w)).*2;
  (* what is answered here matters less *)
  reads_claim key w : exists r w', srv (GetPVC key) w = (Some r, w') /\ same_view w w';
  reads_class n w : exists r w', srv (GetStorageClass n) w = (Some r, w') /\ same_view w w';
  reads_clock w : exists t w', srv Now w = (Some t, w') /\ same_view w w';
  logs f l e w : exists w', srv (Log f l e) w = (Some tt, w') /\ same_view w w';
  (* valid writes are accepted *)
  creates d w : decisions w !! sd_Name d = None -> exists d' w',
    srv (CreateDecision d) w = (Some None, w') /\ same_inputs w w' /\
    created_as d d' /\ decisions w' = <[sd_Name d := d']> (decisions w);
  updates d cur w : decisions w !! sd_Name d = Some cur ->
    sd_ResourceVersion cur = sd_ResourceVersion d -> exists d' w',
    srv (UpdateDecisionStatus d) w = (Some None, w') /\ same_inputs w w' /\
    updated_as cur (persist_status stored_time (sd_Status d)) d' /\
    decisions w' = <[sd_Name d := d']> (decisions w);
  deletes d cur w : decisions w !! sd_Name d = Some cur -> exists w',
    srv (DeleteDecision d) w = (Some None, w') /\ same_inputs w w' /\
    decisions w' = delete (sd_Name d) (decisions w);
  posts e w : exists e' w',
    srv (CreateEvent e) w = (Some None, w') /\ event_stored e e' /\
    decisions w' = decisions w /\ (forall key, pod_at w' key = pod_at w key) /\
    forall ns k, events_at w' ns k ≡ₚ
      (if bool_decide (ev_Namespace e = ns /\ k ∈ indexEventInvolvedObject (EventObject e))
       then e' :: events_at w ns k else events_at w ns k);
}.
#[global] Hint Mode ReliableServer ! - : typeclass_instances.

#[global] Instance same_inputs_equiv `{!ClusterView W} : Equivalence same_inputs.
Proof.
  split.
  - intros w. by split.
  - intros w w' [H1 H2]. by split.
  - intros w1 w2 w3 [H1 H2] [H3 H4]. split; intros; by rewrite ?H3, ?H4.
Qed.

#[global] Instance same_view_equiv `{!ClusterView W} : Equivalence same_view.
Proof.
  split.
  - intros w. by split.
  - intros w w' [H1 H2]. by split.
  - intros w1 w2 w3 [H1 H2] [H3 H4]. split; [by etrans|congruence].
Qed.

(** ** Specification *)

(** What a reconcile of [req] derives from the pod and the Events of [w]. *)
Definition implied `{!ClusterView W} (w : W) (req : NamespacedName) (now : Time)
    : option (podIdentity * SchedulingTransition) :=
  let events := relevant_events
    (events_at w (nn_Namespace req) (nn_Namespace req +:+ "/" +:+ nn_Name req)) in
  match pod_at w req with
  | Some pod => deriveTransition now pod true events
  | None => deriveTransition now Pod_zero false events
  end.

(** The latest transition of the record says the same as [t]. *)
Definition already (d : SchedulingDecision) (t : SchedulingTransition) : bool :=
  match last (st_Transitions (sd_Status d)) with
  | Some l => transitionsEqual l t
  | None => false
  end.

(** [s'] is [s] with [t] recorded for the pod [ident]: an existing record that does
    not end with it already grows by it, a missing one is created with it alone;
    no other record is touched. [h] has the clock readings, [p] is the server's
    truncation of times. *)
Definition records (p : Time -> Time) (r : SchedulingDecisionReconciler)
    (h : list exchange) (ident : podIdentity) (t : SchedulingTransition)
    (s s' : gmap string SchedulingDecision) : Prop :=
  let n := decisionName (id_UID ident) in
  match s !! n with
  | Some d =>
      if already d t then s' = s
      else exists d', s' = <[n := d']> s /\
        updated_as d (persist_status p (applyTransition (sd_Status d) t)) d'
  | None => exists d' v now,
      let new := set_VolumeContext v (newDecision n ident
                   (Time_Unix (Add now (retentionWindow r)))) in
      Exch Now now ∈ h /\ s' = <[n := d']> s /\ sd_Name d' = n /\ sd_Labels d' = sd_Labels new /\
      sd_Spec d' = sd_Spec new /\
      sd_Status d' = persist_status p (applyTransition Status_zero t)
  end.

(** ** Reconciles converge *)

Section reconcile.
Context {W : Type} {srv : server W} `{!ReliableServer srv} `{!RetryOnError}.
Implicit Types w : W.

Lemma deriveTransitionM_total pod podFound events h w Q :
  (forall h' res w', same_view w w' -> derives h' podFound pod events res -> Q h' res w') ->
  total srv (deriveTransitionM (do_call Now) pod podFound events) h w Q.
Proof.
  intros HQ. destruct (tracks_derive pod podFound events) as [(res & -> & Hf)|(k & -> & Hk)].
  - apply total_ret, HQ; [done|by right].
  - destruct (reads_clock w) as (now & w' & Hs & Hw). exists now, w'. split; [done|].
    rewrite Hk. apply HQ; [done|]. left. exists now. split; [set_solver|done].
Qed.

Lemma resolveVolumeContext_total pod h w :
  total srv (resolveVolumeContext pod) h w (fun _ _ w' => same_view w w').
Proof.
  unfold resolveVolumeContext. revert h w.
  induction (pod_Volumes pod) as [|v vols IH]; intros h w; cbn [resolve_volumes];
    [by apply total_ret|].
  destruct (vol_PersistentVolumeClaim v) as [claim|]; [|by apply IH].
  destruct (reads_claim (mkNamespacedName (pod_Namespace pod) claim) w) as (r & w1 & Hs & Hw).
  eapply total_step; [exact Hs|]. destruct r as [e|pvc].
  - destruct (IsNotFound e); [|by apply total_ret].
    eapply total_mono; [|apply IH]. intros ? ? ? _ ?. by etrans.
  - unfold volumeContextFromPVC. destruct (pvc_StorageClassName pvc) as [sc|];
      [|by apply total_ret].
    destruct (sc =?s ""); [by apply total_ret|].
    destruct (reads_class sc w1) as (r & w2 & Hs2 & Hw2).
    eapply total_step; [exact Hs2|].
    destruct r as [e|?]; [destruct (IsNotFound e)|]; apply total_ret; by etrans.
Qed.

(** After [ensureDecisionCreated] the record exists, as it was or new and empty. *)
Lemma ensureDecisionCreated_total r ident podFound pod h w :
  let n := decisionName (id_UID ident) in
  total srv (ensureDecisionCreated r n ident podFound pod) h w (fun h' err w' =>
    err = None /\ same_inputs w w' /\
    match decisions w !! n with
    | Some d => decisions w' = decisions w
    | None => exists d' v now, Exch Now now ∈ h' /\ created_as (set_VolumeContext v (newDecision n ident
                  (Time_Unix (Add now (retentionWindow r))))) d' /\
                decisions w' = <[n := d']> (decisions w)
    end).
Proof.
  intros n. unfold ensureDecisionCreated.
  destruct (reads_decision n w) as (g & w1 & Hs & [Hin1 Hst1] & Hg).
  eapply total_step; [exact Hs|]. destruct (decisions w !! n) as [d|] eqn:Hd; simpl in Hg.
  { subst g. by apply total_ret. }
  destruct Hg as (e & -> & ->). cbn [negb].
  destruct (reads_clock w1) as (now & w2 & Hs2 & [Hin2 Hst2]).
  eapply total_step; [exact Hs2|].
  (* Once the record is built. *)
  assert (forall v h3 w3, Exch Now now ∈ h3 -> same_view w2 w3 ->
    total srv (created ← do_call (CreateDecision (set_VolumeContext v (newDecision n ident
          (Time_Unix (Add now (retentionWindow r))))));
       match created with
       | Some err =>
           if negb (IsAlreadyExists err)
           then mret (Some (Errorf "creating SchedulingDecision %s: %w" [n] (Some err)))
           else mret None
       | None => mret None
       end) h3 w3 (fun h' err w' => err = None /\ same_inputs w w' /\
         exists d' v now, Exch Now now ∈ h' /\ created_as (set_VolumeContext v (newDecision n ident
                  (Time_Unix (Add now (retentionWindow r))))) d' /\
                decisions w' = <[n := d']> (decisions w))) as Hcreate.
  { intros v h3 w3 Hnow [Hin3 Hst3].
    destruct (creates (set_VolumeContext v (newDecision n ident
      (Time_Unix (Add now (retentionWindow r))))) w3) as (d' & w4 & Hs4 & Hin4 & Hc & Hst4).
    { change (sd_Name _) with n. by rewrite Hst3, Hst2, Hst1. }
    eapply total_step; [exact Hs4|]. apply total_ret. split_and!; [done| |].
    - by rewrite Hin1, Hin2, Hin3.
    - exists d', v, now. split; [set_solver|]. split; [done|]. rewrite Hst4. change (sd_Name _) with n.
      by rewrite Hst3, Hst2, Hst1. }
  apply total_bind. destruct podFound; [|apply total_ret, (Hcreate None); [set_solver|done]].
  apply total_bind. eapply total_mono; [|apply resolveVolumeContext_total].
  intros h3 [e'|v] w3 [k ->] Hw3.
  - destruct (logs "resolving volume context" [NamespacedName_String
      (mkNamespacedName (id_Namespace ident) (id_Name ident))] (Some e') w3) as (w4 & Hs4 & Hw4).
    eapply total_step; [exact Hs4|]. apply total_ret, (Hcreate None); [set_solver|by etrans].
  - apply total_ret. apply Hcreate; [set_solver|done].
Qed.

Lemma appendTransitionWithRetry_total n d t h w :
  decisions w !! n = Some d ->
  total srv (appendTransitionWithRetry n t) h w (fun _ err w' =>
    err = None /\ same_inputs w w' /\
    if already d t then decisions w' = decisions w
    else exists d', decisions w' = <[n := d']> (decisions w) /\
      updated_as d (persist_status (stored_time (srv := srv)) (applyTransition (sd_Status d) t)) d').
Proof.
  intros Hd. unfold appendTransitionWithRetry. apply total_bind. rewrite OnError_attempts.
  destruct OnError_steps as [|m] eqn:Hm; [pose proof OnError_steps_pos; lia|].
  cbn [attempts]. apply total_bind. unfold appendTransition_once.
  destruct (reads_decision n w) as (g & w1 & Hs & [Hin1 Hst1] & Hg).
  rewrite Hd in Hg. simpl in Hg. subst g.
  eapply total_step; [exact Hs|]. cbv beta iota zeta. fold (already d t).
  destruct (already d t); [do 3 apply total_ret; done|].
  destruct (updates (set_Status (applyTransition (sd_Status d) t) d) d w1)
    as (d' & w2 & Hs2 & Hin2 & Hu & Hst2); [|done|].
  { change (sd_Name _) with (sd_Name d). by rewrite Hst1, (decisions_named _ _ _ Hd). }
  eapply total_call; [exact Hs2|]. do 2 apply total_ret. split_and!; [done|by etrans|].
  exists d'. split; [|done]. rewrite Hst2, Hst1. change (sd_Name _) with (sd_Name d).
  by rewrite (decisions_named _ _ _ Hd).
Qed.

Lemma recordTransition_total r ident t podFound pod h w :
  total srv (recordTransition r ident t podFound pod) h w (fun h' err w' =>
    err = None /\ same_inputs w w' /\
    records (stored_time (srv := srv)) r h' ident t (decisions w) (decisions w')).
Proof.
  unfold recordTransition. apply total_bind.
  eapply total_mono; [|apply ensureDecisionCreated_total].
  intros h1 err w1 _ (-> & Hin1 & Hst1). set (n := decisionName (id_UID ident)) in *.
  unfold records. fold n. destruct (decisions w !! n) as [d|] eqn:Hd.
  - rewrite <- Hst1 in Hd |- *. eapply total_mono; [|by apply appendTransitionWithRetry_total].
    intros h2 err w2 _ (-> & Hin2 & Hst2). split_and!; [done|by etrans|].
    destruct (already d t); [done|]. destruct Hst2 as (d' & ? & ?). by exists d'.
  - destruct Hst1 as (d1 & v & now & Hnow & (Hn1 & Hl1 & Hs1 & Hz1) & Hst1).
    eapply total_mono; [|apply (appendTransitionWithRetry_total n d1)].
    2: { by rewrite Hst1, lookup_insert_eq. }
    intros h2 err w2 [k ->] (-> & Hin2 & Hst2). split_and!; [done|by etrans|].
    unfold already in Hst2. rewrite Hz1 in Hst2.
    destruct Hst2 as (d' & Hst2 & (Hn & Hl & _ & Hs & Hz)).
    exists d', v, now. rewrite Hst2, Hst1, insert_insert_eq. rewrite Hl, Hs, Hz, Hn.
    split_and!; [set_solver|done..].
Qed.

(** What a reconcile of [req] with the history [h] has derived from [w]. *)
Definition implies (h : list exchange) w req res : Prop :=
  (exists now, Exch Now now ∈ h /\ implied w req now = res) \/
  (forall now, implied w req now = res).

(** The decisions after that reconcile. *)
Definition reconciled r req (h : list exchange) w (s' : gmap string SchedulingDecision) : Prop :=
  exists res, implies h w req res /\
  match res with
  | None => s' = decisions w
  | Some (ident, t) => records (stored_time (srv := srv)) r h ident t (decisions w) s'
  end.

Lemma implies_prefix h h' w req res :
  h `prefix_of` h' -> implies h w req res -> implies h' w req res.
Proof. intros [k ->] [(now & ? & ?)|?]; [left; exists now; set_solver|by right]. Qed.

Lemma Reconcile_pod_total r req podFound pod h w w1 :
  same_view w w1 ->
  let events := relevant_events
    (events_at w (nn_Namespace req) (nn_Namespace req +:+ "/" +:+ nn_Name req)) in
  (forall now, implied w req now = deriveTransition now pod podFound events) ->
  total srv (Reconcile_pod r events podFound pod) h w1 (fun h' err w' =>
    err = None /\ same_inputs w w' /\ reconciled r req h' w (decisions w')).
Proof.
  intros Hw1 events Himp. unfold Reconcile_pod. apply total_bind, deriveTransitionM_total.
  intros h2 res w2 Hw2 Hd. assert (same_view w w2) as [Hin Hst] by (by etrans).
  assert (implies h2 w req res) as Hi.
  { destruct Hd as [(now & ? & ?)|?]; [left; exists now|right; intros now]; by rewrite Himp. }
  destruct res as [[ident t]|].
  - eapply total_mono; [|apply recordTransition_total].
    intros h3 err w3 Hp (-> & Hin3 & Hr). split_and!; [done|by etrans|].
    exists (Some (ident, t)). rewrite <- Hst. split; [by eapply implies_prefix|done].
  - apply total_ret. split_and!; [done..|]. by exists None.
Qed.

Lemma Reconcile_total r req h w :
  total srv (Reconcile r req) h w (fun h' err w' =>
    err = None /\ same_inputs w w' /\ reconciled r req h' w (decisions w')).
Proof.
  unfold Reconcile, listRelevantEvents. apply total_bind.
  destruct (reads_events (nn_Namespace req) (nn_Namespace req +:+ "/" +:+ nn_Name req) w)
    as (w1 & Hs1 & Hw1).
  eapply total_step; [exact Hs1|]. apply total_ret. cbv beta iota.
  destruct (reads_pod req w1) as (g & w2 & Hs2 & Hw2 & Hg).
  eapply total_step; [exact Hs2|]. rewrite (proj1 (proj1 Hw1)) in Hg.
  assert (same_view w w2) as Hw by by etrans.
  destruct (pod_at w req) as [pod|] eqn:Hp; simpl in Hg.
  - subst g. apply Reconcile_pod_total; [done|]. intros now. unfold implied. by rewrite Hp.
  - destruct Hg as (e & -> & ->). apply Reconcile_pod_total; [done|].
    intros now. unfold implied. by rewrite Hp.
Qed.

(** C7. Reconciles converge: on a reliable server a reconcile ends without error, having
    changed no pod, Event or other record. If the pod and its Events imply no
    transition, the record is left alone too; if they imply one, it is recorded:
    appended to the record, or, if there is none, in a new one with the pod's
    identity, labels and volume context; and nothing is written if the record
    ends with it already. *)
Theorem reconcile_converges r req w :
  exists tr w', exec srv (Reconcile r req) w = (Some None, tr, w') /\
    same_inputs w w' /\ reconciled r req tr w (decisions w').
Proof.
  destruct (total_exec srv _ _ _ (Reconcile_total r req [] w))
    as (a & tr & w' & Hrun & -> & Hin & Hr).
  by exists tr, w'.
Qed.

Lemma implied_same w w' req now : same_inputs w w' -> implied w' req now = implied w req now.
Proof. intros [H1 H2]. unfold implied. by rewrite H1, H2. Qed.

Lemma implies_at h w req res : implies h w req res -> exists now, implied w req now = res.
Proof. intros [(now & _ & ?)|Hi]; [by exists now|by exists Time_zero]. Qed.

Lemma persisted_already p t d :
  p (tr_DecisionTimestamp t) = tr_DecisionTimestamp t ->
  last (st_Transitions (sd_Status d)) = Some (persist_transition p t) -> already d t = true.
Proof.
  intros Hp Hl. unfold already. rewrite Hl. apply transitionsEqual_spec.
  unfold persist_transition; simpl. by rewrite Hp.
Qed.

Lemma last_persisted p s t :
  last (st_Transitions (persist_status p (applyTransition s t))) = Some (persist_transition p t).
Proof.
  cbn [st_Transitions persist_status applyTransition].
  by rewrite fmap_app, list_fmap_singleton, last_snoc.
Qed.

(** Once recorded, a transition is there already. *)
Lemma records_already p r h ident t s s' :
  p (tr_DecisionTimestamp t) = tr_DecisionTimestamp t ->
  records p r h ident t s s' ->
  exists d, s' !! decisionName (id_UID ident) = Some d /\ already d t = true.
Proof.
  intros Hp. unfold records. destruct (s !! _) as [d|] eqn:Hd.
  - destruct (already d t) eqn:Ha; [intros ->; by exists d|].
    intros (d' & -> & (_ & _ & _ & _ & Hs)). exists d'. split; [apply lookup_insert_eq|].
    apply (persisted_already p); [done|]. rewrite Hs. apply last_persisted.
  - intros (d' & v & now & _ & -> & _ & _ & _ & Hs). exists d'. split; [apply lookup_insert_eq|].
    apply (persisted_already p); [done|]. rewrite Hs. apply last_persisted.
Qed.

(** What is recorded ends the record, unless it did so before. *)
Lemma records_shows p r h ident t nodes s s' :
  records p r h ident t s s' -> tr_CandidateNodes t = nodes ->
  (exists d l, s !! decisionName (id_UID ident) = Some d /\
     last (st_Transitions (sd_Status d)) = Some l /\ transitionsEqual l t = true /\ s' = s) \/
  exists d l, s' !! decisionName (id_UID ident) = Some d /\
    last (st_Transitions (sd_Status d)) = Some l /\
    tr_Outcome l = tr_Outcome t /\ tr_CandidateNodes l = nodes.
Proof.
  intros Hr <-. assert (forall d' st, sd_Status d' = persist_status p (applyTransition st t) ->
    s' !! decisionName (id_UID ident) = Some d' ->
    exists d l, s' !! decisionName (id_UID ident) = Some d /\
      last (st_Transitions (sd_Status d)) = Some l /\
      tr_Outcome l = tr_Outcome t /\ tr_CandidateNodes l = tr_CandidateNodes t) as Hnew.
  { intros d' st Hst Hd'. exists d', (persist_transition p t). rewrite Hst.
    split_and!; [done|apply last_persisted|done..]. }
  unfold records in Hr. destruct (s !! decisionName (id_UID ident)) as [d|].
  - unfold already in Hr. destruct (last (st_Transitions (sd_Status d))) as [l|] eqn:Hl.
    + destruct (transitionsEqual l t) eqn:Ht; [left; by exists d, l|right].
      destruct Hr as (d' & Hs' & _ & _ & _ & _ & Hst). eapply Hnew; [exact Hst|].
      rewrite Hs'. apply lookup_insert_eq.
    + right. destruct Hr as (d' & Hs' & _ & _ & _ & _ & Hst). eapply Hnew; [exact Hst|].
      rewrite Hs'. apply lookup_insert_eq.
  - right. destruct Hr as (d' & v & now & _ & Hs' & _ & _ & _ & Hst). eapply Hnew; [exact Hst|].
    rewrite Hs'. apply lookup_insert_eq.
Qed.

(** Reconciles settle: when what the pod and its Events imply does not depend on the
    clock, and its timestamp is one the server stores as it is, a second reconcile
    leaves every record as the first one left it. *)
Theorem reconcile_settles r1 r2 req w :
  (forall now now', implied w req now = implied w req now') ->
  (forall now ident t, implied w req now = Some (ident, t) ->
     stored_time (srv := srv) (tr_DecisionTimestamp t) = tr_DecisionTimestamp t) ->
  exists tr1 w1 tr2 w2, exec srv (Reconcile r1 req) w = (Some None, tr1, w1) /\
    exec srv (Reconcile r2 req) w1 = (Some None, tr2, w2) /\ decisions w2 = decisions w1.
Proof.
  intros Hclock Htime.
  destruct (total_exec srv _ _ _ (Reconcile_total r1 req [] w))
    as (a1 & tr1 & w1 & Hrun1 & -> & Hin1 & res1 & Hi1 & Hr1).
  destruct (total_exec srv _ _ _ (Reconcile_total r2 req [] w1))
    as (a2 & tr2 & w2 & Hrun2 & -> & Hin2 & res2 & Hi2 & Hr2).
  exists tr1, w1, tr2, w2. split_and!; [done|done|].
  apply implies_at in Hi1 as [now1 <-]. apply implies_at in Hi2 as [now2 <-].
  rewrite (implied_same w w1), (Hclock now2 now1) in Hr2 by done.
  destruct (implied w req now1) as [[ident t]|] eqn:Hi; [|done].
  destruct (records_already _ _ _ _ _ _ _ (Htime _ _ _ Hi) Hr1) as (d & Hd & Ha).
  unfold records in Hr2. by rewrite Hd, Ha in Hr2.
Qed.

(** The pod's record ends with the implied outcome, but without the candidate nodes that
    the implied transition has. *)
Definition candidates_missing w req : Prop :=
  forall now, exists ident t d l, implied w req now = Some (ident, t) /\
    decisions w !! decisionName (id_UID ident) = Some d /\
    last (st_Transitions (sd_Status d)) = Some l /\
    transitionsEqual l t = true /\ tr_CandidateNodes l <> tr_CandidateNodes t.

(** C39. Candidate nodes are not compared: a record that ends with the implied outcome is
    left as it is, even if it was made before the CandidateNodes Event was there and
    the implied transition now has candidates that the recorded one lacks; so the gap
    stays however often the pod is reconciled. *)
Theorem late_candidates_dropped r req w :
  candidates_missing w req ->
  exists tr w', exec srv (Reconcile r req) w = (Some None, tr, w') /\
    decisions w' = decisions w /\ candidates_missing w' req.
Proof.
  intros Hlate.
  destruct (total_exec srv _ _ _ (Reconcile_total r req [] w))
    as (a & tr & w' & Hrun & -> & Hin & res & Hi & Hr).
  assert (decisions w' = decisions w) as Hd.
  { apply implies_at in Hi as [now <-].
    destruct (Hlate now) as (ident & t & d & l & Hi & Hd & Hl & Ht & _).
    rewrite Hi in Hr. unfold records, already in Hr. by rewrite Hd, Hl, Ht in Hr. }
  exists tr, w'. split_and!; [done..|]. intros now.
  rewrite (implied_same w w'), Hd by done. apply Hlate.
Qed.
End reconcile.

(** ** Sweeps converge *)

Section sweep.
Context {W : Type} {srv : server W} `{!ReliableServer srv}.
Implicit Types w : W.

(** [d] is not one of the expired items. *)
Definition kept now (items : list SchedulingDecision) (d : SchedulingDecision) : Prop :=
  ~ (d ∈ items /\ is_swept now d = true).

Lemma kept_nil now d : kept now [] d.
Proof. intros [H _]. by apply not_elem_of_nil in H. Qed.

Lemma kept_cons now d0 items d :
  kept now (d0 :: items) d <-> (d = d0 -> is_swept now d0 = false) /\ kept now items d.
Proof.
  unfold kept. rewrite elem_of_cons. split.
  - intros H. split; [|tauto]. intros ->. destruct (is_swept now d0); [|done].
    destruct H. by split; [left|].
  - intros [H1 H2] [[->|Hd] Hs]; [rewrite H1 in Hs; [done|done]|by apply H2].
Qed.

(** The loop, on items that are stored, each under its name. *)
Lemma sweep_loop_total now items n h w :
  NoDup (sd_Name <$> items) -> (forall d, d ∈ items -> decisions w !! sd_Name d = Some d) ->
  total srv (sweep_loop now items n) h w (fun _ n' w' =>
    failed n' = failed n /\ same_inputs w w' /\
    forall m d, decisions w' !! m = Some d <->
      decisions w !! m = Some d /\ kept now items d).
Proof.
  revert n h w. induction items as [|d items IH]; intros n h w Hnd Hin; cbn [sweep_loop].
  { apply total_ret. split_and!; [done..|]. naive_solver eauto using kept_nil. }
  inversion Hnd as [|? ? Hnew Hnd']; subst.
  (* an item that is not deleted *)
  assert (is_swept now d = false -> forall n' h1 w1, failed n' = failed n -> same_view w w1 ->
    total srv (sweep_loop now items n') h1 w1 (fun _ n'' w' =>
      failed n'' = failed n /\ same_inputs w w' /\
      forall m d0, decisions w' !! m = Some d0 <->
        decisions w !! m = Some d0 /\ kept now (d :: items) d0)) as Hkeep.
  { intros Hd n' h1 w1 Hf [Hin1 Hst1]. eapply total_mono; [|apply IH]; [|done|].
    - intros _ n'' w' _ (Hf' & Hin' & Hw'). split_and!; [congruence|by etrans|].
      intros m d0. rewrite Hw', Hst1, kept_cons. clear -Hd. tauto.
    - intros d0 Hd0. rewrite Hst1. by apply Hin, list_elem_of_further. }
  assert (is_swept now d = match isExpired (sd_Labels d) now with inr true => true | _ => false
    end) as Hsw by done.
  destruct (isExpired (sd_Labels d) now) as [e|[|]]; cbn [negb].
  - destruct (logs "skipping %s: %v" [sd_Name d] (Some e) w) as (w1 & Hs & Hw1).
    eapply total_step; [exact Hs|]. by apply Hkeep.
  - destruct (deletes d d w) as (w1 & Hs & Hin1 & Hst1); [apply Hin, list_elem_of_here|].
    eapply total_step; [exact Hs|]. cbv beta iota zeta.
    assert (forall d0, d0 ∈ items -> sd_Name d0 <> sd_Name d) as Hne.
    { intros d0 Hd0 Heq. apply Hnew, list_elem_of_fmap. by exists d0. }
    eapply total_mono; [|apply IH]; [|done|].
    + intros _ n'' w' _ (Hf' & Hin' & Hw'). split_and!; [done|by etrans|].
      intros m d0. rewrite Hw', Hst1, lookup_delete_Some, kept_cons.
      assert (decisions w !! m = Some d0 -> (sd_Name d <> m <-> d0 <> d)) as Hm.
      { intros Hl. split; [intros Hm ->; apply Hm; by eapply decisions_named|].
        intros Hd <-. rewrite (Hin d) in Hl by apply list_elem_of_here. congruence. }
      rewrite Hsw. split.
      * intros [[Hn Hl] Hk]. split_and!; [done| |done]. intros ->. by destruct (proj1 (Hm Hl)).
      * intros [Hl [Hk1 Hk2]]. split_and!; [|done|done]. apply Hm; [done|]. intros Heq.
        by specialize (Hk1 Heq).
    + intros d0 Hd0. rewrite Hst1, lookup_delete_ne by (symmetry; by apply Hne).
      by apply Hin, list_elem_of_further.
  - by apply Hkeep.
Qed.

Lemma names_NoDup w : NoDup (sd_Name <$> (map_to_list (decisions w)).*2).
Proof.
  rewrite <- list_fmap_compose.
  rewrite (list_fmap_ext _ fst); [apply NoDup_fst_map_to_list|].
  intros i [m d] Hi. simpl. eapply decisions_named, elem_of_map_to_list.
  by eapply list_elem_of_lookup_2.
Qed.

Lemma sweep_total now h w :
  total srv (sweep now) h w (fun _ err w' => err = None /\ same_inputs w w' /\
    decisions w' = filter (fun nd => is_swept now nd.2 = false) (decisions w)).
Proof.
  unfold sweep. destruct (reads_decisions w) as (ds & w1 & Hs & [Hin1 Hst1] & Hds).
  eapply total_step; [exact Hs|]. cbv beta iota. apply total_bind.
  assert (forall d, d ∈ ds <-> decisions w !! sd_Name d = Some d) as Hmem.
  { intros d. rewrite Hds, list_elem_of_fmap. split.
    - intros ([m d'] & -> & Hd%elem_of_map_to_list). simpl.
      by rewrite (decisions_named _ _ _ Hd).
    - intros Hd. exists (sd_Name d, d). split; [done|]. by apply elem_of_map_to_list. }
  eapply total_mono; [|apply (sweep_loop_total now ds)].
  - intros h2 n w2 _ (Hf & Hin2 & Hst2).
    destruct (logs sweep_format (sweep_report ds n) None w2) as (w3 & Hs3 & [Hin3 Hst3]).
    eapply total_step; [exact Hs3|]. rewrite Hf. apply total_ret.
    split_and!; [done|by rewrite Hin1, Hin2, Hin3|]. rewrite Hst3.
    apply map_eq. intros m. apply option_eq. intros d.
    rewrite Hst2, map_lookup_filter_Some, Hst1. simpl.
    split; intros [Hd Hno]; (split; [done|]).
    + destruct (is_swept now d) eqn:He; [|done]. destruct Hno. split; [|done].
      apply Hmem. by rewrite (decisions_named _ _ _ Hd).
    + intros [_ ?]. congruence.
  - rewrite Hds. apply names_NoDup.
  - intros d Hd. rewrite Hst1. by apply Hmem.
Qed.
End sweep.

(** C15. Sweeps converge: on a reliable server the sweep program ends with success, having
    read the clock first, and exactly the records that had expired by that reading
    are gone: records without a usable expiry label and those not yet expired are
    as they were, and so are pods and Events. *)
Theorem sweep_converges {W} {srv : server W} `{!ReliableServer srv} (w : W) :
  exists now tr w', exec srv Sweep.main w = (Some tt, tr, w') /\
    [Exch Now now] `prefix_of` tr /\ same_inputs w w' /\
    decisions w' = filter (fun nd => is_swept now nd.2 = false) (decisions w).
Proof.
  destruct (total_exec srv Sweep.main w (fun h _ w' => exists now,
    [Exch Now now] `prefix_of` h /\ same_inputs w w' /\
    decisions w' = filter (fun nd => is_swept now nd.2 = false) (decisions w)))
    as ([] & tr & w' & Hrun & now & HQ); [|by exists now, tr, w'].
  unfold Sweep.main. destruct (reads_clock w) as (now & w1 & Hs & [Hin1 Hst1]).
  eapply total_step; [exact Hs|]. apply total_bind.
  eapply total_mono; [|apply sweep_total]. intros h' err w2 Hp (-> & Hin2 & Hst2).
  apply total_ret. exists now. split_and!; [done|by etrans|by rewrite Hst2, Hst1].
Qed.

(** ** From the extender to the record *)

Lemma latest_strict e events0 events reason :
  events ≡ₚ e :: events0 -> ev_Reason e = reason ->
  (forall e0, e0 ∈ events0 -> ev_Reason e0 = reason ->
     After (eventTimestamp e) (eventTimestamp e0) = true) ->
  is_latest events reason e.
Proof.
  intros Hp Hr Hafter.
  destruct (list_elem_of_split events e) as (l1 & l2 & ->).
  { rewrite Hp. apply list_elem_of_here. }
  assert (l1 ++ l2 ≡ₚ events0) as Hp'.
  { apply (Permutation_cons_inv (a := e)). by rewrite <- Hp, Permutation_middle. }
  exists l1, l2. split_and!; [done|done|..]; apply Forall_forall; intros e0 He0 Hr0.
  - apply Hafter; [|done]. rewrite <- Hp'. apply elem_of_app. by left.
  - assert (After (eventTimestamp e) (eventTimestamp e0) = true) as Ha; [|solve_after].
    apply Hafter; [|done]. rewrite <- Hp'. apply elem_of_app. by right.
Qed.

Lemma derive_candidates now pod podFound events i t :
  deriveTransition now pod podFound events = Some (i, t) ->
  tr_Outcome t <> SchedulingOutcomePreempted ->
  tr_CandidateNodes t = candidateNodesFrom events.
Proof.
  intros (ev & _ & _ & [Ho _ _ _ _ Hc _])%derive_spec Hnp. rewrite Hc.
  by destruct ev.
Qed.

Section extender.
Context {W : Type} {srv : server W} `{!ReliableServer srv} `{!RetryOnError}.
Context {Node : Type} (node_Name : Node -> string).
Context (Decode : string -> fallible error (ExtenderArgs Node)).
Context (Encode : ExtenderFilterResult Node -> fallible error string).
Implicit Types w : W.

Lemma filterHandler_total body args pod h w :
  Decode body = inr args -> args_Pod args = Some pod -> candidateNodeNames node_Name args <> [] ->
  total srv (filterHandler node_Name Decode Encode body) h w (fun _ resp w' =>
    resp = passthrough_response Encode args /\ decisions w' = decisions w /\
    (forall key, pod_at w' key = pod_at w key) /\
    exists now e, event_stored (candidateNodesEvent pod (candidateNodeNames node_Name args) now) e /\
      events_at w' (pod_Namespace pod) (pod_Namespace pod +:+ "/" +:+ pod_Name pod) ≡ₚ
      e :: events_at w (pod_Namespace pod) (pod_Namespace pod +:+ "/" +:+ pod_Name pod)).
Proof.
  intros Hd Hpod Hn. unfold filterHandler. rewrite Hd. cbv beta iota. apply total_bind.
  unfold record_if_any. rewrite Hpod. cbv zeta.
  destruct (0 <? Z.of_nat (length (candidateNodeNames node_Name args))) eqn:Hlen.
  2: { apply Z.ltb_ge in Hlen. by destruct (candidateNodeNames node_Name args). }
  apply total_bind. unfold recordCandidateNodes.
  destruct (reads_clock w) as (now & w1 & Hs & [Hin1 Hst1]).
  eapply total_step; [exact Hs|].
  destruct (posts (candidateNodesEvent pod (candidateNodeNames node_Name args) now) w1)
    as (e & w2 & Hs2 & He & Hst2 & Hpods & Hev).
  eapply total_call; [exact Hs2|]. apply total_ret.
  assert (forall Q : list exchange -> Response -> W -> Prop,
    (forall h' w', same_view w2 w' -> Q h' (passthrough_response Encode args) w') -> forall h',
    total srv (write_json Encode (passthroughResult args)
      "encoding ExtenderFilterResult: %v") h' w2 Q) as Hw.
  { intros Q HQ h'. unfold write_json. unfold passthrough_response in HQ.
    change (all_nodes args) with (passthroughResult args) in HQ.
    destruct (Encode (passthroughResult args)) as [err|out]; [|by apply total_ret, HQ].
    destruct (logs "encoding ExtenderFilterResult: %v" [] (Some err) w2) as (w3 & Hs3 & Hw3).
    eapply total_step; [exact Hs3|]. by apply total_ret, HQ. }
  apply Hw. intros h' w3 [[Hpods3 Hev3] Hst3]. split_and!; [done|congruence|..].
  - intros key. by rewrite Hpods3, Hpods, (proj1 Hin1).
  - exists now, e. split; [done|]. rewrite Hev3, Hev, (proj2 Hin1).
    rewrite bool_decide_eq_true_2; [done|]. split; [done|]. apply list_elem_of_here.
Qed.

(** C16. From the extender to the record: on a reliable server, a filter request for a pod
    with candidate nodes, their names DNS names, is answered with the nodes it carried
    and leaves one more CandidateNodes Event of the pod, no decision or pod changed.
    Suppose that every other CandidateNodes Event of the pod is strictly earlier. Then
    the next reconcile of the pod ends without error, and either the pod and its Events
    show no outcome yet, and no decision changes; or they show a preemption, which has
    no candidates; or the record ended with that outcome already, and stays as it is,
    whatever names it has; or, in all other cases, the record now ends with the outcome and
    exactly the names the scheduler sent, in their order. *)
Theorem extender_to_record r body args pod w :
  Decode body = inr args -> args_Pod args = Some pod ->
  candidateNodeNames node_Name args <> [] ->
  Forall (fun n => dns_name n = true) (candidateNodeNames node_Name args) ->
  let req := mkNamespacedName (pod_Namespace pod) (pod_Name pod) in
  let key := pod_Namespace pod +:+ "/" +:+ pod_Name pod in
  let nodes := (fun n => mkCandidateNode n "" None) <$> candidateNodeNames node_Name args in
  exists tr1 w1 e,
    exec srv (filterHandler node_Name Decode Encode body) w =
      (Some (passthrough_response Encode args), tr1, w1) /\
    decisions w1 = decisions w /\ (forall key, pod_at w1 key = pod_at w key) /\
    ev_Reason e = eventReasonCandidateNodes /\
    events_at w1 (pod_Namespace pod) key ≡ₚ e :: events_at w (pod_Namespace pod) key /\
    ((forall e0, e0 ∈ events_at w (pod_Namespace pod) key ->
        ev_Reason e0 = eventReasonCandidateNodes ->
        After (eventTimestamp e) (eventTimestamp e0) = true) ->
     exists tr2 w2 res, exec srv (Reconcile r req) w1 = (Some None, tr2, w2) /\
       implies tr2 w1 req res /\
       match res with
       | None => decisions w2 = decisions w
       | Some (ident, t) =>
           records (stored_time (srv := srv)) r tr2 ident t (decisions w) (decisions w2) /\
           (tr_Outcome t <> SchedulingOutcomePreempted ->
            let n := decisionName (id_UID ident) in
            tr_CandidateNodes t = nodes /\
            ((exists d l, decisions w !! n = Some d /\
                last (st_Transitions (sd_Status d)) = Some l /\ transitionsEqual l t = true /\
                decisions w2 = decisions w) \/
             exists d l, decisions w2 !! n = Some d /\
                last (st_Transitions (sd_Status d)) = Some l /\
                tr_Outcome l = tr_Outcome t /\ tr_CandidateNodes l = nodes))
       end).
Proof.
  intros Hd Hpod Hn Hdns req key nodes.
  destruct (total_exec srv _ _ _ (filterHandler_total body args pod [] w Hd Hpod Hn))
    as (resp & tr1 & w1 & Hrun1 & -> & Hst1 & Hpods & now1 & e & (_ & _ & Hreason & Hmsg) & Hev).
  exists tr1, w1, e. split_and!; [done..|]. intros Hafter.
  destruct (total_exec srv _ _ _ (Reconcile_total r req [] w1))
    as (a2 & tr2 & w2 & Hrun2 & -> & _ & res & Hi & Hr).
  exists tr2, w2, res. split_and!; [done|done|]. rewrite <- Hst1.
  destruct res as [[ident t]|]; [|done]. split; [done|]. intros Hnp n.
  assert (tr_CandidateNodes t = nodes) as Hnodes; [|split; [done|by eapply records_shows]].
  apply implies_at in Hi as [now Hi].
  assert (tr_CandidateNodes t =
    candidateNodesFrom (relevant_events (events_at w1 (pod_Namespace pod) key))) as ->.
  { unfold implied in Hi. destruct (pod_at w1 req); by eapply derive_candidates. }
  assert (latestEventWithReason (relevant_events (events_at w1 (pod_Namespace pod) key))
    eventReasonCandidateNodes = Some e) as Hlatest.
  { apply is_latest_iff. apply (latest_strict e (relevant_events
      (events_at w (pod_Namespace pod) key))).
    - unfold relevant_events, key. rewrite Hev. rewrite filter_cons_True; [done|].
      rewrite Hreason. by vm_compute.
    - by rewrite Hreason.
    - intros e0 [_ He0]%list_elem_of_filter. by apply Hafter. }
  rewrite (candidates_of_message _ _ _ Hlatest Hmsg Hn). by apply candidates_of_dns.
Qed.
End extender.
