(* ===== verification/Sync.v ===== *)
(** * Initial synchronisation: many pods, one pass

    When the controller starts, every pod and every pod with a relevant Event is queued
    once ([initial_requests]). This file has that pass, request after request, on a
    reliable server, and shows that it brings every record up to date at once: no
    request disturbs what another has recorded. *)

From S2P Require Import Prelude Strconv GoTime GoStrings Api Decision Effects.
From S2P Require Import VolumeContext Controller ReconcileProps System Loop Converge.

(** ** The pass *)

(** Not a function of the source: the first pass over the requests that the controller's
    work queue hands to [Reconcile], one worker, each request once, errors collected. *)
Fixpoint reconcile_all `{!RetryOnError} (r : SchedulingDecisionReconciler)
    (reqs : list NamespacedName) : prog (list (option error)) :=
  match reqs with
  | [] => mret []
  | req :: rest =>
      err ← Reconcile r req;
      errs ← reconcile_all r rest;
      mret (err :: errs)
  end.

(** ** Specification *)

(** The record of [ident], [o] before and [o'] after [t] has been recorded: as it was if
    it ends with [t] already, one transition longer otherwise, new if there was none. *)
Definition record_after (p : Time -> Time) (ident : podIdentity) (t : SchedulingTransition)
    (o o' : option SchedulingDecision) : Prop :=
  match o with
  | Some d =>
      if already d t then o' = Some d
      else exists d', o' = Some d' /\
        updated_as d (persist_status p (applyTransition (sd_Status d) t)) d'
  | None => exists d' v, o' = Some d' /\
      sd_Name d' = decisionName (id_UID ident) /\
      sd_Spec d' = mkSpec (id_Name ident) (id_Namespace ident) (id_UID ident)
        (id_SchedulerName ident) v /\
      sd_Status d' = persist_status p (applyTransition Status_zero t)
  end.

Section sync.
Context {W : Type} {srv : server W} `{!ReliableServer srv} `{!RetryOnError}.
Context (owner : UID -> NamespacedName).
Implicit Types w : W.

(** What the cluster implies for a request is about that request's pod: no UID is used
    for two pods. *)
Definition cluster_owned w : Prop :=
  forall req now ident t, implied w req now = Some (ident, t) -> owner (id_UID ident) = req.

(** The decisions of [req] between [s] and [s']. *)
Definition brought_up w req (s s' : gmap string SchedulingDecision) : Prop :=
  exists now, match implied w req now with
  | None => forall n, owns owner req n -> s' !! n = s !! n
  | Some (ident, t) =>
      record_after (stored_time (srv := srv)) ident t
        (s !! decisionName (id_UID ident)) (s' !! decisionName (id_UID ident)) /\
      forall n, owns owner req n -> n <> decisionName (id_UID ident) -> s' !! n = s !! n
  end.

(** ** Lemmas *)

Lemma records_after p r h ident t s s' :
  records p r h ident t s s' ->
  record_after p ident t (s !! decisionName (id_UID ident)) (s' !! decisionName (id_UID ident)) /\
  forall n, n <> decisionName (id_UID ident) -> s' !! n = s !! n.
Proof.
  unfold records, record_after. set (n := decisionName _).
  destruct (s !! n) as [d|] eqn:Hd; [destruct (already d t)|].
  - intros ->. by rewrite Hd.
  - intros (d' & -> & Hu). split; [exists d'; by rewrite lookup_insert_eq|].
    intros m Hm. by apply lookup_insert_ne.
  - intros (d' & v & now & _ & -> & Hn & _ & Hsp & Hst). split.
    + exists d', v. rewrite lookup_insert_eq. by split_and!.
    + intros m Hm. by apply lookup_insert_ne.
Qed.

(** One reconcile: its own record is brought up, the others are as they were. *)
Lemma reconciled_brought_up r req h w (s' : gmap string SchedulingDecision) :
  cluster_owned w -> reconciled (srv := srv) r req h w s' ->
  brought_up w req (decisions w) s' /\
  forall n, ~ owns owner req n -> s' !! n = decisions w !! n.
Proof.
  intros Ho (res & [now Hi]%implies_at & Hr). unfold brought_up.
  destruct res as [[ident t]|].
  - apply records_after in Hr as [Hr Hne]. split.
    + exists now. rewrite Hi. split; [done|]. intros n _. apply Hne.
    + intros n Hn. apply Hne. intros ->. apply Hn. eexists. split; [done|]. by eapply Ho.
  - subst s'. split; [|done]. exists now. by rewrite Hi.
Qed.

Lemma cluster_owned_same w w' : same_inputs w w' -> cluster_owned w -> cluster_owned w'.
Proof.
  intros Hs Ho req now ident t Hi. rewrite (implied_same w w') in Hi by done. by eapply Ho.
Qed.

(** What is brought up depends on the request's own decisions only. *)
Lemma brought_up_ext w w0 req (s s0 s' s0' : gmap string SchedulingDecision) :
  same_inputs w0 w -> cluster_owned w0 ->
  (forall n, owns owner req n -> s !! n = s0 !! n) ->
  (forall n, owns owner req n -> s' !! n = s0' !! n) ->
  brought_up w req s s' -> brought_up w0 req s0 s0'.
Proof.
  intros Hw Ho Hs Hs' [now Hb]. exists now. rewrite (implied_same w0 w) in Hb by done.
  destruct (implied w0 req now) as [[ident t]|] eqn:Hi.
  - assert (owns owner req (decisionName (id_UID ident))) as Hown
      by (eexists; split; [done|by eapply Ho]).
    destruct Hb as [Hr Hne]. rewrite <- Hs, <- Hs' by done. split; [done|].
    intros n Hn Hd. rewrite <- Hs, <- Hs' by done. by apply Hne.
  - intros n Hn. rewrite <- Hs, <- Hs' by done. by apply Hb.
Qed.

Lemma reconcile_all_total r reqs h w :
  cluster_owned w -> NoDup reqs ->
  total srv (reconcile_all r reqs) h w (fun _ errs w' =>
    errs = (fun _ => None) <$> reqs /\ same_inputs w w' /\
    (forall req, req ∈ reqs -> brought_up w req (decisions w) (decisions w')) /\
    forall n, (forall req, req ∈ reqs -> ~ owns owner req n) ->
      decisions w' !! n = decisions w !! n).
Proof.
  intros Ho Hnd. revert h w Ho. induction Hnd as [|req reqs Hnew _ IH]; intros h w Ho; cbn [reconcile_all].
  { apply total_ret. split_and!; [done..| |done]. by intros req Hreq%not_elem_of_nil. }
  apply total_bind. eapply total_mono; [|apply Reconcile_total].
  intros h1 err w1 _ (-> & Hin1 & Hr).
  destruct (reconciled_brought_up _ _ _ _ _ Ho Hr) as [Hown Hother].
  apply total_bind. eapply total_mono; [|apply IH; by eapply cluster_owned_same].
  intros h2 errs w2 _ (-> & Hin2 & Hrest & Hkeep). apply total_ret.
  assert (forall n, owns owner req n -> decisions w2 !! n = decisions w1 !! n) as Hkept.
  { intros n Hn. apply Hkeep. intros req' Hreq' Hn'. apply Hnew.
    by rewrite (owns_unique owner req req' n). }
  split_and!; [done|by etrans| |].
  - intros req' [->|Hreq']%elem_of_cons.
    + eapply (brought_up_ext w w); [done|done|done| |exact Hown].
      intros n Hn. symmetry. by apply Hkept.
    + eapply (brought_up_ext w1 w); [done|done| | |by apply Hrest]; [|done].
      intros n Hn. apply Hother. intros Hn'. apply Hnew.
      by rewrite (owns_unique owner req req' n).
  - intros n Hn. rewrite Hkeep; [|intros req' Hreq'; apply Hn; by right].
    apply Hother. apply Hn. by left.
Qed.

(** A cluster is owned if its pods and the Events on pods are. *)
Lemma view_owned w :
  (forall key pod, pod_at w key = Some pod -> pod_ok owner key pod) ->
  (forall ns k e, e ∈ events_at w ns k ->
     event_ok owner e /\ ev_Namespace e = ns /\ k ∈ indexEventInvolvedObject (EventObject e)) ->
  cluster_owned w.
Proof.
  intros Hpods Hev req now ident t Hi. unfold implied in Hi.
  assert (forall e, e ∈ relevant_events (events_at w (nn_Namespace req)
      (nn_Namespace req +:+ "/" +:+ nn_Name req)) ->
    owner (or_UID (ev_InvolvedObject e)) = req) as Hown.
  { intros e [Hr He]%list_elem_of_filter. destruct (Hev _ _ _ He) as (Hok & Hns & Hk).
    by destruct (concerns_watched owner req e Hok) as (_ & _ & ?). }
  destruct (pod_at w req) as [pod|] eqn:Hp.
  - apply (derive_owned owner req _ _ _ _ _ _ Hi); [|done]. intros _. by apply Hpods.
  - by apply (derive_owned owner req _ _ _ _ _ _ Hi).
Qed.

(** ** Theorem *)

(** C8. The first pass brings every record up to date: on a reliable server, reconciling
    each request once, in any order, ends without an error; afterwards the record of
    every request's pod is what its pod and Events imply - one transition longer if it
    did not end with the implied one, new if there was none, untouched otherwise - and
    no other decision has changed. *)
Theorem sync_converges r reqs w :
  cluster_owned w -> NoDup reqs ->
  exists tr w', exec srv (reconcile_all r reqs) w = (Some ((fun _ => None) <$> reqs), tr, w') /\
    same_inputs w w' /\
    (forall req, req ∈ reqs -> brought_up w req (decisions w) (decisions w')) /\
    (forall n, (forall req, req ∈ reqs -> ~ owns owner req n) ->
       decisions w' !! n = decisions w !! n).
Proof.
  intros Ho Hnd.
  destruct (total_exec srv _ _ _ (reconcile_all_total r reqs [] w Ho Hnd))
    as (errs & tr & w' & Hrun & -> & Hs & Hb & Hk).
  by exists tr, w'.
Qed.
End sync.
