(* ===== verification/MemoryScenarios.v ===== *)
(** * Memory scenarios: the deep copies at work on a concrete heap

    An [ObjectMeta] whose labels are a map behind a pointer, as apimachinery's is, a
    cached decision with one transition in an array with room for another, and the
    theorems of [DeepCopy] on them. *)

From S2P Require Import Prelude GoTime Api Decision Effects Controller GoHeap DeepCopy.

(** ** An implementation of apimachinery's metadata *)

Record ObjectMeta_m := mkObjectMeta_m {
  omm_Name : string;
  omm_UID : UID;
  omm_ResourceVersion : string;
  omm_Labels : option loc;
}.

Abbreviation C0 := (cell ObjectMeta_m unit).

#[global] Instance ObjectMeta_m_zero : Zero ObjectMeta_m := mkObjectMeta_m "" "" "" None.
#[global] Instance StringMap_zero : Zero (gmap string string) :=
  (∅ : gmap string string).
#[global] Instance ListMeta_zero : Zero unit := tt.

Definition ObjectMeta_DeepCopyInto (x : ObjectMeta_m) : mem C0 ObjectMeta_m :=
  labels ← copy_ptr (T := gmap string string) copy_flat (omm_Labels x);
  mret (mkObjectMeta_m (omm_Name x) (omm_UID x) (omm_ResourceVersion x) labels).

#[global] Instance ObjectMeta_copyable : DeepCopyable C0 ObjectMeta_m ObjectMeta.
Proof.
  refine (@by_field _ _ _ _ _
    (ptr_copyable (T := gmap string string) (V := gmap string string)) omm_Labels
    (fun l x => mkObjectMeta_m (omm_Name x) (omm_UID x) (omm_ResourceVersion x) l)
    (fun m x => mkObjectMeta (omm_Name x) (omm_UID x) (omm_ResourceVersion x) (default ∅ m))
    ObjectMeta_DeepCopyInto _ _ _); done.
Defined.

Lemma ObjectMeta_foreign : stored_in ObjectMeta_m ObjectMeta foreign_cell.
Proof.
  intros h x v (b & Hb & _)%bind_Some l c Hl Hc.
  eapply (ptr_stored (T := gmap string string) (V := gmap string string));
    [apply flat_stored|done| |exact Hb|exact Hl|done].
  intros [] ? [= ->]; done.
Qed.

(** ** A cached decision *)

Definition scheduled_m : SchedulingTransition_m :=
  mkTransition_m SchedulingOutcomeScheduled "node-a" "assigned" (MkTime 100 0) 5000
    (Some (mkSlice 3 1 1)) (mkSourceRef "event-1" "").

Definition cached_decision : SchedulingDecision_m ObjectMeta_m :=
  mkDecision_m (mkTypeMeta "SchedulingDecision" "audit.scheduling.k8s.io/v1alpha1")
    (mkObjectMeta_m "sdec-u1" "d-u1" "7" (Some 5%positive))
    (mkSpec_m "web" "prod" "u1" "default-scheduler" None)
    (mkStatus_m SchedulingOutcomeScheduled "node-a" "assigned" (MkTime 100 0) 5000
       (Some (mkSlice 2 1 2))).

Definition cache : heap C0 :=
  <[1%positive := to_cell cached_decision]>
  (<[2%positive := to_cell [scheduled_m; zero]]>
  (<[3%positive := to_cell [mkCandidateNode_m "node-a" "" (Some 4%positive)]]>
  (<[4%positive := to_cell (7 : Z)]>
  (<[5%positive := to_cell (<["app" := "web"]> ∅ : gmap string string)]>
  (<[6%positive := to_cell [mkCandidateNode_m "node-b" "" None; zero]]> ∅))))).

(** A preemption, with its own candidate nodes. *)
Definition preempted_m : SchedulingTransition_m :=
  mkTransition_m SchedulingOutcomePreempted "" "preempted" (MkTime 200 0) 105000
    (Some (mkSlice 6 1 2)) (mkSourceRef "event-2" "").

(** Doubling. *)
Definition growth (n : nat) : nat := (n + n)%nat.

Definition attempt (t : SchedulingTransition_m) : option (option loc * heap C0) :=
  appendTransition_once_m growth 1%positive t cache.

Definition read_at (h : heap C0) (p : option loc)
    : option (option (TypeMeta * SchedulingDecision)) :=
  rd_ptr (T := SchedulingDecision_m ObjectMeta_m) h p.

Definition outcomes (d : SchedulingDecision) : list (SchedulingOutcome * list string) :=
  map (fun t => (tr_Outcome t, map cn_Name (tr_CandidateNodes t)))
    (st_Transitions (sd_Status d)).

(** The updated copy has both transitions, the cached object still one. *)
Example append_preempted :
  match attempt preempted_m with
  | Some (r, h) =>
      (r' ← read_at h r; p ← r'; Some (outcomes p.2)) =
        Some [(SchedulingOutcomeScheduled, ["node-a"]);
              (SchedulingOutcomePreempted, ["node-b"])] /\
      (r' ← read_at h (Some 1%positive); p ← r'; Some (outcomes p.2)) =
        Some [(SchedulingOutcomeScheduled, ["node-a"])]
  | None => False
  end.
Proof. vm_compute. done. Qed.

(** The same transition again asks for no update. *)
Example append_again : fst <$> attempt scheduled_m = Some None.
Proof. by vm_compute. Qed.

Lemma deepcopies_independent_witness :
  exists q h', SchedulingDecision_DeepCopy (Some 1%positive) cache = Some (q, h') /\
    forall h2, (forall l, l ∈ dom cache -> h2 !! l = h' !! l) ->
      read_at h2 (Some 1%positive) = read_at cache (Some 1%positive).
Proof.
  pose proof (deepcopies_independent (OM := ObjectMeta_m) (LM := unit) (LV := unit)) as H.
  destruct H as (_ & _ & _ & _ & _ & _ & H & _).
  destruct (read_at cache (Some 1%positive)) as [v|] eqn:Hv; [|vm_compute in Hv; discriminate].
  destruct (H cache (Some 1%positive) v Hv) as (q & h' & Hrun & _ & Hold & _).
  exists q, h'. split; [done|]. intros h2 Hh2. by apply Hold.
Defined.

Lemma append_in_memory_refines_witness :
  exists tm d q h' d', read_at cache (Some 1%positive) = Some (Some (tm, d)) /\
    attempt preempted_m = Some (Some q, h') /\
    read_at h' (Some 1%positive) = Some (Some (tm, d)) /\
    read_at h' (Some q) = Some (Some (tm, d')).
Proof.
  destruct (read_at cache (Some 1%positive)) as [[[tm d]|]|] eqn:Hd;
    [|vm_compute in Hd; discriminate..].
  destruct (rd (V := SchedulingTransition) cache preempted_m) as [tv|] eqn:Ht;
    [|vm_compute in Ht; discriminate].
  destruct (append_in_memory_refines growth ltac:(unfold growth; lia) ObjectMeta_foreign
    "sdec-u1" cache 1%positive tm d preempted_m tv Hd Ht)
    as (r & h' & Hrun & Hc & _ & k & _ & Hr).
  assert (fst <$> attempt preempted_m <> Some None) as Hsome by (vm_compute; discriminate).
  unfold attempt in Hsome. rewrite Hrun in Hsome. destruct r as [q|]; [|by destruct Hsome].
  destruct Hr as (d' & _ & Hread). exists tm, d, q, h', d'. split_and!; try done.
Defined.
