(* ===== verification/Scenarios.v ===== *)
(** * Scenarios: the theorems at work on concrete clusters

    Small clusters, the runs of the handlers on them, computed by [vm_compute], and
    for each theorem with hypotheses an instance where they hold. *)

From Stdlib Require Import String.
From S2P Require Import Prelude Strconv GoTime GoStrings Api Decision Effects.
From S2P Require Import VolumeContext Controller ReconcileProps Sweep Http Extender.
From S2P Require Import Dashboard System RefServer.

(** ** What a history says a reconcile has observed *)

Definition events_read (x : exchange) : option (list Event) :=
  match x with
  | Exch c a =>
      match c return answer c -> option (list Event) with
      | ListEvents _ _ => fun a => match a with inr items => Some items | inl _ => None end
      | _ => fun _ => None
      end a
  end.

Definition pod_read (x : exchange) : option (bool * Pod) :=
  match x with
  | Exch c a =>
      match c return answer c -> option (bool * Pod) with
      | GetPod _ => fun a => match a with inr p => Some (true, p) | inl _ => Some (false, Pod_zero) end
      | _ => fun _ => None
      end a
  end.

Definition clock_read (x : exchange) : option Time :=
  match x with
  | Exch c a => match c return answer c -> option Time with
                | Now => fun a => Some a | _ => fun _ => None end a
  end.

(** A history with one reading of the events and the pod, and the clock standing. *)
Definition read_once (h : list exchange) (items : list Event) (pod : bool * Pod) (now : Time)
    : Prop :=
  omap events_read h = [items] /\ omap pod_read h = [pod] /\
  forallb (Equal now) (omap clock_read h) = true.

Section read_once.
Context (req : NamespacedName) (h : list exchange).
Context (items : list Event) (pod : bool * Pod) (now : Time).
Context (Honce : read_once h items pod now).

Lemma inputs_once pf pod' events :
  inputs req h pf pod' events -> (pf, pod') = pod /\ events = relevant_events items.
Proof using Honce.
  intros (items' & g & H1 & H2 & -> & H4). destruct Honce as (E1 & E2 & E3).
  assert (items' ∈ omap events_read h) as M1
    by (apply list_elem_of_omap; eexists; split; [exact H1|done]).
  assert ((pf, pod') ∈ omap pod_read h) as M2.
  { apply list_elem_of_omap. eexists. split; [exact H2|]. simpl.
    destruct g; [destruct H4 as (_ & -> & ->)|destruct H4 as [-> ->]]; done. }
  rewrite E1 in M1. rewrite E2 in M2.
  apply list_elem_of_singleton in M1, M2. by subst.
Qed.

Lemma derives_once pf pod' events res :
  derives h pf pod' events res -> deriveTransition now pod' pf events = res.
Proof using Honce.
  intros [(now' & Hin & <-)|Hall]; [|by apply Hall]. destruct Honce as (_ & _ & E3).
  assert (now' ∈ omap clock_read h) as M3
    by (apply list_elem_of_omap; eexists; split; [exact Hin|done]).
  rewrite forallb_forall in E3.
  by replace now' with now by by apply Equal_spec, E3, list_elem_of_In.
Qed.

Lemma observed_once ident t :
  observed req h ident t ->
  deriveTransition now pod.2 pod.1 (relevant_events items) = Some (ident, t).
Proof using Honce.
  intros (pf & pod' & events & Hin & Hd). apply derives_once in Hd.
  apply inputs_once in Hin as [Hp ->]. by rewrite <- Hp.
Qed.

Lemma nothing_once :
  nothing_observed req h ->
  deriveTransition now pod.2 pod.1 (relevant_events items) = None.
Proof using Honce.
  intros (pf & pod' & events & Hin & Hd). apply derives_once in Hd.
  apply inputs_once in Hin as [Hp ->]. by rewrite <- Hp.
Qed.
End read_once.

(** ** A cluster with one bound pod *)

(** Seconds after some instant of 2023. *)
Definition at_ (s : Z) : Time := MkTime (unixToInternal + 1700000000 + s) 0.
Definition at_ms (s ms : Z) : Time :=
  MkTime (unixToInternal + 1700000000 + s) (ms * 10 ^ 6).

Definition web : Pod :=
  mkPod "u-1" "web-0" "shop" (at_ 0) "node-a" "default-scheduler"
    [mkVolume "tmp" None; mkVolume "data" (Some "data-web-0")]
    [mkPodCondition PodScheduled ConditionTrue (at_ 2) "" ""].

Definition web_request : NamespacedName := mkNamespacedName "shop" "web-0".
Definition web_ref : ObjectReference := mkObjectReference "Pod" "shop" "web-0" "u-1".

Definition scheduled_event : Event :=
  mkEvent "e-1" "" "shop" (at_ 2) web_ref eventReasonScheduled
    "Successfully assigned shop/web-0 to node-a" EventTypeNormal "default-scheduler" ""
    (at_ 2) (at_ 2) Time_zero.

Definition candidates_event : Event :=
  mkEvent "e-0" "" "shop" (at_ 1) web_ref CandidateNodesEventReason
    "node-a,node-b" EventTypeNormal reportingController "" (at_ 1) (at_ 1) Time_zero.

(** A preemption of an earlier pod of the same name. *)
Definition old_preemption : Event :=
  mkEvent "e-9" "" "shop" (at_ (-60)) (mkObjectReference "Pod" "shop" "web-0" "u-0")
    eventReasonPreempted "Preempted by shop/batch-1" EventTypeNormal "default-scheduler" ""
    (at_ (-60)) (at_ (-60)) Time_zero.

Definition web_events : list Event := [candidates_event; scheduled_event].

Definition claim : PersistentVolumeClaim := mkPVC "shop" "data-web-0" (Some "px-fast").
Definition px_fast : StorageClass :=
  mkStorageClass "px-fast" "pxd.portworx.com" (Some "WaitForFirstConsumer")
    [[mkRequirement "topology.kubernetes.io/zone" ["a"; "b"]]].

Definition shop : cluster :=
  mkCluster ∅ [] 0 [web] web_events [claim] [px_fast] (at_ 5).

Definition reconciler : SchedulingDecisionReconciler := mkReconciler 0.

Lemma shop_fresh : fresh shop.
Proof. done. Qed.

(** Running a handler on a cluster. *)
Definition run_trace {A} (p : prog A) (s : cluster) : list exchange := (exec ref_server p s).1.2.
Definition run_result {A} (p : prog A) (s : cluster) : option A := (exec ref_server p s).1.1.
Definition run_cluster {A} (p : prog A) (s : cluster) : cluster := (exec ref_server p s).2.

Lemma run_runs {A} (p : prog A) s a :
  run_result p s = Some a -> runs p (run_trace p s) a.
Proof.
  unfold run_result, run_trace. destruct (exec ref_server p s) as [[o tr] w] eqn:He.
  simpl. intros ->. by eapply exec_runs.
Qed.

Lemma ref_server_answering : answering ref_server.
Proof.
  intros c w Hc. destruct c; simpl; try (by eexists _, _). by destruct (Hc code).
Qed.

(** The reconcile of the pod, and a second one right after it. *)
Definition first : list exchange := run_trace (Reconcile reconciler web_request) shop.
Definition shop' : cluster := run_cluster (Reconcile reconciler web_request) shop.
Definition second : list exchange := run_trace (Reconcile reconciler web_request) shop'.

Lemma first_runs : runs (Reconcile reconciler web_request) first None.
Proof. apply run_runs. by vm_compute. Qed.

Lemma second_runs : runs (Reconcile reconciler web_request) second None.
Proof. apply run_runs. by vm_compute. Qed.

(** What the first reconcile leaves in the store. *)
Example shop_record :
  match cl_store shop' !! "sdec-u-1" with
  | Some d =>
      st_Outcome (sd_Status d) = SchedulingOutcomeScheduled /\
      st_ChosenNode (sd_Status d) = "node-a" /\
      st_SchedulingLatencyMs (sd_Status d) = 2000 /\
      (cn_Name <$> (st_Transitions (sd_Status d) ≫= tr_CandidateNodes)) = ["node-a"; "node-b"] /\
      vc_DriverType <$> spec_VolumeContext (sd_Spec d) = Some "PX-CSI" /\
      vc_TopologyConstraint <$> spec_VolumeContext (sd_Spec d) =
        Some "topology.kubernetes.io/zone in (a,b)" /\
      sd_Labels d !! ExpiresAtLabel = Some "1700259205"
  | None => False
  end.
Proof. by vm_compute. Qed.

(** [decided]: prove a decidable proposition by evaluating its decision. *)
Ltac decided := refine (bool_decide_unpack _ _); vm_compute; exact I.

(** ** Deriving transitions *)

Lemma web_events_no_ties : no_ties web_events.
Proof.
  intros e e' He He'. unfold web_events in *. set_unfold.
  destruct He as [->|[->|[]]], He' as [->|[->|[]]]; done.
Qed.

Lemma deriveTransition_order_independent_witness :
  deriveTransition (at_ 5) web true [candidates_event; scheduled_event] =
  deriveTransition (at_ 5) web true [scheduled_event; candidates_event] /\
  is_Some (deriveTransition (at_ 5) web true web_events).
Proof.
  split; [|decided].
  apply (deriveTransition_order_independent (at_ 5) web true web_events);
    [apply Permutation_swap|exact web_events_no_ties].
Defined.

Lemma latencyMs_spec_witness :
  latencyMs (at_ 0) (at_ms 2 350) = 2350 /\
  latencyMs (at_ 0) (at_ms 2 350) =
    Z.min int64_max (Z.max 0 (instant (at_ms 2 350) - instant (at_ 0))) / 10 ^ 6.
Proof.
  split; [by vm_compute|].
  apply (latencyMs_spec (at_ 0) (at_ms 2 350)); decided.
Defined.

Lemma deriveTransition_wellformed_witness :
  exists i t, deriveTransition (at_ 5) web true web_events = Some (i, t) /\
    terminal_outcome (tr_Outcome t) /\ node_ok t /\
    0 <= tr_SchedulingLatencyMs t <= int64_max / 10 ^ 6.
Proof.
  destruct (deriveTransition (at_ 5) web true web_events) as [[i t]|] eqn:Hd;
    [|vm_compute in Hd; discriminate Hd].
  exists i, t. split; [reflexivity|].
  apply (deriveTransition_wellformed (at_ 5) web true web_events i t Hd);
    [decided|]. vm_compute in Hd. injection Hd as <- <-. decided.
Defined.

(** The new pod is bound, the old pod's preemption is still listed. *)
Lemma deriveTransition_stale_preemption_witness :
  or_UID (ev_InvolvedObject old_preemption) <> pod_UID web /\
  exists i t, deriveTransition (at_ 5) web true (old_preemption :: web_events) = Some (i, t) /\
    id_UID i = pod_UID web /\ tr_Outcome t = SchedulingOutcomePreempted /\
    tr_ChosenNode t = "" /\ sr_EventUID (tr_SourceRef t) = ev_UID old_preemption.
Proof.
  split; [by vm_compute|].
  apply (deriveTransition_stale_preemption (at_ 5) web _ old_preemption).
  exists [], web_events. split; [reflexivity|]. split; [reflexivity|].
  split; [constructor|]. repeat constructor; by vm_compute.
Defined.

(** ** Volumes *)

Definition shop_pvcs (k : NamespacedName) : fallible error PersistentVolumeClaim :=
  if bool_decide (k = mkNamespacedName "shop" "data-web-0") then inr claim
  else inl (StatusError StatusReasonNotFound "not found").
Definition shop_classes (n : string) : fallible error StorageClass :=
  if n =?s "px-fast" then inr px_fast
  else inl (StatusError StatusReasonNotFound "not found").

Lemma resolveVolumeContext_spec_witness :
  exists vc, vc_DriverType vc = "PX-CSI" /\
    resolves shop_pvcs shop_classes (claims_of web) (inr (Some vc)).
Proof.
  eexists (mkVolumeContext "data-web-0" "px-fast" "PX-CSI" "WaitForFirstConsumer"
    "topology.kubernetes.io/zone in (a,b)"). split; [reflexivity|].
  apply (resolveVolumeContext_spec shop_pvcs shop_classes web
           (run_trace (resolveVolumeContext web) shop)).
  - apply run_runs. by vm_compute.
  - by vm_compute.
Defined.

(** ** Reconciles *)

Lemma Reconcile_writes_witness :
  writes_of first <> [] /\
  calls_ok (reconcile_allows reconciler web_request) [] first.
Proof.
  split; [by vm_compute|].
  exact (Reconcile_writes reconciler web_request first None first_runs).
Defined.

Lemma Reconcile_success_witness :
  nothing_observed web_request first \/
  exists ident t, observed web_request first ident t /\
    recorded (decisionName (id_UID ident)) first t.
Proof. exact (Reconcile_success reconciler web_request first first_runs). Defined.

Lemma Reconcile_bounded_witness :
  (count is_create first <= 1)%nat /\ (count is_update first <= 4)%nat.
Proof. exact (Reconcile_bounded reconciler web_request first None first_runs). Defined.

Lemma Reconcile_terminates_witness :
  exists err tr w', exec ref_server (Reconcile reconciler web_request) shop =
      (Some err, tr, w') /\
    forall n, (forall pod, Exch (GetPod web_request) (inr pod) ∈ tr ->
                 (length (pod_Volumes pod) <= n)%nat) ->
      (length tr <= n + 8 + 2 * 4)%nat.
Proof.
  exact (Reconcile_terminates reconciler web_request ref_server shop ref_server_answering).
Defined.

(** An API server that refuses every call it can refuse. *)
Definition down : error := StatusError (StatusReasonOther "ServiceUnavailable") "down".
Definition down_trace : list exchange :=
  [Exch (ListEvents "shop" "shop/web-0") (inl down)].

(** The pod's record is made by another process just before. *)
Definition raced (c : call) (s : cluster) : option (answer c) * cluster :=
  match c return option (answer c) * cluster with
  | CreateDecision d =>
      (Some (Some (StatusError StatusReasonAlreadyExists "already exists")), (ref_create d s).2)
  | c => ref_server c s
  end.

Definition race_run : option (option error) * list exchange * cluster :=
  exec raced (Reconcile reconciler web_request) shop.

(** A list that fails; and a creation race that is lost, but no error. *)
Lemma Reconcile_error_witness :
  (exists e h x e0, runs (Reconcile reconciler web_request) down_trace (Some e) /\
    down_trace = h ++ [x] /\ fatal h x /\ exchange_error x = Some e0 /\
    ReasonForError e = ReasonForError e0) /\
  runs (Reconcile reconciler web_request) race_run.1.2 None /\
  (forall h x, race_run.1.2 = h ++ [x] -> ~ fatal h x) /\
  existsb (fun x => match x with Exch c a => match c return answer c -> bool with
    | CreateDecision _ => fun a => match a with Some _ => true | None => false end
    | _ => fun _ => false end a end) race_run.1.2 = true.
Proof.
  split; [|assert (runs (Reconcile reconciler web_request) race_run.1.2 None) as Hr].
  - set (e := Errorf "listing events for pod %s: %w" ["shop/web-0"] (Some down)).
    assert (runs (Reconcile reconciler web_request) down_trace (Some e)) as Hr
      by by eexists _, [].
    destruct (Reconcile_error reconciler web_request down_trace (Some e) Hr) as [(h & x & e0 & H) _].
    by exists e, h, x, e0.
  - assert (race_run.1.1 = Some None) as He by by vm_compute.
    apply (exec_runs raced _ shop _ _ race_run.2). unfold race_run in *. rewrite <- He.
    by rewrite <- !surjective_pairing.
  - split; [exact Hr|]. split; [|by vm_compute].
    exact (proj1 (Reconcile_error reconciler web_request _ None Hr)).
Defined.

Lemma second_read_once : read_once second web_events (true, web) (at_ 5).
Proof. by vm_compute. Qed.

(** The first reconcile's transition. *)
Definition web_transition : SchedulingTransition :=
  default (newTransition "" Time_zero)
    (snd <$> deriveTransition (at_ 5) web true web_events).

Definition decision_read (x : exchange) : option (fallible error SchedulingDecision) :=
  match x with
  | Exch c a =>
      match c return answer c -> option (fallible error SchedulingDecision) with
      | GetDecision _ => fun a => Some a
      | _ => fun _ => None
      end a
  end.

(** [latest_is] of a history whose reads of the decision are known. *)
Lemma latest_is_reads (P : SchedulingTransition -> Prop) h reads :
  omap decision_read h = reads ->
  Forall (fun a => exists d l, a = inr d /\ last (st_Transitions (sd_Status d)) = Some l /\ P l)
    reads ->
  latest_is P h.
Proof.
  intros <- Hall n a Hin. rewrite Forall_forall in Hall. apply Hall.
  apply list_elem_of_omap. eexists. split; [exact Hin|done].
Qed.

Lemma second_latest :
  latest_is (fun l => forall ident t, observed web_request second ident t ->
    transitionsEqual l t = true) second.
Proof.
  eapply latest_is_reads; [by vm_compute|].
  repeat (apply Forall_cons; split; [|]); [..|by apply Forall_nil].
  all: eexists _, _; split; [done|]; split; [by vm_compute|].
  all: intros ident t Ho; eapply observed_once in Ho; [|exact second_read_once].
  all: vm_compute in Ho; injection Ho as <- <-; by vm_compute.
Qed.

Lemma Reconcile_idempotent_witness : calls_of second <> [] /\ writes_of second = [].
Proof.
  split; [by vm_compute|].
  exact (Reconcile_idempotent reconciler web_request second None second_runs second_latest).
Defined.

(** ** Instants within a second *)

(** A pod whose outcome is known from an event with a microsecond time only. *)
Definition lane_pod : Pod :=
  mkPod "u-2" "lane-0" "shop" (at_ 0) "node-b" "default-scheduler" [] [].
Definition lane_event : Event :=
  mkEvent "e-2" "" "shop" (at_ 2) (mkObjectReference "Pod" "shop" "lane-0" "u-2")
    eventReasonScheduled "Successfully assigned shop/lane-0 to node-b" EventTypeNormal
    "default-scheduler" "" Time_zero Time_zero (at_ms 2 350).
Definition lane_request : NamespacedName := mkNamespacedName "shop" "lane-0".
Definition lane : cluster := mkCluster ∅ [] 0 [lane_pod] [lane_event] [] [] (at_ 5).
Definition lane' : cluster := run_cluster (Reconcile reconciler lane_request) lane.
Definition lane_second : list exchange := run_trace (Reconcile reconciler lane_request) lane'.

Lemma lane_second_runs : runs (Reconcile reconciler lane_request) lane_second None.
Proof. apply run_runs. by vm_compute. Qed.

Definition update_answer (x : exchange) : option (option error) :=
  match x with
  | Exch c a => match c return answer c -> option (option error) with
                | UpdateDecisionStatus _ => fun a => Some a | _ => fun _ => None end a
  end.

Lemma Reconcile_subsecond_duplicates_witness :
  writes_of lane_second <> [] /\
  (nothing_observed lane_request lane_second \/
   appended_one lane_request lane_second None).
Proof.
  split; [by vm_compute|].
  apply (Reconcile_subsecond_duplicates reconciler lane_request whole_second lane_second).
  - intros t. reflexivity.
  - exact lane_second_runs.
  - intros ident t Ho.
    apply (observed_once _ _ [lane_event] (true, lane_pod) (at_ 5)) in Ho;
      [|by vm_compute].
    vm_compute in Ho. injection Ho as <- <-. by vm_compute.
  - eapply latest_is_reads; [by vm_compute|].
    repeat (apply Forall_cons; split; [|]); [..|by apply Forall_nil].
    all: eexists _, _; split; [done|]; split; [by vm_compute|].
    all: by eexists (mkTransition _ _ _ (MkTime _ 0) _ _ _).
  - intros d a Hin.
    assert (a ∈ omap update_answer lane_second) as Ha
      by (apply list_elem_of_omap; eexists; split; [exact Hin|done]).
    replace (omap update_answer lane_second) with [@None error] in Ha by by vm_compute.
    by apply list_elem_of_singleton in Ha.
Defined.

(** ** The sweep *)

(** The retention window of the record in [shop'] ends. *)
Definition expired_shop : cluster :=
  mkCluster (cl_store shop') (cl_seen shop') (cl_next shop') [web] web_events [claim] [px_fast]
    (at_ (5 + 259200)).
Definition sweep_time : Time := at_ (5 + 259200).
Definition sweeping : list exchange := run_trace (sweep sweep_time) expired_shop.

Lemma sweeping_runs : runs (sweep sweep_time) sweeping None.
Proof. apply run_runs. by vm_compute. Qed.

Lemma retention_window_respected_witness :
  let d := set_VolumeContext None (newDecision "sdec-u-1" (mkIdentity "u-1" "web-0" "shop" "")
             (Time_Unix (Add (at_ 5) (retentionWindow reconciler)))) in
  exists expired, isExpired (sd_Labels d) sweep_time = inr expired /\
    (expired = true <->
       (instant (at_ 5) + retentionWindow reconciler) / Second * Second <= instant sweep_time) /\
    (instant sweep_time <= instant (at_ 5) + retentionWindow reconciler - Second ->
       expired = false) /\
    (instant (at_ 5) + retentionWindow reconciler <= instant sweep_time -> expired = true).
Proof.
  apply (retention_window_respected reconciler "sdec-u-1" (mkIdentity "u-1" "web-0" "shop" "")
           None (at_ 5) sweep_time); [split; decided|decided|decided].
Defined.

Lemma sweep_deletes_only_expired_witness :
  length (writes_of sweeping) = 1%nat /\ calls_ok (sweep_allows sweep_time) [] sweeping.
Proof.
  split; [by vm_compute|].
  apply (sweep_deletes_only_expired sweep_time). left. exists None. exact sweeping_runs.
Defined.

Lemma sweep_complete_witness : sweep_done sweep_time sweeping.
Proof.
  exact (proj1 (proj1 (sweep_complete sweep_time sweeping) None sweeping_runs)).
Defined.

Lemma main_exit_status_witness :
  (exists tr w', exec ref_server main expired_shop = (Some tt, tr, w') /\ main_ends tr None) \/
  (exists tr w' code, exec ref_server main expired_shop = (None, tr, w') /\
     exits main tr code /\ main_ends tr (Some code)).
Proof. exact (main_exit_status ref_server expired_shop ref_server_answering). Defined.

Definition labelled (v : string) : gmap string string := {[ExpiresAtLabel := v]}.

Lemma isExpired_spec_witness :
  isExpired (labelled "1700000000") (at_ 5) =
    inr (bool_decide ((1700000000 + unixToInternal) * Second <= instant (at_ 5))) /\
  exists e, isExpired (labelled "soon") (at_ 5) = inl e.
Proof.
  split.
  - apply (proj2 (isExpired_spec (labelled "1700000000") (at_ 5) ltac:(decided)) "1700000000");
      [by vm_compute|by vm_compute|decided|decided].
  - apply (proj1 (isExpired_spec (labelled "soon") (at_ 5) ltac:(decided))).
    right. exists "soon". split; [by vm_compute|]. intros n Hn. vm_compute in Hn. discriminate Hn.
Defined.

Lemma isExpired_overflow_witness :
  isExpired (labelled "9223372036854775807") (at_ 5) = inr true.
Proof.
  apply (isExpired_overflow _ (at_ 5) "9223372036854775807" int64_max);
    [by vm_compute|by vm_compute|decided|split; decided].
Defined.

(** ** The servers *)

Definition decode_args (body : string) : fallible error (ExtenderArgs string) :=
  if body =?s "" then inl (OtherError "EOF")
  else inr (mkExtenderArgs (Some web) None (Some ["node-a"; "node-b"])).
Definition encode_result (r : ExtenderFilterResult string) : fallible error string :=
  inr (Join (default [] (res_NodeNames r)) ",").
Definition filter_web : prog Response := filterHandler id decode_args encode_result "{pod}".
Definition filtering : list exchange := run_trace filter_web shop.
Definition filter_response : Response :=
  mkResponse StatusOK application_json (Json "node-a,node-b").

Lemma filtering_runs : runs filter_web filtering filter_response.
Proof. apply run_runs. by vm_compute. Qed.

Lemma filterHandler_passthrough_witness :
  filter_response = passthrough_response encode_result
    (mkExtenderArgs (Some web) None (Some ["node-a"; "node-b"])).
Proof.
  exact (filterHandler_passthrough id decode_args encode_result "{pod}" filtering
           filter_response filtering_runs).
Defined.

Lemma filterHandler_records_witness :
  length (writes_of filtering) = 1%nat /\
  calls_ok (filter_allows id decode_args "{pod}") [] filtering.
Proof.
  split; [by vm_compute|].
  exact (filterHandler_records id decode_args encode_result "{pod}" filtering
           filter_response filtering_runs).
Defined.

Definition candidatesEvent_web : Event := candidateNodesEvent web ["node-a"; "node-b"] (at_ 1).

Lemma candidateNodes_roundtrip_witness :
  candidateNodesFrom [scheduled_event; candidatesEvent_web] =
    [mkCandidateNode "node-a" "" None; mkCandidateNode "node-b" "" None].
Proof.
  apply (candidateNodes_roundtrip web ["node-a"; "node-b"] (at_ 1) _ candidatesEvent_web);
    [by vm_compute|done|done|]. repeat constructor; by vm_compute.
Defined.

Definition encode_count (ds : list SchedulingDecision) : fallible error string :=
  inr (FormatInt (Z.of_nat (length ds))).

Lemma serve_refines_witness :
  exists tr, serves encode_count "<html>" "/api/decisions" tr
    (mkResponse StatusOK application_json (Json "1")) /\ writes_of tr = [].
Proof.
  exists (run_trace (serve encode_count "<html>" "/api/decisions") shop').
  apply (serve_refines encode_count "<html>" "/api/decisions").
  apply run_runs. by vm_compute.
Defined.

(** ** The system *)

(** The first reconcile of the pod, cut before and after the creation. *)
Definition cut (n : nat) : prog (option error) * list exchange * cluster :=
  advance n ref_server (Reconcile reconciler web_request) [] shop.

Lemma cut_reachable n :
  exists Hs, reachable (System (ref_world (cut n).2 Hs) 
    [Thread (Reconcile reconciler web_request) (cut n).1.1 (cut n).1.2]).
Proof.
  apply (advance_reachable n (Reconcile reconciler web_request) shop);
    [apply handler_reconcile|apply shop_fresh|].
  by rewrite <- !surjective_pairing.
Qed.

Lemma system_refines_witness :
  exists s s', reachable s /\ step s s' /\
    size (store (sys_world s)) = 0%nat /\ size (store (sys_world s')) = 1%nat /\
    audit_step s (store (sys_world s)) (store (sys_world s')).
Proof.
  destruct (cut_reachable 6) as [Hs Hr].
  destruct (advance_one (Reconcile reconciler web_request) (cut 6).1.1 (cut 6).1.2 (cut 6).2 Hs
    (cut 7).1.1 (cut 7).1.2 (cut 7).2 []) as [Hs' Hst].
  { vm_compute. reflexivity. }
  { intros Heq. apply (f_equal length) in Heq. vm_compute in Heq. discriminate Heq. }
  eexists _, _. split; [exact Hr|]. split; [exact Hst|].
  split; [by vm_compute|]. split; [by vm_compute|].
  exact (system_refines _ _ Hr Hst).
Defined.

(** The record as created, and after the first transition. *)
Definition stored_at (n : nat) : SchedulingDecision :=
  default (newDecision "" (mkIdentity "" "" "" "") 0) (cl_store (cut n).2 !! "sdec-u-1").

Lemma stored_records_wellformed_witness : record_ok (stored_at 9).
Proof.
  destruct (cut_reachable 9) as [Hs Hr].
  apply (stored_records_wellformed _ "sdec-u-1" (stored_at 9) Hr). by vm_compute.
Defined.

Lemma history_append_only_witness :
  length (st_Transitions (sd_Status (stored_at 7))) = 0%nat /\
  length (st_Transitions (sd_Status (stored_at 9))) = 1%nat /\
  st_Transitions (sd_Status (stored_at 7)) `prefix_of`
    st_Transitions (sd_Status (stored_at 9)).
Proof.
  split; [by vm_compute|]. split; [by vm_compute|].
  destruct (cut_reachable 7) as [Hs Hr].
  destruct (advance_steps 2 (Reconcile reconciler web_request) (cut 7).1.1 (cut 7).1.2 (cut 7).2 Hs
    (cut 9).1.1 (cut 9).1.2 (cut 9).2 []) as [Hs' Hst].
  { vm_compute. reflexivity. }
  apply (history_append_only _ _ "sdec-u-1" (stored_at 7) (stored_at 9) Hr Hst);
    by vm_compute.
Defined.

Lemma reconcile_stored_witness :
  exists s i h, reachable s /\
    sys_threads s !! i = Some (Thread (Reconcile reconciler web_request) (Ret None) h) /\
    ~ nothing_observed web_request h /\
    exists ident t d l, observed web_request h ident t /\ seen (sys_world s) d /\
      sd_Name d = decisionName (id_UID ident) /\
      last (st_Transitions (sd_Status d)) = Some l /\
      (transitionsEqual l t = true \/ l = persist_transition persist_time t).
Proof.
  destruct (cut_reachable 9) as [Hs Hr].
  assert ((cut 9).1.1 = Ret None) as Hret by by vm_compute.
  rewrite Hret in Hr.
  assert (~ nothing_observed web_request (cut 9).1.2) as Hobs.
  { intros Hn. apply (nothing_once _ _ web_events (true, web) (at_ 5)) in Hn;
      [|by vm_compute]. vm_compute in Hn. discriminate Hn. }
  eexists _, 0%nat, _. split; [exact Hr|]. split; [reflexivity|]. split; [exact Hobs|].
  destruct (reconcile_stored _ 0 reconciler web_request (cut 9).1.2 Hr eq_refl); [done|done].
Defined.
