(* ===== verification/LoopScenarios.v ===== *)
(** * Loop scenarios: the controller's event loop on a concrete cluster

    The caches of the loop hold the pod and the Events of [Scenarios]; its workers
    run against the reference server; [idle_requests_settled] is applied to the state
    they leave. *)

From S2P Require Import Prelude GoTime GoStrings Api Decision Effects Controller.
From S2P Require Import ReconcileProps System RefServer Loop Quiesce Scenarios.

(** ** Workers run like handlers *)

(** The caches show what the server holds. *)
Definition caches_match (s : cluster) (pods : pod_cache) (events : event_cache) : Prop :=
  (map_to_list events).*2 ≡ₚ cl_events s /\
  forall key, match find_by (fun p => bool_decide
      (mkNamespacedName (pod_Namespace p) (pod_Name p) = key)) (cl_pods s) with
    | inr pod => pods !! key = Some pod
    | inl _ => pods !! key = None
    end.

(** A call that leaves pods and Events alone. *)
Definition quiet_call (c : call) : bool := match c with CreateEvent _ => false | _ => true end.

Lemma ref_server_quiet c s a s' :
  ref_server c s = (Some a, s') -> quiet_call c = true ->
  cl_events s' = cl_events s /\ cl_pods s' = cl_pods s /\ cl_clock s' = cl_clock s.
Proof.
  intros Hs Hq. destruct c; simpl in *; unfold answered in Hs; try done; try (by simplify_eq).
  - unfold ref_create in Hs. by destruct (cl_store s !! sd_Name d); simplify_eq/=.
  - unfold ref_update in Hs. destruct (cl_store s !! sd_Name d) as [cur|]; [|by simplify_eq/=].
    by destruct (sd_ResourceVersion cur <>?s sd_ResourceVersion d); simplify_eq/=.
  - unfold ref_delete in Hs. by destruct (cl_store s !! sd_Name d); simplify_eq/=.
Qed.

Lemma ref_server_cached c s a s' w pods events q ws deleted :
  ref_server c s = (Some a, s') -> caches_match s pods events -> store w = cl_store s ->
  cache_answers false (Loop w pods events q ws deleted) c a.
Proof.
  intros Hs [Hev Hpods] Hw. destruct c; simpl in *; try done; injection Hs as <- <-.
  - intros items Hi. injection Hi as <-. unfold indexed. by rewrite Hev.
  - specialize (Hpods key). by destruct (find_by _ _).
  - intros d Hd _. rewrite Hw. destruct (cl_store s !! name); [|done]. by injection Hd as ->.
Qed.

Lemma advance_prefix {A} n (p : prog A) h s p' h' s' :
  advance n ref_server p h s = (p', h', s') -> h `prefix_of` h'.
Proof.
  revert p h s. induction n as [|n IH]; intros p h s; simpl; [by intros; simplify_eq|].
  destruct p as [a|c k]; [by intros; simplify_eq|].
  destruct (ref_server c s) as [[a|] s1]; [|by intros; simplify_eq].
  intros Hp%IH. etrans; [|exact Hp]. by exists [Exch c a].
Qed.

(** What [ref_server] answers is what its state says. *)
Lemma ref_server_truthful c s a s' Hs :
  ref_server c s = (Some a, s') -> truthful (ref_world s Hs) c a.
Proof.
  intros Ha. destruct c; simpl in *; try done; unfold answered in *.
  - injection Ha as <- <-. by eexists.
  - injection Ha as <- <-. unfold find_by. by destruct (list_find _ _) as [[]|].
  - injection Ha as <- <-. destruct (cl_store s !! name); [done|]. eexists. by split.
  - injection Ha as <- <-. unfold ref_create. destruct (cl_store s !! sd_Name d); [|done].
    eexists. by split.
  - injection Ha as <- <-. unfold ref_update.
    destruct (cl_store s !! sd_Name d) as [cur|]; [|by eexists]. intros Hrv.
    by split_if.
Qed.

(** [RefServer] can always answer. *)
#[export] Instance ref_LiveServer : LiveServer.
Proof.
  split; try (intros [s Hs]; intros; by exists (ref_world s Hs)).
  intros [s Hs] c Hc. destruct (ref_server c s) as [[a|] s'] eqn:Ha.
  - pose proof (ref_server_step _ _ _ _ Ha Hs) as Hst.
    exists a, (ref_world s' (ref_step_ok _ _ _ _ Hst Hs)). split; [done|].
    by eapply ref_server_truthful.
  - by destruct c.
Qed.

(** The steps of [R] include those of workers that [ref_server] answers at [now]. *)
Record runs_workers r (R : loop -> loop -> Prop) (now : Time) : Prop := {
  run_take w pods events q ws del req :
    req ∈ q -> ws !! req = None ->
    R (Loop w pods events q ws del)
      (Loop w pods events (q ∖ {[req]})
         (<[req := Thread (Reconcile r req) (Reconcile r req) []]> ws) del);
  run_call s Hs s' Hs' pods events q ws del req p c k h a :
    ws !! req = Some (Thread p (Call c k) h) -> ref_server c s = (Some a, s') ->
    cl_clock s = now -> caches_match s pods events ->
    R (Loop (ref_world s Hs) pods events q ws del)
      (Loop (ref_world s' Hs') pods events q (<[req := Thread p (k a) (h ++ [Exch c a])]> ws) del);
  run_done w pods events q ws del req p h :
    ws !! req = Some (Thread p (Ret None) h) ->
    R (Loop w pods events q ws del) (Loop w pods events q (delete req ws) del);
}.

Lemma calm_runs r now : runs_workers r (calm r false) now.
Proof.
  split; intros; [by apply calm_take| |by apply (calm_done r false _ _ _ _ _ _ req p None h)].
  apply (calm_call r false (ref_world s Hs) _ _ _ _ _ req p c k h a (ref_world s' Hs')).
  - done.
  - by eapply ref_server_step.
  - by eapply ref_server_cached.
  - by eapply ref_server_truthful.
Qed.

(** A worker makes up to [n] calls. *)
Lemma worker_advances r R n req p0 p h s Hs p' h' s' pods events q ws deleted :
  runs_workers r R (cl_clock s) ->
  advance n ref_server p h s = (p', h', s') -> forallb quiet_call (calls_of h') = true ->
  caches_match s pods events ->
  exists Hs', rtc R
    (Loop (ref_world s Hs) pods events q (<[req := Thread p0 p h]> ws) deleted)
    (Loop (ref_world s' Hs') pods events q (<[req := Thread p0 p' h']> ws) deleted).
Proof.
  intros HR. remember (cl_clock s) as now eqn:Hnow. symmetry in Hnow.
  revert p h s Hs Hnow. induction n as [|n IH]; intros p h s Hs Hnow; simpl;
    [intros ? _ _; simplify_eq; by exists Hs|].
  destruct p as [a|c k]; [intros ? _ _; simplify_eq; by exists Hs|].
  destruct (ref_server c s) as [[a|] s1] eqn:Hc; [|intros ? _ _; simplify_eq; by exists Hs].
  pose proof (ref_step_ok _ _ _ _ (ref_server_step _ _ _ _ Hc Hs) Hs) as Hs1.
  intros Ha Hq Hm.
  assert (quiet_call c = true) as Hqc.
  { destruct (advance_prefix _ _ _ _ _ _ _ Ha) as [k' ->].
    rewrite !calls_of_app, !forallb_app in Hq. simpl in Hq. destruct (quiet_call c); [done|].
    by rewrite !andb_false_r in Hq. }
  destruct (ref_server_quiet _ _ _ _ Hc Hqc) as (He & Hp & Hcl).
  destruct (IH (k a) (h ++ [Exch c a]) s1 Hs1) as [Hs' Hrun]; [|done|done|..].
  { by rewrite Hcl. }
  { unfold caches_match. by rewrite He, Hp. }
  exists Hs'. eapply rtc_l; [|exact Hrun].
  rewrite <- (insert_insert_eq ws req (Thread p0 (k a) _) (Thread p0 (Call c k) h)).
  apply (run_call _ _ _ HR); [apply lookup_insert_eq|done|done|done].
Qed.

(** ** The pod of [Scenarios] is bound *)

Definition shop_pods : pod_cache := {[web_request := web]}.
Definition shop_events : event_cache :=
  {["shop/e-0"%string := candidates_event; "shop/e-1"%string := scheduled_event]}.

(** The UIDs of the shop. *)
Definition shop_owner (uid : UID) : NamespacedName :=
  if uid =?s "u-1" then web_request else mkNamespacedName "" "".

Lemma shop_caches_ok : caches_ok shop_owner shop_pods shop_events.
Proof.
  split; [by apply map_Forall_singleton|].
  unfold shop_events. apply map_Forall_insert_2; [by split|]. apply map_Forall_singleton. by split.
Qed.

Lemma shop_caches_match : caches_match shop shop_pods shop_events.
Proof.
  split; [vm_compute; apply Permutation_swap|]. intros key. unfold shop_pods, find_by. simpl.
  destruct (decide (key = web_request)) as [->|Hne].
  - rewrite bool_decide_eq_true_2 by done. apply lookup_singleton_eq.
  - rewrite bool_decide_eq_false_2 by (intros ?; by subst). by apply lookup_singleton_ne.
Qed.

Definition processed : prog (option error) * list exchange * cluster :=
  advance 20 ref_server (Reconcile reconciler web_request) [] shop.

Lemma shop_versions : versions_ok (ref_world shop (fresh_ok _ shop_fresh)) ∅.
Proof. split; [intros n d; by simpl; rewrite lookup_empty|by intros d ?%not_elem_of_nil]. Qed.

Lemma processed_done : processed.1.1 = Ret None.
Proof. by vm_compute. Qed.

(** The loop when the process starts, and when its request has been taken and reconciled. *)
Definition shop_start : loop :=
  Loop (ref_world shop (fresh_ok _ shop_fresh)) shop_pods shop_events
    (initial_requests shop_pods shop_events) ∅ ∅.

Definition shop_end Hs : loop := Loop (ref_world processed.2 Hs) shop_pods shop_events ∅ ∅ ∅.

Lemma shop_start_reaches s :
  rtc (loop_step reconciler shop_owner false) shop_start s ->
  loop_reachable reconciler shop_owner false s.
Proof.
  exists shop_start. split; [|done]. eexists _, _, _, _.
  split; [apply shop_caches_ok|]. by split; [apply shop_versions|].
Qed.

Lemma shop_processed R :
  runs_workers reconciler R (cl_clock shop) -> exists Hs, rtc R shop_start (shop_end Hs).
Proof.
  intros HR.
  destruct (worker_advances reconciler R 20 web_request (Reconcile reconciler web_request)
    (Reconcile reconciler web_request) [] shop (fresh_ok _ shop_fresh)
    processed.1.1 processed.1.2 processed.2 shop_pods shop_events
    (initial_requests shop_pods shop_events ∖ {[web_request]}) ∅ ∅) as [Hs Hrun]; [done|..].
  { by rewrite <- !surjective_pairing. }
  { by vm_compute. }
  { apply shop_caches_match. }
  exists Hs. eapply rtc_l; [apply (run_take _ _ _ HR) with (req := web_request); [|done]|].
  { apply (bool_decide_unpack _). by vm_compute. }
  etrans; [exact Hrun|]. apply rtc_once. rewrite processed_done.
  assert (initial_requests shop_pods shop_events ∖ {[web_request]} = ∅) as ->
    by (apply (bool_decide_unpack _); by vm_compute).
  set (th := Thread _ _ _).
  pose proof (run_done _ _ _ HR (ref_world processed.2 Hs) shop_pods shop_events ∅
    (<[web_request := th]> ∅) ∅ web_request (Reconcile reconciler web_request) processed.1.2
    (lookup_insert_eq _ _ _)) as Hd.
  by rewrite delete_insert_eq, delete_empty in Hd.
Qed.

Lemma shop_end_rests Hs : nf (calm reconciler false) (shop_end Hs).
Proof. intros [s Hs']. inversion Hs'; set_solver. Qed.

(** The decision of the pod ends with the outcome of its condition and Event. *)
Definition shop_recorded (s : loop) : Prop :=
  exists d l, store (lp_world s) !! "sdec-u-1"%string = Some d /\
    last (st_Transitions (sd_Status d)) = Some l /\ tr_Outcome l = SchedulingOutcomeScheduled.

(** The outcome that the caches of the shop show. *)
Lemma shop_derives podFound pod events now :
  cached_pod shop_pods web_request podFound pod ->
  events ≡ₚ cached_events shop_events web_request ->
  exists ident t, deriveTransition now pod podFound events = Some (ident, t) /\
    id_UID ident = "u-1"%string /\ tr_Outcome t = SchedulingOutcomeScheduled.
Proof.
  intros Hp He. unfold cached_pod, shop_pods in Hp. rewrite lookup_singleton_eq in Hp.
  destruct Hp as [-> ->].
  assert ((fun it => (id_UID it.1, tr_Outcome it.2)) <$> deriveTransition now web true events =
    Some ("u-1"%string, SchedulingOutcomeScheduled)) as Hdr.
  { assert (cached_events shop_events web_request = [scheduled_event; candidates_event]) as Hc
      by by vm_compute.
    rewrite Hc in He. symmetry in He.
    apply Permutation_length_2_inv in He as [->| ->]; by vm_compute. }
  destruct (deriveTransition now web true events) as [[ident t]|]; [|done]. simpl in Hdr.
  injection Hdr as Hid Ht. by exists ident, t.
Qed.

Lemma shows_recorded l t d :
  store (lp_world l) !! "sdec-u-1"%string = Some d -> shows false t d ->
  tr_Outcome t = SchedulingOutcomeScheduled -> shop_recorded l.
Proof.
  intros Hst (x & _ & Hx & Heq) Ht. exists d, x. split_and!; [done|by apply Hx|].
  destruct Heq as [Heq|Heq]; [|by rewrite Heq].
  apply transitionsEqual_spec in Heq as [Heq _]. by rewrite Heq.
Qed.

Lemma shop_settled w q ws :
  settled false (Loop w shop_pods shop_events q ws ∅) web_request ->
  shop_recorded (Loop w shop_pods shop_events q ws ∅).
Proof.
  intros (pf & pod & evs & now & Hp & He & Hd).
  destruct (shop_derives _ _ _ now Hp He) as (ident & t & Hdr & Hid & Ht).
  rewrite Hdr, Hid in Hd. destruct Hd as [(d & Hst & Hsh)|[Hdel _]]; [|set_solver].
  by eapply shows_recorded.
Qed.

Lemma idle_requests_settled_witness : exists Hs, shop_recorded (shop_end Hs).
Proof.
  destruct (shop_processed _ (calm_runs _ _)) as [Hs Hrun]. exists Hs. apply shop_settled.
  apply (idle_requests_settled reconciler shop_owner false); [|set_solver|done].
  apply shop_start_reaches. eapply rtc_subrel; [|exact Hrun]. intros s s' Hss. by apply calm_loop.
Defined.

(** The loop of the shop ends, in any order, with the outcome recorded; it can end. *)
Lemma loop_comes_to_rest_witness :
  sn (calm reconciler false) shop_start /\
  (forall s, rtc (calm reconciler false) shop_start s -> nf (calm reconciler false) s ->
    lp_queue s = ∅ /\ lp_workers s = ∅ /\ shop_recorded s) /\
  exists s, rtc (calm reconciler false) shop_start s /\ nf (calm reconciler false) s.
Proof.
  destruct (loop_comes_to_rest reconciler shop_owner false shop_start (shop_start_reaches _ (rtc_refl _ _)))
    as [Hsn Hrest]. split_and!; [done| |].
  - intros s Hs Hnf. destruct (Hrest s Hs Hnf) as (Hq & Hw & Hp & He & Hd & Hset).
    specialize (Hset web_request). destruct s. simpl in *. subst. split_and!; [done..|].
    by apply shop_settled.
  - destruct (shop_processed _ (calm_runs _ _)) as [Hs Hrun]. exists (shop_end Hs). split; [done|].
    apply shop_end_rests.
Defined.
