(* ===== verification/DeploymentScenarios.v ===== *)
(** * Deployment scenarios: controller and sweep under one clock

    The shop of [LoopScenarios] is deployed with a clock; its pod's outcome is recorded,
    and a sweep a second before the expiry finds nothing to delete. *)

From S2P Require Import Prelude Strconv GoTime GoStrings Api Decision Effects Controller.
From S2P Require Import ReconcileProps Sweep System RefServer Loop Deployment Scenarios.
From S2P Require Import LoopScenarios.

(** ** Runs of the deployment *)

Abbreviation deploys := (deploy_step reconciler shop_owner false).

(** The workers' steps, at the clock's reading. *)
Lemma deploy_runs sw now :
  runs_workers reconciler (fun l l' => deploys (Deployment l sw now) (Deployment l' sw now)) now.
Proof.
  split; intros.
  - by apply deploy_inner, loop_take.
  - apply (deploy_call _ _ _ (ref_world s Hs) _ _ _ _ _ req p c k h a (ref_world s' Hs')).
    + done.
    + by eapply ref_server_step.
    + by eapply ref_server_cached.
    + destruct c; simpl in *; try done. by simplify_eq.
  - by apply deploy_inner, (loop_done _ _ _ _ _ _ _ _ req p None h).
Qed.

(** The sweep makes up to [n] calls. *)
Lemma sweep_advances n p0 p h s Hs p' h' s' pods events q ws del now :
  advance n ref_server p h s = (p', h', s') ->
  exists Hs' del', rtc deploys
    (Deployment (Loop (ref_world s Hs) pods events q ws del) (Some (Thread p0 p h)) now)
    (Deployment (Loop (ref_world s' Hs') pods events q ws del') (Some (Thread p0 p' h')) now).
Proof.
  revert p h s Hs del. induction n as [|n IH]; intros p h s Hs del; simpl;
    [intros ?; simplify_eq; by exists Hs, del|].
  destruct p as [a|c k]; [intros ?; simplify_eq; by exists Hs, del|].
  destruct (ref_server c s) as [[a|] s1] eqn:Hc; [|intros ?; simplify_eq; by exists Hs, del].
  pose proof (ref_server_step _ _ _ _ Hc Hs) as Hst.
  pose proof (ref_step_ok _ _ _ _ Hst Hs) as Hs1.
  intros (Hs' & del' & Hrun)%(IH _ _ _ Hs1 (del ∪ removes c)). exists Hs', del'.
  eapply rtc_l; [|exact Hrun].
  apply (deploy_sweep_call _ _ _ (Loop (ref_world s Hs) pods events q ws del) p0 c k h a
    (ref_world s1 Hs1)); [done|].
  destruct c; simpl in *; try done. intros ds ->. by simplify_eq.
Qed.

(** ** The shop *)

Definition shop_deployed : deployment := Deployment shop_start None (at_ 5).

Definition shop_done Hs : deployment := Deployment (shop_end Hs) None (at_ 5).

Lemma shop_deployed_initial : deploy_initial reconciler shop_owner shop_deployed.
Proof.
  split_and!; [|done|done|decided|by intros d ?%not_elem_of_nil].
  eexists _, _, _, _. split; [apply shop_caches_ok|]. by split; [apply shop_versions|].
Qed.

Lemma shop_done_reachable : exists Hs, deploy_reachable reconciler shop_owner false (shop_done Hs).
Proof.
  destruct (shop_processed _ (deploy_runs None (at_ 5))) as [Hs Hrun]. exists Hs, shop_deployed.
  split; [apply shop_deployed_initial|].
  eapply (rtc_congruence (fun l => Deployment l None (at_ 5))) in Hrun; [exact Hrun|done].
Qed.

(** The last second of the window, and a sweep then. *)
Definition last_second : Time := at_ (5 + 259200 - 1).

Definition swept : prog (option error) * list exchange * cluster :=
  advance 5 ref_server (sweep last_second) [] processed.2.

Lemma shop_swept Hs :
  exists Hs' del, rtc deploys (shop_done Hs)
    (Deployment (Loop (ref_world swept.2 Hs') shop_pods shop_events ∅ ∅ del) None last_second).
Proof.
  destruct (sweep_advances 5 (sweep last_second) (sweep last_second) [] processed.2 Hs
    swept.1.1 swept.1.2 swept.2 shop_pods shop_events ∅ ∅ ∅ last_second) as (Hs' & del & Hrun).
  { by rewrite <- !surjective_pairing. }
  exists Hs', del. eapply rtc_l; [apply deploy_tick with (now' := last_second); [by vm_compute|decided]|].
  eapply rtc_l; [apply deploy_sweep|]. etrans; [exact Hrun|]. apply rtc_once, deploy_sweep_gone.
Qed.

(** The sweep has ended, and the record is still there. *)
Lemma kept_until_expiry_witness :
  swept.1.1 = Ret None /\
  exists d d', cl_store processed.2 !! "sdec-u-1"%string = Some d /\
    cl_store swept.2 !! "sdec-u-1"%string = Some d' /\ sd_UID d' = sd_UID d.
Proof.
  split; [by vm_compute|]. destruct shop_done_reachable as [Hs Hr].
  destruct (shop_swept Hs) as (Hs' & del & Hrun).
  destruct (cl_store processed.2 !! "sdec-u-1"%string) as [d|] eqn:Hd; [|by vm_compute in Hd].
  exists d.
  destruct (kept_until_expiry reconciler shop_owner false _ _ "sdec-u-1" d Hr Hrun Hd)
    as (d' & Hd' & Hu & _).
  { vm_compute in Hd. injection Hd as <-. by vm_compute. }
  exists d'. split; [reflexivity|]. split; [exact Hd'|exact Hu].
Defined.

(** None of the versions has expired. *)
Lemma shop_not_expired d created :
  d ∈ cl_seen processed.2 -> rfc3339 created ->
  sd_Labels d !! ExpiresAtLabel =
    Some (FormatInt (Time_Unix (Add created (retentionWindow reconciler)))) ->
  ~ instant created + retentionWindow reconciler < instant (at_ 5) + Second.
Proof.
  intros Hd Hc Hl Hlt.
  assert (forallb (fun d => match isExpired (sd_Labels d) (at_ 5) with
    inr b => negb b | inl _ => false end) (cl_seen processed.2) = true) as Hf by by vm_compute.
  rewrite forallb_forall in Hf. specialize (Hf d (proj1 (list_elem_of_In _ _) Hd)).
  rewrite (label_expired created (retentionWindow reconciler) (sd_Labels d) (at_ 5)) in Hf;
    [|exact Hc|decided|decided|exact Hl].
  apply negb_true_iff, bool_decide_eq_false in Hf.
  pose proof (whole_seconds (instant created + retentionWindow reconciler)).
  change (instant (at_ 5)) with (63835596805 * Second) in *. unfold Second in *. lia.
Qed.

Lemma outcome_kept_for_window_witness : exists Hs, shop_recorded (shop_end Hs).
Proof.
  destruct shop_done_reachable as [Hs Hr]. exists Hs.
  destruct (outcome_kept_for_window reconciler shop_owner false (shop_done Hs) web_request)
    as (pf & pod & evs & now & Hp & He & Hd); [decided|done|by apply not_elem_of_empty|done|].
  destruct (shop_derives _ _ _ now Hp He) as (ident & t & Hdr & Hid & Ht).
  rewrite Hdr, Hid in Hd. cbn zeta in Hd.
  destruct Hd as [(d & Hst & Hsh)|(d & created & Hd & _ & Hc & Hl & Hlt)];
    [by eapply shows_recorded|].
  by destruct (shop_not_expired d created Hd Hc Hl Hlt).
Defined.

(** ** Two sweeps at a time *)

Definition window_end : Time := at_ (5 + 259200).

(** One sweep has listed the record of the shop, whose window has ended. *)
Definition lister : prog (option error) * list exchange * cluster :=
  advance 1 ref_server (sweep window_end) [] processed.2.

(** Another sweep deletes it; the next reconcile records the pod again. *)
Definition swept_first : prog (option error) * list exchange * cluster :=
  advance 5 ref_server (sweep window_end) [] processed.2.

Definition recorded_again : prog (option error) * list exchange * cluster :=
  advance 20 (clocked window_end) (Reconcile reconciler web_request) [] swept_first.2.

(** The first sweep goes on. *)
Definition deleted_again : prog (option error) * list exchange * cluster :=
  advance 1 ref_server lister.1.1 lister.1.2 recorded_again.2.

(** A thread starts and runs. *)
Lemma start_and_advance srv n p p' h' s Hs s' ths :
  handler p -> (forall s c a s', srv c s = (Some a, s') -> cluster_ok s -> ref_step s c a s') ->
  advance n srv p [] s = (p', h', s') ->
  exists Hs', rtc step (System (ref_world s Hs) ths)
    (System (ref_world s' Hs') (Thread p p' h' :: ths)).
Proof.
  intros Hp Hsrv Ha. destruct (advance_steps_by srv n p p [] s Hs p' h' s' ths Hsrv Ha) as [Hs' Hrun].
  exists Hs'. eapply rtc_l; [by apply step_start|exact Hrun].
Qed.

(** A sweep about to delete what it has listed: it deletes whatever has that name now. *)
Lemma deletes_by_name s Hs ths i p d0 k h d :
  ths !! i = Some (Thread p (Call (DeleteDecision d0) k) h) ->
  cl_store s !! sd_Name d0 = Some d ->
  exists w', step (System (ref_world s Hs) ths)
      (System w' (<[i := Thread p (k None) (h ++ [Exch (DeleteDecision d0) None])]> ths)) /\
    store w' = delete (sd_Name d0) (cl_store s).
Proof.
  intros Hi Hd. exists (ref_world _ (set_store_ok (sd_Name d0) s Hs)). split; [|done].
  eapply step_call; [exact Hi|]. right. unfold ref_delete. simpl. by rewrite Hd.
Qed.

(** The first sweep has listed the record and is about to delete it. *)
Definition first_sweep : thread := Thread (sweep window_end) lister.1.1 lister.1.2.

Definition second_sweep : thread := Thread (sweep window_end) swept_first.1.1 swept_first.1.2.

Definition second_reconcile : thread :=
  Thread (Reconcile reconciler web_request) recorded_again.1.1 recorded_again.1.2.

(** The states before the second sweep, after it, and after the second reconcile. *)
Lemma overlap_reached :
  exists H1 H2 H3,
    let s1 := System (ref_world processed.2 H1) [first_sweep] in
    let s2 := System (ref_world swept_first.2 H2) [second_sweep; first_sweep] in
    reachable s1 /\ rtc step s1 s2 /\
    rtc step s2 (System (ref_world recorded_again.2 H3)
      [second_reconcile; second_sweep; first_sweep]).
Proof.
  assert (forall s c a s', ref_server c s = (Some a, s') -> cluster_ok s -> ref_step s c a s')
    as Hsrv by (intros; by eapply ref_server_step).
  destruct (start_and_advance ref_server 20 (Reconcile reconciler web_request) processed.1.1
    processed.1.2 shop (fresh_ok _ shop_fresh) processed.2 [] (handler_reconcile _ _) Hsrv)
    as [Hs0 H0].
  { by rewrite <- !surjective_pairing. }
  destruct (start_and_advance ref_server 1 (sweep window_end) lister.1.1 lister.1.2
    processed.2 Hs0 processed.2 [] (handler_sweep _) Hsrv) as [Hs1 H1].
  { unfold lister. simpl. done. }
  destruct (start_and_advance ref_server 5 (sweep window_end) swept_first.1.1 swept_first.1.2
    processed.2 Hs1 swept_first.2 [first_sweep] (handler_sweep _) Hsrv) as [Hs2 H2].
  { by rewrite <- !surjective_pairing. }
  destruct (start_and_advance (clocked window_end) 20 (Reconcile reconciler web_request)
    recorded_again.1.1 recorded_again.1.2 swept_first.2 Hs2 recorded_again.2
    [second_sweep; first_sweep] (handler_reconcile _ _) (clocked_step _)) as [Hs3 H3].
  { by rewrite <- !surjective_pairing. }
  exists Hs1, Hs2, Hs3. split_and!; [|exact H2|exact H3].
  exists (System (ref_world shop (fresh_ok _ shop_fresh)) []). split; [done|].
  etrans; [exact H0|]. eapply rtc_l; [apply (step_gone _ [_] 0)|]. exact H1.
Qed.

(** What the first sweep has listed and does next. *)
Definition deleted_next (p : prog (option error)) : option SchedulingDecision :=
  match p with Call (DeleteDecision d) _ => Some d | _ => None end.

Lemma deleted_next_call p d : deleted_next p = Some d -> exists k, p = Call (DeleteDecision d) k.
Proof. destruct p as [|[] k]; simpl; try done. intros [= ->]. by exists k. Qed.

Lemma first_sweep_next :
  exists d0 k, cl_store processed.2 !! "sdec-u-1"%string = Some d0 /\
    lister.1.1 = Call (DeleteDecision d0) k /\
    lister.1.2 = [Exch ListDecisions (inr [d0])] /\
    sd_Name d0 = "sdec-u-1"%string /\ isExpired (sd_Labels d0) window_end = inr true.
Proof.
  assert (lister.1.2 = [Exch ListDecisions (inr (map_to_list (cl_store processed.2)).*2)])
    as Hlist by done.
  assert (deleted_next lister.1.1 = cl_store processed.2 !! "sdec-u-1"%string) as Hnext
    by by vm_compute.
  assert (Some <$> (map_to_list (cl_store processed.2)).*2 =
    [cl_store processed.2 !! "sdec-u-1"%string]) as Hall by by vm_compute.
  assert ((fun d => (sd_Name d, isExpired (sd_Labels d) window_end)) <$>
    (cl_store processed.2 !! "sdec-u-1"%string) = Some ("sdec-u-1"%string, inr true)) as Hex
    by by vm_compute.
  destruct (cl_store processed.2 !! "sdec-u-1"%string) as [d0|]; [|discriminate Hex].
  injection Hex as Hn He. apply deleted_next_call in Hnext as [k Hk].
  exists d0, k. split; [reflexivity|]. split; [exact Hk|]. split; [|by split].
  rewrite Hlist. destruct ((map_to_list (cl_store processed.2)).*2) as [|d1 [|? ?]];
    [discriminate Hall| |discriminate Hall]. by injection Hall as ->.
Qed.

(** The second sweep has deleted it; the second reconcile has recorded the pod anew. *)
Lemma recorded_anew :
  exists d, cl_store recorded_again.2 !! "sdec-u-1"%string = Some d /\
    (d ∉ cl_seen swept_first.2) /\
    sd_Labels d !! ExpiresAtLabel =
      Some (FormatInt (Time_Unix (Add window_end (retentionWindow reconciler)))) /\
    isExpired (sd_Labels d) window_end = inr false.
Proof.
  assert ((fun d => bool_decide (sd_ResourceVersion d ∈ sd_ResourceVersion <$> cl_seen swept_first.2)) <$>
    (cl_store recorded_again.2 !! "sdec-u-1"%string) = Some false) as Hv by by vm_compute.
  assert ((fun d => sd_Labels d !! ExpiresAtLabel) <$>
    (cl_store recorded_again.2 !! "sdec-u-1"%string) =
    Some (Some (FormatInt (Time_Unix (Add window_end (retentionWindow reconciler)))))) as Hl
    by by vm_compute.
  assert ((fun d => isExpired (sd_Labels d) window_end) <$>
    (cl_store recorded_again.2 !! "sdec-u-1"%string) = Some (inr false)) as He by by vm_compute.
  apply fmap_Some in Hv as (d & Hd & Hv). rewrite Hd in Hl, He. apply (inj Some) in Hl, He.
  exists d. split; [exact Hd|]. split; [|by split].
  symmetry in Hv. apply bool_decide_eq_false in Hv. intros Hin. by apply Hv, list_elem_of_fmap_2.
Qed.

Definition ended_well (p : prog (option error)) : bool :=
  match p with Ret None => true | _ => false end.

Lemma ended_well_ret p : ended_well p = true -> p = Ret None.
Proof. by destruct p as [[|]|]. Qed.

Lemma take_elem {A} n (l : list A) x : x ∈ take n l -> x ∈ l.
Proof. intros Hx. rewrite <- (take_drop n l). by apply elem_of_app; left. Qed.

Lemma second_sweep_deleted d0 :
  cl_store processed.2 !! "sdec-u-1"%string = Some d0 ->
  swept_first.1.1 = Ret None /\ Exch (DeleteDecision d0) None ∈ swept_first.1.2 /\
  cl_store swept_first.2 !! "sdec-u-1"%string = None.
Proof.
  intros Hd. split; [|split; [|by vm_compute]].
  - apply ended_well_ret. by vm_compute.
  - assert ((fun d => [Exch ListDecisions (inr [d]); Exch (DeleteDecision d) None]) <$>
      (cl_store processed.2 !! "sdec-u-1"%string) = Some (take 2 swept_first.1.2)) as Htr
      by by vm_compute.
    rewrite Hd in Htr. apply (inj Some) in Htr.
    apply (take_elem 2). rewrite <- Htr. apply list_elem_of_further, list_elem_of_here.
Qed.

(** A sweep tells its instant by what it deletes. *)
Definition deletes_listed (p : prog (option error)) (d : SchedulingDecision) : bool :=
  match p with
  | Call ListDecisions k =>
      match k (inr [d]) with Call (DeleteDecision _) _ => true | _ => false end
  | _ => false
  end.

Lemma sweep_deletes_listed now d :
  deletes_listed (sweep now) d = true <-> isExpired (sd_Labels d) now = inr true.
Proof.
  unfold deletes_listed, sweep. simpl. by destruct (isExpired (sd_Labels d) now) as [|[]].
Qed.

(** A running sweep deletes what it has listed as expired. *)
Lemma deletion_listed s i now d k h :
  reachable s ->
  sys_threads s !! i = Some (Thread (sweep now) (Call (DeleteDecision d) k) h) ->
  exists items, Exch ListDecisions (inr items) ∈ h /\ d ∈ items /\
    isExpired (sd_Labels d) now = inr true.
Proof.
  intros Hr Hi. destruct (reachable_ok _ Hr) as [Hths _].
  destruct (proj1 (Forall_lookup _ _) Hths _ _ Hi) as [[[Hc _] _] _].
  destruct Hc as [(r & req & _ & [])|(now' & Heq & items & Hh & Hin & He & _)]. simpl in *.
  exists items. split; [by apply head_Some_elem_of|]. split; [done|].
  apply sweep_deletes_listed. rewrite Heq. by apply sweep_deletes_listed.
Qed.

(** C38. Deletions are by name, so retention needs its sweeps one at a time. Whenever a
    running sweep is about to delete what it listed as expired, the server may delete
    whatever record has that name by then, whenever it was made and whenever it
    expires. And that happens: a sweep has listed a stored, expired record; a second
    sweep, as of the same instant, starts, deletes it and ends well; a reconcile records
    the pod anew, in a version the server had not held before, whose label gives it a
    whole window from that same instant on; then the first sweep deletes it, with
    nothing but the listing in its history. *)
Theorem overlapping_sweeps_delete_unexpired :
  (forall s Hs ths i now d0 k h d,
     let s1 := System (ref_world s Hs) ths in
     reachable s1 -> ths !! i = Some (Thread (sweep now) (Call (DeleteDecision d0) k) h) ->
     store (sys_world s1) !! sd_Name d0 = Some d ->
     (exists items, Exch ListDecisions (inr items) ∈ h /\ d0 ∈ items /\
        isExpired (sd_Labels d0) now = inr true) /\
     exists s2, step s1 s2 /\
       store (sys_world s2) = delete (sd_Name d0) (store (sys_world s1))) /\
  (exists r req now d0 d k h h' s1 s2 s3 s4,
     let n := sd_Name d0 in
     let first rest h := Thread (sweep now) rest h in
     let second := Thread (sweep now) (Ret None) h in
     let listed := [Exch ListDecisions (inr [d0])] in
     let deleted := Exch (DeleteDecision d0) None in
     (* the first sweep is about to delete an expired record *)
     reachable s1 /\ sys_threads s1 = [first (Call (DeleteDecision d0) k) listed] /\
     store (sys_world s1) !! n = Some d0 /\ isExpired (sd_Labels d0) now = inr true /\
     (* the second one starts, deletes it and ends *)
     rtc step s1 s2 /\ store (sys_world s2) !! n = None /\ deleted ∈ h /\
     sys_threads s2 = [second; first (Call (DeleteDecision d0) k) listed] /\
     (* a reconcile makes a new record, for a whole window from now on *)
     rtc step s2 s3 /\ store (sys_world s3) !! n = Some d /\ ~ seen (sys_world s2) d /\
     sys_threads s3 = [Thread (Reconcile r req) (Ret None) h'; second;
                       first (Call (DeleteDecision d0) k) listed] /\
     sd_Labels d !! ExpiresAtLabel =
       Some (FormatInt (Time_Unix (Add now (retentionWindow r)))) /\
     isExpired (sd_Labels d) now = inr false /\
     (* the first sweep deletes it *)
     step s3 s4 /\ store (sys_world s4) !! n = None /\
     sys_threads s4 = [Thread (Reconcile r req) (Ret None) h'; second;
                       first (k None) (listed ++ [deleted])]).
Proof.
  split.
  - intros s Hs ths i now d0 k h d s1 Hr Hi Hd. split; [by eapply deletion_listed|].
    destruct (deletes_by_name s Hs ths i _ d0 k h d Hi Hd) as (w' & Hst & Hw').
    by eexists.
  - destruct overlap_reached as (H1 & H2 & H3 & Hr & H12 & H23).
    destruct first_sweep_next as (d0 & k & Hd0 & Hk & Hh & Hn & He).
    destruct recorded_anew as (d & Hd & Hnew & Hl & Hne).
    destruct (second_sweep_deleted d0 Hd0) as (Hend & Hdel & Hgone).
    assert (recorded_again.1.1 = Ret None) as Hrec by (apply ended_well_ret; by vm_compute).
    destruct (deletes_by_name recorded_again.2 H3 [second_reconcile; second_sweep; first_sweep] 2
      (sweep window_end) d0 k [Exch ListDecisions (inr [d0])] d) as (w4 & H34 & Hw4).
    { simpl. unfold first_sweep. by rewrite Hk, Hh. }
    { by rewrite Hn. }
    unfold second_reconcile, second_sweep, first_sweep in *. rewrite Hk, Hh, Hend, Hrec in *.
    exists reconciler, web_request, window_end, d0, d, k, swept_first.1.2, recorded_again.1.2.
    eexists _, _, _, _. rewrite Hn.
    split; [exact Hr|]. split; [reflexivity|]. split; [exact Hd0|]. split; [exact He|].
    split; [exact H12|]. split; [exact Hgone|]. split; [exact Hdel|]. split; [reflexivity|].
    split; [exact H23|]. split; [exact Hd|]. split; [exact Hnew|]. split; [reflexivity|].
    split; [exact Hl|]. split; [exact Hne|]. split; [exact H34|].
    cbn [sys_world]. rewrite Hw4, Hn. split; [apply lookup_delete_eq|reflexivity].
Qed.

Lemma overlapping_sweeps_delete_unexpired_witness :
  exists s1 s2 d, reachable s1 /\ step s1 s2 /\
    store (sys_world s1) !! "sdec-u-1"%string = Some d /\
    isExpired (sd_Labels d) window_end = inr false /\
    store (sys_world s2) !! "sdec-u-1"%string = None.
Proof.
  destruct overlap_reached as (H1 & H2 & H3 & Hr & H12 & H23).
  destruct first_sweep_next as (d0 & k & _ & Hk & _ & Hn & _).
  destruct recorded_anew as (d & Hd & _ & _ & He).
  destruct overlapping_sweeps_delete_unexpired as [Hgen _].
  destruct (Hgen recorded_again.2 H3 [second_reconcile; second_sweep; first_sweep] 2%nat
    window_end d0 k lister.1.2 d) as [_ (s2 & Hst & Hs2)].
  - eapply reachable_steps; [|exact H23]. by eapply reachable_steps.
  - unfold first_sweep. by rewrite Hk.
  - by rewrite Hn.
  - eexists _, s2, d. split; [|split; [exact Hst|]].
    + eapply reachable_steps; [|exact H23]. by eapply reachable_steps.
    + split; [exact Hd|]. split; [exact He|]. rewrite Hs2, Hn. apply lookup_delete_eq.
Defined.
