(* ===== verification/WireScenarios.v ===== *)
(** * Wire scenarios: an encoding of times and metadata, and the decisions of a run

    [ObjectMeta] with the tags of apimachinery and times as decimal seconds give a
    [MetaCodec]; the decisions that the reconciler writes for the pod of [Scenarios]
    are encoded, validated and decoded with it. *)

From S2P Require Import Prelude Strconv GoTime GoStrings Json Api Decision Effects.
From S2P Require Import VolumeContext Controller ReconcileProps System DeepCopy Wire.
From S2P Require Import RefServer Scenarios.

(** ** Metadata and times *)

Definition Meta_members (m : ObjectMeta) : members :=
  field OmitEmpty "name" (om_Name m) ++
  field OmitEmpty "uid" (om_UID m) ++
  field OmitEmpty "resourceVersion" (om_ResourceVersion m) ++
  field OmitEmpty "labels" (om_Labels m) ++ [].

Definition Meta_zero : ObjectMeta := mkObjectMeta "" "" "" ∅.

#[refine] Instance Wire_Meta : Wire ObjectMeta := {|
  to_json m := JObject (Meta_members m);
  of_json := of_members Meta_zero (fun ms =>
    name ← fetch "name" ms;
    uid ← fetch "uid" ms;
    resourceVersion ← fetch "resourceVersion" ms;
    labels ← fetch "labels" ms;
    Some (mkObjectMeta name uid resourceVersion labels));
  zero_value := Meta_zero;
  is_empty _ := false;
  is_zero m := bool_decide (m = Meta_zero);
  on_wire _ := True;
  persisted m := m;
|}.
Proof.
  all: [> done| |].
  - intros [n u v l] _. unfold of_members, Meta_members. by fetch_fields.
  - by intros m [?|?]; bool_simpl.
Defined.

Definition parse_seconds (s : string) : option Time :=
  match ParseInt s with inr n => Some (MkTime n 0) | inl _ => None end.

Lemma parse_seconds_format t :
  rfc3339 t -> parse_seconds (FormatInt (sec t)) = Some (MkTime (sec t) 0).
Proof.
  intros [Ht _]. unfold parse_seconds. by rewrite ParseInt_FormatInt by solve_int64.
Qed.

#[global, refine] Instance seconds_codec : MetaCodec := {|
  format_time t := FormatInt (sec t);
  parse_time := parse_seconds;
  is_date_time s := match parse_seconds s with Some _ => true | None => false end;
  meta_wire := Wire_Meta;
|}.
Proof.
  - apply parse_seconds_format.
  - intros t Ht. by rewrite parse_seconds_format.
  - intros m. by eexists.
  - done.
Defined.

(** ** The decisions of a run *)

Definition decision_type : TypeMeta :=
  mkTypeMeta "SchedulingDecision" "scheduling.purestorage.io/v1alpha1".

(** The decision of the pod after its reconcile. *)
Definition shop_after : cluster := run_cluster (Reconcile reconciler web_request) shop.
Definition shop_decision : SchedulingDecision :=
  default (newDecision "" (mkIdentity "" "" "" "") 0) (cl_store shop_after !! "sdec-u-1"%string).

Example shop_decision_wire :
  get_member "status" (Decision_members (decision_type, shop_decision)) <> None /\
  length (st_Transitions (sd_Status shop_decision)) = 1%nat.
Proof. by vm_compute. Qed.

Lemma wire_roundtrip_witness :
  of_json (to_json (decision_type, shop_decision)) = Some (decision_type, shop_decision).
Proof.
  destruct (wire_roundtrip (LV := string)) as [H _].
  rewrite (H decision_type shop_decision) by (apply (bool_decide_unpack _); by vm_compute).
  by vm_compute.
Defined.

(** A run of the reconciler reads dated objects; both its writes are accepted. *)
Definition shop_trace : list exchange := run_trace (Reconcile reconciler web_request) shop.

Definition writes_decision (c : call) : option SchedulingDecision :=
  match c with CreateDecision d | UpdateDecisionStatus d => Some d | _ => None end.

#[global] Instance stamped_dec t : Decision (stamped t).
Proof. unfold stamped. apply _. Defined.

(** [dated], computed. *)
Definition dated_b (x : exchange) : bool :=
  match x with
  | Exch c a => match c return answer c -> bool with
    | ListEvents _ _ => fun a => match a with
        | inr items => forallb (fun e => bool_decide (stamped (eventTimestamp e))) items
        | inl _ => true
        end
    | GetPod _ => fun a => match a with
        | inr pod => bool_decide (valid_time (pod_CreationTimestamp pod)) &&
            forallb (fun c => bool_decide (rfc3339 (pc_LastTransitionTime c))) (pod_Conditions pod)
        | inl _ => true
        end
    | GetDecision _ => fun a => match a with
        | inr d => accepted decision_type d
        | inl _ => true
        end
    | Now => fun now => bool_decide (stamped now)
    | _ => fun _ => true
    end a
  end.

Lemma dated_b_dated x : dated_b x = true -> dated decision_type x.
Proof.
  destruct x as [c a]. destruct c; simpl; try done.
  - intros Ha items e -> He. rewrite forallb_forall in Ha.
    by apply (bool_decide_eq_true_1 _), Ha, list_elem_of_In.
  - intros Ha pod ->. apply andb_true_iff in Ha as [Hc Ha]. bool_simpl. split; [done|].
    intros c Hcin _. rewrite forallb_forall in Ha.
    by apply (bool_decide_eq_true_1 _), Ha, list_elem_of_In.
  - intros Ha d ->. done.
  - by intros Ha%bool_decide_eq_true.
Qed.

Lemma shop_dated : Forall (dated decision_type) shop_trace.
Proof.
  assert (forallb dated_b shop_trace = true) as Hd by by vm_compute.
  rewrite forallb_forall in Hd. apply Forall_forall. intros x Hx.
  by apply dated_b_dated, Hd, list_elem_of_In.
Qed.

Lemma writes_accepted_witness :
  length (omap writes_decision (calls_of shop_trace)) = 2%nat /\
  forall d, CreateDecision d ∈ calls_of shop_trace \/
            UpdateDecisionStatus d ∈ calls_of shop_trace ->
    accepted decision_type d = true.
Proof.
  split; [by vm_compute|]. intros d Hd.
  apply (writes_accepted reconciler web_request decision_type shop_trace None d);
    [by apply run_runs; vm_compute|apply shop_dated|exact Hd].
Defined.

(** An update without a timestamp would not be. *)
Example undated_rejected :
  accepted decision_type
    (set_Status (applyTransition Status_zero (newTransition SchedulingOutcomeScheduled Time_zero))
       shop_decision) = false.
Proof. by vm_compute. Qed.
