(* ===== verification/ReliableScenarios.v ===== *)
(** * Reliable scenarios: the reference server, undisturbed, and what it converges to

    [ref_server], restricted to its well-formed states, is a [ReliableServer]; the
    theorems of [Converge] are applied to the clusters of [Scenarios]. *)

From S2P Require Import Prelude GoTime GoStrings Api Decision Effects Controller.
From S2P Require Import ReconcileProps Sweep Http Extender System RefServer.
From S2P Require Import Converge Scenarios.

(** ** The reference server is reliable *)

Lemma ref_server_ok c s : cluster_ok s -> cluster_ok (ref_server c s).2.
Proof.
  intros Hs. destruct (ref_server c s) as [[a|] s'] eqn:Hc; simpl.
  - eapply ref_step_ok; [|done]. by eapply ref_server_step.
  - destruct c; simpl in Hc; unfold answered in Hc; by simplify_eq.
Qed.

Lemma exec_ok {A} (p : prog A) s : cluster_ok s -> cluster_ok (exec ref_server p s).2.
Proof.
  revert s. induction p as [a|c k IH]; intros s Hs; simpl; [done|].
  pose proof (ref_server_ok c s Hs) as Hok. destruct (ref_server c s) as [[r|] s']; [|done].
  specialize (IH r s' Hok). by destruct (exec ref_server (k r) s') as [[a tr] s''].
Qed.

(** The server on well-formed clusters. *)
Definition sound_server : server (sig cluster_ok) := fun c w =>
  ((ref_server c (proj1_sig w)).1,
   exist cluster_ok (ref_server c (proj1_sig w)).2 (ref_server_ok c _ (proj2_sig w))).

Lemma sound_server_run c w a s' :
  ref_server c (proj1_sig w) = (Some a, s') ->
  exists w', sound_server c w = (Some a, w') /\ proj1_sig w' = s'.
Proof.
  intros Hs. eexists. unfold sound_server. rewrite Hs at 1. split; [reflexivity|].
  simpl. by rewrite Hs.
Qed.

Definition find_pod (s : cluster) (key : NamespacedName) : option Pod :=
  snd <$> list_find (fun p => bool_decide
    (mkNamespacedName (pod_Namespace p) (pod_Name p) = key) = true) (cl_pods s).

Definition sound_view : ClusterView (sig cluster_ok) := {|
  decisions w := cl_store (proj1_sig w);
  pod_at w key := find_pod (proj1_sig w) key;
  events_at w ns k := filter (fun e => ev_Namespace e = ns /\
    k ∈ indexEventInvolvedObject (EventObject e)) (cl_events (proj1_sig w));
|}.

#[global, refine] Instance sound_reliable : ReliableServer sound_server := {|
  reliable_view := sound_view;
  stored_time := whole_second;
|}.
Proof.
  all: try (intros; eexists _, _; split; [reflexivity|by repeat split]).
  - intros [s Hs] n d Hd. by apply (ok_store s Hs).
  - intros ns k w. eexists. split; [reflexivity|by repeat split].
  - intros key [s Hs]. eexists _, _. split; [reflexivity|]. split; [by repeat split|].
    unfold pod_at; simpl. unfold find_pod, find_by, found_or_missing.
    destruct (list_find _ _) as [[i p]|]; simpl; [done|]. by eexists.
  - intros n [s Hs]. eexists _, _. split; [reflexivity|]. split; [by repeat split|].
    unfold decisions; simpl. unfold found_or_missing.
    destruct (cl_store s !! n); [done|]. by eexists.
  - intros f l e w. eexists. split; [reflexivity|by repeat split].
  - intros d [s Hs] Hd. unfold decisions in Hd; simpl in Hd.
    destruct (sound_server_run (CreateDecision d) (exist _ s Hs) None
      (put (with_version d (pretty.pretty (cl_next s)) (cl_next s) Status_zero) s))
      as (w' & Hrun & Hw'); [simpl; unfold ref_create; by rewrite Hd|].
    eexists _, w'. split; [done|]. unfold same_inputs, decisions, pod_at, events_at; simpl.
    rewrite Hw'. split; [by split|]. split; [|done]. by split_and!.
  - intros d cur [s Hs] Hd Hrv. unfold decisions in Hd; simpl in Hd.
    destruct (sound_server_run (UpdateDecisionStatus d) (exist _ s Hs) None
      (put (with_version cur (sd_UID cur) (cl_next s)
              (persist_status whole_second (sd_Status d))) s))
      as (w' & Hrun & Hw').
    { simpl. unfold ref_update. rewrite Hd, Hrv. by rewrite bool_decide_eq_true_2. }
    exists (with_version cur (sd_UID cur) (cl_next s)
      (persist_status whole_second (sd_Status d))), w'.
    split; [done|]. unfold same_inputs, decisions, pod_at, events_at; simpl.
    rewrite Hw'. split; [by split|]. split; [by unfold updated_as|]. simpl.
    by destruct (ok_store _ Hs _ _ Hd) as [_ <-].
  - intros d cur [s Hs] Hd. unfold decisions in Hd; simpl in Hd.
    destruct (sound_server_run (DeleteDecision d) (exist _ s Hs) None
      (set_store (delete (sd_Name d) (cl_store s)) s))
      as (w' & Hrun & Hw'); [simpl; unfold ref_delete; by rewrite Hd|].
    eexists w'. split; [done|]. unfold same_inputs, decisions, pod_at, events_at; simpl.
    by rewrite Hw'.
  - intros e [s Hs].
    destruct (sound_server_run (CreateEvent e) (exist _ s Hs) None (add_event e s))
      as (w' & Hrun & Hw'); [done|].
    exists e, w'. split; [done|]. unfold decisions, pod_at, events_at; simpl.
    rewrite Hw'. split_and!; [done..|]. intros ns k. simpl.
    rewrite filter_cons. by repeat case_decide; repeat case_bool_decide.
Defined.

(** ** Converging on the clusters of [Scenarios] *)

Definition shop_world : sig cluster_ok := exist _ shop (fresh_ok _ shop_fresh).

(** The pod's Events imply a transition that leaves nothing to the clock. *)
Lemma shop_implied now now' :
  implied shop_world web_request now = implied shop_world web_request now'.
Proof. by vm_compute. Qed.

Example shop_implied_outcome now :
  (fun it => (id_UID it.1, tr_Outcome it.2)) <$> implied shop_world web_request now =
  Some ("u-1"%string, SchedulingOutcomeScheduled).
Proof. by vm_compute. Qed.

Lemma reconcile_converges_witness :
  exists tr w', exec sound_server (Reconcile reconciler web_request) shop_world =
      (Some None, tr, w') /\
    reconciled (srv := sound_server) reconciler web_request tr shop_world (decisions w').
Proof.
  destruct (reconcile_converges (srv := sound_server) reconciler web_request shop_world)
    as (tr & w' & Hrun & _ & Hr).
  by exists tr, w'.
Defined.

Lemma reconcile_settles_witness :
  exists tr1 w1 tr2 w2,
    exec sound_server (Reconcile reconciler web_request) shop_world = (Some None, tr1, w1) /\
    exec sound_server (Reconcile reconciler web_request) w1 = (Some None, tr2, w2) /\
    decisions w2 = decisions w1.
Proof.
  apply (reconcile_settles (srv := sound_server)).
  - apply shop_implied.
  - intros now ident t Hi. vm_compute in Hi. injection Hi as <- <-. by vm_compute.
Defined.

(** The shop when the window of its record has ended. *)
Lemma expired_shop_ok : cluster_ok expired_shop.
Proof.
  assert (cluster_ok shop') as [H1 H2 H3] by apply exec_ok, fresh_ok, shop_fresh. by split.
Qed.

Definition expired_world : sig cluster_ok := exist _ expired_shop expired_shop_ok.

Lemma exec_first {W A} (srv : server W) c (k : answer c -> prog A) w a tr w' r w1 :
  exec srv (Call c k) w = (a, tr, w') -> srv c w = (Some r, w1) -> head tr = Some (Exch c r).
Proof.
  intros Hx Hs. simpl in Hx. rewrite Hs in Hx.
  destruct (exec srv (k r) w1) as [[o tr1] w2]. by injection Hx as _ <- _.
Qed.

(** The sweep reads the clock first. *)
Lemma main_reads_clock w a tr w' :
  exec sound_server Sweep.main w = (a, tr, w') ->
  head tr = Some (Exch Now (cl_clock (proj1_sig w))).
Proof. intros Hx. by eapply (exec_first sound_server Now _ w _ _ _ _ _ Hx). Qed.

Lemma sweep_converges_witness :
  exists d now tr w', exec sound_server Sweep.main expired_world = (Some tt, tr, w') /\
    [Exch Now now] `prefix_of` tr /\
    decisions expired_world !! "sdec-u-1"%string = Some d /\
    decisions w' = ∅.
Proof.
  destruct (cl_store expired_shop !! "sdec-u-1"%string) as [d|] eqn:Hst; [|by vm_compute in Hst].
  destruct (sweep_converges (srv := sound_server) expired_world)
    as (now & tr & w' & Hrun & [tr' Hp] & _ & Hd).
  exists d, now, tr, w'. split_and!; [done|by exists tr'|exact Hst|].
  apply main_reads_clock in Hrun. rewrite Hp in Hrun. simpl in Hrun.
  apply (f_equal (fun x => match x with Some (Exch c a) =>
    match c return answer c -> option Time with Now => Some | _ => fun _ => None end a
    | None => None end)) in Hrun.
  injection Hrun as ->. rewrite Hd. apply map_eq. intros n. by vm_compute.
Defined.

(** The filter request of [Scenarios]. *)
Definition filter_args : ExtenderArgs string :=
  mkExtenderArgs (Some web) None (Some ["node-a"; "node-b"])%string.

(** The shop before any CandidateNodes Event. *)
Definition quiet_shop : cluster :=
  mkCluster ∅ [] 0 [web] [scheduled_event] [claim] [px_fast] (at_ 5).

Lemma quiet_shop_fresh : fresh quiet_shop.
Proof. done. Qed.

Definition quiet_world : sig cluster_ok := exist _ quiet_shop (fresh_ok _ quiet_shop_fresh).

(** A bound pod that no Event reports as preempted is Scheduled. *)
Lemma web_scheduled now e events :
  ev_Reason e = eventReasonCandidateNodes -> events ≡ₚ [e; scheduled_event] ->
  (fun it => (id_UID it.1, tr_Outcome it.2)) <$>
    deriveTransition now web true (relevant_events events) =
  Some ("u-1"%string, SchedulingOutcomeScheduled).
Proof.
  intros He Hp. symmetry in Hp.
  assert (latestEventWithReason (relevant_events events) eventReasonPreempted = None) as Hn.
  { apply no_event_iff, Forall_forall. intros e' [_ Hin]%list_elem_of_filter.
    rewrite <- Hp in Hin. apply elem_of_cons in Hin as [->|Hin%list_elem_of_singleton].
    - intros Hx. rewrite He in Hx. discriminate Hx.
    - by subst. }
  run_pure. rewrite Hn.
  by destruct (latestEventWithReason (relevant_events events) eventReasonScheduled).
Qed.

Lemma implied_web (w : sig cluster_ok) now e :
  pod_at w web_request = Some web -> ev_Reason e = eventReasonCandidateNodes ->
  events_at w "shop" "shop/web-0" ≡ₚ [e; scheduled_event] ->
  (fun it => (id_UID it.1, tr_Outcome it.2)) <$> implied w web_request now =
  Some ("u-1"%string, SchedulingOutcomeScheduled).
Proof. intros Hpod He Hev. unfold implied. rewrite Hpod. by eapply web_scheduled. Qed.

(** The pod's record is made with the nodes of the request. *)
Lemma extender_to_record_witness :
  exists tr1 w1 tr2 w2,
    exec sound_server (filterHandler (fun n => n) decode_args encode_result "request")
      quiet_world = (Some (passthrough_response encode_result filter_args), tr1, w1) /\
    exec sound_server (Reconcile reconciler web_request) w1 = (Some None, tr2, w2) /\
    exists d l, decisions w2 !! "sdec-u-1"%string = Some d /\
      last (st_Transitions (sd_Status d)) = Some l /\
      tr_Outcome l = SchedulingOutcomeScheduled /\
      cn_Name <$> tr_CandidateNodes l = ["node-a"; "node-b"]%string.
Proof.
  destruct (extender_to_record (srv := sound_server) (fun n => n) decode_args encode_result
    reconciler "request" filter_args web quiet_world)
    as (tr1 & w1 & e & Hrun & Hst & Hpods & Hreason & Hev & Hrec);
    [reflexivity|reflexivity|discriminate|repeat constructor|].
  destruct Hrec as (tr2 & w2 & res & Hrun2 & Hi & Hr).
  { intros e0 He0%list_elem_of_singleton. by subst e0. }
  exists tr1, w1, tr2, w2. split_and!; [done..|].
  apply implies_at in Hi as [now Hi].
  pose proof (implied_web w1 now e (Hpods web_request) Hreason Hev) as Hw.
  change (implied w1 web_request now = res) in Hi. rewrite Hi in Hw. destruct res as [[ident t]|]; [|done]. injection Hw as Hid Ht.
  destruct Hr as [_ Hr]. destruct Hr as [_ [(d & l & Hd & _)|(d & l & Hd & Hl & Ho & Hc)]].
  - by rewrite Ht.
  - by rewrite Hid in Hd.
  - rewrite Hid in Hd. exists d, l. split_and!; [exact Hd|exact Hl|congruence|].
    by rewrite Hc.
Defined.

(** The Scheduled Event is reconciled before the extender's Event is there. *)
Definition early_shop : cluster :=
  run_cluster filter_web (run_cluster (Reconcile reconciler web_request) quiet_shop).

Definition recorded_candidates (s : cluster) : option (list (list string)) :=
  (fun d => (fun t => cn_Name <$> tr_CandidateNodes t) <$> st_Transitions (sd_Status d)) <$>
    cl_store s !! "sdec-u-1"%string.

(** The Event is listed with the pod's, and its nodes never reach the record. *)
Example early_shop_candidates :
  cn_Name <$> candidateNodesFrom (relevant_events (cl_events early_shop)) =
    ["node-a"; "node-b"]%string /\
  recorded_candidates early_shop = Some [[]] /\
  recorded_candidates (run_cluster (Reconcile reconciler web_request) early_shop) = Some [[]].
Proof. by vm_compute. Qed.

Lemma early_shop_ok : cluster_ok early_shop.
Proof. repeat apply exec_ok. apply fresh_ok, quiet_shop_fresh. Qed.

Definition early_world : sig cluster_ok := exist _ early_shop early_shop_ok.

Lemma late_candidates_dropped_witness :
  exists tr w', exec sound_server (Reconcile reconciler web_request) early_world =
      (Some None, tr, w') /\
    decisions w' = decisions early_world /\
    candidates_missing (srv := sound_server) w' web_request.
Proof.
  apply (late_candidates_dropped (srv := sound_server)). intros now.
  eexists _, _, _, _. split; [by vm_compute|].
  split; [by vm_compute|]. split; [by vm_compute|]. split; [by vm_compute|].
  vm_compute. discriminate.
Defined.
