(* ===== verification/ProcessScenarios.v ===== *)
(** * Process scenarios: the binaries with a concrete type registry

    A scheme that is the list of its kinds, and the theorems of [Extender], [Scheme]
    and [Process] on runs of the programs. *)

From S2P Require Import Prelude GoTime Api Effects Controller Sweep Http Extender Dashboard.
From S2P Require Import Rbac Scheme Process Manager RefServer Scenarios ReliableScenarios.

(** ** A type registry *)

#[global, refine] Instance list_scheme : SchemeLib := {|
  Scheme := list GroupVersionKind;
  NewScheme := [];
  knows s k := k ∈ s;
  AddKnownTypes s gv kinds := s ++ map (pair gv) kinds;
  AddToGroupVersion s gv := s;
  clientgo_AddToScheme s := inr (s ++ clientgo_kinds);
  builder_AddToScheme := apply_all;
|}.
Proof.
  - done.
  - intros s gv kinds [gv' k]. rewrite elem_of_app, list_elem_of_In, list_elem_of_In.
    rewrite in_map_iff. setoid_rewrite <- list_elem_of_In. simpl. naive_solver.
  - done.
  - intros s s' k [= <-]. by rewrite elem_of_app.
Defined.

(** The group's kinds are registered. *)
Example api_scheme_kinds :
  match api_scheme with
  | inr s => map snd s = ["Pod"; "Event"; "EventList"; "PersistentVolumeClaim"; "StorageClass";
                          "SchedulingDecision"; "SchedulingDecisionList"]
  | inl _ => False
  end%string.
Proof. by vm_compute. Qed.

(** ** Requests to the extender *)

Definition filter_request : Request := mkRequest "/filter" "request".

Definition serve_extender (r : Request) : prog Response :=
  extender_serve (fun n : string => n) decode_args encode_result r.

Definition filter_trace : list exchange := run_trace (serve_extender filter_request) shop.

Lemma filter_runs :
  runs (serve_extender filter_request) filter_trace
    (passthrough_response encode_result filter_args).
Proof. apply run_runs. by vm_compute. Qed.

Lemma extender_serve_refines_witness :
  extender_serves (fun n => n) decode_args encode_result filter_request filter_trace
    (passthrough_response encode_result filter_args) /\
  length (writes_of filter_trace) = 1%nat.
Proof.
  split; [|by vm_compute]. apply (extender_serve_refines (fun n => n)). apply filter_runs.
Defined.

Lemma schemes_cover_calls_witness :
  Forall (covers (clientgo_kinds : Scheme)) (calls_of filter_trace) /\
  length (calls_of filter_trace) = 2%nat.
Proof.
  split; [|by vm_compute].
  destruct (schemes_cover_calls (SL := list_scheme) (fun n : string => n) decode_args encode_result encode_count
    "<html>") as [H _].
  eapply H; [reflexivity|apply filter_runs].
Defined.


(** A configuration and a client that can be had, and a server that is closed. *)
Lemma servers_return_witness :
  exists tr, runs (extender_process (Config := unit) (Client := unit) (Some tt)
    (fun _ _ => inr tt) (fun n : string => n) decode_args encode_result
    (fun _ => Some ErrServerClosed) default_extender_addr) tr tt.
Proof.
  destruct (servers_return (SL := list_scheme) (Config := unit) (Client := unit) (Some tt)
    (fun _ _ => inr tt) (fun n : string => n) decode_args encode_result encode_count
    (fun _ => Some ErrServerClosed) (M := unit) (fun _ _ _ => inr tt)
    (fun _ => inr "<html>"%string) (fun _ => None) default_extender_addr) as [H _].
  apply H. split; [|done]. by eexists _, tt, tt.
Defined.

(** ** The manager's start-up *)

Definition start_with (config : option unit) (answers : list stage -> stage -> option error)
    : list stage * ending :=
  manager_process (SL := list_scheme) config answers default_flags.

(** With the default flags every stage is asked for; a failing ready check ends the
    process before the manager runs, and nothing is asked for without a configuration. *)
Example starts :
  length (start_with (Some tt) (fun _ _ => None)).1 = 6%nat /\
  (start_with (Some tt) (fun _ _ => None)).2 = Returned /\
  start_with None (fun _ _ => None) = ([], NoConfiguration).
Proof. by vm_compute. Qed.

Example ready_check_fails err :
  let r := start_with (Some tt)
    (fun _ s => match s with AddReadyzCheck _ => Some err | _ => None end) in
  length r.1 = 5%nat /\ r.2 = Exited "Failed to set up ready check" err.
Proof. by vm_compute. Qed.
