(* ===== verification/SyncScenarios.v ===== *)
(** * Sync scenarios: the first pass over a cluster with two pods

    [sync_converges] applied to the reference server with both pods of [Scenarios]. *)

From S2P Require Import Prelude GoTime GoStrings Api Decision Effects Controller.
From S2P Require Import ReconcileProps System RefServer Loop Converge Sync.
From S2P Require Import Scenarios LoopScenarios ReliableScenarios.

Definition street : cluster :=
  mkCluster ∅ [] 0 [web; lane_pod] (web_events ++ [lane_event]) [claim] [px_fast] (at_ 5).

Lemma street_fresh : fresh street.
Proof. done. Qed.

Definition street_world : sig cluster_ok := exist _ street (fresh_ok _ street_fresh).

Definition street_owner (uid : UID) : NamespacedName :=
  if uid =?s "u-2" then lane_request else shop_owner uid.

Lemma street_owned : cluster_owned (srv := sound_server) street_owner street_world.
Proof.
  apply view_owned.
  - intros key pod Hp. unfold pod_at in Hp; simpl in Hp. unfold find_pod in Hp.
    apply fmap_Some in Hp as ([i p] & Hf & ->). apply list_find_Some in Hf as (Hi & Hk & _).
    bool_simpl. subst key. simpl in *. unfold pod_ok.
    apply list_elem_of_lookup_2 in Hi. apply elem_of_cons in Hi as [->|Hi]; [done|].
    by apply list_elem_of_singleton in Hi as ->.
  - intros ns k e He. apply list_elem_of_filter in He as [[Hns Hk] He]. split; [|done].
    unfold event_ok. repeat (apply elem_of_cons in He as [->|He]; [done|]).
    by apply not_elem_of_nil in He.
Qed.

Definition outcome_at (s : gmap string SchedulingDecision) (n : string)
    : option (list (SchedulingOutcome * string)) :=
  (fun d => (fun t => (tr_Outcome t, tr_ChosenNode t)) <$> st_Transitions (sd_Status d)) <$> s !! n.

(** A pod without a record gets one with its implied outcome alone. *)
Lemma street_outcome req (s' : gmap string SchedulingDecision) uid outcome node :
  (forall now, (fun it => (id_UID it.1, tr_Outcome it.2, tr_ChosenNode it.2)) <$>
     implied street_world req now = Some (uid, outcome, node)) ->
  brought_up (srv := sound_server) street_owner street_world req (decisions street_world) s' ->
  outcome_at s' (decisionName uid) = Some [(outcome, node)].
Proof.
  intros Hi [now Hb]. specialize (Hi now).
  destruct (implied street_world req now) as [[ident t]|]; [|done].
  simpl in Hi. injection Hi as Huid Ho Hn. rewrite Huid in Hb. destruct Hb as [Hr _].
  change (decisions street_world !! _) with (@None SchedulingDecision) in Hr.
  destruct Hr as (d' & v & Hs & _ & _ & Hst).
  unfold outcome_at. rewrite Hs. simpl. rewrite Hst. simpl. by rewrite Ho, Hn.
Qed.

Lemma sync_converges_witness :
  exists tr w', exec sound_server (reconcile_all reconciler [web_request; lane_request])
      street_world = (Some [None; None], tr, w') /\
    outcome_at (decisions w') "sdec-u-1" = Some [(SchedulingOutcomeScheduled, "node-a"%string)] /\
    outcome_at (decisions w') "sdec-u-2" = Some [(SchedulingOutcomeScheduled, "node-b"%string)].
Proof.
  destruct (sync_converges (srv := sound_server) street_owner reconciler
    [web_request; lane_request] street_world street_owned) as (tr & w' & Hrun & _ & Hb & _).
  { repeat constructor; [by intros ?%list_elem_of_singleton|by intros ?%not_elem_of_nil]. }
  exists tr, w'. split; [exact Hrun|]. split.
  - apply (street_outcome web_request); [intros now; by vm_compute|]. apply Hb. by left.
  - apply (street_outcome lane_request); [intros now; by vm_compute|]. apply Hb. by right; left.
Defined.
